(** * inphest: host/symbiont state engine, shallow embedding and properties

    The development follows [inphest/model.py].  Python objects that are
    shared and mutated in place ([Area], [HostLineage], [SymbiontLineage])
    live in one store, the [World]; sets of such objects are sets of their
    identities.  A method that can raise is a computation in a state and
    exception monad whose state survives the exception, as the Python heap
    does. *)

From Stdlib Require Import ZArith QArith String Ascii List Sorted.
From stdpp Require Import gmap strings list fin_maps.

Set Warnings "-register-all,-clear-no-such-hyp".
Local Open Scope Z_scope.

(** ** Python values and exceptions *)

(** Values of a model definition: what [json.load] or a dictionary literal
    of the documented shape yields. A dictionary keeps its insertion order, as
    [collections.OrderedDict] and the Python 3.7 [dict] do. *)
Inductive value :=
| VNone
| VBool (b : bool)
| VNum (q : Q)
| VStr (s : string)
| VDict (items : list (string * value)).

Inductive exn :=
| AssertionError
| KeyError
| IndexError
| NameError
| AttributeError
| ValueError
| TypeError (msg : string) (unsupported : list (string * value))
| NullDistributionException (lineage : nat)
| TotalExtinctionException.

Inductive result (A : Type) :=
| Ok (a : A)
| Raise (e : exn).
Arguments Ok {A} a.
Arguments Raise {A} e.

#[global] Instance result_ret : MRet result := λ A a, Ok a.
#[global] Instance result_bind : MBind result := λ A B k r,
  match r with
  | Ok a => k a
  | Raise e => Raise e
  end.

Definition assert (b : bool) : result unit :=
  if b then Ok tt else Raise AssertionError.

(** Python's [l[i]] on a list: negative indices count from the end. *)
Definition py_index {A} (l : list A) (i : Z) : result A :=
  let n := Z.of_nat (length l) in
  let j := if i <? 0 then n + i else i in
  if (j <? 0) || (n <=? j) then Raise IndexError
  else match l !! Z.to_nat j with
       | Some x => Ok x
       | None => Raise IndexError
       end.

(** ** HostHistory *)

Module HostLineageDefinition.
Record t := mk {
    lineage_id : Z;
    lineage_parent_id : option Z;
    leafset_bitstring : string;
    split_bitstring : string;
    lineage_start_time : Q;
    lineage_end_time : Q;
    lineage_start_distribution_bitstring : string;
    lineage_end_distribution_bitstring : string;
    is_seed_node : bool;
    is_leaf : bool;
    is_extant_leaf : bool;
  }.
End HostLineageDefinition.

Module HostEvent.
Record t := mk {
    event_time : Q;
    weight : Q;
    lineage_id : Z;
    event_type : string;
    event_subtype : string;
    area_idx : option Z;
    child0_lineage_id : option Z;
    child1_lineage_id : option Z;
  }.
End HostEvent.

Module HostHistory.
Import HostLineageDefinition.

Record t := mk {
    events : list HostEvent.t;
    lineages : list (Z * HostLineageDefinition.t);
  }.

(** [self.lineages[lineage_id]] *)
Fixpoint lineages_get (ls : list (Z * HostLineageDefinition.t)) (k : Z)
    : result HostLineageDefinition.t :=
    match ls with
    | [] => Raise KeyError
    | (k', d) :: rest => if Z.eqb k k' then Ok d else lineages_get rest k
    end.

(** [lineage_events[k].append(e)] on a [defaultdict(list)] *)
Fixpoint append_event (le : list (Z * list HostEvent.t)) (k : Z) (e : HostEvent.t)
    : list (Z * list HostEvent.t) :=
    match le with
    | [] => [(k, [e])]
    | (k', es) :: rest =>
        if Z.eqb k k' then (k', es ++ [e]) :: rest
        else (k', es) :: append_event rest k e
    end.

Definition group_events (evs : list HostEvent.t) : list (Z * list HostEvent.t) :=
    fold_left (λ le e, append_event le (HostEvent.lineage_id e) e) evs [].

Fixpoint events_get (le : list (Z * list HostEvent.t)) (k : Z) : list HostEvent.t :=
    match le with
    | [] => []
    | (k', es) :: rest => if Z.eqb k k' then es else events_get rest k
    end.

(** [list.sort(key=lambda x: x.event_time)]: a stable sort. *)
Fixpoint insert_by_time (e : HostEvent.t) (l : list HostEvent.t) : list HostEvent.t :=
    match l with
    | [] => [e]
    | y :: l' =>
        if Qle_bool (HostEvent.event_time e) (HostEvent.event_time y)
        then e :: y :: l'
        else y :: insert_by_time e l'
    end.

Definition sort_by_time (l : list HostEvent.t) : list HostEvent.t :=
    foldr insert_by_time [] l.

Fixpoint sort_at (le : list (Z * list HostEvent.t)) (k : Z)
    : list (Z * list HostEvent.t) :=
    match le with
    | [] => []
    | (k', es) :: rest =>
        if Z.eqb k k' then (k', sort_by_time es) :: rest
        else (k', es) :: sort_at rest k
    end.

Definition bitlist_index (bits : list ascii) (idx : option Z) : result ascii :=
    match idx with
    | None => Raise (TypeError "list indices must be integers" [])
    | Some i => py_index bits i
    end.

Section Validate.
(** [utility.is_in_range(x, a, b)]: the [utility] module is not part of
        the sources at hand, so the test is a parameter of the replay. *)
Variable is_in_range : Q → Q → Q → bool.

(** One pass of the body of [for event in lineage_events[lineage_id]].
        The two statements that follow the gain and loss assertions are
        comparisons ([==]), so the bit list comes out as it went in. *)
Definition replay_event (defn : HostLineageDefinition.t) (bits : list ascii)
        (event : HostEvent.t) : result (list ascii) :=
      (assert (is_in_range (HostEvent.event_time event)
                 (lineage_start_time defn) (lineage_end_time defn));;
       if String.eqb (HostEvent.event_type event) "anagenesis"
          && String.eqb (HostEvent.event_subtype event) "area_gain" then
         c ← bitlist_index bits (HostEvent.area_idx event);
         assert (Ascii.eqb c "0");;
         _ ← bitlist_index bits (HostEvent.area_idx event);
         Ok bits
       else if String.eqb (HostEvent.event_type event) "anagenesis"
          && String.eqb (HostEvent.event_subtype event) "area_loss" then
         c ← bitlist_index bits (HostEvent.area_idx event);
         assert (Ascii.eqb c "1");;
         _ ← bitlist_index bits (HostEvent.area_idx event);
         Ok bits
       else if String.eqb (HostEvent.event_type event) "cladogenesis" then
         assert (String.eqb (string_of_list_ascii bits)
                   (lineage_start_distribution_bitstring defn));;
         Ok bits
       else Ok bits).

Fixpoint replay_events (defn : HostLineageDefinition.t) (bits : list ascii)
        (evs : list HostEvent.t) : result (list ascii) :=
      match evs with
      | [] => Ok bits
      | e :: rest => (bits' ← replay_event defn bits e; replay_events defn bits' rest)
      end.

(** The loop [for lineage_id in lineage_events].  [event] is the Python
        variable of that name: it is bound by the grouping loop and then by
        the inner replay loop, and the sort is applied to
        [lineage_events[event.lineage_id]].  The result lists, per lineage,
        the bit list its replay ended with. *)
Fixpoint validate_loop (h : t) (keys : list Z) (le : list (Z * list HostEvent.t))
        (event : HostEvent.t) : result (list (Z * string)) :=
      match keys with
      | [] => Ok []
      | lineage_id :: keys' =>
          (defn ← lineages_get (lineages h) lineage_id;
           let bits := list_ascii_of_string (lineage_start_distribution_bitstring defn) in
           let le' := sort_at le (HostEvent.lineage_id event) in
           let evs := events_get le' lineage_id in
           bits' ← replay_events defn bits evs;
           done ← validate_loop h keys' le' (List.last evs event);
           Ok ((lineage_id, string_of_list_ascii bits') :: done))
      end.

Definition validate_replay (h : t) : result (list (Z * string)) :=
      match events h with
      | [] => Ok []
      | e0 :: _ =>
          let le := group_events (events h) in
          validate_loop h (map fst le) le (List.last (events h) e0)
      end.

Definition validate (h : t) : result unit :=
      (_ ← validate_replay h; Ok tt).
End Validate.
End HostHistory.

(** [is_in_range] as the specification words it: the event time lies within
    [start_time, end_time]. *)
Definition is_in_range_closed (x a b : Q) : bool := Qle_bool a x && Qle_bool x b.

Module HostHistoryExamples.
Import HostHistory.

Definition defn_010 : HostLineageDefinition.t :=
    HostLineageDefinition.mk 1 None "1" "1" (0#1) (10#1) "010" "100" true true true.

Definition gain (t : Q) (i : Z) : HostEvent.t :=
    HostEvent.mk t (1#1) 1 "anagenesis" "area_gain" (Some i) None None.
Definition loss (t : Q) (i : Z) : HostEvent.t :=
    HostEvent.mk t (1#1) 1 "anagenesis" "area_loss" (Some i) None None.

Definition gain0_loss1 : HostHistory.t :=
    HostHistory.mk [gain (1#1) 0; loss (2#1) 1] [(1, defn_010)].
Definition gain0_gain0 : HostHistory.t :=
    HostHistory.mk [gain (1#1) 0; gain (2#1) 0] [(1, defn_010)].
Definition gain1 : HostHistory.t :=
    HostHistory.mk [gain (1#1) 1] [(1, defn_010)].
Definition loss0 : HostHistory.t :=
    HostHistory.mk [loss (1#1) 0] [(1, defn_010)].
End HostHistoryExamples.

(** C3 (evaluation of the code): with start distribution "010", a gain of
    area 0 followed by a loss of area 1 validates, but the bit list the
    replay ends with is still "010"; a second gain of area 0 validates too,
    because the first one was never recorded.  A gain of area 1 and a loss
    of area 0 are rejected against the start distribution. *)
Theorem C3_validate_running_distribution_not_updated :
  HostHistory.validate_replay is_in_range_closed HostHistoryExamples.gain0_loss1
    = Ok [(1, "010")]
  ∧ HostHistory.validate is_in_range_closed HostHistoryExamples.gain0_gain0 = Ok tt
  ∧ HostHistory.validate is_in_range_closed HostHistoryExamples.gain1 = Raise AssertionError
  ∧ HostHistory.validate is_in_range_closed HostHistoryExamples.loss0 = Raise AssertionError.
Proof. repeat split; vm_compute; reflexivity. Qed.

(** ** The store: areas, host lineages, symbiont lineages *)

Inductive Extancy := pre | current | post.

#[global] Instance Extancy_eq_dec : EqDecision Extancy.
Proof. solve_decision. Defined.

(** An [Area] is identified by its position in [host_system.areas], a
    [HostLineage] by its lineage id (the key of [host_history.lineages] it
    was built from), a [SymbiontLineage] by the address it was allocated at. *)
Module Area.
Record t := mk {
    area_idx : Z;
    host_lineages : gset Z;
    symbiont_lineages : gset nat;
  }.
End Area.

Module HostLineage.
Record t := mk {
    lineage_id : Z;
    start_time : Q;
    end_time : Q;
    start_distribution_bitstring : string;
    end_distribution_bitstring : string;
    _current_areas : gset nat;
    extancy : Extancy;
    debug_mode : bool;
    _current_distribution_check_bitlist : option (list ascii);
    is_post_area_gain : option bool;
  }.
End HostLineage.

Module SymbiontLineage.
Record t := mk {
    index : nat;
    is_extant : bool;
    _host_area_distribution : gmap Z (gmap nat Z);
    _infected_hosts : gset Z;
    _infected_areas : gset nat;
  }.
End SymbiontLineage.

Record World := mkWorld {
  areas : list Area.t;
  host_lineages : gmap Z HostLineage.t;
  symbiont_lineages : gmap nat SymbiontLineage.t;
}.

(** Computations on the store.  The store a computation leaves behind is
    returned with an exception as well. *)
Definition M (A : Type) : Type := World → result A * World.

#[global] Instance M_ret : MRet M := λ A a w, (Ok a, w).
#[global] Instance M_bind : MBind M := λ A B k m w,
  match m w with
  | (Ok a, w') => k a w'
  | (Raise e, w') => (Raise e, w')
  end.

Definition raise {A} (e : exn) : M A := λ w, (Raise e, w).
Definition get_world : M World := λ w, (Ok w, w).
Definition put_world (w : World) : M unit := λ _, (Ok tt, w).
Definition lift {A} (r : result A) : M A := λ w, (r, w).
Definition massert (b : bool) : M unit := lift (assert b).

Fixpoint for_each {A} (l : list A) (body : A → M unit) : M unit :=
  match l with
  | [] => mret tt
  | x :: l' => body x;; for_each l' body
  end.

(** Reading and writing the objects of the store.  An identity that names no
    object of the store has no counterpart in a Python call; such a read
    stops the computation with [NameError]. *)
Definition get_area (a : nat) : M Area.t := λ w,
  match areas w !! a with
  | Some ar => (Ok ar, w)
  | None => (Raise NameError, w)
  end.

Definition set_area (a : nat) (ar : Area.t) : M unit := λ w,
  (Ok tt, mkWorld (<[a := ar]> (areas w)) (host_lineages w) (symbiont_lineages w)).

Definition get_host (h : Z) : M HostLineage.t := λ w,
  match host_lineages w !! h with
  | Some hl => (Ok hl, w)
  | None => (Raise NameError, w)
  end.

Definition set_host (h : Z) (hl : HostLineage.t) : M unit := λ w,
  (Ok tt, mkWorld (areas w) (<[h := hl]> (host_lineages w)) (symbiont_lineages w)).

Definition get_symbiont (s : nat) : M SymbiontLineage.t := λ w,
  match symbiont_lineages w !! s with
  | Some sl => (Ok sl, w)
  | None => (Raise NameError, w)
  end.

Definition set_symbiont (s : nat) (sl : SymbiontLineage.t) : M unit := λ w,
  (Ok tt, mkWorld (areas w) (host_lineages w) (<[s := sl]> (symbiont_lineages w))).

(** [set.remove(x)]: raises [KeyError] when [x] is not a member. *)
Definition set_remove `{Countable K} (x : K) (s : gset K) : result (gset K) :=
  if bool_decide (x ∈ s) then Ok (s ∖ {[x]}) else Raise KeyError.

(** ** HostLineage: area occupancy and the extancy state machine *)

Module HostLineageOps.
Import HostLineage.

Definition with_current_areas (hl : t) (s : gset nat) : t :=
    mk (lineage_id hl) (start_time hl) (end_time hl)
       (start_distribution_bitstring hl) (end_distribution_bitstring hl)
       s (extancy hl) (debug_mode hl)
       (_current_distribution_check_bitlist hl) (is_post_area_gain hl).

Definition with_extancy (hl : t) (e : Extancy) : t :=
    mk (lineage_id hl) (start_time hl) (end_time hl)
       (start_distribution_bitstring hl) (end_distribution_bitstring hl)
       (_current_areas hl) e (debug_mode hl)
       (_current_distribution_check_bitlist hl) (is_post_area_gain hl).

Definition with_debug_mode (hl : t) (d : bool) : t :=
    mk (lineage_id hl) (start_time hl) (end_time hl)
       (start_distribution_bitstring hl) (end_distribution_bitstring hl)
       (_current_areas hl) (extancy hl) d
       (_current_distribution_check_bitlist hl) (is_post_area_gain hl).

Definition with_activation_marks (hl : t) (chk : option (list ascii)) : t :=
    mk (lineage_id hl) (start_time hl) (end_time hl)
       (start_distribution_bitstring hl) (end_distribution_bitstring hl)
       (_current_areas hl) (extancy hl) (debug_mode hl)
       chk (Some false).

(** [HostLineage.__init__]: the [debug_mode] argument is not stored. *)
Definition init (d : HostLineageDefinition.t) (host_to_symbiont_time_scale_factor : Q)
      (debug_mode_arg : bool) : t :=
    mk (HostLineageDefinition.lineage_id d)
       (Qmult (HostLineageDefinition.lineage_start_time d) host_to_symbiont_time_scale_factor)
       (Qmult (HostLineageDefinition.lineage_end_time d) host_to_symbiont_time_scale_factor)
       (HostLineageDefinition.lineage_start_distribution_bitstring d)
       (HostLineageDefinition.lineage_end_distribution_bitstring d)
       ∅ pre false None None.

Definition area_add_host (a : nat) (h : Z) : M unit :=
    ar ← get_area a;
    set_area a (Area.mk (Area.area_idx ar) ({[h]} ∪ Area.host_lineages ar)
                  (Area.symbiont_lineages ar)).

Definition area_remove_host (a : nat) (h : Z) : M unit :=
    ar ← get_area a;
    hs ← lift (set_remove h (Area.host_lineages ar));
    set_area a (Area.mk (Area.area_idx ar) hs (Area.symbiont_lineages ar)).

Definition add_area (self : Z) (area : nat) : M unit :=
    hl ← get_host self;
    massert (negb (bool_decide (area ∈ _current_areas hl)));;
    set_host self (with_current_areas hl ({[area]} ∪ _current_areas hl));;
    area_add_host area self.

Definition remove_area (self : Z) (area : nat) : M unit :=
    hl ← get_host self;
    massert (bool_decide (area ∈ _current_areas hl));;
    set_host self (with_current_areas hl (_current_areas hl ∖ {[area]}));;
    area_remove_host area self.

Definition clear_areas (self : Z) : M unit :=
    hl ← get_host self;
    for_each (elements (_current_areas hl)) (λ a, area_remove_host a self);;
    hl' ← get_host self;
    set_host self (with_current_areas hl' ∅).

Definition has_area (self : Z) (area : nat) : M bool :=
    hl ← get_host self;
    mret (bool_decide (area ∈ _current_areas hl)).

Section Activate.
Variable is_in_range : Q → Q → Q → bool.

(** Body of the loop over
        [zip(enumerate(host_system.areas), enumerate(start_distribution_bitstring))]. *)
Definition activate_step (self : Z) (p : nat * ascii) : M unit :=
      let '(area_idx, presence) := p in
      ar ← get_area area_idx;
      massert (Z.eqb (Area.area_idx ar) (Z.of_nat area_idx));;
      if Ascii.eqb presence "1" then add_area self area_idx
      else massert (Ascii.eqb presence "0").

(** [activate]: when the time is out of range the assertion message
        mentions the unbound name [lineage_id], so what escapes is a
        [NameError]. *)
Definition activate (self : Z) (simulation_elapsed_time : option Q)
        (debug_mode_arg : option bool) : M unit :=
      hl ← get_host self;
      massert (bool_decide (extancy hl = pre));;
      match debug_mode_arg with
      | Some d => set_host self (with_debug_mode hl d)
      | None => mret tt
      end;;
      hl ← get_host self;
      match simulation_elapsed_time with
      | Some t =>
          if is_in_range t (start_time hl) (end_time hl) then mret tt
          else raise NameError
      | None => mret tt
      end;;
      w ← get_world;
      let bits := list_ascii_of_string (start_distribution_bitstring hl) in
      massert (Nat.eqb (length (areas w)) (length bits));;
      for_each (imap (λ i c, (i, c)) bits) (activate_step self);;
      hl ← get_host self;
      set_host self
        (with_extancy
           (with_activation_marks hl (if debug_mode hl then Some bits else None))
           current).
End Activate.

Definition deactivate (self : Z) : M unit :=
    hl ← get_host self;
    massert (bool_decide (extancy hl = current));;
    for_each (elements (_current_areas hl)) (λ a, area_remove_host a self);;
    hl ← get_host self;
    set_host self (with_extancy (with_current_areas hl ∅) post).
End HostLineageOps.

(** ** HostSystem *)

Module HostSystem.
(** [HostHistory.generate_areas] *)
Fixpoint check_widths (num_areas : nat) (ls : list (Z * HostLineageDefinition.t))
    : result unit :=
    match ls with
    | [] => Ok tt
    | (_, d) :: rest =>
        assert (Nat.eqb num_areas
                  (String.length (HostLineageDefinition.lineage_start_distribution_bitstring d)));;
        assert (Nat.eqb num_areas
                  (String.length (HostLineageDefinition.lineage_end_distribution_bitstring d)));;
        check_widths num_areas rest
    end.

Definition generate_areas (h : HostHistory.t) : result (list Area.t) :=
    match HostHistory.lineages h with
    | [] => Raise (TypeError "range() argument must be an integer" [])
    | (_, d) :: _ =>
        let num_areas :=
          String.length (HostLineageDefinition.lineage_start_distribution_bitstring d) in
        check_widths num_areas (HostHistory.lineages h);;
        Ok (map (λ i, Area.mk (Z.of_nat i) ∅ ∅) (seq 0 num_areas))
    end.

Fixpoint compile_lineages (ls : list (Z * HostLineageDefinition.t)) (scale : Q)
      (debug_mode : bool) (seen_seed : bool) (acc : gmap Z HostLineage.t)
    : result (gmap Z HostLineage.t) :=
    match ls with
    | [] => Ok acc
    | (_, d) :: rest =>
        let host := HostLineageOps.init d scale debug_mode in
        (if HostLineageDefinition.is_seed_node d then assert (negb seen_seed) else Ok tt);;
        compile_lineages rest scale debug_mode
          (seen_seed || HostLineageDefinition.is_seed_node d)
          (<[HostLineage.lineage_id host := host]> acc)
    end.

(** [HostSystem.compile]: the areas and the host lineages of a replicate.
      The tree, the distance matrix and the rescaled event list play no part
      in what follows and are left out. *)
Definition compile (h : HostHistory.t) (host_to_symbiont_time_scale_factor : Q)
      (debug_mode : bool) : result World :=
    ars ← generate_areas h;
    hosts ← compile_lineages (HostHistory.lineages h)
               host_to_symbiont_time_scale_factor debug_mode false ∅;
    Ok (mkWorld ars hosts ∅).
End HostSystem.

(** ** Reasoning about computations on the store *)

Lemma bind_run {A B} (m : M A) (k : A → M B) (w : World) :
  (m ≫= k) w = match m w with
               | (Ok a, w') => k a w'
               | (Raise e, w') => (Raise e, w')
               end.
Proof. reflexivity. Qed.

Lemma bind_inv {A B} (m : M A) (k : A → M B) w r w' :
  (m ≫= k) w = (r, w') →
  (∃ a w1, m w = (Ok a, w1) ∧ k a w1 = (r, w'))
  ∨ (∃ e, m w = (Raise e, w') ∧ r = Raise e).
Proof.
  rewrite bind_run. destruct (m w) as [[a|e] w1]; intros Hk.
  - left. eauto.
  - right. inversion Hk; subst. eauto.
Qed.

(** A property of the store that a computation never disturbs, whether it
    returns or raises. *)
Definition preserves {A} (P : World → World → Prop) (m : M A) : Prop :=
  ∀ w r w', m w = (r, w') → P w w'.

Section Preserves.
Context (P : World → World → Prop).
Hypothesis P_refl : ∀ w, P w w.
Hypothesis P_trans : ∀ w1 w2 w3, P w1 w2 → P w2 w3 → P w1 w3.

Lemma preserves_ret {A} (a : A) : preserves P (mret a).
Proof. intros w r w' H. inversion H; subst. apply P_refl. Qed.

Lemma preserves_raise {A} e : preserves P (@raise A e).
Proof. intros w r w' H. inversion H; subst. apply P_refl. Qed.

Lemma preserves_lift {A} (x : result A) : preserves P (lift x).
Proof. intros w r w' H. inversion H; subst. apply P_refl. Qed.

Lemma preserves_massert b : preserves P (massert b).
Proof. apply preserves_lift. Qed.

Lemma preserves_get_world : preserves P get_world.
Proof. intros w r w' H. inversion H; subst. apply P_refl. Qed.

Lemma preserves_get_area a : preserves P (get_area a).
Proof.
    intros w r w' H. unfold get_area in H.
    destruct (areas w !! a); inversion H; subst; apply P_refl.
Qed.

Lemma preserves_get_host h : preserves P (get_host h).
Proof.
    intros w r w' H. unfold get_host in H.
    destruct (host_lineages w !! h); inversion H; subst; apply P_refl.
Qed.

Lemma preserves_get_symbiont s : preserves P (get_symbiont s).
Proof.
    intros w r w' H. unfold get_symbiont in H.
    destruct (symbiont_lineages w !! s); inversion H; subst; apply P_refl.
Qed.

Lemma preserves_bind {A B} (m : M A) (k : A → M B) :
    preserves P m → (∀ a, preserves P (k a)) → preserves P (m ≫= k).
Proof.
    intros Hm Hk w r w' H.
    apply bind_inv in H as [(a & w1 & H1 & H2)|(e & H1 & _)].
    - eapply P_trans; [eapply Hm, H1 | eapply Hk, H2].
    - eapply Hm, H1.
Qed.

Lemma preserves_for_each {A} (l : list A) (body : A → M unit) :
    (∀ x, preserves P (body x)) → preserves P (for_each l body).
Proof.
    intros Hb. induction l as [|x l IH]; simpl.
    - apply preserves_ret.
    - apply preserves_bind; [apply Hb | intros _; apply IH].
Qed.
End Preserves.

(** ** Extancy is monotone *)

Module Extancy_facts.
Import HostLineage HostLineageOps.

Definition extancy_of (w : World) (h : Z) : option Extancy :=
    extancy <$> host_lineages w !! h.

Definition same_extancy (w w' : World) : Prop :=
    ∀ h, extancy_of w' h = extancy_of w h.

Lemma same_extancy_refl w : same_extancy w w.
Proof. by intros h. Qed.

Lemma same_extancy_trans w1 w2 w3 :
    same_extancy w1 w2 → same_extancy w2 w3 → same_extancy w1 w3.
Proof. intros H12 H23 h. by rewrite H23. Qed.

Lemma set_area_same_extancy a ar : preserves same_extancy (set_area a ar).
Proof. intros w r w' H. inversion H; subst. by intros h. Qed.

Lemma set_symbiont_same_extancy s sl : preserves same_extancy (set_symbiont s sl).
Proof. intros w r w' H. inversion H; subst. by intros h. Qed.

Lemma set_host_same_extancy h hl hl' w r w' :
    host_lineages w !! h = Some hl → extancy hl' = extancy hl →
    set_host h hl' w = (r, w') → same_extancy w w'.
Proof.
    intros Hh He H. inversion H; subst. intros h'. unfold extancy_of. simpl.
    destruct (decide (h = h')) as [->|Hne].
    - rewrite lookup_insert_eq, Hh. simpl. by rewrite He.
    - by rewrite lookup_insert_ne.
Qed.

Definition se_bind {A B} (m : M A) (k : A → M B) :=
    preserves_bind same_extancy same_extancy_trans m k.
Definition se_for_each {A} (l : list A) (body : A → M unit) :=
    preserves_for_each same_extancy same_extancy_refl same_extancy_trans l body.

Ltac ext_step :=
    first
      [ apply se_bind; [ | intros ? ]
      | apply se_for_each; intros ?
      | apply preserves_ret; apply same_extancy_refl
      | apply preserves_raise; apply same_extancy_refl
      | apply preserves_massert; apply same_extancy_refl
      | apply preserves_lift; apply same_extancy_refl
      | apply preserves_get_world; apply same_extancy_refl
      | apply preserves_get_area; apply same_extancy_refl
      | apply preserves_get_host; apply same_extancy_refl
      | apply set_area_same_extancy ].

Lemma area_add_host_same_extancy a h : preserves same_extancy (area_add_host a h).
Proof. unfold area_add_host. repeat ext_step. Qed.

Lemma area_remove_host_same_extancy a h : preserves same_extancy (area_remove_host a h).
Proof. unfold area_remove_host. repeat ext_step. Qed.

(** Reading a host and writing it back with the same extancy. *)
Lemma update_host_same_extancy {A} h (k : HostLineage.t → M A) :
    (∀ hl w, host_lineages w !! h = Some hl →
       ∀ r w', k hl w = (r, w') → same_extancy w w') →
    preserves same_extancy (get_host h ≫= k).
Proof.
    intros Hk w r w' H. rewrite bind_run in H. unfold get_host in H.
    destruct (host_lineages w !! h) as [hl|] eqn:Hh.
    - eapply Hk; eauto.
    - inversion H; subst. apply same_extancy_refl.
Qed.

Lemma add_area_same_extancy self a : preserves same_extancy (add_area self a).
Proof.
    unfold add_area. apply update_host_same_extancy. intros hl w Hh r w' H.
    apply bind_inv in H as [([] & w1 & H1 & H2)|(e & H1 & _)].
    - assert (w1 = w) as -> by (unfold massert, lift in H1; destruct (assert _); by inversion H1).
      apply bind_inv in H2 as [([] & w2 & H2 & H3)|(e & H2 & _)].
      + eapply same_extancy_trans.
        * eapply set_host_same_extancy; [exact Hh | | exact H2]. done.
        * eapply area_add_host_same_extancy, H3.
      + eapply set_host_same_extancy; [exact Hh | | exact H2]. done.
    - unfold massert, lift in H1. inversion H1; subst. apply same_extancy_refl.
Qed.

Lemma activate_step_same_extancy self p : preserves same_extancy (activate_step self p).
Proof.
    destruct p as [i c]. unfold activate_step. repeat ext_step.
    destruct (Ascii.eqb c "1").
    - apply add_area_same_extancy.
    - ext_step.
Qed.
Lemma seq_cases {A B} (m : M A) (k : A → M B) w0 w r w' :
    same_extancy w0 w →
    (m ≫= k) w = (r, w') →
    (∀ r1 w1, m w = (r1, w1) → same_extancy w w1) →
    (∃ e, r = Raise e ∧ same_extancy w0 w')
    ∨ (∃ a w1, same_extancy w0 w1 ∧ k a w1 = (r, w')).
Proof.
    intros H0 H Hm. apply bind_inv in H as [(a & w1 & H1 & H2)|(e & H1 & ->)].
    - right. exists a, w1. split; [|done].
      eapply same_extancy_trans; [exact H0 | eapply Hm, H1].
    - left. exists e. split; [done|].
      eapply same_extancy_trans; [exact H0 | eapply Hm, H1].
Qed.

Lemma same_extancy_lookup w w' h hl :
    same_extancy w w' → host_lineages w !! h = Some hl →
    ∃ hl', host_lineages w' !! h = Some hl' ∧ extancy hl' = extancy hl.
Proof.
    intros Hs Hh. specialize (Hs h). unfold extancy_of in Hs. rewrite Hh in Hs.
    destruct (host_lineages w' !! h) as [hl'|]; simpl in Hs; [|done].
    exists hl'. split; [done|]. congruence.
Qed.

Ltac seq_step Hs H :=
    let Hc := fresh "Hc" in
    pose proof (seq_cases _ _ _ _ _ _ Hs H) as Hc; lapply Hc; clear Hc.

Lemma activate_spec irr w self t dm r w' hl :
    host_lineages w !! self = Some hl →
    activate irr self t dm w = (r, w') →
    ∃ hl', host_lineages w' !! self = Some hl' ∧
      match r with
      | Ok _ => extancy hl = pre ∧ extancy hl' = current
      | Raise _ => extancy hl' = extancy hl
      end.
Proof.
    intros Hh H. unfold activate in H.
    rewrite bind_run in H. unfold get_host at 1 in H. rewrite Hh in H.
    rewrite bind_run in H. unfold massert at 1, lift, assert in H.
    case_bool_decide as Hpre; [|inversion H; subst; eauto].
    assert (Hraise : ∀ w1, same_extancy w w1 →
              ∃ hl', host_lineages w1 !! self = Some hl' ∧ extancy hl' = extancy hl).
    { intros w1 Hs. eapply same_extancy_lookup; eauto. }
    pose proof (same_extancy_refl w) as Hs.
    seq_step Hs H.
    2:{ intros r1 w1 H1. destruct dm as [d|].
        - eapply set_host_same_extancy; [exact Hh | | exact H1]. done.
        - eapply preserves_ret; [apply same_extancy_refl | exact H1]. }
    clear Hs H. intros [(e & -> & Hs)|(? & w1 & Hs & H)]; [by apply Hraise|].
    seq_step Hs H.
    2:{ apply preserves_get_host, same_extancy_refl. }
    clear Hs H. intros [(e & -> & Hs)|(hl1 & w2 & Hs & H)]; [by apply Hraise|].
    seq_step Hs H.
    2:{ destruct t as [t|]; [destruct (irr _ _ _)|]; repeat ext_step. }
    clear Hs H. intros [(e & -> & Hs)|(? & w3 & Hs & H)]; [by apply Hraise|].
    seq_step Hs H.
    2:{ repeat ext_step. }
    clear Hs H. intros [(e & -> & Hs)|(? & w4 & Hs & H)]; [by apply Hraise|].
    seq_step Hs H.
    2:{ repeat ext_step. }
    clear Hs H. intros [(e & -> & Hs)|(? & w5 & Hs & H)]; [by apply Hraise|].
    seq_step Hs H.
    2:{ ext_step. apply activate_step_same_extancy. }
    clear Hs H. intros [(e & -> & Hs)|(? & w6 & Hs & H)]; [by apply Hraise|].
    destruct (same_extancy_lookup _ _ _ _ Hs Hh) as (hl6 & Hh6 & He6).
    rewrite bind_run in H. unfold get_host in H. rewrite Hh6 in H.
    inversion H; subst. simpl. rewrite lookup_insert_eq. eauto.
Qed.

Lemma deactivate_spec w self r w' hl :
    host_lineages w !! self = Some hl →
    deactivate self w = (r, w') →
    ∃ hl', host_lineages w' !! self = Some hl' ∧
      match r with
      | Ok _ => extancy hl = current ∧ extancy hl' = post
      | Raise _ => extancy hl' = extancy hl
      end.
Proof.
    intros Hh H. unfold deactivate in H.
    rewrite bind_run in H. unfold get_host at 1 in H. rewrite Hh in H.
    rewrite bind_run in H. unfold massert at 1, lift, assert in H.
    case_bool_decide as Hcur; [|inversion H; subst; eauto].
    pose proof (same_extancy_refl w) as Hs.
    seq_step Hs H.
    2:{ ext_step. apply area_remove_host_same_extancy. }
    clear Hs H. intros [(e & -> & Hs)|(? & w1 & Hs & H)];
      [by eapply same_extancy_lookup|].
    destruct (same_extancy_lookup _ _ _ _ Hs Hh) as (hl1 & Hh1 & He1).
    rewrite bind_run in H. unfold get_host in H. rewrite Hh1 in H.
    inversion H; subst. simpl. rewrite lookup_insert_eq. eauto.
Qed.
End Extancy_facts.

(** *** The calls of the external time-stepping loop on one host lineage *)

Inductive host_call :=
| Activate (simulation_elapsed_time : option Q) (debug_mode : option bool)
| Deactivate.

Definition run_host_call (is_in_range : Q → Q → Q → bool) (self : Z) (c : host_call)
  : M unit :=
  match c with
  | Activate t d => HostLineageOps.activate is_in_range self t d
  | Deactivate => HostLineageOps.deactivate self
  end.

Definition extancy_rank (e : Extancy) : nat :=
  match e with pre => 0 | current => 1 | post => 2 end.

Definition extancy_le (a b : Extancy) : Prop := (extancy_rank a ≤ extancy_rank b)%nat.

(** The extancy observed after each call of an interleaving.  A call that
    raises leaves the store as it was when the exception escaped, and the
    next call runs on that store. *)
Fixpoint extancy_trace (is_in_range : Q → Q → Q → bool) (self : Z)
    (cs : list host_call) (w : World) : list (option Extancy) :=
  match cs with
  | [] => []
  | c :: cs' =>
      let w' := (run_host_call is_in_range self c w).2 in
      Extancy_facts.extancy_of w' self :: extancy_trace is_in_range self cs' w'
  end.

(** What one call does to the extancy of the lineage it is made on. *)
Definition extancy_step_ok (c : host_call) (r : result unit) (before after : Extancy)
  : Prop :=
  match r, c with
  | Ok _, Activate _ _ => before = pre ∧ after = current
  | Ok _, Deactivate => before = current ∧ after = post
  | Raise _, _ => after = before
  end.

Definition extancy_monotone_at (is_in_range : Q → Q → Q → bool) (w : World) (self : Z)
    (hl : HostLineage.t) (cs : list host_call) : Prop :=
  (∀ c r w', run_host_call is_in_range self c w = (r, w') →
     ∃ hl', host_lineages w' !! self = Some hl'
            ∧ extancy_step_ok c r (HostLineage.extancy hl) (HostLineage.extancy hl'))
  ∧ (∀ t d, HostLineage.extancy hl ≠ pre →
       run_host_call is_in_range self (Activate t d) w = (Raise AssertionError, w))
  ∧ (HostLineage.extancy hl ≠ current →
       run_host_call is_in_range self Deactivate w = (Raise AssertionError, w))
  ∧ ∃ es, extancy_trace is_in_range self cs w = map Some es
          ∧ StronglySorted extancy_le (HostLineage.extancy hl :: es).

Lemma run_host_call_step is_in_range w self hl c r w' :
  host_lineages w !! self = Some hl →
  run_host_call is_in_range self c w = (r, w') →
  ∃ hl', host_lineages w' !! self = Some hl'
         ∧ extancy_step_ok c r (HostLineage.extancy hl) (HostLineage.extancy hl').
Proof.
  intros Hh H. destruct c as [t d|]; simpl in H.
  - destruct (Extancy_facts.activate_spec _ _ _ _ _ _ _ _ Hh H) as (hl' & Hh' & Hs).
    exists hl'. split; [done|]. by destruct r.
  - destruct (Extancy_facts.deactivate_spec _ _ _ _ _ Hh H) as (hl' & Hh' & Hs).
    exists hl'. split; [done|]. by destruct r.
Qed.

Lemma extancy_step_le c r a b : extancy_step_ok c r a b → extancy_le a b.
Proof.
  unfold extancy_step_ok, extancy_le.
  destruct r, c; simpl; intros H;
    [destruct H as [-> ->] | destruct H as [-> ->] | subst | subst]; simpl; lia.
Qed.

Lemma extancy_trace_sorted is_in_range self cs : ∀ w hl,
  host_lineages w !! self = Some hl →
  ∃ es, extancy_trace is_in_range self cs w = map Some es
        ∧ StronglySorted extancy_le (HostLineage.extancy hl :: es).
Proof.
  induction cs as [|c cs IH]; intros w hl Hh.
  - exists []. split; [done|]. repeat constructor.
  - simpl. destruct (run_host_call is_in_range self c w) as [r w'] eqn:Hrun.
    destruct (run_host_call_step _ _ _ _ _ _ _ Hh Hrun) as (hl' & Hh' & Hstep).
    destruct (IH w' hl' Hh') as (es & Hes & Hsorted).
    exists (HostLineage.extancy hl' :: es). simpl. split.
    + unfold Extancy_facts.extancy_of. rewrite Hh'. simpl. by rewrite Hes.
    + apply extancy_step_le in Hstep. constructor; [done|].
      constructor; [done|].
      apply StronglySorted_inv in Hsorted as [_ Hall].
      eapply Forall_impl; [exact Hall|]. unfold extancy_le in *. intros; lia.
Qed.

Lemma activate_not_pre is_in_range w self hl t d :
  host_lineages w !! self = Some hl → HostLineage.extancy hl ≠ pre →
  HostLineageOps.activate is_in_range self t d w = (Raise AssertionError, w).
Proof.
  intros Hh Hne. unfold HostLineageOps.activate.
  rewrite bind_run. unfold get_host at 1. rewrite Hh.
  rewrite bind_run. unfold massert, lift, assert.
  by rewrite bool_decide_eq_false_2.
Qed.

Lemma deactivate_not_current w self hl :
  host_lineages w !! self = Some hl → HostLineage.extancy hl ≠ current →
  HostLineageOps.deactivate self w = (Raise AssertionError, w).
Proof.
  intros Hh Hne. unfold HostLineageOps.deactivate.
  rewrite bind_run. unfold get_host at 1. rewrite Hh.
  rewrite bind_run. unfold massert, lift, assert.
  by rewrite bool_decide_eq_false_2.
Qed.

(** C9. A host lineage is constructed in state [pre]; on any store holding the
    lineage, a call of [activate] that returns found it in [pre] and leaves
    it in [current], a call of [deactivate] that returns found it in
    [current] and leaves it in [post], a call made in any other state
    raises and changes nothing, a call that raises leaves the extancy as it
    was; so over every interleaving of the two calls the observed extancy
    only ever moves forward along pre, current, post. *)
Theorem C9_host_extancy_monotone (is_in_range : Q → Q → Q → bool) (w : World)
    (self : Z) (hl : HostLineage.t) (cs : list host_call)
    (d : HostLineageDefinition.t) (scale : Q) (debug_mode : bool) :
  host_lineages w !! self = Some hl →
  HostLineage.extancy (HostLineageOps.init d scale debug_mode) = pre
  ∧ extancy_monotone_at is_in_range w self hl cs.
Proof.
  intros Hh. split; [reflexivity|]. repeat split.
  - intros c r w' H. eapply run_host_call_step; eauto.
  - intros t dm Hne. simpl. eapply activate_not_pre; eauto.
  - intros Hne. simpl. eapply deactivate_not_current; eauto.
  - eapply extancy_trace_sorted; eauto.
Qed.

Module HostSystemExamples.
(** One host lineage with start distribution "010" in a system of three
    areas, as [HostSystem.compile] builds it. *)
Definition history : HostHistory.t :=
  HostHistory.mk [] [(1, HostHistoryExamples.defn_010)].

Definition world0 : World :=
  match HostSystem.compile history (1#1) false with
  | Ok w => w
  | Raise _ => mkWorld [] ∅ ∅
  end.

Definition host1 : HostLineage.t :=
  HostLineageOps.init HostHistoryExamples.defn_010 (1#1) false.

Definition calls : list host_call :=
  [Deactivate; Activate (Some (5#1)) None; Activate None None; Deactivate; Activate None None].
End HostSystemExamples.

Example extancy_trace_example :
  extancy_trace is_in_range_closed 1 HostSystemExamples.calls HostSystemExamples.world0
  = [Some pre; Some current; Some current; Some post; Some post].
Proof. vm_compute. reflexivity. Qed.

Lemma C9_host_extancy_monotone_witness :
  host_lineages HostSystemExamples.world0 !! 1 = Some HostSystemExamples.host1
  ∧ HostLineage.extancy
      (HostLineageOps.init HostHistoryExamples.defn_010 (1#1) false) = pre
  ∧ extancy_monotone_at is_in_range_closed HostSystemExamples.world0 1
      HostSystemExamples.host1 HostSystemExamples.calls.
Proof.
  split; [vm_compute; reflexivity|].
  apply (C9_host_extancy_monotone is_in_range_closed HostSystemExamples.world0 1
           HostSystemExamples.host1 HostSystemExamples.calls
           HostHistoryExamples.defn_010 (1#1) false).
  vm_compute; reflexivity.
Defined.

(** ** SymbiontLineage: the association cache *)

Module SymbiontLineageOps.
Import SymbiontLineage.

Definition with_distribution (sl : t) (m : gmap Z (gmap nat Z)) : t :=
  mk (index sl) (is_extant sl) m (_infected_hosts sl) (_infected_areas sl).

Definition with_infected_hosts (sl : t) (hs : gset Z) : t :=
  mk (index sl) (is_extant sl) (_host_area_distribution sl) hs (_infected_areas sl).

Definition with_infected_areas (sl : t) (ars : gset nat) : t :=
  mk (index sl) (is_extant sl) (_host_area_distribution sl) (_infected_hosts sl) ars.

Definition with_is_extant (sl : t) (b : bool) : t :=
  mk (index sl) b (_host_area_distribution sl) (_infected_hosts sl) (_infected_areas sl).

(** The identities of the areas of the system, in the order of
    [host_system.areas]. *)
Definition area_ids (w : World) : list nat := seq 0 (length (areas w)).

(** [SymbiontLineage.__init__]: a zero cell for every host lineage and every
    area of the system, and empty caches. *)
Definition init (index : nat) (w : World) : t :=
  mk index true
     (gset_to_gmap (gset_to_gmap 0 (list_to_set (area_ids w))) (dom (host_lineages w)))
     ∅ ∅.

(** Allocation of a new lineage object ([node_factory]). *)
Definition new (index : nat) : M nat := λ w,
  let addr := fresh (dom (symbiont_lineages w)) in
  (Ok addr, mkWorld (areas w) (host_lineages w)
              (<[addr := init index w]> (symbiont_lineages w))).

(** [self._host_area_distribution[host_lineage][area]] *)
Definition matrix_cell (m : gmap Z (gmap nat Z)) (host_lineage : Z) (area : nat)
  : option Z :=
  m !! host_lineage ≫= λ row, row !! area.

Definition cell (sl : t) (host_lineage : Z) (area : nat) : option Z :=
  matrix_cell (_host_area_distribution sl) host_lineage area.

Definition read_cell (sl : t) (host_lineage : Z) (area : nat) : result Z :=
  match cell sl host_lineage area with
  | Some v => Ok v
  | None => Raise KeyError
  end.

(** [self._host_area_distribution[host_lineage][area] = v] *)
Definition write_cell (self : nat) (host_lineage : Z) (area : nat) (v : Z) : M unit :=
  sl ← get_symbiont self;
  match _host_area_distribution sl !! host_lineage with
  | Some row =>
      set_symbiont self
        (with_distribution sl
           (<[host_lineage := <[area := v]> row]> (_host_area_distribution sl)))
  | None => raise KeyError
  end.

(** [area.symbiont_lineages.add(self)] and [.remove(self)] *)
Definition area_add_symbiont (a : nat) (self : nat) : M unit :=
  ar ← get_area a;
  set_area a (Area.mk (Area.area_idx ar) (Area.host_lineages ar)
                ({[self]} ∪ Area.symbiont_lineages ar)).

Definition area_remove_symbiont (a : nat) (self : nat) : M unit :=
  ar ← get_area a;
  ss ← lift (set_remove self (Area.symbiont_lineages ar));
  set_area a (Area.mk (Area.area_idx ar) (Area.host_lineages ar) ss).

(** [self._infected_areas.add(area)] and the like *)
Definition infected_areas_add (self : nat) (a : nat) : M unit :=
  sl ← get_symbiont self;
  set_symbiont self (with_infected_areas sl ({[a]} ∪ _infected_areas sl)).

Definition infected_areas_remove (self : nat) (a : nat) : M unit :=
  sl ← get_symbiont self;
  ars ← lift (set_remove a (_infected_areas sl));
  set_symbiont self (with_infected_areas sl ars).

Definition infected_hosts_add (self : nat) (h : Z) : M unit :=
  sl ← get_symbiont self;
  set_symbiont self (with_infected_hosts sl ({[h]} ∪ _infected_hosts sl)).

Definition infected_hosts_remove (self : nat) (h : Z) : M unit :=
  sl ← get_symbiont self;
  hs ← lift (set_remove h (_infected_hosts sl));
  set_symbiont self (with_infected_hosts sl hs).

(** The three statements that mark one cell in [add_host_in_area]. *)
Definition mark_cell (self : nat) (host_lineage : Z) (area : nat) : M unit :=
  write_cell self host_lineage area 1;;
  area_add_symbiont area self;;
  infected_areas_add self area.

Definition add_host_in_area (self : nat) (host_lineage : Z) (area : option nat)
  : M unit :=
  match area with
  | None =>
      hl ← get_host host_lineage;
      for_each (elements (HostLineage._current_areas hl))
        (λ area, mark_cell self host_lineage area)
  | Some area =>
      b ← HostLineageOps.has_area host_lineage area;
      massert b;;
      mark_cell self host_lineage area
  end;;
  infected_hosts_add self host_lineage.

(** A [for ... else] loop that looks for a cell equal to 1 and breaks at the
    first one: [Ok true] on [break], [Ok false] when the [else] branch is
    taken. *)
Fixpoint scan_hosts (sl : t) (hosts : list Z) (area : nat) : result bool :=
  match hosts with
  | [] => Ok false
  | h :: rest =>
      v ← read_cell sl h area;
      if Z.eqb v 1 then Ok true else scan_hosts sl rest area
  end.

Fixpoint scan_areas (sl : t) (host_lineage : Z) (ars : list nat) : result bool :=
  match ars with
  | [] => Ok false
  | a :: rest =>
      v ← read_cell sl host_lineage a;
      if Z.eqb v 1 then Ok true else scan_areas sl host_lineage rest
  end.

(** [sync_area_cache]: [host_lineage_iter] is chosen according to
    [search_all_hosts], and the loop then runs over [area.host_lineages]. *)
Definition sync_area_cache (self : nat) (area : nat) (search_all_hosts : bool)
  : M unit :=
  w ← get_world;
  ar ← get_area area;
  let host_lineage_iter :=
    if search_all_hosts then elements (dom (host_lineages w))
    else elements (Area.host_lineages ar) in
  sl ← get_symbiont self;
  found ← lift (scan_hosts sl (elements (Area.host_lineages ar)) area);
  if found : bool then
    infected_areas_add self area;;
    area_add_symbiont area self
  else
    infected_areas_remove self area;;
    area_remove_symbiont area self.

Definition sync_host_cache (self : nat) (host_lineage : Z) (search_all_areas : bool)
  : M unit :=
  w ← get_world;
  hl ← get_host host_lineage;
  let area_iter :=
    if search_all_areas then area_ids w
    else elements (HostLineage._current_areas hl) in
  sl ← get_symbiont self;
  found ← lift (scan_areas sl host_lineage area_iter);
  if found : bool then infected_hosts_add self host_lineage
  else infected_hosts_remove self host_lineage.

Definition check_for_null_distribution (self : nat) : M unit :=
  sl ← get_symbiont self;
  if bool_decide (_infected_hosts sl = ∅) || bool_decide (_infected_areas sl = ∅)
  then raise (NullDistributionException self)
  else mret tt.

Definition remove_host (self : nat) (host_lineage : Z) : M unit :=
  hl ← get_host host_lineage;
  for_each (elements (HostLineage._current_areas hl))
    (λ area,
       sl ← get_symbiont self;
       v ← lift (read_cell sl host_lineage area);
       if 0 <? v then
         write_cell self host_lineage area 0;;
         sync_area_cache self area false
       else mret tt);;
  infected_hosts_remove self host_lineage;;
  check_for_null_distribution self.

Definition remove_host_in_area (self : nat) (host_lineage : Z) (area : option nat)
  : M unit :=
  match area with
  | None => remove_host self host_lineage
  | Some area =>
      b ← HostLineageOps.has_area host_lineage area;
      massert b;;
      write_cell self host_lineage area 0;;
      sync_area_cache self area false;;
      sync_host_cache self host_lineage false;;
      check_for_null_distribution self
  end.

Definition has_host (self : nat) (host_lineage : Z) : M bool :=
  sl ← get_symbiont self;
  mret (bool_decide (host_lineage ∈ _infected_hosts sl)).

Definition has_host_in_area (self : nat) (host_lineage : Z) (area : nat) : M bool :=
  sl ← get_symbiont self;
  v ← lift (read_cell sl host_lineage area);
  mret (Z.eqb v 1).

Definition has_area (self : nat) (area : nat) : M bool :=
  sl ← get_symbiont self;
  mret (bool_decide (area ∈ _infected_areas sl)).

Definition clear_distribution (self : nat) : M unit :=
  sl ← get_symbiont self;
  set_symbiont self
    (with_distribution sl ((λ row : gmap nat Z, (λ _, 0) <$> row)
                             <$> _host_area_distribution sl));;
  for_each (elements (_infected_areas sl)) (λ area, area_remove_symbiont area self);;
  sl ← get_symbiont self;
  set_symbiont self (with_infected_areas (with_infected_hosts sl ∅) ∅).

(** The cells of a matrix, host by host and area by area. *)
Definition cells (m : gmap Z (gmap nat Z)) : list (Z * nat * Z) :=
  '(h, row) ← map_to_list m;
  '(a, v) ← map_to_list row;
  [(h, a, v)].

Definition update_distribution (self : nat) (other : nat) : M unit :=
  o ← get_symbiont other;
  for_each (cells (_host_area_distribution o))
    (λ '(host_lineage, area, v),
       if Z.eqb v 1 then
         sl ← get_symbiont self;
         mine ← lift (read_cell sl host_lineage area);
         if Z.eqb mine 0 then add_host_in_area self host_lineage (Some area)
         else mret tt
       else mret tt);;
  o ← get_symbiont other;
  sl ← get_symbiont self;
  set_symbiont self
    (with_infected_areas
       (with_infected_hosts sl (_infected_hosts sl ∪ _infected_hosts o))
       (_infected_areas sl ∪ _infected_areas o)).
End SymbiontLineageOps.

(** *** The consistency audit *)

Fixpoint fold_result {A S} (step : S → A → result S) (l : list A) (s : S) : result S :=
  match l with
  | [] => Ok s
  | x :: l' => s' ← step s x; fold_result step l' s'
  end.

Module SymbiontLineageAudit.
Import SymbiontLineage SymbiontLineageOps.

(** The sets and the counter that [debug_check] builds up while it walks the
    matrix: infected hosts, infected areas, areas not infected, occurrences.
    ([noninfected_hosts] starts empty, is only ever discarded from and is
    never read.) *)
Record tally := mkTally {
  infected_hosts : gset Z;
  infected_areas : gset nat;
  noninfected_areas : gset nat;
  occurrences : nat;
}.

Definition audit_cell (w : World) (self : nat) (sl : SymbiontLineage.t)
    (host_lineage : Z) (acc : tally) (area : nat) : result tally :=
  v ← read_cell sl host_lineage area;
  if Z.eqb v 1 then
    ar ← match areas w !! area with Some ar => Ok ar | None => Raise NameError end;
    assert (bool_decide (host_lineage ∈ Area.host_lineages ar));;
    assert (bool_decide (self ∈ Area.symbiont_lineages ar));;
    Ok (mkTally ({[host_lineage]} ∪ infected_hosts acc)
                ({[area]} ∪ infected_areas acc)
                (noninfected_areas acc ∖ {[area]})
                (S (occurrences acc)))
  else if negb (Z.eqb v 0) then Raise ValueError
  else Ok acc.

Definition audit_matrix (w : World) (self : nat) (sl : SymbiontLineage.t) : result tally :=
  fold_result
    (λ acc host_lineage, fold_result (audit_cell w self sl host_lineage) (area_ids w) acc)
    (elements (dom (host_lineages w)))
    (mkTally ∅ ∅ (list_to_set (area_ids w)) 0).

Section DebugCheck.
(** [utility.is_almost_equal] belongs to the [utility] module, which is not
    among the sources at hand. *)
Variable is_almost_equal : Q → Q → bool.

(** [HostLineage.assert_correctly_extant]: with [ignore_fail] a failed
    check prints its message and the method goes on. *)
Definition assert_correctly_extant (w : World) (host_lineage : Z)
    (simulation_elapsed_time : Q) (ignore_fail : bool) : result unit :=
  hl ← match host_lineages w !! host_lineage with
       | Some hl => Ok hl
       | None => Raise NameError
       end;
  let check (b : bool) : result unit :=
    if b || ignore_fail then Ok tt else Raise AssertionError in
  check (negb (Qle_bool simulation_elapsed_time (HostLineage.start_time hl))
         || is_almost_equal simulation_elapsed_time (HostLineage.start_time hl));;
  check (negb (Qle_bool (HostLineage.end_time hl) simulation_elapsed_time)
         || is_almost_equal simulation_elapsed_time (HostLineage.end_time hl));;
  check (bool_decide (HostLineage.extancy hl = current)).

Definition debug_check_result (w : World) (self : nat)
    (simulation_elapsed_time : option Q) (ignore_nonextant_host_check_fail : bool)
  : result unit :=
  sl ← match symbiont_lineages w !! self with
       | Some sl => Ok sl
       | None => Raise NameError
       end;
  t ← audit_matrix w self sl;
  assert (0 <? occurrences t)%nat;;
  assert (bool_decide (infected_hosts t = _infected_hosts sl));;
  assert (bool_decide (infected_areas t = _infected_areas sl));;
  fold_result
    (λ _ area,
       ar ← match areas w !! area with Some ar => Ok ar | None => Raise NameError end;
       assert (negb (bool_decide (self ∈ Area.symbiont_lineages ar))))
    (elements (noninfected_areas t)) tt;;
  match simulation_elapsed_time with
  | Some time =>
      fold_result
        (λ _ host_lineage,
           assert_correctly_extant w host_lineage time ignore_nonextant_host_check_fail)
        (elements (_infected_hosts sl)) tt
  | None => Ok tt
  end.

Definition debug_check (self : nat) (simulation_elapsed_time : option Q)
    (ignore_nonextant_host_check_fail : bool) : M unit :=
  λ w, (debug_check_result w self simulation_elapsed_time
          ignore_nonextant_host_check_fail, w).
End DebugCheck.
End SymbiontLineageAudit.

(** ** Running computations step by step *)

Lemma run_assoc {A B C} (m : M A) (k : A → M B) (k' : B → M C) w :
  ((m ≫= k) ≫= k') w = (m ≫= (λ x, k x ≫= k')) w.
Proof. rewrite !bind_run. destruct (m w) as [[a|e] w1]; [by rewrite bind_run|done]. Qed.

Lemma run_ret {A B} (a : A) (k : A → M B) w : (mret a ≫= k) w = k a w.
Proof. reflexivity. Qed.

Lemma run_raise {A B} e (k : A → M B) w : (raise e ≫= k) w = (Raise e, w).
Proof. reflexivity. Qed.

Lemma run_lift_ok {A B} (a : A) (k : A → M B) w : (lift (Ok a) ≫= k) w = k a w.
Proof. reflexivity. Qed.

Lemma run_lift_raise {A B} e (k : A → M B) w : (lift (Raise e) ≫= k) w = (Raise e, w).
Proof. reflexivity. Qed.

Lemma run_massert_true {B} (k : unit → M B) w : (massert true ≫= k) w = k tt w.
Proof. reflexivity. Qed.

Lemma run_massert_false {B} (k : unit → M B) w :
  (massert false ≫= k) w = (Raise AssertionError, w).
Proof. reflexivity. Qed.

Lemma run_get_world {B} (k : World → M B) w : (get_world ≫= k) w = k w w.
Proof. reflexivity. Qed.

Lemma run_get_symbiont {B} self sl (k : SymbiontLineage.t → M B) w :
  symbiont_lineages w !! self = Some sl →
  (get_symbiont self ≫= k) w = k sl w.
Proof. intros H. rewrite bind_run. unfold get_symbiont. by rewrite H. Qed.

Lemma run_get_area {B} a ar (k : Area.t → M B) w :
  areas w !! a = Some ar →
  (get_area a ≫= k) w = k ar w.
Proof. intros H. rewrite bind_run. unfold get_area. by rewrite H. Qed.

Lemma run_get_host {B} h hl (k : HostLineage.t → M B) w :
  host_lineages w !! h = Some hl →
  (get_host h ≫= k) w = k hl w.
Proof. intros H. rewrite bind_run. unfold get_host. by rewrite H. Qed.

Lemma run_set_symbiont {B} s sl (k : unit → M B) w :
  (set_symbiont s sl ≫= k) w
  = k tt (mkWorld (areas w) (host_lineages w) (<[s := sl]> (symbiont_lineages w))).
Proof. reflexivity. Qed.

Lemma run_set_area {B} a ar (k : unit → M B) w :
  (set_area a ar ≫= k) w
  = k tt (mkWorld (<[a := ar]> (areas w)) (host_lineages w) (symbiont_lineages w)).
Proof. reflexivity. Qed.

Lemma run_set_host {B} h hl (k : unit → M B) w :
  (set_host h hl ≫= k) w
  = k tt (mkWorld (areas w) (<[h := hl]> (host_lineages w)) (symbiont_lineages w)).
Proof. reflexivity. Qed.

Ltac wsimpl :=
  cbn [areas host_lineages symbiont_lineages
       SymbiontLineage._infected_areas SymbiontLineage._infected_hosts
       SymbiontLineage._host_area_distribution SymbiontLineage.index
       SymbiontLineage.is_extant
       SymbiontLineageOps.with_distribution SymbiontLineageOps.with_infected_hosts
       SymbiontLineageOps.with_infected_areas SymbiontLineageOps.with_is_extant
       Area.area_idx Area.host_lineages Area.symbiont_lineages].

Ltac lookup_now :=
  wsimpl;
  first [ eassumption
        | apply lookup_insert_eq
        | rewrite lookup_insert_ne by done; eassumption
        | apply list_lookup_insert_eq; eapply lookup_lt_Some; eassumption
        | rewrite list_lookup_insert_ne by done; eassumption ].

Ltac mstep :=
  first
    [ rewrite run_assoc
    | rewrite run_ret
    | rewrite run_lift_ok
    | rewrite run_massert_true
    | rewrite run_get_world
    | rewrite run_set_symbiont
    | rewrite run_set_area
    | rewrite run_set_host
    | erewrite run_get_symbiont by lookup_now
    | erewrite run_get_area by lookup_now
    | erewrite run_get_host by lookup_now ];
  wsimpl; rewrite ?insert_insert_eq, ?list_insert_insert_eq.

(** ** Consistency of the association cache *)

Module Consistency.
Import SymbiontLineage SymbiontLineageOps.

(** [host_lineage.has_area(area)] holds *)
Definition occupies (w : World) (h : Z) (a : nat) : Prop :=
  ∃ hl, host_lineages w !! h = Some hl ∧ a ∈ HostLineage._current_areas hl.

(** [host_lineage in area.host_lineages] *)
Definition hosted_in (w : World) (a : nat) (h : Z) : Prop :=
  ∃ ar, areas w !! a = Some ar ∧ h ∈ Area.host_lineages ar.

(** [self in area.symbiont_lineages] *)
Definition registered (w : World) (self : nat) (a : nat) : Prop :=
  ∃ ar, areas w !! a = Some ar ∧ self ∈ Area.symbiont_lineages ar.

(** The host side keeps [Area.host_lineages] and
    [HostLineage._current_areas] symmetric ([add_area], [remove_area]). *)
Definition host_system_ok (w : World) : Prop :=
  ∀ h a, occupies w h a ↔ hosted_in w a h.

(** The matrix has a cell for every host lineage and every area of the
    system, and no other. *)
Definition matrix_ok (w : World) (sl : SymbiontLineage.t) : Prop :=
  ∀ h a, is_Some (cell sl h a)
         ↔ h ∈ dom (host_lineages w) ∧ (a < length (areas w))%nat.

(** The part of the invariant that holds at every point of a method: cells
    are 0 or 1, and a cell is 1 only where the host occupies the area. *)
Definition base_ok (w : World) (sl : SymbiontLineage.t) : Prop :=
  matrix_ok w sl
  ∧ (∀ h a v, cell sl h a = Some v → v = 0 ∨ v = 1)
  ∧ (∀ h a, cell sl h a = Some 1 → occupies w h a).

(** The caches agree with the matrix: for one area, for one host. *)
Definition area_synced (w : World) (self : nat) (sl : SymbiontLineage.t) (a : nat)
  : Prop :=
  (a ∈ _infected_areas sl ↔ ∃ h, cell sl h a = Some 1)
  ∧ (registered w self a ↔ a ∈ _infected_areas sl).

Definition host_synced (sl : SymbiontLineage.t) (h : Z) : Prop :=
  h ∈ _infected_hosts sl ↔ ∃ a, cell sl h a = Some 1.

Definition lineage_ok (w : World) (self : nat) (sl : SymbiontLineage.t) : Prop :=
  base_ok w sl ∧ (∀ a, area_synced w self sl a) ∧ (∀ h, host_synced sl h).

Definition non_null (sl : SymbiontLineage.t) : Prop :=
  _infected_hosts sl ≠ ∅ ∧ _infected_areas sl ≠ ∅.

(** What a method of the lineage [self] leaves alone: the host side, the
    other lineages, and their registration on the areas. *)
Definition area_frame (self : nat) (ar ar' : Area.t) : Prop :=
  Area.area_idx ar' = Area.area_idx ar
  ∧ Area.host_lineages ar' = Area.host_lineages ar
  ∧ ∀ s, s ≠ self → s ∈ Area.symbiont_lineages ar' ↔ s ∈ Area.symbiont_lineages ar.

Definition frame (self : nat) (w w' : World) : Prop :=
  host_lineages w' = host_lineages w
  ∧ Forall2 (area_frame self) (areas w) (areas w')
  ∧ ∀ s, s ≠ self → symbiont_lineages w' !! s = symbiont_lineages w !! s.

Lemma area_frame_refl self ar : area_frame self ar ar.
Proof. by repeat split. Qed.

Lemma area_frame_trans self a1 a2 a3 :
  area_frame self a1 a2 → area_frame self a2 a3 → area_frame self a1 a3.
Proof.
  intros (? & ? & H12) (? & ? & H23). repeat split; try congruence.
  - intros Hs. apply H12, H23; done.
  - intros Hs. apply H23, H12; done.
Qed.

Lemma frame_refl self w : frame self w w.
Proof.
  repeat split; try done. apply Forall2_same_length_lookup_2; [done|].
  intros i x y Hx Hy. rewrite Hx in Hy. inversion Hy; subst. apply area_frame_refl.
Qed.

Lemma frame_trans self w1 w2 w3 : frame self w1 w2 → frame self w2 w3 → frame self w1 w3.
Proof.
  intros (Hh12 & Ha12 & Hs12) (Hh23 & Ha23 & Hs23). repeat split.
  - congruence.
  - eapply Forall2_trans; [|exact Ha12|exact Ha23].
    intros ???. apply area_frame_trans.
  - intros s Hs. rewrite Hs23, Hs12; done.
Qed.

Lemma frame_set_symbiont self sl : preserves (frame self) (set_symbiont self sl).
Proof.
  intros w r w' H. inversion H; subst. repeat split; simpl.
  - apply (frame_refl self w).
  - intros s Hs. by rewrite lookup_insert_ne.
Qed.

Lemma frame_set_area self a ar ar' w :
  areas w !! a = Some ar → area_frame self ar ar' →
  frame self w (mkWorld (<[a := ar']> (areas w)) (host_lineages w) (symbiont_lineages w)).
Proof.
  intros Ha Hf. repeat split; simpl; try done.
  apply Forall2_same_length_lookup_2; [by rewrite length_insert|].
  intros i x y Hx Hy. destruct (decide (i = a)) as [->|Hne].
  - rewrite list_lookup_insert_eq in Hy by (eapply lookup_lt_Some; eauto).
    rewrite Ha in Hx. inversion Hx; inversion Hy; subst. done.
  - rewrite list_lookup_insert_ne in Hy by done. rewrite Hx in Hy.
    inversion Hy; subst. apply area_frame_refl.
Qed.

Lemma matrix_cell_insert (m : gmap Z (gmap nat Z)) h a v row h' a' :
  m !! h = Some row →
  matrix_cell (<[h := <[a := v]> row]> m) h' a'
  = if decide (h' = h ∧ a' = a) then Some v else matrix_cell m h' a'.
Proof.
  intros Hrow. unfold matrix_cell. destruct (decide (h' = h)) as [->|Hh].
  - rewrite lookup_insert_eq, Hrow. simpl. destruct (decide (a' = a)) as [->|Ha].
    + rewrite lookup_insert_eq. by rewrite decide_True.
    + rewrite lookup_insert_ne by done. rewrite decide_False by tauto. done.
  - rewrite lookup_insert_ne by done. rewrite decide_False by tauto. done.
Qed.

Lemma matrix_cell_row (m : gmap Z (gmap nat Z)) h a :
  is_Some (matrix_cell m h a) → is_Some (m !! h).
Proof. unfold matrix_cell. destruct (m !! h); [eauto | by intros [? ?]]. Qed.

Definition fr_bind self {A B} (m : M A) (k : A → M B) :=
  preserves_bind (frame self) (frame_trans self) m k.
Definition fr_for_each self {A} (l : list A) (body : A → M unit) :=
  preserves_for_each (frame self) (frame_refl self) (frame_trans self) l body.

Lemma frame_area_add_symbiont self a : preserves (frame self) (area_add_symbiont a self).
Proof.
  intros w r w' H. unfold area_add_symbiont, get_area in H. rewrite bind_run in H.
  destruct (areas w !! a) as [ar|] eqn:Ha; unfold set_area in H; simplify_eq;
    [|apply frame_refl].
  eapply frame_set_area; [exact Ha|]. repeat split; simpl; try done; set_solver.
Qed.

Lemma frame_area_remove_symbiont self a : preserves (frame self) (area_remove_symbiont a self).
Proof.
  intros w r w' H. unfold area_remove_symbiont, get_area in H. rewrite bind_run in H.
  destruct (areas w !! a) as [ar|] eqn:Ha; [|simplify_eq; apply frame_refl].
  rewrite bind_run in H. unfold lift, set_remove in H.
  case_bool_decide; unfold set_area in H; simplify_eq; [|apply frame_refl].
  eapply frame_set_area; [exact Ha|]. repeat split; simpl; try done; set_solver.
Qed.

Ltac frame_step self :=
  first
    [ apply frame_set_symbiont
    | apply frame_area_add_symbiont
    | apply frame_area_remove_symbiont
    | apply preserves_ret; apply frame_refl
    | apply preserves_raise; apply frame_refl
    | apply preserves_massert; apply frame_refl
    | apply preserves_lift; apply frame_refl
    | apply preserves_get_world; apply frame_refl
    | apply preserves_get_area; apply frame_refl
    | apply preserves_get_host; apply frame_refl
    | apply preserves_get_symbiont; apply frame_refl
    | match goal with |- preserves _ (match ?x with _ => _ end) => destruct x end
    | match goal with |- preserves _ (if ?x then _ else _) => destruct x end
    | match goal with |- preserves _ (let '(_, _) := ?x in _) => destruct x end
    | apply (fr_for_each self); intros ?
    | apply (fr_bind self); [ | intros ? ] ].

Lemma frame_write_cell self h a v : preserves (frame self) (write_cell self h a v).
Proof. unfold write_cell. repeat frame_step self. Qed.

Lemma frame_mark_cell self h a : preserves (frame self) (mark_cell self h a).
Proof.
  unfold mark_cell, infected_areas_add.
  repeat first [apply frame_write_cell | frame_step self].
Qed.

Lemma frame_add_host_in_area self h a : preserves (frame self) (add_host_in_area self h a).
Proof.
  unfold add_host_in_area, infected_hosts_add, HostLineageOps.has_area.
  repeat first [apply frame_mark_cell | frame_step self].
Qed.

Lemma frame_sync_area_cache self a b : preserves (frame self) (sync_area_cache self a b).
Proof.
  unfold sync_area_cache, infected_areas_add, infected_areas_remove.
  repeat frame_step self.
Qed.

Lemma frame_sync_host_cache self h b : preserves (frame self) (sync_host_cache self h b).
Proof.
  unfold sync_host_cache, infected_hosts_add, infected_hosts_remove.
  repeat frame_step self.
Qed.

Lemma frame_check_for_null_distribution self :
  preserves (frame self) (check_for_null_distribution self).
Proof. unfold check_for_null_distribution. repeat frame_step self. Qed.

Lemma frame_remove_host self h : preserves (frame self) (remove_host self h).
Proof.
  unfold remove_host, infected_hosts_remove.
  repeat first [apply frame_write_cell | apply frame_sync_area_cache
               | apply frame_check_for_null_distribution | frame_step self].
Qed.

Lemma frame_remove_host_in_area self h a :
  preserves (frame self) (remove_host_in_area self h a).
Proof.
  unfold remove_host_in_area, HostLineageOps.has_area.
  repeat first [apply frame_write_cell | apply frame_sync_area_cache
               | apply frame_sync_host_cache | apply frame_remove_host
               | apply frame_check_for_null_distribution | frame_step self].
Qed.

Lemma frame_clear_distribution self : preserves (frame self) (clear_distribution self).
Proof. unfold clear_distribution. repeat frame_step self. Qed.

Lemma frame_update_distribution self other :
  preserves (frame self) (update_distribution self other).
Proof.
  unfold update_distribution.
  repeat first [apply frame_add_host_in_area | frame_step self].
Qed.

Lemma frame_length self w w' : frame self w w' → length (areas w') = length (areas w).
Proof. intros (_ & Ha & _). symmetry. by eapply Forall2_length. Qed.

Lemma frame_occupies self w w' h a : frame self w w' → occupies w' h a ↔ occupies w h a.
Proof. intros (Hh & _ & _). unfold occupies. by rewrite Hh. Qed.

Lemma frame_hosted_in self w w' a h : frame self w w' → hosted_in w' a h ↔ hosted_in w a h.
Proof.
  intros (_ & Ha & _). unfold hosted_in. split.
  - intros (ar' & Hl & Hin).
    destruct (Forall2_lookup_r _ _ _ _ _ Ha Hl) as (ar & Hl0 & (_ & Heq & _)).
    exists ar. split; [done|]. by rewrite <- Heq.
  - intros (ar & Hl & Hin).
    destruct (Forall2_lookup_l _ _ _ _ _ Ha Hl) as (ar' & Hl0 & (_ & Heq & _)).
    exists ar'. split; [done|]. by rewrite Heq.
Qed.

Lemma frame_registered_other self w w' s a :
  frame self w w' → s ≠ self → registered w' s a ↔ registered w s a.
Proof.
  intros (_ & Ha & _) Hne. unfold registered. split.
  - intros (ar' & Hl & Hin).
    destruct (Forall2_lookup_r _ _ _ _ _ Ha Hl) as (ar & Hl0 & (_ & _ & Heq)).
    exists ar. split; [done|]. by apply Heq.
  - intros (ar & Hl & Hin).
    destruct (Forall2_lookup_l _ _ _ _ _ Ha Hl) as (ar' & Hl0 & (_ & _ & Heq)).
    exists ar'. split; [done|]. by apply Heq.
Qed.

Lemma frame_host_system_ok self w w' :
  frame self w w' → host_system_ok w → host_system_ok w'.
Proof.
  intros Hf Hok h a. rewrite (frame_occupies _ _ _ _ _ Hf), (frame_hosted_in _ _ _ _ _ Hf).
  apply Hok.
Qed.

Lemma frame_matrix_ok self w w' sl : frame self w w' → matrix_ok w sl → matrix_ok w' sl.
Proof.
  intros Hf Hm h a. rewrite (frame_length _ _ _ Hf).
  destruct Hf as (-> & _ & _). apply Hm.
Qed.

Lemma frame_base_ok self w w' sl : frame self w w' → base_ok w sl → base_ok w' sl.
Proof.
  intros Hf (Hm & Hb & Ho). split; [|split].
  - eapply frame_matrix_ok; eauto.
  - done.
  - intros h a Hc. apply (frame_occupies _ _ _ _ _ Hf). by apply Ho.
Qed.

Lemma frame_lineage_ok_other self w w' s sl :
  frame self w w' → s ≠ self → lineage_ok w s sl → lineage_ok w' s sl.
Proof.
  intros Hf Hne (Hb & Ha & Hh). split; [|split].
  - by apply (frame_base_ok _ _ _ _ Hf).
  - intros a. split; [apply Ha|].
    rewrite (frame_registered_other _ _ _ _ _ Hf Hne). apply Ha.
  - done.
Qed.

(** *** The scans *)

Lemma scan_hosts_spec sl hs a :
  (∀ h, h ∈ hs → is_Some (cell sl h a)) →
  ∃ b, scan_hosts sl hs a = Ok b ∧ (b = true ↔ ∃ h, h ∈ hs ∧ cell sl h a = Some 1).
Proof.
  induction hs as [|h hs IH]; intros Hall.
  - exists false. split; [done|]. split; [done|]. intros (h & Hin & _). by apply elem_of_nil in Hin.
  - destruct (Hall h) as [v Hv]; [by left|].
    simpl. unfold read_cell. rewrite Hv. simpl.
    destruct (Z.eqb_spec v 1) as [->|Hne].
    + exists true. split; [done|]. split; [|done]. intros _. exists h. split; [by left|done].
    + destruct IH as (b & Hb & Hiff); [intros; apply Hall; by right|].
      exists b. split; [done|]. rewrite Hiff. split.
      * intros (h' & Hin & Hc). exists h'. split; [by right|done].
      * intros (h' & Hin & Hc). apply elem_of_cons in Hin as [->|Hin].
        -- congruence.
        -- eauto.
Qed.

Lemma scan_areas_spec sl h ars :
  (∀ a, a ∈ ars → is_Some (cell sl h a)) →
  ∃ b, scan_areas sl h ars = Ok b ∧ (b = true ↔ ∃ a, a ∈ ars ∧ cell sl h a = Some 1).
Proof.
  induction ars as [|a ars IH]; intros Hall.
  - exists false. split; [done|]. split; [done|]. intros (a & Hin & _). by apply elem_of_nil in Hin.
  - destruct (Hall a) as [v Hv]; [by left|].
    simpl. unfold read_cell. rewrite Hv. simpl.
    destruct (Z.eqb_spec v 1) as [->|Hne].
    + exists true. split; [done|]. split; [|done]. intros _. exists a. split; [by left|done].
    + destruct IH as (b & Hb & Hiff); [intros; apply Hall; by right|].
      exists b. split; [done|]. rewrite Hiff. split.
      * intros (a' & Hin & Hc). exists a'. split; [by right|done].
      * intros (a' & Hin & Hc). apply elem_of_cons in Hin as [->|Hin].
        -- congruence.
        -- eauto.
Qed.

Lemma occupies_valid w h a :
  host_system_ok w → occupies w h a →
  h ∈ dom (host_lineages w) ∧ (a < length (areas w))%nat.
Proof.
  intros Hok Ho. split.
  - destruct Ho as (hl & Hh & _). apply elem_of_dom. eauto.
  - apply Hok in Ho as (ar & Ha & _). eapply lookup_lt_Some; eauto.
Qed.

Lemma registered_set_area w s a ar ar' a' hs syms :
  areas w !! a = Some ar →
  registered (mkWorld (<[a := ar']> (areas w)) hs syms) s a'
  ↔ if decide (a' = a) then s ∈ Area.symbiont_lineages ar' else registered w s a'.
Proof.
  intros Ha. unfold registered. simpl. destruct (decide (a' = a)) as [->|Hne].
  - rewrite list_lookup_insert_eq by (eapply lookup_lt_Some; eauto). naive_solver.
  - rewrite list_lookup_insert_ne by done. done.
Qed.

Lemma registered_same_areas w w' s a :
  areas w' = areas w → registered w' s a ↔ registered w s a.
Proof. intros H. unfold registered. by rewrite H. Qed.

(** *** [sync_area_cache] *)

Lemma sync_area_cache_spec w self sl a b r w' :
  host_system_ok w → base_ok w sl →
  symbiont_lineages w !! self = Some sl →
  (a < length (areas w))%nat →
  (registered w self a ↔ a ∈ _infected_areas sl) →
  sync_area_cache self a b w = (r, w') →
  (r = Ok tt
   ∧ ∃ sl', symbiont_lineages w' !! self = Some sl'
       ∧ _host_area_distribution sl' = _host_area_distribution sl
       ∧ _infected_hosts sl' = _infected_hosts sl
       ∧ index sl' = index sl ∧ is_extant sl' = is_extant sl
       ∧ area_synced w' self sl' a
       ∧ ∀ a', a' ≠ a →
           (a' ∈ _infected_areas sl' ↔ a' ∈ _infected_areas sl)
           ∧ (registered w' self a' ↔ registered w self a'))
  ∨ (r = Raise KeyError ∧ w' = w ∧ (a ∉ _infected_areas sl)
     ∧ ¬ (∃ h, cell sl h a = Some 1)).
Proof.
  intros Hhost (Hm & Hbits & Hocc) Hs Ha Hreg H.
  destruct (lookup_lt_is_Some_2 _ _ Ha) as [ar Har].
  destruct (scan_hosts_spec sl (elements (Area.host_lineages ar)) a) as (found & Hscan & Hfound).
  { intros h Hin. apply Hm. apply elem_of_elements in Hin.
    assert (hosted_in w a h) as Hhi by (exists ar; done).
    apply Hhost in Hhi. by apply occupies_valid in Hhi. }
  assert (Hex : found = true ↔ ∃ h, cell sl h a = Some 1).
  { rewrite Hfound. split; [naive_solver|]. intros (h & Hc). exists h. split; [|done].
    apply elem_of_elements. apply Hocc, Hhost in Hc as (ar0 & Har0 & Hin). congruence. }
  unfold sync_area_cache, infected_areas_add, infected_areas_remove,
    area_add_symbiont, area_remove_symbiont in H.
  revert H. repeat mstep. rewrite Hscan. repeat mstep.
  destruct found.
  - repeat mstep. unfold set_area. wsimpl. intros H. simplify_eq. left. split; [done|].
    eexists. split; [apply lookup_insert_eq|]. wsimpl.
    split_and!; try done.
    + split; [split|].
      * intros _. by apply Hex.
      * intros _. set_solver.
      * erewrite registered_set_area by eassumption. rewrite decide_True by done. simpl. set_solver.
    + intros a' Hne. erewrite registered_set_area by eassumption. rewrite decide_False by done.
      set_solver.
  - repeat mstep. unfold set_remove. case_bool_decide as Hin.
    + repeat mstep. assert (self ∈ Area.symbiont_lineages ar) as Hself.
      { apply Hreg in Hin as (ar0 & Har0 & ?). congruence. }
      rewrite bool_decide_eq_true_2 by done.
      repeat mstep. unfold set_area. wsimpl. intros H. simplify_eq. left. split; [done|].
      eexists. split; [apply lookup_insert_eq|]. wsimpl.
      split_and!; try done.
      * split; [split|].
        -- set_solver.
        -- intros Hc. apply Hex in Hc. done.
        -- erewrite registered_set_area by eassumption. rewrite decide_True by done. simpl. set_solver.
      * intros a' Hne. erewrite registered_set_area by eassumption. rewrite decide_False by done.
        set_solver.
    + rewrite run_lift_raise. intros H. simplify_eq. right. split_and!; try done.
      intros Hc. apply Hex in Hc. done.
Qed.

Lemma sync_host_cache_spec w self sl h b r w' :
  host_system_ok w → base_ok w sl →
  symbiont_lineages w !! self = Some sl →
  h ∈ dom (host_lineages w) →
  sync_host_cache self h b w = (r, w') →
  (r = Ok tt
   ∧ areas w' = areas w ∧ host_lineages w' = host_lineages w
   ∧ ∃ sl', symbiont_lineages w' !! self = Some sl'
       ∧ _host_area_distribution sl' = _host_area_distribution sl
       ∧ _infected_areas sl' = _infected_areas sl
       ∧ index sl' = index sl ∧ is_extant sl' = is_extant sl
       ∧ host_synced sl' h
       ∧ ∀ h', h' ≠ h → h' ∈ _infected_hosts sl' ↔ h' ∈ _infected_hosts sl)
  ∨ (r = Raise KeyError ∧ w' = w ∧ (h ∉ _infected_hosts sl)
     ∧ ¬ (∃ a, cell sl h a = Some 1)).
Proof.
  intros Hhost (Hm & Hbits & Hocc) Hs Hh H.
  apply elem_of_dom in Hh as [hl Hhl].
  set (area_iter := if b then area_ids w else elements (HostLineage._current_areas hl)).
  destruct (scan_areas_spec sl h area_iter) as (found & Hscan & Hfound).
  { intros a Hin. apply Hm. split; [apply elem_of_dom; eauto|].
    subst area_iter. destruct b.
    - unfold area_ids in Hin. apply elem_of_seq in Hin. lia.
    - apply elem_of_elements in Hin.
      assert (occupies w h a) as Ho by (exists hl; done).
      apply (occupies_valid _ _ _ Hhost) in Ho as [_ ?]. done. }
  assert (Hex : found = true ↔ ∃ a, cell sl h a = Some 1).
  { rewrite Hfound. split; [naive_solver|]. intros (a & Hc). exists a. split; [|done].
    subst area_iter. destruct b.
    - unfold area_ids. apply elem_of_seq. split; [lia|]. simpl.
      apply Hocc in Hc. apply (occupies_valid _ _ _ Hhost) in Hc as [_ ?]. lia.
    - apply elem_of_elements. apply Hocc in Hc as (hl0 & Hhl0 & Hin). congruence. }
  unfold sync_host_cache, infected_hosts_add, infected_hosts_remove in H.
  revert H. repeat mstep. fold area_iter. rewrite Hscan. repeat mstep.
  destruct found.
  - repeat mstep. unfold set_symbiont. wsimpl. intros H. simplify_eq. left.
    split_and!; try done.
    eexists. split; [apply lookup_insert_eq|]. wsimpl.
    split_and!; try done.
    + split; [intros _; by apply Hex | intros _; set_solver].
    + intros h' Hne. set_solver.
  - repeat mstep. unfold set_remove. case_bool_decide as Hin.
    + repeat mstep. unfold set_symbiont. wsimpl. intros H. simplify_eq. left.
      split_and!; try done.
      eexists. split; [apply lookup_insert_eq|]. wsimpl.
      split_and!; try done.
      * split; [set_solver|]. intros Hc. apply Hex in Hc. done.
      * intros h' Hne. set_solver.
    + rewrite run_lift_raise. intros H. simplify_eq. right. split_and!; try done.
      intros Hc. apply Hex in Hc. done.
Qed.

Lemma cell_eq_dist sl sl' h a :
  _host_area_distribution sl' = _host_area_distribution sl → cell sl' h a = cell sl h a.
Proof. unfold cell. by intros ->. Qed.

Lemma base_ok_ext w w' sl sl' :
  host_lineages w' = host_lineages w → length (areas w') = length (areas w) →
  (∀ h a, is_Some (cell sl' h a) ↔ is_Some (cell sl h a)) →
  (∀ h a v, cell sl' h a = Some v → cell sl h a = Some v ∨ v = 0) →
  base_ok w sl → base_ok w' sl'.
Proof.
  intros Hh Hl Hsome Hcell (Hm & Hbits & Hocc). split; [|split].
  - intros h a. rewrite Hsome, Hh, Hl. apply Hm.
  - intros h a v Hc. apply Hcell in Hc as [Hc| ->]; [by eapply Hbits | by left].
  - intros h a Hc. apply Hcell in Hc as [Hc|?]; [|done].
    unfold occupies. rewrite Hh. by apply Hocc.
Qed.

Lemma write_cell_run w self sl h a v :
  symbiont_lineages w !! self = Some sl →
  is_Some (cell sl h a) →
  ∃ sl', write_cell self h a v w
         = (Ok tt, mkWorld (areas w) (host_lineages w) (<[self := sl']> (symbiont_lineages w)))
    ∧ (∀ h' a', cell sl' h' a'
                = if decide (h' = h ∧ a' = a) then Some v else cell sl h' a')
    ∧ _infected_hosts sl' = _infected_hosts sl
    ∧ _infected_areas sl' = _infected_areas sl
    ∧ index sl' = index sl ∧ is_extant sl' = is_extant sl.
Proof.
  intros Hs Hc. destruct (matrix_cell_row _ _ _ Hc) as [row Hrow].
  eexists. split.
  - unfold write_cell. rewrite bind_run. unfold get_symbiont. rewrite Hs, Hrow. reflexivity.
  - split_and!; try done. intros h' a'. unfold cell. wsimpl.
    by apply matrix_cell_insert.
Qed.

Lemma has_area_run {B} h a hl (k : bool → M B) w :
  host_lineages w !! h = Some hl →
  (HostLineageOps.has_area h a ≫= k) w
  = k (bool_decide (a ∈ HostLineage._current_areas hl)) w.
Proof.
  intros Hh. unfold HostLineageOps.has_area. rewrite run_assoc.
  erewrite run_get_host by eauto. by rewrite run_ret.
Qed.

Lemma check_for_null_distribution_run w self sl :
  symbiont_lineages w !! self = Some sl →
  check_for_null_distribution self w
  = (if bool_decide (non_null sl) then Ok tt
     else Raise (NullDistributionException self), w).
Proof.
  intros Hs. unfold check_for_null_distribution. rewrite bind_run.
  unfold get_symbiont. rewrite Hs. unfold non_null.
  repeat case_bool_decide; simpl; try done; tauto.
Qed.

(** *** [add_host_in_area] with a named area *)

Lemma mark_cell_spec w self sl h a :
  host_system_ok w → symbiont_lineages w !! self = Some sl →
  matrix_ok w sl → occupies w h a →
  ∃ w' sl', mark_cell self h a w = (Ok tt, w')
    ∧ symbiont_lineages w' !! self = Some sl'
    ∧ (∀ h' a', cell sl' h' a'
                = if decide (h' = h ∧ a' = a) then Some 1 else cell sl h' a')
    ∧ _infected_hosts sl' = _infected_hosts sl
    ∧ _infected_areas sl' = {[a]} ∪ _infected_areas sl
    ∧ index sl' = index sl ∧ is_extant sl' = is_extant sl
    ∧ (∀ a', registered w' self a' ↔ a' = a ∨ registered w self a').
Proof.
  intros Hhost Hs Hm Ho.
  destruct (occupies_valid _ _ _ Hhost Ho) as [Hh Ha].
  destruct (lookup_lt_is_Some_2 _ _ Ha) as [ar Har].
  destruct (write_cell_run w self sl h a 1 Hs) as (sl1 & Hrun & Hcell & Hih & Hia & Hidx & Hex).
  { by apply Hm. }
  unfold mark_cell, area_add_symbiont, infected_areas_add.
  rewrite bind_run, Hrun. repeat mstep. unfold set_symbiont. wsimpl.
  rewrite insert_insert_eq.
  eexists _, _. split; [reflexivity|]. wsimpl.
  split; [apply lookup_insert_eq|]. wsimpl.
  split_and!; try done.
  - by rewrite Hia.
  - intros a'. erewrite registered_set_area by eassumption.
    destruct (decide (a' = a)) as [->|Hne]; simpl; [set_solver|]. naive_solver.
Qed.

Lemma lineage_ok_marked w w' self sl sl' h a :
  host_system_ok w → lineage_ok w self sl → occupies w h a →
  frame self w w' →
  (∀ h' a', cell sl' h' a'
            = if decide (h' = h ∧ a' = a) then Some 1 else cell sl h' a') →
  (∀ h', h' ∈ _infected_hosts sl' ↔ h' = h ∨ h' ∈ _infected_hosts sl) →
  (∀ a', a' ∈ _infected_areas sl' ↔ a' = a ∨ a' ∈ _infected_areas sl) →
  (∀ a', registered w' self a' ↔ a' = a ∨ registered w self a') →
  lineage_ok w' self sl'.
Proof.
  intros Hhost ((Hm & Hbits & Hocc) & Hareas & Hhosts) Ho Hf Hcell Hih Hia Hreg.
  destruct (occupies_valid _ _ _ Hhost Ho) as [Hh Ha].
  assert (Hsome : ∀ h' a', is_Some (cell sl' h' a') ↔ is_Some (cell sl h' a')).
  { intros h' a'. rewrite Hcell. case_decide as Hd; [|done].
    destruct Hd as [-> ->]. split; [intros _; by apply Hm | eauto]. }
  split; [|split].
  - split; [|split].
    + intros h' a'. rewrite Hsome. rewrite (frame_length _ _ _ Hf).
      destruct Hf as (-> & _ & _). apply Hm.
    + intros h' a' v. rewrite Hcell. case_decide; [intros; simplify_eq; by right|]. apply Hbits.
    + intros h' a'. rewrite Hcell. rewrite (frame_occupies _ _ _ _ _ Hf).
      case_decide as Hd; [by destruct Hd as [-> ->]|]. apply Hocc.
  - intros a'. destruct (Hareas a') as [Hia0 Hreg0]. split.
    + rewrite Hia, Hia0. split.
      * intros [->|(h' & Hc)]; [exists h; rewrite Hcell; by rewrite decide_True|].
        exists h'. rewrite Hcell. case_decide as Hd; [|done]. done.
      * intros (h' & Hc). rewrite Hcell in Hc. case_decide as Hd; [left; tauto|right; eauto].
    + rewrite Hreg, Hia, Hreg0. done.
  - intros h'. unfold host_synced. rewrite Hih. pose proof (Hhosts h') as Hh0.
    unfold host_synced in Hh0. rewrite Hh0. split.
    + intros [->|(a' & Hc)]; [exists a; rewrite Hcell; by rewrite decide_True|].
      exists a'. rewrite Hcell. case_decide as Hd; [|done]. done.
    + intros (a' & Hc). rewrite Hcell in Hc. case_decide as Hd; [left; tauto|right; eauto].
Qed.

Lemma add_host_in_area_some_spec w self sl h a :
  host_system_ok w → symbiont_lineages w !! self = Some sl →
  lineage_ok w self sl → occupies w h a →
  ∃ w' sl', add_host_in_area self h (Some a) w = (Ok tt, w')
    ∧ symbiont_lineages w' !! self = Some sl'
    ∧ lineage_ok w' self sl'
    ∧ (∀ h' a', cell sl' h' a'
                = if decide (h' = h ∧ a' = a) then Some 1 else cell sl h' a')
    ∧ _infected_hosts sl' = {[h]} ∪ _infected_hosts sl
    ∧ _infected_areas sl' = {[a]} ∪ _infected_areas sl
    ∧ index sl' = index sl ∧ is_extant sl' = is_extant sl.
Proof.
  intros Hhost Hs Hok Ho.
  destruct (mark_cell_spec w self sl h a Hhost Hs (proj1 (proj1 Hok)) Ho)
    as (w1 & sl1 & Hrun & Hs1 & Hcell & Hih & Hia & Hidx & Hext & Hreg).
  pose proof Ho as (hl & Hhl & Hin).
  assert (Hfr : frame self w w1) by (eapply frame_mark_cell; eauto).
  unfold add_host_in_area.
  rewrite run_assoc. erewrite has_area_run by eauto.
  rewrite bool_decide_eq_true_2 by done. rewrite run_assoc, run_massert_true.
  rewrite bind_run, Hrun. unfold infected_hosts_add.
  erewrite run_get_symbiont by eauto. unfold set_symbiont.
  eexists _, _. split; [reflexivity|]. wsimpl.
  split; [apply lookup_insert_eq|].
  split_and!; try done; wsimpl; try congruence.
  eapply (lineage_ok_marked w _ self sl _ h a); eauto.
  - destruct Hfr as (Hh & Hfa & Hso). split; [|split]; simpl; try done.
    intros s Hne. rewrite lookup_insert_ne by done. by apply Hso.
  - wsimpl. intros h'. rewrite Hih. set_solver.
  - wsimpl. intros a'. rewrite Hia. set_solver.
Qed.

(** *** [remove_host_in_area] with a named area *)

Lemma lineage_ok_cleared w w' self sl sl' h a :
  lineage_ok w self sl →
  host_lineages w' = host_lineages w → length (areas w') = length (areas w) →
  is_Some (cell sl h a) →
  (∀ h' a', cell sl' h' a'
            = if decide (h' = h ∧ a' = a) then Some 0 else cell sl h' a') →
  area_synced w' self sl' a → host_synced sl' h →
  (∀ a', a' ≠ a →
     (a' ∈ _infected_areas sl' ↔ a' ∈ _infected_areas sl)
     ∧ (registered w' self a' ↔ registered w self a')) →
  (∀ h', h' ≠ h → h' ∈ _infected_hosts sl' ↔ h' ∈ _infected_hosts sl) →
  lineage_ok w' self sl'.
Proof.
  intros (Hb & Hareas & Hhosts) Hh Hl Hsome Hcell Hsa Hsh Hoa Hoh.
  split; [|split].
  - eapply base_ok_ext; [exact Hh|exact Hl| | |exact Hb].
    + intros h' a'. rewrite Hcell. case_decide as Hd; [|done].
      destruct Hd as [-> ->]. split; eauto.
    + intros h' a' v. rewrite Hcell. case_decide; [intros; simplify_eq; by right|by left].
  - intros a'. destruct (decide (a' = a)) as [->|Hne]; [done|].
    destruct (Hoa a' Hne) as [Hia Hreg]. destruct (Hareas a') as [Hia0 Hreg0].
    split; [|by rewrite Hreg, Hia].
    rewrite Hia, Hia0. split; intros (h' & Hc); exists h'.
    + rewrite Hcell. rewrite decide_False by tauto. done.
    + rewrite Hcell in Hc. rewrite decide_False in Hc by tauto. done.
  - intros h'. destruct (decide (h' = h)) as [->|Hne]; [done|].
    unfold host_synced. rewrite (Hoh h' Hne). pose proof (Hhosts h') as Hh0.
    unfold host_synced in Hh0. rewrite Hh0. split; intros (a' & Hc); exists a'.
    + rewrite Hcell. rewrite decide_False by tauto. done.
    + rewrite Hcell in Hc. rewrite decide_False in Hc by tauto. done.
Qed.

Lemma cleared_cell_same sl sl' h a :
  (∀ h' a', cell sl' h' a'
            = if decide (h' = h ∧ a' = a) then Some 0 else cell sl h' a') →
  cell sl h a = Some 0 → ∀ h' a', cell sl' h' a' = cell sl h' a'.
Proof.
  intros Hcell H0 h' a'. rewrite Hcell. case_decide as Hd; [|done].
  destruct Hd as [-> ->]. done.
Qed.

Lemma cell_zero_of_not_one w sl h a :
  base_ok w sl → is_Some (cell sl h a) → cell sl h a ≠ Some 1 → cell sl h a = Some 0.
Proof.
  intros (_ & Hbits & _) [v Hv] Hne. destruct (Hbits _ _ _ Hv) as [->| ->]; done.
Qed.

Lemma remove_host_in_area_some_spec w self sl h a r w' :
  host_system_ok w → symbiont_lineages w !! self = Some sl →
  lineage_ok w self sl → occupies w h a →
  remove_host_in_area self h (Some a) w = (r, w') →
  ∃ sl', symbiont_lineages w' !! self = Some sl'
    ∧ lineage_ok w' self sl'
    ∧ index sl' = index sl ∧ is_extant sl' = is_extant sl
    ∧ (∀ h' a', cell sl' h' a'
                = if decide (h' = h ∧ a' = a) then Some 0 else cell sl h' a')
    ∧ ((r = Ok tt ∧ non_null sl')
       ∨ (r = Raise (NullDistributionException self) ∧ ¬ non_null sl')
       ∨ (r = Raise KeyError
          ∧ _infected_hosts sl' = _infected_hosts sl
          ∧ _infected_areas sl' = _infected_areas sl)).
Proof.
  intros Hhost Hs Hok Ho H.
  pose proof Hok as (Hb & Hareas & Hhosts).
  pose proof Hb as (Hm & Hbits & Hocc).
  destruct (occupies_valid _ _ _ Hhost Ho) as [Hh Ha].
  pose proof Ho as (hl & Hhl & Hin).
  assert (Hsome : is_Some (cell sl h a)) by (by apply Hm).
  destruct (write_cell_run w self sl h a 0 Hs Hsome)
    as (sl1 & Hrun & Hcell1 & Hih1 & Hia1 & Hidx1 & Hext1).
  unfold remove_host_in_area in H. revert H.
  erewrite has_area_run by eauto.
  rewrite bool_decide_eq_true_2 by done. rewrite run_massert_true.
  rewrite bind_run, Hrun.
  set (w1 := mkWorld (areas w) (host_lineages w) (<[self:=sl1]> (symbiont_lineages w))).
  assert (Hs1 : symbiont_lineages w1 !! self = Some sl1) by apply lookup_insert_eq.
  assert (Hhost1 : host_system_ok w1) by exact Hhost.
  assert (Hb1 : base_ok w1 sl1).
  { eapply (base_ok_ext w w1 sl sl1); try done.
    - intros h' a'. rewrite Hcell1. case_decide as Hd; [|done].
      destruct Hd as [-> ->]. split; eauto.
    - intros h' a' v. rewrite Hcell1. case_decide; [intros; simplify_eq; by right|by left]. }
  assert (Hreg1 : ∀ a', registered w1 self a' ↔ registered w self a') by done.
  rewrite bind_run. destruct (sync_area_cache self a false w1) as [r2 w2] eqn:Hsa.
  pose proof (frame_sync_area_cache _ _ _ _ _ _ Hsa) as Hf2.
  apply (sync_area_cache_spec w1 self sl1 a false r2 w2 Hhost1 Hb1 Hs1 Ha) in Hsa;
    [|rewrite Hreg1, Hia1; apply Hareas].
  destruct Hsa as [(-> & sl2 & Hs2 & Hd2 & Hih2 & Hidx2 & Hext2 & Hsyn2 & Hoth2)
                  |(-> & -> & Hnia & Hnone)].
  2:{ (* the area was not infected: KeyError, nothing has changed *)
    intros H. simplify_eq. exists sl1.
    assert (Hz : cell sl h a = Some 0).
    { eapply cell_zero_of_not_one; eauto. intros Hc. apply Hnia. rewrite Hia1.
      destruct (Hareas a) as [Hx _]. apply Hx. eauto. }
    pose proof (cleared_cell_same _ _ _ _ Hcell1 Hz) as Hsame.
    split_and!; try done; [|by right; right].
    eapply (lineage_ok_cleared w _ self sl sl1 h a); try done.
    - split; [|by rewrite Hreg1, Hia1; apply Hareas].
      rewrite Hia1. destruct (Hareas a) as [-> _].
      split; intros (h' & Hc); exists h'; [by rewrite Hsame | by rewrite <- Hsame].
    - unfold host_synced. rewrite Hih1. pose proof (Hhosts h) as Hh0.
      unfold host_synced in Hh0. rewrite Hh0.
      split; intros (a' & Hc); exists a'; [by rewrite Hsame | by rewrite <- Hsame].
    - intros a' _. by rewrite Hia1.
    - intros h' _. by rewrite Hih1. }
  assert (Hcell2 : ∀ h' a', cell sl2 h' a' = cell sl1 h' a').
  { intros. by apply cell_eq_dist. }
  assert (Hhost2 : host_system_ok w2) by (eapply frame_host_system_ok; eauto).
  assert (Hb2 : base_ok w2 sl2).
  { eapply (base_ok_ext w1 w2 sl1 sl2); try done.
    - by destruct Hf2 as (? & _ & _).
    - by eapply frame_length.
    - intros. by rewrite Hcell2.
    - intros ???. rewrite Hcell2. by left. }
  assert (Hh2 : h ∈ dom (host_lineages w2)).
  { destruct Hf2 as (-> & _ & _). done. }
  rewrite bind_run. destruct (sync_host_cache self h false w2) as [r3 w3] eqn:Hsh.
  apply (sync_host_cache_spec w2 self sl2 h false r3 w3 Hhost2 Hb2 Hs2 Hh2) in Hsh.
  assert (Hoa : ∀ a', a' ≠ a →
     (a' ∈ _infected_areas sl2 ↔ a' ∈ _infected_areas sl)
     ∧ (registered w2 self a' ↔ registered w self a')).
  { intros a' Hne. destruct (Hoth2 a' Hne) as [Hx Hy]. by rewrite Hx, Hy, Hia1, Hreg1. }
  assert (Hcellf : ∀ h' a', cell sl2 h' a'
            = if decide (h' = h ∧ a' = a) then Some 0 else cell sl h' a').
  { intros. by rewrite Hcell2, Hcell1. }
  destruct Hsh as [(-> & Har3 & Hho3 & sl3 & Hs3 & Hd3 & Hia3 & Hidx3 & Hext3 & Hsyn3 & Hoth3)
                  |(-> & -> & Hnih & Hnone)].
  2:{ (* the host was not infected: KeyError, the caches are as they were *)
    intros H. injection H as Hr Hw. subst r. subst w'. exists sl2.
    assert (Hz : cell sl h a = Some 0).
    { eapply cell_zero_of_not_one; eauto. intros Hc. apply Hnih. rewrite Hih2, Hih1.
      apply (Hhosts h). eauto. }
    pose proof (cleared_cell_same _ _ _ _ Hcellf Hz) as Hsame.
    assert (Hok2 : lineage_ok w2 self sl2).
    { eapply (lineage_ok_cleared w w2 self sl sl2 h a); try done.
      - by destruct Hf2 as (? & _ & _).
      - by rewrite (frame_length _ _ _ Hf2).
      - intros h' _. by rewrite Hih2, Hih1. }
    split_and!; try done; try congruence.
    right; right. split_and!; try congruence.
    apply set_eq. intros a'. destruct (decide (a' = a)) as [->|Hne]; [|by apply Hoa].
    destruct Hsyn2 as [-> _]. destruct (Hareas a) as [-> _].
    split; intros (h' & Hc); exists h'; [by rewrite <- Hsame | by rewrite Hsame]. }
  assert (Hcell3 : ∀ h' a', cell sl3 h' a'
            = if decide (h' = h ∧ a' = a) then Some 0 else cell sl h' a').
  { intros. rewrite <- Hcellf. by apply cell_eq_dist. }
  assert (Hok3 : lineage_ok w3 self sl3).
  { eapply (lineage_ok_cleared w w3 self sl sl3 h a); try done.
    - rewrite Hho3. by destruct Hf2 as (? & _ & _).
    - rewrite Har3. by rewrite (frame_length _ _ _ Hf2).
    - destruct Hsyn2 as [Hx Hy]. split.
      + rewrite Hia3, Hx. split; intros (h' & Hc); exists h'.
        * rewrite Hcell3, <- Hcellf. done.
        * rewrite Hcellf, <- Hcell3. done.
      + rewrite Hia3, <- Hy. by apply registered_same_areas.
    - intros a' Hne. rewrite Hia3. destruct (Hoa a' Hne) as [Hx Hy].
      split; [done|]. rewrite <- Hy. by apply registered_same_areas.
    - intros h' Hne. rewrite (Hoth3 h' Hne), Hih2, Hih1. done. }
  rewrite (check_for_null_distribution_run w3 self sl3 Hs3).
  intros H. simplify_eq. exists sl3.
  split_and!; try done; try congruence.
  case_bool_decide; [left|right; left]; done.
Qed.

Definition non_null_in (w : World) (self : nat) : Prop :=
  ∃ sl, symbiont_lineages w !! self = Some sl ∧ non_null sl.

Definition consistent_in (w : World) (self : nat) : Prop :=
  ∃ sl, symbiont_lineages w !! self = Some sl ∧ lineage_ok w self sl.

(** *** A freshly constructed lineage is consistent *)

(** No area lists a lineage that does not exist. *)
Definition symbionts_closed (w : World) : Prop :=
  ∀ a ar, areas w !! a = Some ar
          → Area.symbiont_lineages ar ⊆ dom (symbiont_lineages w).

Lemma cell_init idx w h a :
  cell (init idx w) h a
  = if decide (h ∈ dom (host_lineages w) ∧ (a < length (areas w))%nat)
    then Some 0 else None.
Proof.
  unfold cell, matrix_cell, init. cbn [_host_area_distribution].
  rewrite lookup_gset_to_gmap. destruct (decide (h ∈ dom (host_lineages w))) as [Hh|Hh].
  - rewrite option_guard_True by done. simpl. rewrite lookup_gset_to_gmap.
    assert (a ∈ (list_to_set (area_ids w) : gset nat) ↔ (a < length (areas w))%nat) as Hiff.
    { rewrite elem_of_list_to_set. unfold area_ids. rewrite elem_of_seq. lia. }
    destruct (decide (a < length (areas w))%nat) as [Ha|Ha].
    + rewrite option_guard_True by (by apply Hiff). rewrite decide_True by done. done.
    + rewrite option_guard_False by (by rewrite Hiff). rewrite decide_False by tauto. done.
  - rewrite option_guard_False by done. rewrite decide_False by tauto. done.
Qed.

Lemma init_lineage_ok w idx self syms :
  (∀ a, ¬ registered w self a) →
  lineage_ok (mkWorld (areas w) (host_lineages w) syms) self (init idx w).
Proof.
  intros Hreg. split; [split; [|split]|split].
  - intros h a. rewrite cell_init. simpl. case_decide; [split; eauto|].
    split; [by intros [? ?]|done].
  - intros h a v. rewrite cell_init. case_decide; [|done]. intros; simplify_eq. by left.
  - intros h a. rewrite cell_init. case_decide; done.
  - intros a. split.
    + simpl. split; [set_solver|]. intros (h & Hc). rewrite cell_init in Hc.
      case_decide; done.
    + split; [|simpl; set_solver]. intros Hr. exfalso. eapply Hreg. exact Hr.
  - intros h. unfold host_synced. simpl. split; [set_solver|]. intros (a & Hc).
    rewrite cell_init in Hc. case_decide; done.
Qed.

Lemma new_consistent w idx self w' :
  symbionts_closed w → new idx w = (Ok self, w') →
  consistent_in w' self
  ∧ symbiont_lineages w !! self = None
  ∧ frame self w w'
  ∧ symbionts_closed w'.
Proof.
  intros Hclosed H. unfold new in H. injection H as <- <-.
  set (self := fresh (dom (symbiont_lineages w))).
  assert (Hfresh : self ∉ dom (symbiont_lineages w)) by apply is_fresh.
  split_and!.
  - exists (init idx w). split; [apply lookup_insert_eq|].
    apply init_lineage_ok.
    intros a (ar & Har & Hin). apply Hfresh. eapply Hclosed; eauto.
  - by apply not_elem_of_dom.
  - split; [done|]. split; [apply (frame_refl self w)|].
    intros s Hne. simpl. by rewrite lookup_insert_ne.
  - intros a ar Har. simpl in *. rewrite dom_insert_L.
    specialize (Hclosed a ar Har). set_solver.
Qed.

(** *** Checking the host side of a concrete store *)

Definition host_system_check (w : World) : bool :=
  forallb
    (λ p : Z * HostLineage.t,
       forallb
         (λ a, match areas w !! a with
               | Some ar => bool_decide (p.1 ∈ Area.host_lineages ar)
               | None => false
               end)
         (elements (HostLineage._current_areas p.2)))
    (map_to_list (host_lineages w))
  && forallb
       (λ p : nat * Area.t,
          forallb
            (λ h, match host_lineages w !! h with
                  | Some hl => bool_decide (p.1 ∈ HostLineage._current_areas hl)
                  | None => false
                  end)
            (elements (Area.host_lineages p.2)))
       (imap (λ i ar, (i, ar)) (areas w)).

Lemma host_system_check_ok w : host_system_check w = true → host_system_ok w.
Proof.
  unfold host_system_check. rewrite andb_true_iff, !forallb_forall.
  intros [H1 H2] h a. split.
  - intros (hl & Hhl & Hin).
    specialize (H1 (h, hl)). rewrite forallb_forall in H1.
    assert (In (h, hl) (map_to_list (host_lineages w))) as Hi.
    { apply list_elem_of_In. by apply elem_of_map_to_list. }
    specialize (H1 Hi a). simpl in H1.
    assert (In a (elements (HostLineage._current_areas hl))) as Hia.
    { apply list_elem_of_In. by apply elem_of_elements. }
    specialize (H1 Hia). destruct (areas w !! a) as [ar|] eqn:Har; [|done].
    exists ar. split; [done|]. by apply bool_decide_eq_true in H1.
  - intros (ar & Har & Hin).
    specialize (H2 (a, ar)). rewrite forallb_forall in H2.
    assert (In (a, ar) (imap (λ i ar, (i, ar)) (areas w))) as Hi.
    { apply list_elem_of_In. apply elem_of_lookup_imap. eauto. }
    specialize (H2 Hi h). simpl in H2.
    assert (In h (elements (Area.host_lineages ar))) as Hih.
    { apply list_elem_of_In. by apply elem_of_elements. }
    specialize (H2 Hih). destruct (host_lineages w !! h) as [hl|] eqn:Hhl; [|done].
    exists hl. split; [done|]. by apply bool_decide_eq_true in H2.
Qed.

Definition symbionts_closed_check (w : World) : bool :=
  forallb
    (λ ar, forallb (λ s, bool_decide (s ∈ dom (symbiont_lineages w)))
             (elements (Area.symbiont_lineages ar)))
    (areas w).

Lemma symbionts_closed_check_ok w : symbionts_closed_check w = true → symbionts_closed w.
Proof.
  unfold symbionts_closed_check. rewrite forallb_forall. intros H a ar Har s Hs.
  assert (In ar (areas w)) as Hi.
  { apply list_elem_of_In. eapply list_elem_of_lookup_2; eauto. }
  specialize (H ar Hi). rewrite forallb_forall in H.
  specialize (H s). rewrite bool_decide_eq_true in H. apply H.
  apply list_elem_of_In, elem_of_elements, Hs.
Qed.

(** *** [update_distribution] *)

Lemma elem_of_cells (m : gmap Z (gmap nat Z)) h a v :
  (h, a, v) ∈ cells m ↔ matrix_cell m h a = Some v.
Proof.
  unfold cells, matrix_cell. rewrite list_elem_of_bind. split.
  - intros ([h' row] & Hin & Hrow). apply elem_of_map_to_list in Hrow.
    apply list_elem_of_bind in Hin as ([a' v'] & Hin & Hcell).
    apply elem_of_map_to_list in Hcell. apply list_elem_of_singleton in Hin.
    simplify_eq. rewrite Hrow. done.
  - destruct (m !! h) as [row|] eqn:Hrow; [|done]. simpl. intros Hcell.
    exists (h, row). split; [|by apply elem_of_map_to_list].
    apply list_elem_of_bind. exists (a, v). split; [by apply list_elem_of_singleton|].
    by apply elem_of_map_to_list.
Qed.

Definition update_body (self : nat) : Z * nat * Z → M unit :=
  λ '(host_lineage, area, v),
    if Z.eqb v 1 then
      sl ← get_symbiont self;
      mine ← lift (read_cell sl host_lineage area);
      if Z.eqb mine 0 then add_host_in_area self host_lineage (Some area)
      else mret tt
    else mret tt.

Lemma update_loop self l : ∀ w sl,
  host_system_ok w → symbiont_lineages w !! self = Some sl → lineage_ok w self sl →
  (∀ h a, (h, a, 1) ∈ l → occupies w h a) →
  ∃ w' sl', for_each l (update_body self) w = (Ok tt, w')
    ∧ frame self w w'
    ∧ symbiont_lineages w' !! self = Some sl'
    ∧ lineage_ok w' self sl'
    ∧ index sl' = index sl ∧ is_extant sl' = is_extant sl
    ∧ ∀ h a, cell sl' h a = Some 1 ↔ cell sl h a = Some 1 ∨ (h, a, 1) ∈ l.
Proof.
  induction l as [|[[h a] v] l IH]; intros w sl Hhost Hs Hok Hocc.
  - exists w, sl. split_and!; try done; [apply frame_refl|].
    intros h a. split; [by left|]. intros [?|Hin]; [done|]. by apply elem_of_nil in Hin.
  - assert (Hrest : ∀ h' a', (h', a', 1) ∈ l → occupies w h' a').
    { intros h' a' Hin. apply Hocc. by right. }
    cbn [for_each update_body]. destruct (Z.eqb_spec v 1) as [->|Hv].
    + assert (Ho : occupies w h a) by (apply Hocc; by left).
      destruct (occupies_valid _ _ _ Hhost Ho) as [Hh Ha].
      pose proof Hok as ((Hm & Hbits & _) & _ & _).
      destruct (proj2 (Hm h a) (conj Hh Ha)) as [mine Hmine].
      rewrite run_assoc. erewrite run_get_symbiont by eauto.
      unfold read_cell. rewrite Hmine. rewrite run_assoc, run_lift_ok.
      destruct (Z.eqb_spec mine 0) as [->|Hne].
      * destruct (add_host_in_area_some_spec w self sl h a Hhost Hs Hok Ho)
          as (w1 & sl1 & Hrun & Hs1 & Hok1 & Hcell1 & _ & _ & Hidx1 & Hext1).
        pose proof (frame_add_host_in_area self h (Some a) _ _ _ Hrun) as Hf1.
        rewrite bind_run, Hrun.
        destruct (IH w1 sl1) as (w' & sl' & Hrun' & Hf' & Hs' & Hok' & Hidx' & Hext' & Hcell');
          [by eapply frame_host_system_ok|done|done| |].
        { intros h' a' Hin. apply (frame_occupies _ _ _ _ _ Hf1). by apply Hrest. }
        exists w', sl'. split_and!; try done; try congruence.
        -- eapply frame_trans; eauto.
        -- intros h' a'. rewrite Hcell', Hcell1. rewrite elem_of_cons.
           case_decide as Hd.
           ++ destruct Hd as [-> ->]. split; [intros _; right; by left|by left].
           ++ split; [intros [?|?]; [by left|right; by right]|].
              intros [?|[?|?]]; [by left| |by right]. simplify_eq. tauto.
      * rewrite run_ret.
        destruct (IH w sl) as (w' & sl' & Hrun' & Hf' & Hs' & Hok' & Hidx' & Hext' & Hcell');
          try done.
        exists w', sl'. split_and!; try done.
        intros h' a'. rewrite Hcell'. rewrite elem_of_cons.
        split; [intros [?|?]; [by left|right; by right]|].
        intros [?|[?|?]]; [by left| |by right]. simplify_eq. left.
        destruct (Hbits _ _ _ Hmine) as [->| ->]; done.
    + rewrite run_ret.
      destruct (IH w sl) as (w' & sl' & Hrun' & Hf' & Hs' & Hok' & Hidx' & Hext' & Hcell');
        try done.
      exists w', sl'. split_and!; try done.
      intros h' a'. rewrite Hcell'. rewrite elem_of_cons.
      split; [intros [?|?]; [by left|right; by right]|].
      intros [?|[?|?]]; [by left| |by right]. simplify_eq.
Qed.

Lemma update_distribution_spec w self other sl o :
  host_system_ok w → self ≠ other →
  symbiont_lineages w !! self = Some sl → lineage_ok w self sl →
  symbiont_lineages w !! other = Some o → lineage_ok w other o →
  ∃ w' sl', update_distribution self other w = (Ok tt, w')
    ∧ frame self w w'
    ∧ symbiont_lineages w' !! self = Some sl'
    ∧ lineage_ok w' self sl'
    ∧ index sl' = index sl ∧ is_extant sl' = is_extant sl
    ∧ (∀ h a, cell sl' h a = Some 1 ↔ cell sl h a = Some 1 ∨ cell o h a = Some 1)
    ∧ (∀ h, h ∈ _infected_hosts sl' ↔ h ∈ _infected_hosts sl ∨ h ∈ _infected_hosts o)
    ∧ (∀ a, a ∈ _infected_areas sl' ↔ a ∈ _infected_areas sl ∨ a ∈ _infected_areas o).
Proof.
  intros Hhost Hne Hs Hok Ho Hoko.
  pose proof Hoko as ((_ & _ & Hocc_o) & Hareas_o & Hhosts_o).
  destruct (update_loop self (cells (_host_area_distribution o)) w sl Hhost Hs Hok)
    as (w1 & sl1 & Hrun & Hf & Hs1 & Hok1 & Hidx & Hext & Hcell1).
  { intros h a Hin. apply Hocc_o. by apply elem_of_cells. }
  assert (Hcell : ∀ h a, cell sl1 h a = Some 1 ↔ cell sl h a = Some 1 ∨ cell o h a = Some 1).
  { intros h a. rewrite Hcell1. by rewrite elem_of_cells. }
  assert (Ho1 : symbiont_lineages w1 !! other = Some o).
  { destruct Hf as (_ & _ & Hsame). rewrite Hsame by done. done. }
  pose proof Hok1 as (Hb1 & Hareas1 & Hhosts1).
  pose proof Hok as (_ & Hareas & Hhosts).
  unfold host_synced in Hhosts, Hhosts_o, Hhosts1.
  assert (Hsub_h : ∀ h, h ∈ _infected_hosts sl ∨ h ∈ _infected_hosts o
                        ↔ h ∈ _infected_hosts sl1).
  { intros h. rewrite (Hhosts h), (Hhosts_o h), (Hhosts1 h).
    split.
    - intros [(a & Hc)|(a & Hc)]; exists a; apply Hcell; tauto.
    - intros (a & Hc). apply Hcell in Hc as [?|?]; [left|right]; eauto. }
  assert (Hsub_a : ∀ a, a ∈ _infected_areas sl ∨ a ∈ _infected_areas o
                        ↔ a ∈ _infected_areas sl1).
  { intros a. destruct (Hareas a) as [-> _]. destruct (Hareas_o a) as [-> _].
    destruct (Hareas1 a) as [-> _]. split.
    - intros [(h & Hc)|(h & Hc)]; exists h; apply Hcell; tauto.
    - intros (h & Hc). apply Hcell in Hc as [?|?]; [left|right]; eauto. }
  unfold update_distribution. erewrite run_get_symbiont by eauto.
  fold (update_body self). rewrite bind_run, Hrun.
  erewrite run_get_symbiont by eauto. erewrite run_get_symbiont by eauto.
  unfold set_symbiont. eexists _, _. split; [reflexivity|]. wsimpl.
  assert (Hih : ∀ h, h ∈ _infected_hosts sl1 ∪ _infected_hosts o ↔ h ∈ _infected_hosts sl1).
  { intros h. rewrite elem_of_union. specialize (Hsub_h h). tauto. }
  assert (Hia : ∀ a, a ∈ _infected_areas sl1 ∪ _infected_areas o ↔ a ∈ _infected_areas sl1).
  { intros a. rewrite elem_of_union. specialize (Hsub_a a). tauto. }
  split.
  { destruct Hf as (Hfh & Hfa & Hfs). split; [|split]; simpl; try done.
    intros s Hs'. rewrite lookup_insert_ne by done. by apply Hfs. }
  split; [apply lookup_insert_eq|].
  split_and!; try done.
  - split; [|split].
    + exact Hb1.
    + intros a. destruct (Hareas1 a) as [Hx Hy]. split; wsimpl.
      * rewrite Hia. exact Hx.
      * rewrite Hia. rewrite <- Hy. by apply registered_same_areas.
    + intros h. unfold host_synced. wsimpl. rewrite Hih. apply Hhosts1.
  - intros h. wsimpl. rewrite Hih. by rewrite Hsub_h.
  - intros a. wsimpl. rewrite Hia. by rewrite Hsub_a.
Qed.

(** *** [clear_distribution] *)

Lemma area_remove_symbiont_run w a self ar :
  areas w !! a = Some ar → self ∈ Area.symbiont_lineages ar →
  area_remove_symbiont a self w
  = (Ok tt, mkWorld (<[a := Area.mk (Area.area_idx ar) (Area.host_lineages ar)
                              (Area.symbiont_lineages ar ∖ {[self]})]> (areas w))
              (host_lineages w) (symbiont_lineages w)).
Proof.
  intros Har Hin. unfold area_remove_symbiont. erewrite run_get_area by eauto.
  unfold set_remove. rewrite bool_decide_eq_true_2 by done. by rewrite run_lift_ok.
Qed.

Lemma unregister_loop self l : ∀ w,
  NoDup l → (∀ a, a ∈ l → registered w self a) →
  ∃ w', for_each l (λ area, area_remove_symbiont area self) w = (Ok tt, w')
    ∧ frame self w w'
    ∧ symbiont_lineages w' = symbiont_lineages w
    ∧ ∀ a, registered w' self a ↔ registered w self a ∧ a ∉ l.
Proof.
  induction l as [|a l IH]; intros w Hnd Hreg.
  - exists w. split_and!; try done; [apply frame_refl|]. intros a. set_solver.
  - apply NoDup_cons in Hnd as [Hnin Hnd].
    destruct (Hreg a) as (ar & Har & Hin); [by left|].
    cbn [for_each]. rewrite bind_run, (area_remove_symbiont_run w a self ar Har Hin).
    set (ar' := Area.mk (Area.area_idx ar) (Area.host_lineages ar)
                  (Area.symbiont_lineages ar ∖ {[self]})).
    set (w1 := mkWorld (<[a:=ar']> (areas w)) (host_lineages w) (symbiont_lineages w)).
    assert (Hreg1 : ∀ a', registered w1 self a' ↔ registered w self a' ∧ a' ≠ a).
    { intros a'. unfold w1. erewrite registered_set_area by eassumption.
      case_decide as Hd; [subst; simpl; set_solver|tauto]. }
    destruct (IH w1 Hnd) as (w' & Hrun & Hf & Hsy & Hreg').
    { intros a' Hin'. apply Hreg1. split; [apply Hreg; by right|]. intros ->. done. }
    exists w'. split_and!; try done.
    + eapply frame_trans; [|exact Hf]. eapply frame_set_area; [exact Har|].
      split_and!; try done. intros s Hs. simpl. set_solver.
    + intros a'. rewrite Hreg', Hreg1. set_solver.
Qed.

Lemma clear_distribution_spec w self sl :
  symbiont_lineages w !! self = Some sl → lineage_ok w self sl →
  ∃ w' sl', clear_distribution self w = (Ok tt, w')
    ∧ frame self w w'
    ∧ symbiont_lineages w' !! self = Some sl'
    ∧ lineage_ok w' self sl'
    ∧ index sl' = index sl ∧ is_extant sl' = is_extant sl
    ∧ (∀ h a, cell sl' h a = (λ _, 0) <$> cell sl h a)
    ∧ _infected_hosts sl' = ∅ ∧ _infected_areas sl' = ∅
    ∧ ∀ a, ¬ registered w' self a.
Proof.
  intros Hs ((Hm & Hbits & Hocc) & Hareas & Hhosts).
  unfold clear_distribution. erewrite run_get_symbiont by eauto.
  rewrite run_set_symbiont.
  set (sl0 := with_distribution sl _).
  set (w0 := mkWorld (areas w) (host_lineages w) (<[self:=sl0]> (symbiont_lineages w))).
  destruct (unregister_loop self (elements (_infected_areas sl)) w0)
    as (w1 & Hrun & Hf & Hsy & Hreg).
  { apply NoDup_elements. }
  { intros a Hin. apply elem_of_elements in Hin.
    destruct (Hareas a) as [_ Hr]. apply Hr in Hin. exact Hin. }
  rewrite bind_run, Hrun.
  assert (Hs1 : symbiont_lineages w1 !! self = Some sl0).
  { rewrite Hsy. apply lookup_insert_eq. }
  erewrite run_get_symbiont by eauto. unfold set_symbiont.
  eexists _, _. split; [reflexivity|].
  assert (Hcell : ∀ h a, cell sl0 h a = (λ _, 0) <$> cell sl h a).
  { intros h a. unfold cell, matrix_cell, sl0. wsimpl. rewrite lookup_fmap.
    destruct (_host_area_distribution sl !! h) as [row|]; [|done]. simpl.
    by rewrite lookup_fmap. }
  assert (Hnone : ∀ a, ¬ registered w1 self a).
  { intros a Hr. apply Hreg in Hr as [Hr Hnin]. apply Hnin, elem_of_elements.
    destruct (Hareas a) as [_ Hx]. by apply Hx. }
  split.
  { destruct Hf as (Hfh & Hfa & Hfs). split; [|split]; simpl; try done.
    intros s Hne. rewrite lookup_insert_ne by done. rewrite Hfs by done.
    simpl. by rewrite lookup_insert_ne. }
  split; [apply lookup_insert_eq|].
  set (sl' := with_infected_areas (with_infected_hosts sl0 ∅) ∅).
  assert (Hcell' : ∀ h a, cell sl' h a = (λ _, 0) <$> cell sl h a).
  { intros h a. rewrite <- Hcell. by apply cell_eq_dist. }
  split_and!; try done.
  - split; [split; [|split]|split].
    + intros h a. rewrite Hcell', fmap_is_Some. simpl. rewrite (frame_length _ _ _ Hf).
      destruct Hf as (-> & _ & _). simpl. apply Hm.
    + intros h a v. rewrite Hcell'.
      destruct (cell sl h a); simpl; [|done]. intros; simplify_eq. by left.
    + intros h a. rewrite Hcell'. destruct (cell sl h a); simpl; done.
    + intros a. split.
      * split; [set_solver|]. intros (h & Hc). rewrite Hcell' in Hc.
        destruct (cell sl h a); simpl in Hc; done.
      * split; [|set_solver]. intros Hr. exfalso. apply (Hnone a).
        revert Hr. by apply registered_same_areas.
    + intros h. unfold host_synced. split; [set_solver|].
      intros (a & Hc). rewrite Hcell' in Hc.
      destruct (cell sl h a); simpl in Hc; done.
Qed.
End Consistency.

Import SymbiontLineage SymbiontLineageOps Consistency.

(** ** The non-null distribution invariant *)

Inductive lineage_call :=
| AddHostInArea (host_lineage : Z) (area : nat)
| RemoveHostInArea (host_lineage : Z) (area : nat).

Definition run_lineage_call (self : nat) (c : lineage_call) : M unit :=
  match c with
  | AddHostInArea h a => add_host_in_area self h (Some a)
  | RemoveHostInArea h a => remove_host_in_area self h (Some a)
  end.

(** The precondition of a call: the named host currently occupies the named
    area. *)
Definition call_pre (w : World) (c : lineage_call) : Prop :=
  match c with
  | AddHostInArea h a => occupies w h a
  | RemoveHostInArea h a => occupies w h a
  end.

Lemma non_null_add (sl sl' : SymbiontLineage.t) h a :
  _infected_hosts sl' = {[h]} ∪ _infected_hosts sl →
  _infected_areas sl' = {[a]} ∪ _infected_areas sl →
  non_null sl'.
Proof. intros Hh Ha. unfold non_null. rewrite Hh, Ha. set_solver. Qed.

Lemma run_lineage_call_spec w self sl c r w' :
  host_system_ok w → symbiont_lineages w !! self = Some sl →
  lineage_ok w self sl → call_pre w c →
  run_lineage_call self c w = (r, w') →
  host_system_ok w' ∧ (∀ c', call_pre w' c' ↔ call_pre w c')
  ∧ ∃ sl', symbiont_lineages w' !! self = Some sl' ∧ lineage_ok w' self sl'
      ∧ ((r = Ok tt ∧ non_null sl')
         ∨ (r = Raise (NullDistributionException self) ∧ ¬ non_null sl')
         ∨ (r = Raise KeyError
            ∧ _infected_hosts sl' = _infected_hosts sl
            ∧ _infected_areas sl' = _infected_areas sl)).
Proof.
  intros Hhost Hs Hok Hpre H.
  assert (Hf : frame self w w').
  { destruct c.
    - exact (frame_add_host_in_area self _ (Some _) _ _ _ H).
    - exact (frame_remove_host_in_area self _ (Some _) _ _ _ H). }
  split; [eapply frame_host_system_ok; eauto|].
  split; [intros [h' a'|h' a']; simpl; eapply frame_occupies; eauto|].
  destruct c as [h a|h a]; unfold run_lineage_call in H; simpl in Hpre.
  - destruct (add_host_in_area_some_spec w self sl h a Hhost Hs Hok Hpre)
      as (w1 & sl1 & Hrun & Hs1 & Hok1 & _ & Hih & Hia & _).
    rewrite Hrun in H. simplify_eq. exists sl1. split_and!; try done.
    left. split; [done|]. eapply non_null_add; eauto.
  - destruct (remove_host_in_area_some_spec w self sl h a r w' Hhost Hs Hok Hpre H)
      as (sl1 & Hs1 & Hok1 & _ & _ & _ & Hcases).
    exists sl1. split_and!; done.
Qed.

Lemma run_calls_spec self cs : ∀ w sl w1,
  host_system_ok w → symbiont_lineages w !! self = Some sl →
  lineage_ok w self sl → Forall (call_pre w) cs →
  for_each cs (run_lineage_call self) w = (Ok tt, w1) →
  host_system_ok w1 ∧ (∀ c', call_pre w1 c' ↔ call_pre w c')
  ∧ consistent_in w1 self
  ∧ (cs ≠ [] → non_null_in w1 self).
Proof.
  induction cs as [|c cs IH]; intros w sl w1 Hhost Hs Hok Hpre H.
  - simpl in H. injection H as <-. split_and!; try done. by exists sl.
  - apply Forall_cons in Hpre as [Hc Hcs]. simpl in H.
    apply bind_inv in H as [([] & w2 & H1 & H2)|(e & _ & ?)]; [|done].
    destruct (run_lineage_call_spec w self sl c _ _ Hhost Hs Hok Hc H1)
      as (Hhost2 & Hpre2 & sl2 & Hs2 & Hok2 & Hcases).
    destruct (IH w2 sl2 w1 Hhost2 Hs2 Hok2) as (Hhost1 & Hpre1 & Hcons1 & Hnn1); [|done|].
    { eapply Forall_impl; [exact Hcs|]. intros c'. apply Hpre2. }
    split_and!; try done.
    + intros c'. rewrite Hpre1. apply Hpre2.
    + intros _. destruct cs as [|c2 cs]; [|apply Hnn1; done].
      simpl in H2. injection H2 as <-. exists sl2. split; [done|].
      destruct Hcases as [[_ ?]|[[? _]|[? _]]]; done.
Qed.



Module SymbiontExamples.
(** Two host lineages over three areas: host 1 starts in area 1, host 2 in
    areas 0 and 1; both are active. *)
Definition defn_110 : HostLineageDefinition.t :=
  HostLineageDefinition.mk 2 (Some 1) "1" "1" (0#1) (10#1) "110" "110" false true true.

Definition history : HostHistory.t :=
  HostHistory.mk [] [(1, HostHistoryExamples.defn_010); (2, defn_110)].

Definition compiled : World :=
  match HostSystem.compile history (1#1) false with
  | Ok w => w
  | Raise _ => mkWorld [] ∅ ∅
  end.

Definition hosts_active : World :=
  (for_each [1; 2] (λ h, HostLineageOps.activate is_in_range_closed h None None)
     compiled).2.

(** A first symbiont lineage is constructed on that host system. *)
Definition seeded : World := (SymbiontLineageOps.new 0 hosts_active).2.
Definition lineage : nat := fresh (dom (symbiont_lineages hosts_active)).

Definition calls : list lineage_call := [AddHostInArea 1 1; AddHostInArea 2 0].
Definition after_calls : World := (for_each calls (run_lineage_call lineage) seeded).2.
End SymbiontExamples.

Lemma hosts_active_ok : host_system_ok SymbiontExamples.hosts_active.
Proof. apply host_system_check_ok. vm_compute. reflexivity. Qed.

Lemma hosts_active_closed : symbionts_closed SymbiontExamples.hosts_active.
Proof. apply symbionts_closed_check_ok. vm_compute. reflexivity. Qed.

Lemma seeded_ok : host_system_ok SymbiontExamples.seeded.
Proof. apply host_system_check_ok. vm_compute. reflexivity. Qed.

Lemma seeded_consistent :
  consistent_in SymbiontExamples.seeded SymbiontExamples.lineage.
Proof.
  eapply (new_consistent SymbiontExamples.hosts_active 0).
  - apply hosts_active_closed.
  - reflexivity.
Qed.

Lemma occupies_check w h a :
  (match host_lineages w !! h with
   | Some hl => bool_decide (a ∈ HostLineage._current_areas hl)
   | None => false
   end) = true → occupies w h a.
Proof.
  destruct (host_lineages w !! h) as [hl|] eqn:Hh; [|done].
  intros Hb. exists hl. split; [done|]. by apply bool_decide_eq_true in Hb.
Qed.

Example after_calls_run :
  for_each SymbiontExamples.calls (run_lineage_call SymbiontExamples.lineage)
    SymbiontExamples.seeded = (Ok tt, SymbiontExamples.after_calls).
Proof. vm_compute. reflexivity. Qed.

Example remove_last_host_raises :
  (run_lineage_call SymbiontExamples.lineage (RemoveHostInArea 1 1)
     (for_each [AddHostInArea 1 1] (run_lineage_call SymbiontExamples.lineage)
        SymbiontExamples.seeded).2).1
  = Raise (NullDistributionException SymbiontExamples.lineage).
Proof. vm_compute. reflexivity. Qed.


(** ** SymbiontPhylogeny *)

(** The part of a [dendropy.Tree] the phylogeny operations touch: the child
    list and the parent of each node, and the seed node. *)
Module Tree.
Record t := mk {
  seed_node : nat;
  _child_nodes : gmap nat (list nat);
  _parent_node : gmap nat nat;
}.

Definition child_nodes (tr : t) (n : nat) : list nat := default [] (_child_nodes tr !! n).
End Tree.

Module SymbiontPhylogeny.
Record t := mk {
  tree : Tree.t;
  current_lineages : gset nat;
  lineage_indexer : nat;
}.
End SymbiontPhylogeny.

(** Computations on a phylogeny and the store it lives in. *)
Definition PM (A : Type) : Type :=
  SymbiontPhylogeny.t * World → result A * (SymbiontPhylogeny.t * World).

#[global] Instance PM_ret : MRet PM := λ A a s, (Ok a, s).
#[global] Instance PM_bind : MBind PM := λ A B k m s,
  match m s with
  | (Ok a, s') => k a s'
  | (Raise e, s') => (Raise e, s')
  end.

Definition in_world {A} (m : M A) : PM A := λ s,
  match m s.2 with
  | (r, w') => (r, (s.1, w'))
  end.

Definition get_phylogeny : PM SymbiontPhylogeny.t := λ s, (Ok s.1, s).
Definition put_phylogeny (p : SymbiontPhylogeny.t) : PM unit := λ s, (Ok tt, (p, s.2)).
Definition praise {A} (e : exn) : PM A := λ s, (Raise e, s).

Module SymbiontPhylogenyOps.
Import SymbiontPhylogeny.

(** [next(self.lineage_indexer)]: [utility.IndexGenerator] is not among the
    sources at hand; it is taken to count upwards, one index per call. *)
Definition next_index : PM nat :=
  p ← get_phylogeny;
  put_phylogeny (mk (tree p) (current_lineages p) (S (lineage_indexer p)));;
  mret (lineage_indexer p).

Definition node_factory (index : nat) : PM nat :=
  in_world (SymbiontLineageOps.new index).

(** [dendropy.Node.add_child]: the node gets [self] as its parent and is
    appended to the children of [self] unless it is one already. *)
Definition add_child (self : nat) (node : nat) : PM unit :=
  p ← get_phylogeny;
  let tr := tree p in
  if bool_decide (node = self) then praise AssertionError
  else if bool_decide (Tree._parent_node tr !! self = Some node) then praise AssertionError
  else
    let children := Tree.child_nodes tr self in
    let children' :=
      if bool_decide (node ∈ children) then children else children ++ [node] in
    put_phylogeny
      (mk (Tree.mk (Tree.seed_node tr)
             (<[self := children']> (Tree._child_nodes tr))
             (<[node := self]> (Tree._parent_node tr)))
          (current_lineages p) (lineage_indexer p)).

Definition set_is_extant (s : nat) (b : bool) : M unit :=
  sl ← get_symbiont s;
  set_symbiont s (SymbiontLineageOps.with_is_extant sl b).

Definition current_lineages_add (s : nat) : PM unit :=
  p ← get_phylogeny;
  put_phylogeny (mk (tree p) ({[s]} ∪ current_lineages p) (lineage_indexer p)).

Definition current_lineages_remove (s : nat) : PM unit :=
  p ← get_phylogeny;
  if bool_decide (s ∈ current_lineages p) then
    put_phylogeny (mk (tree p) (current_lineages p ∖ {[s]}) (lineage_indexer p))
  else praise KeyError.

(** [SymbiontPhylogeny.__init__] without a [seed_node] argument. *)
Definition init (w : World) : SymbiontPhylogeny.t * World :=
  match SymbiontLineageOps.new 0 w with
  | (Ok seed, w') => (mk (Tree.mk seed ∅ ∅) {[seed]} 1, w')
  | (Raise _, w') => (mk (Tree.mk 0 ∅ ∅) ∅ 1, w')
  end.

Definition split_lineage (symbiont_lineage : nat) : PM unit :=
  i1 ← next_index;
  c1 ← node_factory i1;
  i2 ← next_index;
  c2 ← node_factory i2;
  in_world (SymbiontLineageOps.update_distribution c1 symbiont_lineage);;
  in_world (SymbiontLineageOps.update_distribution c2 symbiont_lineage);;
  in_world (set_is_extant symbiont_lineage false);;
  current_lineages_remove symbiont_lineage;;
  in_world (SymbiontLineageOps.clear_distribution symbiont_lineage);;
  add_child symbiont_lineage c1;;
  add_child symbiont_lineage c2;;
  current_lineages_add c1;;
  current_lineages_add c2.

Definition total_extinction_exception {A} (msg : string) : PM A :=
  praise TotalExtinctionException.

Section Extinction.
(** [dendropy.Tree.prune_subtree] is library code; it works on the links
    of the tree and is a parameter here. *)
Variable prune_subtree : Tree.t → nat → result Tree.t.

Definition tree_prune_subtree (node : nat) : PM unit :=
  p ← get_phylogeny;
  match prune_subtree (tree p) node with
  | Ok tr => put_phylogeny (mk tr (current_lineages p) (lineage_indexer p))
  | Raise e => praise e
  end.

Definition _make_lineage_extinct_on_phylogeny (symbiont_lineage : nat) : PM unit :=
  p ← get_phylogeny;
  (if Nat.eqb (size (current_lineages p)) 1
   then total_extinction_exception "no extant lineages remaining"
   else mret tt);;
  in_world (set_is_extant symbiont_lineage false);;
  current_lineages_remove symbiont_lineage;;
  tree_prune_subtree symbiont_lineage.

Definition extinguish_lineage (symbiont_lineage : nat) : PM unit :=
  _make_lineage_extinct_on_phylogeny symbiont_lineage.
End Extinction.
End SymbiontPhylogenyOps.

(** ** Extinction *)

(** C6. When exactly one lineage is live, [extinguish_lineage] on it raises
    [TotalExtinctionException] and leaves the phylogeny and the store exactly
    as they were: the lineage is still live, still extant, and the tree is
    the same. *)
Theorem C6_total_extinction_is_terminal
    (prune_subtree : Tree.t → nat → result Tree.t)
    (p : SymbiontPhylogeny.t) (w : World) (lineage : nat) (sl : SymbiontLineage.t) :
  size (SymbiontPhylogeny.current_lineages p) = 1%nat →
  lineage ∈ SymbiontPhylogeny.current_lineages p →
  symbiont_lineages w !! lineage = Some sl → is_extant sl = true →
  ∃ p' w',
    SymbiontPhylogenyOps.extinguish_lineage prune_subtree lineage (p, w)
      = (Raise TotalExtinctionException, (p', w'))
    ∧ p' = p ∧ w' = w
    ∧ lineage ∈ SymbiontPhylogeny.current_lineages p'
    ∧ (is_extant <$> symbiont_lineages w' !! lineage) = Some true
    ∧ SymbiontPhylogeny.tree p' = SymbiontPhylogeny.tree p.
Proof.
  intros Hsize Hlive Hs Hext. exists p, w.
  unfold SymbiontPhylogenyOps.extinguish_lineage,
    SymbiontPhylogenyOps._make_lineage_extinct_on_phylogeny.
  split.
  - cbv [mbind PM_bind get_phylogeny fst snd]. rewrite Hsize. reflexivity.
  - split_and!; try done. by rewrite Hs, <- Hext.
Qed.

(** What [extinguish_lineage] leaves of the lineage it retires. *)
Definition associations_kept (w w' : World) (lineage : nat) (sl : SymbiontLineage.t)
  : Prop :=
  areas w' = areas w
  ∧ host_lineages w' = host_lineages w
  ∧ ∃ sl', symbiont_lineages w' !! lineage = Some sl'
      ∧ _host_area_distribution sl' = _host_area_distribution sl
      ∧ _infected_hosts sl' = _infected_hosts sl
      ∧ _infected_areas sl' = _infected_areas sl
      ∧ is_extant sl' = false
      ∧ ∀ a, registered w' lineage a ↔ registered w lineage a.

Lemma extinguish_lineage_run prune_subtree p w lineage sl :
  symbiont_lineages w !! lineage = Some sl →
  SymbiontPhylogenyOps.extinguish_lineage prune_subtree lineage (p, w)
  = if Nat.eqb (size (SymbiontPhylogeny.current_lineages p)) 1
    then (Raise TotalExtinctionException, (p, w))
    else
      let w' := mkWorld (areas w) (host_lineages w)
                  (<[lineage := with_is_extant sl false]> (symbiont_lineages w)) in
      if bool_decide (lineage ∈ SymbiontPhylogeny.current_lineages p) then
        match prune_subtree (SymbiontPhylogeny.tree p) lineage with
        | Ok tr =>
            (Ok tt,
             (SymbiontPhylogeny.mk tr
                (SymbiontPhylogeny.current_lineages p ∖ {[lineage]})
                (SymbiontPhylogeny.lineage_indexer p), w'))
        | Raise e =>
            (Raise e,
             (SymbiontPhylogeny.mk (SymbiontPhylogeny.tree p)
                (SymbiontPhylogeny.current_lineages p ∖ {[lineage]})
                (SymbiontPhylogeny.lineage_indexer p), w'))
        end
      else (Raise KeyError, (p, w')).
Proof.
  intros Hs.
  unfold SymbiontPhylogenyOps.extinguish_lineage,
    SymbiontPhylogenyOps._make_lineage_extinct_on_phylogeny,
    SymbiontPhylogenyOps.current_lineages_remove,
    SymbiontPhylogenyOps.tree_prune_subtree,
    SymbiontPhylogenyOps.set_is_extant.
  cbv [mbind PM_bind get_phylogeny put_phylogeny in_world fst snd mret PM_ret
       SymbiontPhylogenyOps.total_extinction_exception praise].
  destruct (Nat.eqb _ 1); [done|].
  rewrite bind_run. unfold get_symbiont. rewrite Hs. cbn.
  case_bool_decide; [|done]. cbn.
  destruct (prune_subtree _ _); done.
Qed.

Definition extinction_frame (prune_subtree : Tree.t → nat → result Tree.t)
    (p : SymbiontPhylogeny.t) (w : World) (lineage : nat) (sl : SymbiontLineage.t)
  : Prop :=
  (∀ p' w',
     SymbiontPhylogenyOps.extinguish_lineage prune_subtree lineage (p, w)
       = (Ok tt, (p', w')) →
     associations_kept w w' lineage sl
     ∧ (lineage ∉ SymbiontPhylogeny.current_lineages p')
     ∧ prune_subtree (SymbiontPhylogeny.tree p) lineage
         = Ok (SymbiontPhylogeny.tree p'))
  ∧ (size (SymbiontPhylogeny.current_lineages p) ≠ 1%nat →
     lineage ∈ SymbiontPhylogeny.current_lineages p →
     ∀ tr, prune_subtree (SymbiontPhylogeny.tree p) lineage = Ok tr →
     ∃ s', SymbiontPhylogenyOps.extinguish_lineage prune_subtree lineage (p, w)
           = (Ok tt, s')).

(** C10. A call of [extinguish_lineage] that returns has removed the lineage
    from the live set and marked it non-extant, and has left every cell of
    its matrix, its infected-host set, its infected-area set and its
    registration on every area as they were; and the call does return when
    more than one lineage is live, the lineage is one of them and the tree
    can be pruned. *)
Theorem C10_extinction_keeps_associations
    (prune_subtree : Tree.t → nat → result Tree.t)
    (p : SymbiontPhylogeny.t) (w : World) (lineage : nat) (sl : SymbiontLineage.t) :
  symbiont_lineages w !! lineage = Some sl →
  extinction_frame prune_subtree p w lineage sl.
Proof.
  intros Hs. unfold extinction_frame.
  rewrite (extinguish_lineage_run prune_subtree p w lineage sl Hs). split.
  - intros p' w' H. destruct (Nat.eqb _ 1); [done|]. cbn zeta in H.
    case_bool_decide; [|done].
    destruct (prune_subtree _ _) as [tr|e] eqn:Hp; [|done].
    injection H as <- <-. split_and!; simpl.
    + split_and!; try done. eexists. split; [apply lookup_insert_eq|].
      split_and!; done.
    + set_solver.
    + done.
  - intros Hsize Hlive tr Hp. apply Nat.eqb_neq in Hsize. rewrite Hsize. cbn zeta.
    rewrite bool_decide_eq_true_2 by done. rewrite Hp. eauto.
Qed.

Module PhylogenyExamples.
(** A pruning that unlinks the node from its parent, for the examples. *)
Definition unlink (tr : Tree.t) (node : nat) : result Tree.t :=
  match Tree._parent_node tr !! node with
  | None => Raise (TypeError "Node has no parent and is implicit root: cannot be pruned" [])
  | Some parent =>
      Ok (Tree.mk (Tree.seed_node tr)
            (<[parent := filter (λ n, n ≠ node) (Tree.child_nodes tr parent)]>
               (Tree._child_nodes tr))
            (delete node (Tree._parent_node tr)))
  end.

(** The seed lineage on the two active hosts, infecting host 1 in area 1 and
    host 2 in area 0. *)
Definition seeded : SymbiontPhylogeny.t * World :=
  let '(p, w) := SymbiontPhylogenyOps.init SymbiontExamples.hosts_active in
  (p, (for_each SymbiontExamples.calls
         (run_lineage_call (Tree.seed_node (SymbiontPhylogeny.tree p))) w).2).

Definition seed : nat := Tree.seed_node (SymbiontPhylogeny.tree seeded.1).

Definition after_split : SymbiontPhylogeny.t * World :=
  (SymbiontPhylogenyOps.split_lineage seed seeded).2.
End PhylogenyExamples.

Example split_example :
  (SymbiontPhylogenyOps.split_lineage PhylogenyExamples.seed PhylogenyExamples.seeded).1
  = Ok tt
  ∧ SymbiontPhylogeny.current_lineages PhylogenyExamples.after_split.1
    = {[1%nat; 2%nat]}
  ∧ Tree.child_nodes (SymbiontPhylogeny.tree PhylogenyExamples.after_split.1)
      PhylogenyExamples.seed = [1; 2]%nat.
Proof. vm_compute. done. Qed.

Lemma C6_total_extinction_is_terminal_witness :
  ∃ sl,
    size (SymbiontPhylogeny.current_lineages PhylogenyExamples.seeded.1) = 1%nat
    ∧ PhylogenyExamples.seed
        ∈ SymbiontPhylogeny.current_lineages PhylogenyExamples.seeded.1
    ∧ symbiont_lineages PhylogenyExamples.seeded.2 !! PhylogenyExamples.seed = Some sl
    ∧ is_extant sl = true
    ∧ ∃ p' w',
        SymbiontPhylogenyOps.extinguish_lineage PhylogenyExamples.unlink
          PhylogenyExamples.seed
          (PhylogenyExamples.seeded.1, PhylogenyExamples.seeded.2)
        = (Raise TotalExtinctionException, (p', w'))
        ∧ p' = PhylogenyExamples.seeded.1 ∧ w' = PhylogenyExamples.seeded.2
        ∧ PhylogenyExamples.seed ∈ SymbiontPhylogeny.current_lineages p'
        ∧ (is_extant <$> symbiont_lineages w' !! PhylogenyExamples.seed) = Some true
        ∧ SymbiontPhylogeny.tree p' = SymbiontPhylogeny.tree PhylogenyExamples.seeded.1.
Proof.
  destruct (symbiont_lineages PhylogenyExamples.seeded.2 !! PhylogenyExamples.seed)
    as [sl|] eqn:Hs; [|by vm_compute in Hs].
  assert (Hsize : size (SymbiontPhylogeny.current_lineages PhylogenyExamples.seeded.1)
                  = 1%nat) by (vm_compute; reflexivity).
  assert (Hlive : PhylogenyExamples.seed
                    ∈ SymbiontPhylogeny.current_lineages PhylogenyExamples.seeded.1).
  { eapply bool_decide_unpack. vm_compute. exact I. }
  assert (Hext : is_extant sl = true).
  { vm_compute in Hs. injection Hs as <-. reflexivity. }
  exists sl. split_and!; try done.
  exact (C6_total_extinction_is_terminal PhylogenyExamples.unlink
           PhylogenyExamples.seeded.1 PhylogenyExamples.seeded.2
           PhylogenyExamples.seed sl Hsize Hlive Hs Hext).
Defined.

Example extinguish_example :
  (SymbiontPhylogenyOps.extinguish_lineage PhylogenyExamples.unlink 1
     PhylogenyExamples.after_split).1 = Ok tt.
Proof. vm_compute. reflexivity. Qed.

Lemma C10_extinction_keeps_associations_witness :
  ∃ sl,
    symbiont_lineages PhylogenyExamples.after_split.2 !! 1%nat = Some sl
    ∧ extinction_frame PhylogenyExamples.unlink PhylogenyExamples.after_split.1
        PhylogenyExamples.after_split.2 1 sl.
Proof.
  destruct (symbiont_lineages PhylogenyExamples.after_split.2 !! 1%nat)
    as [sl|] eqn:Hs; [|by vm_compute in Hs].
  exists sl. split; [reflexivity|].
  exact (C10_extinction_keeps_associations PhylogenyExamples.unlink
           PhylogenyExamples.after_split.1 PhylogenyExamples.after_split.2 1 sl Hs).
Defined.

(** ** Splitting a lineage *)

Lemma pm_bind_run {A B} (m : PM A) (k : A → PM B) s :
  (m ≫= k) s = match m s with
               | (Ok a, s') => k a s'
               | (Raise e, s') => (Raise e, s')
               end.
Proof. reflexivity. Qed.

Lemma in_world_run {A B} (m : M A) (k : A → PM B) p w a w' :
  m w = (Ok a, w') → (in_world m ≫= k) (p, w) = k a (p, w').
Proof. intros H. rewrite pm_bind_run. unfold in_world. simpl. by rewrite H. Qed.

(** The nodes the tree mentions are lineages of the store. *)
Definition tree_closed (tr : Tree.t) (w : World) : Prop :=
  (∀ n q, Tree._parent_node tr !! n = Some q → q ∈ dom (symbiont_lineages w))
  ∧ (∀ n c, c ∈ Tree.child_nodes tr n → c ∈ dom (symbiont_lineages w)).

(** The infected (host, area) pairs of a lineage. *)
Definition infects (sl : SymbiontLineage.t) (h : Z) (a : nat) : Prop :=
  cell sl h a = Some 1.

Definition cleared (w : World) (self : nat) (sl : SymbiontLineage.t) : Prop :=
  (∀ h a, ¬ infects sl h a)
  ∧ _infected_hosts sl = ∅ ∧ _infected_areas sl = ∅
  ∧ ∀ a, ¬ registered w self a.

(** The state [split_lineage] leaves: two new lineages [c1], [c2] that each
    infect exactly what the parent infected, the parent retired and emptied,
    the children hung under it and live. *)
Definition split_outcome (p : SymbiontPhylogeny.t) (w : World) (parent : nat)
    (sl : SymbiontLineage.t) (p' : SymbiontPhylogeny.t) (w' : World) : Prop :=
  ∃ c1 c2 sl1 sl2 sl',
    c1 ≠ c2
    ∧ symbiont_lineages w !! c1 = None ∧ symbiont_lineages w !! c2 = None
    ∧ symbiont_lineages w' !! c1 = Some sl1
    ∧ symbiont_lineages w' !! c2 = Some sl2
    ∧ symbiont_lineages w' !! parent = Some sl'
    ∧ lineage_ok w' c1 sl1 ∧ non_null sl1
    ∧ lineage_ok w' c2 sl2 ∧ non_null sl2
    ∧ (∀ h a, infects sl1 h a ↔ infects sl h a)
    ∧ (∀ h a, infects sl2 h a ↔ infects sl h a)
    ∧ is_extant sl' = false
    ∧ (parent ∉ SymbiontPhylogeny.current_lineages p')
    ∧ cleared w' parent sl'
    ∧ Tree.child_nodes (SymbiontPhylogeny.tree p') parent
      = Tree.child_nodes (SymbiontPhylogeny.tree p) parent ++ [c1; c2]
    ∧ Tree._parent_node (SymbiontPhylogeny.tree p') !! c1 = Some parent
    ∧ Tree._parent_node (SymbiontPhylogeny.tree p') !! c2 = Some parent
    ∧ SymbiontPhylogeny.current_lineages p'
      = {[c1; c2]} ∪ (SymbiontPhylogeny.current_lineages p ∖ {[parent]}).

Lemma lineage_ok_same_caches w w' self sl sl' :
  lineage_ok w self sl →
  host_lineages w' = host_lineages w → areas w' = areas w →
  _host_area_distribution sl' = _host_area_distribution sl →
  _infected_hosts sl' = _infected_hosts sl →
  _infected_areas sl' = _infected_areas sl →
  lineage_ok w' self sl'.
Proof.
  intros (Hb & Hareas & Hhosts) Hh Ha Hd Hih Hia.
  assert (Hc : ∀ h a, cell sl' h a = cell sl h a) by (intros; by apply cell_eq_dist).
  split; [|split].
  - eapply base_ok_ext; [exact Hh|by rewrite Ha| | |exact Hb].
    + intros. by rewrite Hc.
    + intros ???. rewrite Hc. by left.
  - intros a. destruct (Hareas a) as [Hx Hy]. split.
    + rewrite Hia, Hx. split; intros (h & Hh0); exists h; [by rewrite Hc|by rewrite <- Hc].
    + rewrite Hia, <- Hy. by apply registered_same_areas.
  - intros h. unfold host_synced. rewrite Hih. pose proof (Hhosts h) as Hx.
    unfold host_synced in Hx. rewrite Hx.
    split; intros (a & Ha0); exists a; [by rewrite Hc|by rewrite <- Hc].
Qed.

Lemma non_null_of_infects w self sl h a :
  lineage_ok w self sl → infects sl h a → non_null sl.
Proof.
  intros (_ & Hareas & Hhosts) Hc. split.
  - assert (h ∈ _infected_hosts sl) by (apply Hhosts; by exists a). set_solver.
  - assert (a ∈ _infected_areas sl).
    { destruct (Hareas a) as [Hx _]. apply Hx. by exists h. }
    set_solver.
Qed.

Lemma infects_of_non_null w self sl :
  lineage_ok w self sl → non_null sl → ∃ h a, infects sl h a.
Proof.
  intros (_ & _ & Hhosts) [Hne _].
  apply set_choose_L in Hne as [h Hh]. apply Hhosts in Hh as [a Ha]. eauto.
Qed.

Lemma frame_consistent_other self w w' s sl :
  frame self w w' → s ≠ self →
  symbiont_lineages w !! s = Some sl → lineage_ok w s sl →
  symbiont_lineages w' !! s = Some sl ∧ lineage_ok w' s sl.
Proof.
  intros Hf Hne Hs Hok. split.
  - destruct Hf as (_ & _ & Hsame). by rewrite Hsame.
  - eapply frame_lineage_ok_other; eauto.
Qed.

Lemma next_index_run {B} (k : nat → PM B) p w :
  (SymbiontPhylogenyOps.next_index ≫= k) (p, w)
  = k (SymbiontPhylogeny.lineage_indexer p)
      (SymbiontPhylogeny.mk (SymbiontPhylogeny.tree p)
         (SymbiontPhylogeny.current_lineages p)
         (S (SymbiontPhylogeny.lineage_indexer p)), w).
Proof. reflexivity. Qed.

Lemma node_factory_run {B} (k : nat → PM B) index p w :
  (SymbiontPhylogenyOps.node_factory index ≫= k) (p, w)
  = k (fresh (dom (symbiont_lineages w)))
      (p, mkWorld (areas w) (host_lineages w)
            (<[fresh (dom (symbiont_lineages w)) := init index w]> (symbiont_lineages w))).
Proof. reflexivity. Qed.

Lemma current_lineages_remove_run {B} (k : unit → PM B) s p w :
  s ∈ SymbiontPhylogeny.current_lineages p →
  (SymbiontPhylogenyOps.current_lineages_remove s ≫= k) (p, w)
  = k tt (SymbiontPhylogeny.mk (SymbiontPhylogeny.tree p)
            (SymbiontPhylogeny.current_lineages p ∖ {[s]})
            (SymbiontPhylogeny.lineage_indexer p), w).
Proof.
  intros Hin. unfold SymbiontPhylogenyOps.current_lineages_remove.
  cbv [mbind PM_bind get_phylogeny fst snd]. rewrite bool_decide_eq_true_2 by done.
  reflexivity.
Qed.

Lemma current_lineages_add_run {B} (k : unit → PM B) s p w :
  (SymbiontPhylogenyOps.current_lineages_add s ≫= k) (p, w)
  = k tt (SymbiontPhylogeny.mk (SymbiontPhylogeny.tree p)
            ({[s]} ∪ SymbiontPhylogeny.current_lineages p)
            (SymbiontPhylogeny.lineage_indexer p), w).
Proof. reflexivity. Qed.

Lemma add_child_run {B} (k : unit → PM B) self node p w :
  node ≠ self →
  Tree._parent_node (SymbiontPhylogeny.tree p) !! self ≠ Some node →
  node ∉ Tree.child_nodes (SymbiontPhylogeny.tree p) self →
  (SymbiontPhylogenyOps.add_child self node ≫= k) (p, w)
  = k tt (SymbiontPhylogeny.mk
            (Tree.mk (Tree.seed_node (SymbiontPhylogeny.tree p))
               (<[self := Tree.child_nodes (SymbiontPhylogeny.tree p) self ++ [node]]>
                  (Tree._child_nodes (SymbiontPhylogeny.tree p)))
               (<[node := self]> (Tree._parent_node (SymbiontPhylogeny.tree p))))
            (SymbiontPhylogeny.current_lineages p)
            (SymbiontPhylogeny.lineage_indexer p), w).
Proof.
  intros H1 H2 H3. unfold SymbiontPhylogenyOps.add_child.
  cbv [mbind PM_bind get_phylogeny fst snd].
  rewrite (bool_decide_eq_false_2 (node = self)) by done.
  rewrite (bool_decide_eq_false_2 (_ !! self = Some node)) by done.
  rewrite (bool_decide_eq_false_2 (node ∈ _)) by done.
  reflexivity.
Qed.

Lemma set_is_extant_run w s sl b :
  symbiont_lineages w !! s = Some sl →
  SymbiontPhylogenyOps.set_is_extant s b w
  = (Ok tt, mkWorld (areas w) (host_lineages w)
              (<[s := with_is_extant sl b]> (symbiont_lineages w))).
Proof.
  intros Hs. unfold SymbiontPhylogenyOps.set_is_extant.
  erewrite run_get_symbiont by eauto. reflexivity.
Qed.

Lemma init_not_infects idx w h a : ¬ infects (init idx w) h a.
Proof. unfold infects. rewrite cell_init. case_decide; done. Qed.

Definition split_succeeds (p : SymbiontPhylogeny.t) (w : World) (parent : nat)
    (sl : SymbiontLineage.t) : Prop :=
  ∃ p' w',
    SymbiontPhylogenyOps.split_lineage parent (p, w) = (Ok tt, (p', w'))
    ∧ split_outcome p w parent sl p' w'.

(** C7. For a live lineage with a consistent, non-empty distribution,
    [split_lineage] returns; the two children are new lineages, each with
    consistent caches, at least one host and one area, and exactly the
    infected (host, area) pairs the parent had before the split; the parent
    is non-extant, no longer live and empty (no cell set, both caches empty,
    registered on no area); the children are appended to its child list,
    have it as parent and are live. *)
Theorem C7_split_lineage_inherits (p : SymbiontPhylogeny.t) (w : World)
    (parent : nat) (sl : SymbiontLineage.t) :
  host_system_ok w → symbionts_closed w →
  tree_closed (SymbiontPhylogeny.tree p) w →
  symbiont_lineages w !! parent = Some sl → is_extant sl = true →
  parent ∈ SymbiontPhylogeny.current_lineages p →
  lineage_ok w parent sl → non_null sl →
  split_succeeds p w parent sl.
Proof.
  intros Hhost Hclosed [Htp Htc] Hs Hext Hlive Hok Hnn. unfold split_succeeds.
  destruct (infects_of_non_null _ _ _ Hok Hnn) as (h0 & a0 & Hinf0).
  set (i1 := SymbiontPhylogeny.lineage_indexer p).
  (* the two children *)
  set (c1 := fresh (dom (symbiont_lineages w))).
  set (w1 := mkWorld (areas w) (host_lineages w)
               (<[c1 := init i1 w]> (symbiont_lineages w))).
  destruct (new_consistent w i1 c1 w1 Hclosed eq_refl)
    as ((x & Hx & Hok1_0) & Hc1none & Hf1 & Hclosed1).
  assert (Hc1 : symbiont_lineages w1 !! c1 = Some (init i1 w)) by apply lookup_insert_eq.
  rewrite Hc1 in Hx. injection Hx as <-.
  set (c2 := fresh (dom (symbiont_lineages w1))).
  set (w2 := mkWorld (areas w1) (host_lineages w1)
               (<[c2 := init (S i1) w1]> (symbiont_lineages w1))).
  destruct (new_consistent w1 (S i1) c2 w2 Hclosed1 eq_refl)
    as ((x & Hx & Hok2_0) & Hc2none & Hf2 & Hclosed2).
  assert (Hc2 : symbiont_lineages w2 !! c2 = Some (init (S i1) w1)) by apply lookup_insert_eq.
  rewrite Hc2 in Hx. injection Hx as <-.
  assert (Hpc1 : parent ≠ c1) by (intros ->; congruence).
  assert (Hc12 : c1 ≠ c2) by (intros Heq; rewrite <- Heq in Hc2none; congruence).
  assert (Hpc2 : parent ≠ c2).
  { intros ->. destruct Hf1 as (_ & _ & Hsame). rewrite Hsame in Hc2none by done.
    congruence. }
  assert (Hc2none0 : symbiont_lineages w !! c2 = None).
  { destruct Hf1 as (_ & _ & Hsame). rewrite <- Hsame; done. }
  (* the parent and the first child in the store with both children *)
  destruct (frame_consistent_other c1 w w1 parent sl Hf1 Hpc1 Hs Hok) as [Hs1 Hokp1].
  destruct (frame_consistent_other c2 w1 w2 parent sl Hf2 Hpc2 Hs1 Hokp1) as [Hs2 Hokp2].
  destruct (frame_consistent_other c2 w1 w2 c1 _ Hf2 Hc12 Hc1 Hok1_0) as [Hc1_2 Hok1_2].
  assert (Hhost2 : host_system_ok w2).
  { eapply frame_host_system_ok; [exact Hf2|]. eapply frame_host_system_ok; eauto. }
  (* both children take over the distribution of the parent *)
  destruct (update_distribution_spec w2 c1 parent _ sl Hhost2 (not_eq_sym Hpc1)
              Hc1_2 Hok1_2 Hs2 Hokp2)
    as (w3 & sl1 & Hrun3 & Hf3 & Hc1_3 & Hok1_3 & _ & _ & Hcell1 & _ & _).
  destruct (frame_consistent_other c1 w2 w3 parent sl Hf3 Hpc1 Hs2 Hokp2) as [Hs3 Hokp3].
  destruct (frame_consistent_other c1 w2 w3 c2 _ Hf3 (not_eq_sym Hc12) Hc2 Hok2_0)
    as [Hc2_3 Hok2_3].
  assert (Hhost3 : host_system_ok w3) by (eapply frame_host_system_ok; eauto).
  destruct (update_distribution_spec w3 c2 parent _ sl Hhost3 (not_eq_sym Hpc2)
              Hc2_3 Hok2_3 Hs3 Hokp3)
    as (w4 & sl2 & Hrun4 & Hf4 & Hc2_4 & Hok2_4 & _ & _ & Hcell2 & _ & _).
  destruct (frame_consistent_other c2 w3 w4 parent sl Hf4 Hpc2 Hs3 Hokp3) as [Hs4 Hokp4].
  destruct (frame_consistent_other c2 w3 w4 c1 sl1 Hf4 Hc12 Hc1_3 Hok1_3)
    as [Hc1_4 Hok1_4].
  (* the parent is retired and emptied *)
  set (w5 := mkWorld (areas w4) (host_lineages w4)
               (<[parent := with_is_extant sl false]> (symbiont_lineages w4))).
  assert (Hrun5 : SymbiontPhylogenyOps.set_is_extant parent false w4 = (Ok tt, w5))
    by (by apply set_is_extant_run).
  assert (Hf5 : frame parent w4 w5) by (eapply frame_set_symbiont; reflexivity).
  assert (Hs5 : symbiont_lineages w5 !! parent = Some (with_is_extant sl false))
    by apply lookup_insert_eq.
  assert (Hokp5 : lineage_ok w5 parent (with_is_extant sl false)).
  { eapply lineage_ok_same_caches; [exact Hokp4|..]; done. }
  destruct (frame_consistent_other parent w4 w5 c1 sl1 Hf5 (not_eq_sym Hpc1) Hc1_4 Hok1_4)
    as [Hc1_5 Hok1_5].
  destruct (frame_consistent_other parent w4 w5 c2 sl2 Hf5 (not_eq_sym Hpc2) Hc2_4 Hok2_4)
    as [Hc2_5 Hok2_5].
  destruct (clear_distribution_spec w5 parent _ Hs5 Hokp5)
    as (w6 & sl' & Hrun6 & Hf6 & Hs6 & Hokp6 & _ & Hext6 & Hcell6 & Hih6 & Hia6 & Hreg6).
  destruct (frame_consistent_other parent w5 w6 c1 sl1 Hf6 (not_eq_sym Hpc1) Hc1_5 Hok1_5)
    as [Hc1_6 Hok1_6].
  destruct (frame_consistent_other parent w5 w6 c2 sl2 Hf6 (not_eq_sym Hpc2) Hc2_5 Hok2_5)
    as [Hc2_6 Hok2_6].
  (* the tree *)
  assert (Hfresh1 : c1 ∉ dom (symbiont_lineages w)) by (by apply not_elem_of_dom).
  assert (Hfresh2 : c2 ∉ dom (symbiont_lineages w)) by (by apply not_elem_of_dom).
  eexists _, w6. split.
  - unfold SymbiontPhylogenyOps.split_lineage.
    rewrite next_index_run, node_factory_run. fold i1 c1 w1.
    rewrite next_index_run, node_factory_run. cbn [SymbiontPhylogeny.lineage_indexer].
    fold c2 w2.
    rewrite (in_world_run _ _ _ _ _ _ Hrun3).
    rewrite (in_world_run _ _ _ _ _ _ Hrun4).
    rewrite (in_world_run _ _ _ _ _ _ Hrun5).
    rewrite current_lineages_remove_run by done.
    rewrite (in_world_run _ _ _ _ _ _ Hrun6).
    rewrite add_child_run; cbn [SymbiontPhylogeny.tree]; [|done| |].
    2:{ intros Hq. apply Hfresh1. eapply Htp; eauto. }
    2:{ intros Hq. apply Hfresh1. eapply Htc; eauto. }
    rewrite add_child_run; cbn [SymbiontPhylogeny.tree Tree._parent_node Tree._child_nodes];
      [|done| |].
    2:{ rewrite lookup_insert_ne by done. intros Hq. apply Hfresh2. eapply Htp; eauto. }
    2:{ unfold Tree.child_nodes at 1. cbn [Tree._child_nodes]. rewrite lookup_insert_eq.
        simpl. rewrite elem_of_app, list_elem_of_singleton. intros [Hq|Hq]; [|done].
        apply Hfresh2. eapply Htc; eauto. }
    rewrite current_lineages_add_run.
    unfold SymbiontPhylogenyOps.current_lineages_add.
    cbv [mbind PM_bind get_phylogeny put_phylogeny fst snd].
    cbn [SymbiontPhylogeny.tree SymbiontPhylogeny.current_lineages
         SymbiontPhylogeny.lineage_indexer].
    reflexivity.
  - exists c1, c2, sl1, sl2, sl'.
    assert (Hinf1 : ∀ h a, infects sl1 h a ↔ infects sl h a).
    { intros h a. unfold infects. rewrite Hcell1. split; [|by right].
      intros [Hi|?]; [|done]. by apply init_not_infects in Hi. }
    assert (Hinf2 : ∀ h a, infects sl2 h a ↔ infects sl h a).
    { intros h a. unfold infects. rewrite Hcell2. split; [|by right].
      intros [Hi|?]; [|done]. by apply init_not_infects in Hi. }
    split_and!; try done.
    + eapply non_null_of_infects; [exact Hok1_6|]. apply Hinf1. exact Hinf0.
    + eapply non_null_of_infects; [exact Hok2_6|]. apply Hinf2. exact Hinf0.
    + cbn. set_solver.
    + split_and!; try done. intros h a. unfold infects. rewrite Hcell6.
      destruct (cell _ h a); done.
    + cbn. unfold Tree.child_nodes at 1. cbn. rewrite lookup_insert_eq. simpl.
      unfold Tree.child_nodes at 1. cbn. rewrite lookup_insert_eq. simpl.
      by rewrite <- app_assoc.
    + cbn. rewrite lookup_insert_ne by done. apply lookup_insert_eq.
    + cbn. apply lookup_insert_eq.
    + cbn. set_solver.
Qed.

Lemma phylogeny_seeded_world :
  PhylogenyExamples.seeded.2 = SymbiontExamples.after_calls
  ∧ PhylogenyExamples.seed = SymbiontExamples.lineage.
Proof. split; vm_compute; reflexivity. Qed.

Lemma after_calls_consistent :
  host_system_ok SymbiontExamples.after_calls
  ∧ consistent_in SymbiontExamples.after_calls SymbiontExamples.lineage
  ∧ non_null_in SymbiontExamples.after_calls SymbiontExamples.lineage.
Proof.
  destruct seeded_consistent as (sl & Hs & Hok).
  destruct (run_calls_spec SymbiontExamples.lineage SymbiontExamples.calls
              SymbiontExamples.seeded sl SymbiontExamples.after_calls
              seeded_ok Hs Hok) as (H1 & _ & H2 & H3).
  - repeat constructor; apply occupies_check; vm_compute; reflexivity.
  - apply after_calls_run.
  - split_and!; try done. by apply H3.
Qed.

Lemma empty_tree_closed seed w : tree_closed (Tree.mk seed ∅ ∅) w.
Proof.
  split.
  - intros n q Hq. simpl in Hq. by rewrite lookup_empty in Hq.
  - intros n c Hc. unfold Tree.child_nodes in Hc. simpl in Hc.
    rewrite lookup_empty in Hc. simpl in Hc. by apply elem_of_nil in Hc.
Qed.

Lemma C7_split_lineage_inherits_witness :
  ∃ sl,
    host_system_ok SymbiontExamples.after_calls
    ∧ symbionts_closed SymbiontExamples.after_calls
    ∧ tree_closed (SymbiontPhylogeny.tree PhylogenyExamples.seeded.1)
        SymbiontExamples.after_calls
    ∧ symbiont_lineages SymbiontExamples.after_calls !! SymbiontExamples.lineage = Some sl
    ∧ is_extant sl = true
    ∧ SymbiontExamples.lineage
        ∈ SymbiontPhylogeny.current_lineages PhylogenyExamples.seeded.1
    ∧ lineage_ok SymbiontExamples.after_calls SymbiontExamples.lineage sl
    ∧ non_null sl
    ∧ split_succeeds PhylogenyExamples.seeded.1 SymbiontExamples.after_calls
        SymbiontExamples.lineage sl.
Proof.
  destruct after_calls_consistent as (Hhost & (sl & Hs & Hok) & (sl0 & Hs0 & Hnn)).
  rewrite Hs in Hs0. injection Hs0 as <-.
  assert (Hclosed : symbionts_closed SymbiontExamples.after_calls).
  { apply symbionts_closed_check_ok. vm_compute. reflexivity. }
  assert (Htree : tree_closed (SymbiontPhylogeny.tree PhylogenyExamples.seeded.1)
                    SymbiontExamples.after_calls) by apply empty_tree_closed.
  assert (Hext : is_extant sl = true).
  { vm_compute in Hs. injection Hs as <-. reflexivity. }
  assert (Hlive : SymbiontExamples.lineage
                    ∈ SymbiontPhylogeny.current_lineages PhylogenyExamples.seeded.1).
  { eapply bool_decide_unpack. vm_compute. exact I. }
  exists sl. split_and!; try done.
  exact (C7_split_lineage_inherits PhylogenyExamples.seeded.1
           SymbiontExamples.after_calls SymbiontExamples.lineage sl
           Hhost Hclosed Htree Hs Hext Hlive Hok Hnn).
Defined.

(** ** [sync_area_cache] with [search_all_hosts] *)

Module SyncExamples.
(** The lineage infects host 1 in area 1; host 1 then leaves area 1
    ([remove_area]), where the uninfected host 2 stays. *)
Definition host_left : World :=
  (HostLineageOps.remove_area 1 1
     (add_host_in_area SymbiontExamples.lineage 1 (Some 1%nat) SymbiontExamples.seeded).2).2.

Definition synced : World :=
  (sync_area_cache SymbiontExamples.lineage 1 true host_left).2.
End SyncExamples.

(** C8 (evaluation of the code): [search_all_hosts] changes nothing, the loop
    always runs over [area.host_lineages].  With the full-system option, on
    a store where host 1 of the system has cell (1, area 1) set but is not
    listed in area 1, the call returns, the cell is still 1, and area 1 has
    been removed from the infected-area set and the lineage from the area. *)
Theorem C8_sync_area_cache_ignores_search_all_hosts :
  (∀ self area w,
     sync_area_cache self area true w = sync_area_cache self area false w)
  ∧ (1 ∈ dom (host_lineages SyncExamples.host_left)
     ∧ (symbiont_lineages SyncExamples.host_left !! SymbiontExamples.lineage
          ≫= λ sl, cell sl 1 1) = Some 1
     ∧ bool_decide (1%nat ∈ default ∅ (_infected_areas <$>
          symbiont_lineages SyncExamples.host_left !! SymbiontExamples.lineage)) = true)
  ∧ (sync_area_cache SymbiontExamples.lineage 1 true SyncExamples.host_left).1 = Ok tt
  ∧ (symbiont_lineages SyncExamples.synced !! SymbiontExamples.lineage
       ≫= λ sl, cell sl 1 1) = Some 1
  ∧ (_infected_areas <$> symbiont_lineages SyncExamples.synced !! SymbiontExamples.lineage)
    = Some ∅
  ∧ (Area.symbiont_lineages <$> areas SyncExamples.synced !! 1%nat) = Some ∅.
Proof.
  split; [reflexivity|].
  split_and!; vm_compute; reflexivity.
Qed.

(** *** [remove_host] *)

(** The invariant inside the loops over the areas of one host [h]: only the
    membership of [h] in the infected-host set may be out of date. *)
Definition partly_ok (w : World) (self : nat) (sl : SymbiontLineage.t) (h : Z) : Prop :=
  base_ok w sl ∧ (∀ a, area_synced w self sl a) ∧ (∀ h', h' ≠ h → host_synced sl h').

Definition remove_host_body (self : nat) (host_lineage : Z) (area : nat) : M unit :=
  sl ← get_symbiont self;
  v ← lift (read_cell sl host_lineage area);
  if 0 <? v then
    write_cell self host_lineage area 0;;
    sync_area_cache self area false
  else mret tt.

Lemma cell_if_cons (h h' : Z) (a a' : nat) (l : list nat) (x : option Z) :
  (if decide (h' = h ∧ a' ∈ l) then Some 0
   else if decide (h' = h ∧ a' = a) then Some 0 else x)
  = (if decide (h' = h ∧ a' ∈ a :: l) then Some 0 else x).
Proof.
  destruct (decide (h' = h ∧ a' ∈ l)) as [[? ?]|Hn1];
    destruct (decide (h' = h ∧ a' = a)) as [[? ?]|Hn2];
    destruct (decide (h' = h ∧ a' ∈ a :: l)) as [[? Hin]|Hn3]; try done;
    try (exfalso; apply Hn3; split; [done|]; subst; ((by left) || (by right))).
  exfalso. apply elem_of_cons in Hin as [->|Hin]; tauto.
Qed.

Lemma remove_host_body_run self h a w sl v :
  symbiont_lineages w !! self = Some sl → cell sl h a = Some v →
  remove_host_body self h a w
  = if 0 <? v then (write_cell self h a 0;; sync_area_cache self a false) w
    else (Ok tt, w).
Proof.
  intros Hs Hv. unfold remove_host_body. erewrite run_get_symbiont by eauto.
  unfold read_cell. rewrite Hv, run_lift_ok. by destruct (0 <? v).
Qed.

Lemma remove_host_loop self h l : ∀ w sl,
  host_system_ok w → symbiont_lineages w !! self = Some sl →
  partly_ok w self sl h → (∀ a, a ∈ l → occupies w h a) →
  ∃ w' sl', for_each l (remove_host_body self h) w = (Ok tt, w')
    ∧ frame self w w'
    ∧ symbiont_lineages w' !! self = Some sl'
    ∧ partly_ok w' self sl' h
    ∧ _infected_hosts sl' = _infected_hosts sl
    ∧ index sl' = index sl ∧ is_extant sl' = is_extant sl
    ∧ ∀ h' a', cell sl' h' a'
               = if decide (h' = h ∧ a' ∈ l) then Some 0 else cell sl h' a'.
Proof.
  induction l as [|a l IH]; intros w sl Hhost Hs Hpart Hocc.
  - exists w, sl. split_and!; try done; [apply frame_refl|].
    intros h' a'. rewrite decide_False; [done|]. intros [_ Hin]. by apply elem_of_nil in Hin.
  - pose proof Hpart as (Hb & Hareas & Hhosts). pose proof Hb as (Hm & Hbits & Hoc).
    assert (Ho : occupies w h a) by (apply Hocc; by left).
    destruct (occupies_valid _ _ _ Hhost Ho) as [Hh Ha].
    destruct (proj2 (Hm h a) (conj Hh Ha)) as [v Hv].
    cbn [for_each]. rewrite bind_run, (remove_host_body_run self h a w sl v Hs Hv).
    destruct (Hbits _ _ _ Hv) as [-> | ->]; cbn [Z.ltb Z.compare].
    + (* the cell is 0 already *)
      destruct (IH w sl Hhost Hs Hpart) as
        (w' & sl' & Hrun & Hf & Hs' & Hpart' & Hih & Hidx & Hext & Hcell).
      { intros a' Hin. apply Hocc. by right. }
      exists w', sl'. split_and!; try done.
      intros h' a'. rewrite Hcell, <- cell_if_cons.
      destruct (decide (h' = h ∧ a' ∈ l)); [done|].
      case_decide as Hd; [destruct Hd as [-> ->]; done|done].
    + (* the cell is 1: clear it and resynchronise the area *)
      destruct (write_cell_run w self sl h a 0 Hs) as
        (sl1 & Hrun1 & Hcell1 & Hih1 & Hia1 & Hidx1 & Hext1); [eauto|].
      rewrite bind_run, Hrun1.
      set (w1 := mkWorld (areas w) (host_lineages w) (<[self:=sl1]> (symbiont_lineages w))).
      assert (Hs1 : symbiont_lineages w1 !! self = Some sl1) by apply lookup_insert_eq.
      assert (Hb1 : base_ok w1 sl1).
      { eapply (base_ok_ext w w1 sl sl1); try done.
        - intros h' a'. rewrite Hcell1. case_decide as Hd; [|done].
          destruct Hd as [-> ->]. split; eauto.
        - intros h' a' v. rewrite Hcell1.
          case_decide; [intros; simplify_eq; by right|by left]. }
      destruct (sync_area_cache self a false w1) as [r2 w2] eqn:Hsa.
      pose proof (frame_sync_area_cache _ _ _ _ _ _ Hsa) as Hf2.
      apply (sync_area_cache_spec w1 self sl1 a false r2 w2 Hhost Hb1 Hs1 Ha) in Hsa;
        [|rewrite Hia1; apply (Hareas a)].
      destruct Hsa as [(-> & sl2 & Hs2 & Hd2 & Hih2 & Hidx2 & Hext2 & Hsyn2 & Hoth2)
                      |(_ & _ & Hnia & _)].
      2:{ exfalso. apply Hnia. rewrite Hia1. destruct (Hareas a) as [Hx _].
          apply Hx. eauto. }
      assert (Hcell2 : ∀ h' a', cell sl2 h' a'
                = if decide (h' = h ∧ a' = a) then Some 0 else cell sl h' a').
      { intros. rewrite <- Hcell1. by apply cell_eq_dist. }
      assert (Hfw : frame self w w2).
      { eapply frame_trans; [|exact Hf2].
        exact (frame_set_symbiont self sl1 w (Ok tt) w1 eq_refl). }
      assert (Hpart2 : partly_ok w2 self sl2 h).
      { split; [|split].
        - eapply (base_ok_ext w1 w2 sl1 sl2); try done.
          + by destruct Hf2 as (? & _ & _).
          + by rewrite (frame_length _ _ _ Hf2).
          + intros. by rewrite (cell_eq_dist sl1 sl2).
          + intros ???. rewrite (cell_eq_dist sl1 sl2) by done. by left.
        - intros a'. destruct (decide (a' = a)) as [->|Hne]; [done|].
          destruct (Hoth2 a' Hne) as [Hx Hy]. destruct (Hareas a') as [Hx0 Hy0].
          split.
          + rewrite Hx, Hia1, Hx0. split; intros (h' & Hc); exists h'.
            * rewrite Hcell2. rewrite decide_False by tauto. done.
            * rewrite Hcell2 in Hc. rewrite decide_False in Hc by tauto. done.
          + rewrite Hy, Hx, Hia1. exact Hy0.
        - intros h' Hne. unfold host_synced. rewrite Hih2, Hih1.
          pose proof (Hhosts h' Hne) as Hx. unfold host_synced in Hx. rewrite Hx.
          split; intros (a' & Hc); exists a'.
          + rewrite Hcell2. rewrite decide_False by tauto. done.
          + rewrite Hcell2 in Hc. rewrite decide_False in Hc by tauto. done. }
      destruct (IH w2 sl2) as
        (w' & sl' & Hrun & Hf & Hs' & Hpart' & Hih & Hidx & Hext & Hcell); try done.
      { eapply frame_host_system_ok; eauto. }
      { intros a' Hin. apply (frame_occupies _ _ _ _ _ Hfw). apply Hocc. by right. }
      exists w', sl'. split_and!; try done; try congruence.
      * eapply frame_trans; eauto.
      * intros h' a'. rewrite Hcell, Hcell2. apply cell_if_cons.
Qed.

Lemma infected_hosts_remove_run w self sl h :
  symbiont_lineages w !! self = Some sl →
  infected_hosts_remove self h w
  = if bool_decide (h ∈ _infected_hosts sl)
    then (Ok tt, mkWorld (areas w) (host_lineages w)
                   (<[self := with_infected_hosts sl (_infected_hosts sl ∖ {[h]})]>
                      (symbiont_lineages w)))
    else (Raise KeyError, w).
Proof.
  intros Hs. unfold infected_hosts_remove. erewrite run_get_symbiont by eauto.
  unfold set_remove. by case_bool_decide.
Qed.

Lemma remove_host_spec w self sl h r w' :
  host_system_ok w → symbiont_lineages w !! self = Some sl →
  lineage_ok w self sl → h ∈ dom (host_lineages w) →
  remove_host self h w = (r, w') →
  frame self w w'
  ∧ ∃ sl', symbiont_lineages w' !! self = Some sl'
    ∧ lineage_ok w' self sl'
    ∧ index sl' = index sl ∧ is_extant sl' = is_extant sl
    ∧ (∀ h' a', h' ≠ h → cell sl' h' a' = cell sl h' a')
    ∧ (∀ a, cell sl' h a ≠ Some 1)
    ∧ ((r = Ok tt ∧ non_null sl')
       ∨ (r = Raise (NullDistributionException self) ∧ ¬ non_null sl')
       ∨ (r = Raise KeyError
          ∧ _infected_hosts sl' = _infected_hosts sl
          ∧ _infected_areas sl' = _infected_areas sl)).
Proof.
  intros Hhost Hs Hok Hh H.
  split; [exact (frame_remove_host _ _ _ _ _ H)|].
  pose proof Hok as (Hb & Hareas & Hhosts). pose proof Hb as (Hm & Hbits & Hocc).
  apply elem_of_dom in Hh as [hl Hhl].
  destruct (remove_host_loop self h (elements (HostLineage._current_areas hl)) w sl)
    as (w1 & sl1 & Hrun & Hf & Hs1 & Hpart1 & Hih1 & Hidx1 & Hext1 & Hcell1); try done.
  { intros a Hin. apply elem_of_elements in Hin. by exists hl. }
  destruct Hpart1 as (Hb1 & Hareas1 & Hhosts1).
  assert (Hrow : ∀ a, cell sl1 h a ≠ Some 1).
  { intros a. rewrite Hcell1. case_decide as Hd; [done|]. intros Hc.
    apply Hd. split; [done|]. apply elem_of_elements.
    apply Hocc in Hc as (hl0 & Hhl0 & Hin). congruence. }
  assert (Hother : ∀ h' a', h' ≠ h → cell sl1 h' a' = cell sl h' a').
  { intros h' a' Hne. rewrite Hcell1. rewrite decide_False by tauto. done. }
  unfold remove_host in H. revert H. erewrite run_get_host by eauto.
  fold (remove_host_body self h). rewrite bind_run, Hrun.
  rewrite bind_run, (infected_hosts_remove_run w1 self sl1 h Hs1).
  case_bool_decide as Hin.
  - (* the host was infected *)
    set (sl2 := with_infected_hosts sl1 (_infected_hosts sl1 ∖ {[h]})).
    set (w2 := mkWorld (areas w1) (host_lineages w1) (<[self:=sl2]> (symbiont_lineages w1))).
    assert (Hs2 : symbiont_lineages w2 !! self = Some sl2) by apply lookup_insert_eq.
    assert (Hok2 : lineage_ok w2 self sl2).
    { split; [|split].
      - exact Hb1.
      - intros a. exact (Hareas1 a).
      - intros h'. unfold host_synced, sl2. wsimpl.
        destruct (decide (h' = h)) as [->|Hne].
        + split; [set_solver|]. intros (a & Hc). by apply Hrow in Hc.
        + pose proof (Hhosts1 h' Hne) as Hx. unfold host_synced in Hx.
          rewrite <- Hx. set_solver. }
    rewrite (check_for_null_distribution_run w2 self sl2 Hs2).
    intros H. injection H as <- <-. exists sl2.
    split_and!; try done.
    case_bool_decide; [left|right; left]; done.
  - (* the host was not infected: KeyError *)
    intros H. injection H as <- <-. exists sl1.
    assert (Hrow0 : ∀ a, cell sl h a ≠ Some 1).
    { intros a Hc. apply Hin. rewrite Hih1. apply (Hhosts h). eauto. }
    assert (Hsame : ∀ h' a', cell sl1 h' a' = Some 1 ↔ cell sl h' a' = Some 1).
    { intros h' a'. destruct (decide (h' = h)) as [->|Hne].
      - split; intros Hc; exfalso; [by apply Hrow in Hc|by apply Hrow0 in Hc].
      - by rewrite Hother. }
    split_and!; try done.
    + split; [|split]; try done.
      intros h'. destruct (decide (h' = h)) as [->|Hne]; [|by apply Hhosts1].
      unfold host_synced. split; [done|]. intros (a & Hc). by apply Hrow in Hc.
    + right; right. split_and!; try done.
      apply set_eq. intros a. destruct (Hareas1 a) as [-> _].
      destruct (Hareas a) as [-> _].
      split; intros (h' & Hc); exists h'; by apply Hsame.
Qed.

(** *** [add_host_in_area] without a named area *)

Lemma cell_if_cons_one (h h' : Z) (a a' : nat) (l : list nat) (x : option Z) :
  (if decide (h' = h ∧ a' ∈ l) then Some 1
   else if decide (h' = h ∧ a' = a) then Some 1 else x)
  = (if decide (h' = h ∧ a' ∈ a :: l) then Some 1 else x).
Proof.
  destruct (decide (h' = h ∧ a' ∈ l)) as [[? ?]|Hn1];
    destruct (decide (h' = h ∧ a' = a)) as [[? ?]|Hn2];
    destruct (decide (h' = h ∧ a' ∈ a :: l)) as [[? Hin]|Hn3]; try done;
    try (exfalso; apply Hn3; split; [done|]; subst; ((by left) || (by right))).
  exfalso. apply elem_of_cons in Hin as [->|Hin]; tauto.
Qed.

Lemma mark_loop self h l : ∀ w sl,
  host_system_ok w → symbiont_lineages w !! self = Some sl →
  matrix_ok w sl → (∀ a, a ∈ l → occupies w h a) →
  ∃ w' sl', for_each l (λ area, mark_cell self h area) w = (Ok tt, w')
    ∧ frame self w w'
    ∧ symbiont_lineages w' !! self = Some sl'
    ∧ (∀ h' a', cell sl' h' a'
                = if decide (h' = h ∧ a' ∈ l) then Some 1 else cell sl h' a')
    ∧ _infected_hosts sl' = _infected_hosts sl
    ∧ (∀ a, a ∈ _infected_areas sl' ↔ a ∈ l ∨ a ∈ _infected_areas sl)
    ∧ index sl' = index sl ∧ is_extant sl' = is_extant sl
    ∧ (∀ a, registered w' self a ↔ a ∈ l ∨ registered w self a).
Proof.
  induction l as [|a l IH]; intros w sl Hhost Hs Hm Hocc.
  - exists w, sl. split_and!; try done.
    + apply frame_refl.
    + intros h' a'. rewrite decide_False; [done|]. intros [_ Hin]. by apply elem_of_nil in Hin.
    + intros a. set_solver.
    + intros a. set_solver.
  - assert (Ho : occupies w h a) by (apply Hocc; by left).
    destruct (mark_cell_spec w self sl h a Hhost Hs Hm Ho)
      as (w1 & sl1 & Hrun1 & Hs1 & Hcell1 & Hih1 & Hia1 & Hidx1 & Hext1 & Hreg1).
    pose proof (frame_mark_cell _ _ _ _ _ _ Hrun1) as Hf1.
    assert (Hm1 : matrix_ok w1 sl1).
    { intros h' a'. rewrite Hcell1, (frame_length _ _ _ Hf1).
      destruct Hf1 as (-> & _ & _). case_decide as Hd; [|apply Hm].
      destruct Hd as [-> ->]. split; [intros _|eauto].
      by apply (occupies_valid _ _ _ Hhost Ho). }
    destruct (IH w1 sl1) as
      (w' & sl' & Hrun & Hf & Hs' & Hcell & Hih & Hia & Hidx & Hext & Hreg); try done.
    { eapply frame_host_system_ok; eauto. }
    { intros a' Hin. apply (frame_occupies _ _ _ _ _ Hf1). apply Hocc. by right. }
    cbn [for_each]. rewrite bind_run, Hrun1.
    exists w', sl'. split_and!; try done; try congruence.
    + eapply frame_trans; eauto.
    + intros h' a'. rewrite Hcell, Hcell1. apply cell_if_cons_one.
    + intros a'. rewrite Hia, Hia1. set_solver.
    + intros a'. rewrite Hreg, Hreg1. set_solver.
Qed.

Lemma add_host_in_area_none_spec w self sl h :
  host_system_ok w → symbiont_lineages w !! self = Some sl →
  lineage_ok w self sl → (∃ a, occupies w h a) →
  ∃ w' sl', add_host_in_area self h None w = (Ok tt, w')
    ∧ frame self w w'
    ∧ symbiont_lineages w' !! self = Some sl'
    ∧ lineage_ok w' self sl'
    ∧ non_null sl'
    ∧ index sl' = index sl ∧ is_extant sl' = is_extant sl
    ∧ (∀ h' a', cell sl' h' a' = Some 1 ↔
                 cell sl h' a' = Some 1 ∨ (h' = h ∧ occupies w h a')).
Proof.
  intros Hhost Hs Hok (a0 & Ho0).
  pose proof Hok as (Hb & Hareas & Hhosts). pose proof Hb as (Hm & Hbits & Hocc).
  pose proof Ho0 as (hl & Hhl & Hin0).
  set (l := elements (HostLineage._current_areas hl)).
  assert (Hl : ∀ a, a ∈ l ↔ occupies w h a).
  { intros a. unfold l. rewrite elem_of_elements. split; [intros; by exists hl|].
    intros (hl0 & Hhl0 & Hin). congruence. }
  destruct (mark_loop self h l w sl Hhost Hs Hm)
    as (w1 & sl1 & Hrun & Hf & Hs1 & Hcell1 & Hih1 & Hia1 & Hidx1 & Hext1 & Hreg1).
  { intros a. apply Hl. }
  unfold add_host_in_area. rewrite run_assoc. erewrite run_get_host by eauto.
  fold l. rewrite bind_run, Hrun. unfold infected_hosts_add.
  erewrite run_get_symbiont by eauto. unfold set_symbiont.
  set (sl2 := with_infected_hosts sl1 ({[h]} ∪ _infected_hosts sl1)).
  eexists _, sl2. split; [reflexivity|].
  assert (Hcell2 : ∀ h' a', cell sl2 h' a' = Some 1 ↔
                     cell sl h' a' = Some 1 ∨ (h' = h ∧ occupies w h a')).
  { intros h' a'. unfold sl2. rewrite (cell_eq_dist sl1) by done. rewrite Hcell1.
    case_decide as Hd.
    - destruct Hd as [-> Hd]. apply Hl in Hd. tauto.
    - split; [by left|]. intros [?|[-> Ho]]; [done|]. exfalso. apply Hd.
      split; [done|]. by apply Hl. }
  assert (Hok2 : lineage_ok
            (mkWorld (areas w1) (host_lineages w1) (<[self:=sl2]> (symbiont_lineages w1)))
            self sl2).
  { split; [split; [|split]|split].
    - intros h' a'. unfold sl2. rewrite (cell_eq_dist sl1) by done. rewrite Hcell1. simpl.
      rewrite (frame_length _ _ _ Hf). destruct Hf as (-> & _ & _).
      case_decide as Hd; [|apply Hm]. destruct Hd as [-> Hd]. apply Hl in Hd.
      split; [intros _|eauto]. by apply (occupies_valid _ _ _ Hhost Hd).
    - intros h' a' v. unfold sl2. rewrite (cell_eq_dist sl1) by done. rewrite Hcell1.
      case_decide; [intros; simplify_eq; by right|apply Hbits].
    - intros h' a' Hc. apply Hcell2 in Hc. unfold occupies. simpl.
      destruct Hf as (-> & _ & _). destruct Hc as [Hc|[-> Hc]]; [by apply Hocc|done].
    - intros a. split.
      + unfold sl2. wsimpl. rewrite Hia1. destruct (Hareas a) as [-> _]. split.
        * intros [Hin|(h' & Hc)].
          -- exists h. apply Hcell2. right. split; [done|]. by apply Hl.
          -- exists h'. apply Hcell2. by left.
        * intros (h' & Hc). apply Hcell2 in Hc as [Hc|[-> Hc]]; [right; eauto|].
          left. by apply Hl.
      + unfold sl2. wsimpl. rewrite Hia1. destruct (Hareas a) as [_ <-].
        rewrite <- Hreg1. by apply registered_same_areas.
    - intros h'. unfold host_synced. unfold sl2 at 1. wsimpl. rewrite Hih1.
      pose proof (Hhosts h') as Hx. unfold host_synced in Hx. split.
      + rewrite elem_of_union, elem_of_singleton. intros [->|Hin].
        * exists a0. apply Hcell2. by right.
        * apply Hx in Hin as (a & Hc). exists a. apply Hcell2. by left.
      + intros (a & Hc). apply Hcell2 in Hc as [Hc|[-> _]]; [|set_solver].
        apply elem_of_union. right. apply Hx. eauto. }
  split_and!; try done.
  - destruct Hf as (Hfh & Hfa & Hfs). split; [|split]; simpl; try done.
    intros s Hne. rewrite lookup_insert_ne by done. by apply Hfs.
  - apply lookup_insert_eq.
  - eapply non_null_of_infects; [exact Hok2|]. unfold infects. apply Hcell2.
    right. split; [done|exact Ho0].
Qed.

(** ** The audit passes on a consistent, non-null lineage *)

Section AuditPasses.
Import SymbiontLineageAudit.
Context (w : World) (self : nat) (sl : SymbiontLineage.t).
Hypothesis Hhost : host_system_ok w.
Hypothesis Hok : lineage_ok w self sl.

(** What the walk has gathered after the cells [seen]. *)
Definition tally_of (seen : Z → nat → Prop) (t0 t : tally) : Prop :=
  (∀ h, h ∈ infected_hosts t
        ↔ h ∈ infected_hosts t0 ∨ ∃ a, seen h a ∧ cell sl h a = Some 1)
  ∧ (∀ a, a ∈ infected_areas t
          ↔ a ∈ infected_areas t0 ∨ ∃ h, seen h a ∧ cell sl h a = Some 1)
  ∧ (∀ a, a ∈ noninfected_areas t
          ↔ a ∈ noninfected_areas t0 ∧ ¬ ∃ h, seen h a ∧ cell sl h a = Some 1)
  ∧ (occurrences t0 ≤ occurrences t)%nat
  ∧ ((∃ h a, seen h a ∧ cell sl h a = Some 1) → (occurrences t0 < occurrences t)%nat).

Lemma audit_row h l : ∀ t0,
  h ∈ dom (host_lineages w) → (∀ a, a ∈ l → (a < length (areas w))%nat) →
  ∃ t, fold_result (audit_cell w self sl h) l t0 = Ok t
       ∧ tally_of (λ h' a, h' = h ∧ a ∈ l) t0 t.
Proof.
  destruct Hok as ((Hm & Hbits & Hocc) & Hareas & Hhosts).
  induction l as [|a l IH]; intros t0 Hh Hl.
  - exists t0. split; [done|]. unfold tally_of. split_and!; try lia.
    + intros h'. split; [by left|]. intros [?|(a & [_ Hin] & _)]; [done|].
      by apply elem_of_nil in Hin.
    + intros a. split; [by left|]. intros [?|(h' & [_ Hin] & _)]; [done|].
      by apply elem_of_nil in Hin.
    + intros a. split; [|tauto]. intros Hin. split; [done|].
      intros (h' & [_ Hin'] & _). by apply elem_of_nil in Hin'.
    + intros (h' & a & [_ Hin] & _). by apply elem_of_nil in Hin.
  - assert (Ha : (a < length (areas w))%nat) by (apply Hl; by left).
    destruct (proj2 (Hm h a) (conj Hh Ha)) as [v Hv].
    assert (Hstep : ∃ t1, audit_cell w self sl h t0 a = Ok t1
              ∧ tally_of (λ h' a', h' = h ∧ a' = a) t0 t1).
    { unfold audit_cell, read_cell. rewrite Hv. cbn [mbind result_bind].
      destruct (Hbits _ _ _ Hv) as [-> | ->]; cbn [Z.eqb negb].
      - exists t0. split; [done|]. unfold tally_of. split_and!; try lia.
        + intros h'. split; [by left|]. intros [?|(a' & [-> ->] & Hc)]; [done|congruence].
        + intros a'. split; [by left|]. intros [?|(h' & [-> ->] & Hc)]; [done|congruence].
        + intros a'. split; [|tauto]. intros Hin. split; [done|].
          intros (h' & [-> ->] & Hc). congruence.
        + intros (h' & a' & [-> ->] & Hc). congruence.
      - pose proof (Hocc _ _ Hv) as Ho. apply Hhost in Ho as (ar & Har & Hin).
        rewrite Har. cbn [mbind result_bind].
        rewrite (bool_decide_eq_true_2 (h ∈ Area.host_lineages ar)) by done.
        cbn [assert mbind result_bind].
        assert (self ∈ Area.symbiont_lineages ar) as Hreg.
        { destruct (Hareas a) as [Hx Hy].
          assert (registered w self a) as (ar0 & Har0 & ?) by (apply Hy, Hx; eauto).
          congruence. }
        rewrite (bool_decide_eq_true_2 (self ∈ Area.symbiont_lineages ar)) by done.
        cbn [assert mbind result_bind].
        eexists. split; [reflexivity|]. unfold tally_of. cbn. split_and!; try lia.
        + intros h'. rewrite elem_of_union, elem_of_singleton. split.
          * intros [->|?]; [right; exists a; done|by left].
          * intros [?|(a' & [-> ->] & _)]; [by right|by left].
        + intros a'. rewrite elem_of_union, elem_of_singleton. split.
          * intros [->|?]; [right; exists h; done|by left].
          * intros [?|(h' & [-> ->] & _)]; [by right|by left].
        + intros a'. rewrite elem_of_difference, elem_of_singleton. split.
          * intros [? Hne]. split; [done|]. intros (h' & [-> ->] & _). done.
          * intros [? Hn]. split; [done|]. intros ->. apply Hn. exists h. done. }
    destruct Hstep as (t1 & Hrun1 & Ht1).
    destruct (IH t1 Hh) as (t & Hrun & Ht); [intros; apply Hl; by right|].
    exists t. cbn [fold_result]. rewrite Hrun1. cbn [mbind result_bind].
    split; [exact Hrun|].
    destruct Ht1 as (A1 & A2 & A3 & A4 & A5). destruct Ht as (B1 & B2 & B3 & B4 & B5).
    unfold tally_of. split_and!.
    + intros h'. rewrite B1, A1. split.
      * intros [[?|(a' & [-> ->] & Hc)]|(a' & [-> Hin] & Hc)]; [by left| |].
        -- right. exists a. split; [split; [done|by left]|done].
        -- right. exists a'. split; [split; [done|by right]|done].
      * intros [?|(a' & [-> Hin] & Hc)]; [by left; left|].
        apply elem_of_cons in Hin as [->|Hin].
        -- left; right. exists a. done.
        -- right. exists a'. done.
    + intros a'. rewrite B2, A2. split.
      * intros [[?|(h' & [-> ->] & Hc)]|(h' & [-> Hin] & Hc)]; [by left| |].
        -- right. exists h. split; [split; [done|by left]|done].
        -- right. exists h. split; [split; [done|by right]|done].
      * intros [?|(h' & [-> Hin] & Hc)]; [by left; left|].
        apply elem_of_cons in Hin as [->|Hin].
        -- left; right. exists h. done.
        -- right. exists h. done.
    + intros a'. rewrite B3, A3. split.
      * intros [[? Hn1] Hn2]. split; [done|]. intros (h' & [-> Hin] & Hc).
        apply elem_of_cons in Hin as [->|Hin]; [apply Hn1|apply Hn2]; exists h; done.
      * intros [? Hn]. split; [split; [done|]|].
        -- intros (h' & [-> ->] & Hc). apply Hn. exists h. split; [split; [done|by left]|done].
        -- intros (h' & [-> Hin] & Hc). apply Hn. exists h. split; [split; [done|by right]|done].
    + lia.
    + intros (h' & a' & [-> Hin] & Hc). apply elem_of_cons in Hin as [->|Hin].
      * assert (occurrences t0 < occurrences t1)%nat by (apply A5; exists h, a; done). lia.
      * assert (occurrences t1 < occurrences t)%nat by (apply B5; exists h, a'; done). lia.
Qed.

Lemma tally_of_trans (S1 S2 S : Z → nat → Prop) t0 t1 t :
  tally_of S1 t0 t1 → tally_of S2 t1 t →
  (∀ h a, S h a ↔ S1 h a ∨ S2 h a) → tally_of S t0 t.
Proof.
  intros (A1 & A2 & A3 & A4 & A5) (B1 & B2 & B3 & B4 & B5) HS.
  unfold tally_of. split_and!.
  - intros h. rewrite B1, A1. split.
    + intros [[?|(a & Hs & Hc)]|(a & Hs & Hc)]; [by left| |];
        right; exists a; (split; [apply HS; tauto|done]).
    + intros [?|(a & Hs & Hc)]; [by left; left|].
      apply HS in Hs as [Hs|Hs]; [left; right|right]; exists a; done.
  - intros a. rewrite B2, A2. split.
    + intros [[?|(h & Hs & Hc)]|(h & Hs & Hc)]; [by left| |];
        right; exists h; (split; [apply HS; tauto|done]).
    + intros [?|(h & Hs & Hc)]; [by left; left|].
      apply HS in Hs as [Hs|Hs]; [left; right|right]; exists h; done.
  - intros a. rewrite B3, A3. split.
    + intros [[? Hn1] Hn2]. split; [done|]. intros (h & Hs & Hc).
      apply HS in Hs as [Hs|Hs]; [apply Hn1|apply Hn2]; exists h; done.
    + intros [? Hn]. split; [split; [done|]|];
        intros (h & Hs & Hc); apply Hn; exists h; (split; [apply HS; tauto|done]).
  - lia.
  - intros (h & a & Hs & Hc). apply HS in Hs as [Hs|Hs].
    + assert (occurrences t0 < occurrences t1)%nat by (apply A5; exists h, a; done). lia.
    + assert (occurrences t1 < occurrences t)%nat by (apply B5; exists h, a; done). lia.
Qed.

Lemma audit_rows hs : ∀ t0,
  (∀ h, h ∈ hs → h ∈ dom (host_lineages w)) →
  ∃ t, fold_result
         (λ acc host_lineage,
            fold_result (audit_cell w self sl host_lineage) (area_ids w) acc) hs t0 = Ok t
       ∧ tally_of (λ h a, h ∈ hs ∧ a ∈ area_ids w) t0 t.
Proof.
  induction hs as [|h hs IH]; intros t0 Hhs.
  - exists t0. split; [done|]. unfold tally_of. split_and!; try lia.
    + intros h. split; [by left|]. intros [?|(a & [Hin _] & _)]; [done|].
      by apply elem_of_nil in Hin.
    + intros a. split; [by left|]. intros [?|(h & [Hin _] & _)]; [done|].
      by apply elem_of_nil in Hin.
    + intros a. split; [|tauto]. intros Hin. split; [done|].
      intros (h & [Hin' _] & _). by apply elem_of_nil in Hin'.
    + intros (h & a & [Hin _] & _). by apply elem_of_nil in Hin.
  - destruct (audit_row h (area_ids w) t0) as (t1 & Hrun1 & Ht1).
    { apply Hhs. by left. }
    { intros a Hin. unfold area_ids in Hin. apply elem_of_seq in Hin. lia. }
    destruct (IH t1) as (t & Hrun & Ht); [intros; apply Hhs; by right|].
    exists t. cbn [fold_result]. rewrite Hrun1. cbn [mbind result_bind].
    split; [exact Hrun|].
    eapply tally_of_trans; [exact Ht1|exact Ht|].
    intros h' a. rewrite elem_of_cons. tauto.
Qed.

Lemma debug_check_passes (is_almost_equal : Q → Q → bool) (ignore : bool) :
  symbiont_lineages w !! self = Some sl → non_null sl →
  debug_check is_almost_equal self None ignore w = (Ok tt, w).
Proof.
  intros Hs Hnn. pose proof Hok as ((Hm & Hbits & Hocc) & Hareas & Hhosts).
  unfold debug_check, debug_check_result. rewrite Hs. cbn [mbind result_bind].
  destruct (audit_rows (elements (dom (host_lineages w)))
              (mkTally ∅ ∅ (list_to_set (area_ids w)) 0))
    as (t & Hrun & (T1 & T2 & T3 & T4 & T5)).
  { intros h. by rewrite elem_of_elements. }
  unfold audit_matrix. rewrite Hrun. cbn [mbind result_bind].
  assert (Hseen : ∀ h a, cell sl h a = Some 1 →
            h ∈ elements (dom (host_lineages w)) ∧ a ∈ area_ids w).
  { intros h a Hc. destruct (proj1 (Hm h a)) as [Hh Ha]; [eauto|].
    split; [by apply elem_of_elements|]. unfold area_ids. apply elem_of_seq. lia. }
  assert (Hocc1 : (0 < occurrences t)%nat).
  { destruct (infects_of_non_null _ _ _ Hok Hnn) as (h & a & Hc). unfold infects in Hc.
    cbn in T5. apply T5. exists h, a. split; [by apply Hseen|done]. }
  assert (Hih : infected_hosts t = _infected_hosts sl).
  { apply set_eq. intros h. rewrite T1. cbn. unfold host_synced in Hhosts.
    rewrite (Hhosts h). split.
    - intros [?|(a & _ & Hc)]; [set_solver|eauto].
    - intros (a & Hc). right. exists a. split; [by apply Hseen|done]. }
  assert (Hia : infected_areas t = _infected_areas sl).
  { apply set_eq. intros a. rewrite T2. cbn. destruct (Hareas a) as [-> _]. split.
    - intros [?|(h & _ & Hc)]; [set_solver|eauto].
    - intros (h & Hc). right. exists h. split; [by apply Hseen|done]. }
  rewrite (proj2 (Nat.ltb_lt _ _) Hocc1). cbn [assert mbind result_bind].
  rewrite (bool_decide_eq_true_2 _ Hih). cbn [assert mbind result_bind].
  rewrite (bool_decide_eq_true_2 _ Hia). cbn [assert mbind result_bind].
  assert (Hnon : ∀ l, (∀ a, a ∈ l → a ∈ noninfected_areas t) →
            fold_result
              (λ (_ : ()) (area : nat),
                 ar ← match areas w !! area with
                      | Some ar => Ok ar
                      | None => Raise NameError
                      end;
                 assert (negb (bool_decide (self ∈ Area.symbiont_lineages ar))))
              l () = Ok ()).
  { induction l as [|a l IH]; intros Hl; [done|].
    assert (Hin : a ∈ noninfected_areas t) by (apply Hl; by left).
    apply T3 in Hin as [Hin Hnone]. cbn in Hin. apply elem_of_list_to_set in Hin.
    unfold area_ids in Hin. apply elem_of_seq in Hin.
    destruct (lookup_lt_is_Some_2 (areas w) a) as [ar Har]; [lia|].
    cbn [fold_result]. rewrite Har. cbn [mbind result_bind].
    rewrite bool_decide_eq_false_2.
    - cbn [negb assert mbind result_bind]. apply IH. intros; apply Hl; by right.
    - intros Hself. apply Hnone. destruct (Hareas a) as [Hx Hy].
      assert (registered w self a) as Hr by (exists ar; done).
      apply Hy, Hx in Hr as (h & Hc). exists h. split; [by apply Hseen|done]. }
  rewrite Hnon; [done|]. intros a. by rewrite elem_of_elements.
Qed.
End AuditPasses.

(** *** What a passing [debug_check] establishes *)

Section AuditSound.
Import SymbiontLineageAudit.
Context (w : World) (self : nat) (sl : SymbiontLineage.t).

(** What [debug_check] has verified of a cell it walked over. *)
Definition cell_checked (h : Z) (a : nat) : Prop :=
  cell sl h a = Some 0
  ∨ (cell sl h a = Some 1 ∧ hosted_in w a h ∧ registered w self a).

Lemma tally_of_none_at (seen : Z → nat → Prop) t0 :
  (∀ h a, seen h a → cell sl h a ≠ Some 1) → tally_of sl seen t0 t0.
Proof.
  intros Hnone. unfold tally_of. split_and!; try lia; try naive_solver.
Qed.

(** The count of occurrences only moves at a cell that is set. *)
Definition counted (seen : Z → nat → Prop) (t0 t : tally) : Prop :=
  (occurrences t0 < occurrences t)%nat → ∃ h a, seen h a ∧ cell sl h a = Some 1.

Lemma counted_trans (S1 S2 S : Z → nat → Prop) t0 t1 t :
  counted S1 t0 t1 → counted S2 t1 t →
  (∀ h a, S h a ↔ S1 h a ∨ S2 h a) → counted S t0 t.
Proof.
  intros H1 H2 HS Hlt.
  destruct (decide (occurrences t0 < occurrences t1)%nat) as [Hlt1|Hge].
  - destruct (H1 Hlt1) as (h & a & Hs & Hc). exists h, a. split; [apply HS; by left|done].
  - destruct H2 as (h & a & Hs & Hc); [lia|]. exists h, a.
    split; [apply HS; by right|done].
Qed.

Lemma audit_cell_sound h t0 a t1 :
  audit_cell w self sl h t0 a = Ok t1 →
  cell_checked h a ∧ tally_of sl (λ h' a', h' = h ∧ a' = a) t0 t1
  ∧ counted (λ h' a', h' = h ∧ a' = a) t0 t1.
Proof.
  unfold audit_cell, read_cell, cell_checked.
  destruct (cell sl h a) as [v|] eqn:Hv; cbn [mbind result_bind]; [|discriminate].
  destruct (Z.eqb_spec v 1) as [->|Hv1].
  - destruct (areas w !! a) as [ar|] eqn:Har; cbn [mbind result_bind]; [|discriminate].
    destruct (bool_decide (h ∈ Area.host_lineages ar)) eqn:Hh;
      cbn [assert mbind result_bind]; [|discriminate].
    destruct (bool_decide (self ∈ Area.symbiont_lineages ar)) eqn:Hs;
      cbn [assert mbind result_bind]; [|discriminate].
    apply bool_decide_eq_true in Hh, Hs.
    intros [= <-]. split_and!.
    + right. split_and!; [done|by exists ar|by exists ar].
    + unfold tally_of. cbn. split_and!; try lia.
      * intros h'. rewrite elem_of_union, elem_of_singleton. split.
        -- intros [->|?]; [right; exists a; done|by left].
        -- intros [?|(a' & [-> ->] & _)]; [by right|by left].
      * intros a'. rewrite elem_of_union, elem_of_singleton. split.
        -- intros [->|?]; [right; exists h; done|by left].
        -- intros [?|(h' & [-> ->] & _)]; [by right|by left].
      * intros a'. rewrite elem_of_difference, elem_of_singleton. split.
        -- intros [? Hne]. split; [done|]. intros (h' & [-> ->] & _). done.
        -- intros [? Hn]. split; [done|]. intros ->. apply Hn. exists h. done.
    + intros _. by exists h, a.
  - destruct (Z.eqb_spec v 0) as [->|Hv0]; cbn [negb]; [|discriminate].
    intros [= <-]. split_and!; [by left| |intros ?; lia].
    apply tally_of_none_at. intros h' a' [-> ->]. congruence.
Qed.

Lemma audit_row_sound h l : ∀ t0 t,
  fold_result (audit_cell w self sl h) l t0 = Ok t →
  (∀ a, a ∈ l → cell_checked h a)
  ∧ tally_of sl (λ h' a, h' = h ∧ a ∈ l) t0 t
  ∧ counted (λ h' a, h' = h ∧ a ∈ l) t0 t.
Proof.
  induction l as [|a l IH]; intros t0 t Hrun.
  - injection Hrun as <-.
    split_and!; [intros a Ha; by apply elem_of_nil in Ha| |intros ?; lia].
    apply tally_of_none_at. intros h' a [_ Ha]. by apply elem_of_nil in Ha.
  - cbn [fold_result] in Hrun.
    destruct (audit_cell w self sl h t0 a) as [t1|] eqn:Hcell;
      cbn [mbind result_bind] in Hrun; [|discriminate].
    apply audit_cell_sound in Hcell as (Hc & Ht1 & Hn1).
    apply IH in Hrun as (Hl & Ht & Hn). split_and!.
    + intros a' [->|Hin]%elem_of_cons; [done|by apply Hl].
    + eapply tally_of_trans; [exact Ht1|exact Ht|].
      intros h' a'. rewrite elem_of_cons. naive_solver.
    + eapply counted_trans; [exact Hn1|exact Hn|].
      intros h' a'. rewrite elem_of_cons. naive_solver.
Qed.

Lemma audit_rows_sound hs : ∀ t0 t,
  fold_result
    (λ acc host_lineage,
       fold_result (audit_cell w self sl host_lineage) (area_ids w) acc) hs t0 = Ok t →
  (∀ h a, h ∈ hs → a ∈ area_ids w → cell_checked h a)
  ∧ tally_of sl (λ h a, h ∈ hs ∧ a ∈ area_ids w) t0 t
  ∧ counted (λ h a, h ∈ hs ∧ a ∈ area_ids w) t0 t.
Proof.
  induction hs as [|h hs IH]; intros t0 t Hrun.
  - injection Hrun as <-.
    split_and!; [intros h a Hh; by apply elem_of_nil in Hh| |intros ?; lia].
    apply tally_of_none_at. intros h' a [Hh _]. by apply elem_of_nil in Hh.
  - cbn [fold_result] in Hrun.
    destruct (fold_result (audit_cell w self sl h) (area_ids w) t0) as [t1|] eqn:Hrow;
      cbn [mbind result_bind] in Hrun; [|discriminate].
    apply audit_row_sound in Hrow as (Hc & Ht1 & Hn1).
    apply IH in Hrun as (Hl & Ht & Hn). split_and!.
    + intros h' a [->|Hin]%elem_of_cons Ha; [by apply Hc|by apply Hl].
    + eapply tally_of_trans; [exact Ht1|exact Ht|].
      intros h' a'. rewrite elem_of_cons. naive_solver.
    + eapply counted_trans; [exact Hn1|exact Hn|].
      intros h' a'. rewrite elem_of_cons. naive_solver.
Qed.

(** The lineage as a returning [debug_check] has found it, over the host
    lineages and the areas of the system. *)
Definition audited : Prop :=
  (∀ h a, h ∈ dom (host_lineages w) → (a < length (areas w))%nat → cell_checked h a)
  ∧ (∀ h, h ∈ _infected_hosts sl
          ↔ h ∈ dom (host_lineages w)
            ∧ ∃ a, (a < length (areas w))%nat ∧ cell sl h a = Some 1)
  ∧ (∀ a, a ∈ _infected_areas sl
          ↔ (a < length (areas w))%nat
            ∧ ∃ h, h ∈ dom (host_lineages w) ∧ cell sl h a = Some 1)
  ∧ (∀ a, (a < length (areas w))%nat → a ∉ _infected_areas sl → ¬ registered w self a)
  ∧ non_null sl.

Lemma debug_check_sound (is_almost_equal : Q → Q → bool) (time : option Q)
    (ignore : bool) :
  symbiont_lineages w !! self = Some sl →
  debug_check is_almost_equal self time ignore w = (Ok tt, w) →
  audited.
Proof.
  intros Hs Hrun. unfold debug_check, debug_check_result in Hrun.
  rewrite Hs in Hrun. cbn [mbind result_bind] in Hrun.
  destruct (audit_matrix w self sl) as [t|] eqn:Haudit;
    cbn [mbind result_bind] in Hrun; [|discriminate].
  unfold audit_matrix in Haudit.
  apply audit_rows_sound in Haudit as (Hcells & (T1 & T2 & T3 & T4 & T5) & Hcount).
  cbn in T1, T2, T3, Hcount.
  destruct (Nat.ltb_spec 0 (occurrences t)) as [Hocc|];
    cbn [assert mbind result_bind] in Hrun; [|discriminate].
  destruct (bool_decide (infected_hosts t = _infected_hosts sl)) eqn:Hih;
    cbn [assert mbind result_bind] in Hrun; [|discriminate].
  destruct (bool_decide (infected_areas t = _infected_areas sl)) eqn:Hia;
    cbn [assert mbind result_bind] in Hrun; [|discriminate].
  apply bool_decide_eq_true in Hih, Hia.
  match type of Hrun with
  | (mbind _ ?f, _) = _ => destruct f as [[]|] eqn:Hnon
  end; cbn [mbind result_bind] in Hrun; [|discriminate]. clear Hrun.
  assert (Hids : ∀ a, a ∈ area_ids w ↔ (a < length (areas w))%nat).
  { intros a. unfold area_ids. rewrite elem_of_seq. lia. }
  assert (Hhs : ∀ h, h ∈ infected_hosts t
              ↔ h ∈ dom (host_lineages w)
                ∧ ∃ a, (a < length (areas w))%nat ∧ cell sl h a = Some 1).
  { intros h. rewrite T1. setoid_rewrite elem_of_elements. setoid_rewrite Hids.
    split; [intros [?|?]; [set_solver|naive_solver]|naive_solver]. }
  assert (Has : ∀ a, a ∈ infected_areas t
              ↔ (a < length (areas w))%nat
                ∧ ∃ h, h ∈ dom (host_lineages w) ∧ cell sl h a = Some 1).
  { intros a. rewrite T2. setoid_rewrite elem_of_elements. setoid_rewrite Hids.
    split; [intros [?|?]; [set_solver|naive_solver]|naive_solver]. }
  unfold audited. split_and!.
  - intros h a Hh Ha. apply Hcells; [by apply elem_of_elements|by apply Hids].
  - intros h. by rewrite <- Hih.
  - intros a. by rewrite <- Hia.
  - intros a Ha Hnot (ar & Har & Hreg).
    assert (Hnin : a ∈ noninfected_areas t).
    { apply T3. split; [apply elem_of_list_to_set; by apply Hids|].
      intros (h & [Hh _] & Hc). apply Hnot. rewrite <- Hia. apply Has.
      split; [done|]. exists h. split; [by apply elem_of_elements in Hh|done]. }
    apply elem_of_elements in Hnin. revert Hnon Hnin.
    generalize (elements (noninfected_areas t)). intros l.
    induction l as [|a' l IH]; intros Hnon Hin; [by apply elem_of_nil in Hin|].
    cbn [fold_result] in Hnon.
    destruct (areas w !! a') as [ar'|] eqn:Har'; cbn [mbind result_bind] in Hnon;
      [|discriminate].
    destruct (bool_decide (self ∈ Area.symbiont_lineages ar')) eqn:Hself;
      cbn [negb assert mbind result_bind] in Hnon; [discriminate|].
    apply bool_decide_eq_false in Hself.
    apply elem_of_cons in Hin as [->|Hin]; [congruence|by apply IH].
  - assert (∃ h a, (h ∈ elements (dom (host_lineages w)) ∧ a ∈ area_ids w)
                   ∧ cell sl h a = Some 1) as (h & a & [Hh Ha] & Hc).
    { by apply Hcount. }
    split.
    + rewrite <- Hih. intros Hempty.
      assert (h ∈ infected_hosts t) as Hin; [|set_solver].
      apply Hhs. split; [by apply elem_of_elements in Hh|]. exists a.
      split; [by apply Hids|done].
    + rewrite <- Hia. intros Hempty.
      assert (a ∈ infected_areas t) as Hin; [|set_solver].
      apply Has. split; [by apply Hids|]. exists h.
      split; [by apply elem_of_elements in Hh|done].
Qed.
End AuditSound.

(** A lineage some host of which occupies no area it is marked in cannot
    pass [debug_check]. *)
Lemma stale_host_fails_debug_check (is_almost_equal : Q → Q → bool) w self sl h
    time ignore :
  host_system_ok w → symbiont_lineages w !! self = Some sl →
  h ∈ _infected_hosts sl → (∀ a, cell sl h a = Some 1 → ¬ occupies w h a) →
  SymbiontLineageAudit.debug_check is_almost_equal self time ignore w ≠ (Ok tt, w).
Proof.
  intros Hhost Hs Hin Hstale Hrun.
  apply (debug_check_sound w self sl _ _ _ Hs) in Hrun as (Hcells & Hhs & _).
  apply Hhs in Hin as (Hh & a & Ha & Hc).
  destruct (Hcells h a Hh Ha) as [H0|(_ & Hhosted & _)]; [congruence|].
  apply (Hstale a Hc). by apply Hhost.
Qed.

(** ** Bidirectional consistency over the public mutators *)

Inductive mutator :=
| CallAddHostInArea (host_lineage : Z) (area : option nat)
| CallRemoveHostInArea (host_lineage : Z) (area : option nat)
| CallRemoveHost (host_lineage : Z)
| CallClearThenUpdate (other : nat).

Definition run_mutator (self : nat) (m : mutator) : M unit :=
  match m with
  | CallAddHostInArea h area => add_host_in_area self h area
  | CallRemoveHostInArea h area => remove_host_in_area self h area
  | CallRemoveHost h => remove_host self h
  | CallClearThenUpdate other =>
      clear_distribution self;; update_distribution self other
  end.

(** The one call left out: [add_host_in_area(host)] without an area for a
    host that occupies no area. It returns, and leaves the host in the
    infected-host set with none of its cells set. *)
Definition mutator_pre (w : World) (self : nat) (m : mutator) : Prop :=
  match m with
  | CallAddHostInArea h None => ∃ a, occupies w h a
  | _ => True
  end.

(** The states reached from a host system without symbiont lineages by
    constructing lineages and calling their mutators, each call returning. *)
Inductive reachable : World → Prop :=
| reachable_hosts w :
    host_system_ok w → symbiont_lineages w = ∅ → symbionts_closed w → reachable w
| reachable_new w index :
    reachable w → reachable (SymbiontLineageOps.new index w).2
| reachable_call w self m w' :
    reachable w → is_Some (symbiont_lineages w !! self) →
    mutator_pre w self m → run_mutator self m w = (Ok tt, w') → reachable w'.

Definition store_ok (w : World) : Prop :=
  host_system_ok w ∧ symbionts_closed w
  ∧ ∀ s sl, symbiont_lineages w !! s = Some sl → lineage_ok w s sl.

(** A call with a named area returns only for an area the host occupies,
    and a call on a host only for a host lineage of the system. *)
Lemma add_host_in_area_returns self h a w w' :
  add_host_in_area self h (Some a) w = (Ok tt, w') → occupies w h a.
Proof.
  unfold add_host_in_area. rewrite run_assoc. intros Hrun.
  destruct (host_lineages w !! h) as [hl|] eqn:Hh.
  - erewrite has_area_run in Hrun by done.
    destruct (bool_decide (a ∈ HostLineage._current_areas hl)) eqn:Hb.
    + apply bool_decide_eq_true in Hb. by exists hl.
    + rewrite run_assoc, run_massert_false in Hrun. discriminate Hrun.
  - unfold HostLineageOps.has_area in Hrun. rewrite run_assoc, bind_run in Hrun.
    unfold get_host in Hrun. rewrite Hh in Hrun. discriminate Hrun.
Qed.

Lemma remove_host_in_area_returns self h a w w' :
  remove_host_in_area self h (Some a) w = (Ok tt, w') → occupies w h a.
Proof.
  unfold remove_host_in_area. intros Hrun.
  destruct (host_lineages w !! h) as [hl|] eqn:Hh.
  - erewrite has_area_run in Hrun by done.
    destruct (bool_decide (a ∈ HostLineage._current_areas hl)) eqn:Hb.
    + apply bool_decide_eq_true in Hb. by exists hl.
    + rewrite run_massert_false in Hrun. discriminate Hrun.
  - unfold HostLineageOps.has_area in Hrun. rewrite run_assoc, bind_run in Hrun.
    unfold get_host in Hrun. rewrite Hh in Hrun. discriminate Hrun.
Qed.

Lemma remove_host_returns self h w w' :
  remove_host self h w = (Ok tt, w') → h ∈ dom (host_lineages w).
Proof.
  unfold remove_host. rewrite bind_run. unfold get_host.
  destruct (host_lineages w !! h) eqn:Hh; [|discriminate].
  intros _. apply elem_of_dom. eauto.
Qed.

Lemma frame_symbionts_closed self w w' :
  frame self w w' → is_Some (symbiont_lineages w' !! self) →
  symbionts_closed w → symbionts_closed w'.
Proof.
  intros (Hh & Ha & Hs) Hself Hclosed a ar' Har' s Hin.
  destruct (decide (s = self)) as [->|Hne]; [by apply elem_of_dom|].
  destruct (Forall2_lookup_r _ _ _ _ _ Ha Har') as (ar & Har & (_ & _ & Hsame)).
  apply Hsame in Hin; [|done]. specialize (Hclosed a ar Har s Hin).
  apply elem_of_dom. rewrite Hs by done. by apply elem_of_dom.
Qed.

Lemma store_ok_after self w w' sl' :
  store_ok w → frame self w w' →
  symbiont_lineages w' !! self = Some sl' → lineage_ok w' self sl' →
  store_ok w'.
Proof.
  intros (Hhost & Hclosed & Hall) Hf Hs' Hok'. split; [|split].
  - eapply frame_host_system_ok; eauto.
  - eapply frame_symbionts_closed; eauto.
  - intros s sl Hs. destruct (decide (s = self)) as [->|Hne]; [congruence|].
    eapply frame_lineage_ok_other; [exact Hf|done|]. apply Hall.
    destruct Hf as (_ & _ & Hsame). by rewrite <- Hsame.
Qed.

(** [update_distribution] from the lineage itself changes no cell and no
    cache. *)
Lemma update_distribution_self_spec w self sl :
  host_system_ok w → symbiont_lineages w !! self = Some sl → lineage_ok w self sl →
  ∃ w' sl', update_distribution self self w = (Ok tt, w')
    ∧ frame self w w'
    ∧ symbiont_lineages w' !! self = Some sl'
    ∧ lineage_ok w' self sl'
    ∧ ∀ h a, cell sl' h a = Some 1 ↔ cell sl h a = Some 1.
Proof.
  intros Hhost Hs Hok.
  pose proof Hok as ((_ & _ & Hocc) & _ & _).
  destruct (update_loop self (cells (_host_area_distribution sl)) w sl Hhost Hs Hok)
    as (w1 & sl1 & Hrun & Hf & Hs1 & Hok1 & _ & _ & Hcell1).
  { intros h a Hin. apply Hocc. by apply elem_of_cells. }
  assert (Hcell : ∀ h a, cell sl1 h a = Some 1 ↔ cell sl h a = Some 1).
  { intros h a. rewrite Hcell1, elem_of_cells. unfold cell. tauto. }
  unfold update_distribution. erewrite run_get_symbiont by eauto.
  fold (update_body self). rewrite bind_run, Hrun.
  erewrite run_get_symbiont by eauto. erewrite run_get_symbiont by eauto.
  unfold set_symbiont. eexists _, _. split; [reflexivity|]. wsimpl.
  split.
  { destruct Hf as (Hfh & Hfa & Hfs). split; [|split]; simpl; try done.
    intros s Hs'. rewrite lookup_insert_ne by done. by apply Hfs. }
  split; [apply lookup_insert_eq|]. split; [|done].
  eapply lineage_ok_same_caches; [exact Hok1|done..| |]; wsimpl.
  - apply union_idemp_L.
  - apply union_idemp_L.
Qed.

(** A lineage with consistent caches occupies something exactly when one
    of its cells is set. *)
Lemma non_null_iff_infects w self sl :
  lineage_ok w self sl → non_null sl ↔ ∃ h a, cell sl h a = Some 1.
Proof.
  intros Hok. split.
  - by apply (infects_of_non_null w self).
  - intros (h & a & Hc). by apply (non_null_of_infects w self sl h a).
Qed.

(** Whether the lineage occupies something after a returning call. *)
Definition leaves_occupied (w : World) (self : nat) (m : mutator) : Prop :=
  match m with
  | CallClearThenUpdate other => other ≠ self ∧ non_null_in w other
  | _ => True
  end.

Lemma clear_then_update_ok w self sl other w' :
  store_ok w → symbiont_lineages w !! self = Some sl →
  (clear_distribution self;; update_distribution self other) w = (Ok tt, w') →
  store_ok w'
  ∧ (non_null_in w' self ↔ other ≠ self ∧ non_null_in w other).
Proof.
  intros Hstore Hs H. pose proof Hstore as (Hhost & Hclosed & Hall).
  pose proof (Hall _ _ Hs) as Hok.
  destruct (clear_distribution_spec w self sl Hs Hok)
    as (w1 & sl1 & Hrun1 & Hf1 & Hs1 & Hok1 & _ & _ & Hcell1 & _).
  assert (Hstore1 : store_ok w1) by (eapply store_ok_after; eauto).
  assert (Hzero : ∀ h a, cell sl1 h a ≠ Some 1).
  { intros h a. rewrite Hcell1. by destruct (cell sl h a). }
  rewrite bind_run, Hrun1 in H.
  destruct (decide (other = self)) as [->|Hne].
  - destruct (update_distribution_self_spec w1 self sl1 (proj1 Hstore1) Hs1 Hok1)
      as (w2 & sl2 & Hrun2 & Hf2 & Hs2 & Hok2 & Hcell).
    rewrite Hrun2 in H. injection H as <-. split.
    + eapply store_ok_after; eauto.
    + split; [|by intros [? _]]. intros (sl2' & Hs2' & Hnn).
      assert (sl2' = sl2) as -> by congruence.
      apply (non_null_iff_infects _ _ _ Hok2) in Hnn as (h & a & Hc).
      apply Hcell in Hc. by destruct (Hzero h a).
  - destruct (symbiont_lineages w !! other) as [o|] eqn:Ho.
    + destruct (frame_consistent_other self w w1 other o Hf1 Hne Ho (Hall _ _ Ho))
        as [Ho1 Hoko1].
      destruct (update_distribution_spec w1 self other sl1 o (proj1 Hstore1)
                  (not_eq_sym Hne) Hs1 Hok1 Ho1 Hoko1)
        as (w2 & sl2 & Hrun2 & Hf2 & Hs2 & Hok2 & _ & _ & Hcell & _).
      rewrite Hrun2 in H. injection H as <-. split.
      * eapply store_ok_after; eauto.
      * assert (Hsame : ∀ h a, cell sl2 h a = Some 1 ↔ cell o h a = Some 1).
        { intros h a. rewrite Hcell. specialize (Hzero h a). tauto. }
        split.
        -- intros (sl2' & Hs2' & Hnn). assert (sl2' = sl2) as -> by congruence.
           split; [done|]. exists o. split; [done|].
           apply (non_null_iff_infects _ _ _ Hok2) in Hnn as (h & a & Hc).
           apply (non_null_iff_infects _ _ _ Hoko1). exists h, a. by apply Hsame.
        -- intros (_ & o' & Ho' & Hnn). assert (o' = o) as -> by congruence.
           exists sl2. split; [done|].
           apply (non_null_iff_infects _ _ _ Hoko1) in Hnn as (h & a & Hc).
           apply (non_null_iff_infects _ _ _ Hok2). exists h, a. by apply Hsame.
    + assert (Ho1 : symbiont_lineages w1 !! other = None).
      { destruct Hf1 as (_ & _ & Hsame). by rewrite Hsame. }
      unfold update_distribution in H. rewrite bind_run in H.
      unfold get_symbiont in H. rewrite Ho1 in H. discriminate H.
Qed.

Lemma run_mutator_ok w self sl m w' :
  store_ok w → symbiont_lineages w !! self = Some sl →
  mutator_pre w self m → run_mutator self m w = (Ok tt, w') →
  store_ok w' ∧ (non_null_in w' self ↔ leaves_occupied w self m).
Proof.
  intros Hstore Hs Hpre H. pose proof Hstore as (Hhost & Hclosed & Hall).
  pose proof (Hall _ _ Hs) as Hok.
  destruct m as [h [a|]|h [a|]|h|other]; simpl in Hpre; unfold run_mutator in H;
    cbn [leaves_occupied].
  - pose proof (add_host_in_area_returns _ _ _ _ _ H) as Ho.
    destruct (add_host_in_area_some_spec w self sl h a Hhost Hs Hok Ho)
      as (w1 & sl1 & Hrun & Hs1 & Hok1 & _ & Hih & Hia & _).
    pose proof (frame_add_host_in_area _ _ _ _ _ _ Hrun) as Hf.
    rewrite Hrun in H. injection H as <-. split.
    + eapply store_ok_after; eauto.
    + split; [done|]. intros _. exists sl1. split; [done|]. eapply non_null_add; eauto.
  - destruct (add_host_in_area_none_spec w self sl h Hhost Hs Hok Hpre)
      as (w1 & sl1 & Hrun & Hf & Hs1 & Hok1 & Hnn & _).
    rewrite Hrun in H. injection H as <-. split.
    + eapply store_ok_after; eauto.
    + split; [done|]. intros _. by exists sl1.
  - pose proof (remove_host_in_area_returns _ _ _ _ _ H) as Ho.
    pose proof (frame_remove_host_in_area _ _ _ _ _ _ H) as Hf.
    destruct (remove_host_in_area_some_spec w self sl h a _ _ Hhost Hs Hok Ho H)
      as (sl1 & Hs1 & Hok1 & _ & _ & _ & [[_ Hnn]|[[? _]|[? _]]]); try done.
    split; [eapply store_ok_after; eauto|]. split; [done|]. intros _. by exists sl1.
  - pose proof (remove_host_returns _ _ _ _ H) as Hh.
    destruct (remove_host_spec w self sl h _ _ Hhost Hs Hok Hh H)
      as (Hf & sl1 & Hs1 & Hok1 & _ & _ & _ & _ & [[_ Hnn]|[[? _]|[? _]]]); try done.
    split; [eapply store_ok_after; eauto|]. split; [done|]. intros _. by exists sl1.
  - pose proof (remove_host_returns _ _ _ _ H) as Hh.
    destruct (remove_host_spec w self sl h _ _ Hhost Hs Hok Hh H)
      as (Hf & sl1 & Hs1 & Hok1 & _ & _ & _ & _ & [[_ Hnn]|[[? _]|[? _]]]); try done.
    split; [eapply store_ok_after; eauto|]. split; [done|]. intros _. by exists sl1.
  - by eapply clear_then_update_ok.
Qed.

Lemma reachable_store_ok w : reachable w → store_ok w.
Proof.
  induction 1 as [w Hhost Hempty Hclosed|w index Hr IH|w self m w' Hr IH [sl Hs] Hpre Hrun].
  - split_and!; try done. intros s sl Hs. rewrite Hempty in Hs. by rewrite lookup_empty in Hs.
  - destruct IH as (Hhost & Hclosed & Hall).
    destruct (new_consistent w index _ _ Hclosed eq_refl)
      as ((sl & Hs & Hok) & _ & Hf & Hclosed').
    eapply store_ok_after; eauto. by split_and!.
  - eapply run_mutator_ok; eauto.
Qed.

(** [add_host_in_area(host)] without an area for a host that occupies no
    area: the loop over its areas is empty and the host is added to the
    infected-host set. *)
Lemma add_host_without_areas_run w self sl h hl :
  symbiont_lineages w !! self = Some sl →
  host_lineages w !! h = Some hl → HostLineage._current_areas hl = ∅ →
  add_host_in_area self h None w
  = (Ok tt, mkWorld (areas w) (host_lineages w)
              (<[self := with_infected_hosts sl ({[h]} ∪ _infected_hosts sl)]>
                 (symbiont_lineages w))).
Proof.
  intros Hs Hh Hcur.
  unfold add_host_in_area. rewrite run_assoc. erewrite run_get_host by done.
  rewrite Hcur, elements_empty. simpl for_each. rewrite run_ret.
  unfold infected_hosts_add. erewrite run_get_symbiont by done. done.
Qed.

(** The claim as it is worded: a cell is set exactly when its host is in the
    infected-host set, its area in the infected-area set and the lineage
    registered on the area. *)
Definition cell_iff_memberships : Prop :=
  ∀ w self sl h a,
    reachable w → symbiont_lineages w !! self = Some sl →
    (cell sl h a = Some 1
     ↔ h ∈ _infected_hosts sl ∧ a ∈ _infected_areas sl ∧ registered w self a).

Lemma after_calls_reachable : reachable SymbiontExamples.after_calls.
Proof.
  assert (H0 : reachable SymbiontExamples.seeded).
  { apply (reachable_new SymbiontExamples.hosts_active 0).
    apply reachable_hosts.
    - apply hosts_active_ok.
    - vm_compute. reflexivity.
    - apply hosts_active_closed. }
  assert (H1 : reachable
            (add_host_in_area SymbiontExamples.lineage 1 (Some 1%nat)
               SymbiontExamples.seeded).2).
  { eapply (reachable_call _ SymbiontExamples.lineage (CallAddHostInArea 1 (Some 1%nat)));
      [exact H0| | |].
    - vm_compute. eauto.
    - exact I.
    - vm_compute. reflexivity. }
  eapply (reachable_call _ SymbiontExamples.lineage (CallAddHostInArea 2 (Some 0%nat)));
    [exact H1| | |].
  - vm_compute. eauto.
  - exact I.
  - vm_compute. reflexivity.
Qed.

(** C2 as worded fails: after [add_host_in_area(host1, area1)] and
    [add_host_in_area(host2, area0)], host 1 is infected, area 0 is infected
    and lists the lineage, yet cell (host 1, area 0) is 0. *)
Lemma C2_cell_iff_memberships_fails : ¬ cell_iff_memberships.
Proof.
  intros Hclaim.
  destruct (symbiont_lineages SymbiontExamples.after_calls !! SymbiontExamples.lineage)
    as [sl|] eqn:Hs; [|by vm_compute in Hs].
  specialize (Hclaim SymbiontExamples.after_calls SymbiontExamples.lineage sl 1 0%nat
                after_calls_reachable Hs).
  vm_compute in Hs. injection Hs as <-.
  apply proj2 in Hclaim.
  enough (Some 0 = Some 1) by done.
  etrans; [|apply Hclaim].
  - vm_compute. reflexivity.
  - split_and!.
    + eapply bool_decide_unpack. vm_compute. exact I.
    + eapply bool_decide_unpack. vm_compute. exact I.
    + eexists. split; [vm_compute; reflexivity|].
      eapply bool_decide_unpack. vm_compute. exact I.
Qed.

(** What does hold: every set cell has its host and its area in the caches
    and the lineage registered on the area, and each cache is exactly the
    projection of the matrix. *)
Definition caches_project_matrix (w : World) (self : nat) (sl : SymbiontLineage.t)
  : Prop :=
  (∀ h a, cell sl h a = Some 1
          → h ∈ _infected_hosts sl ∧ a ∈ _infected_areas sl ∧ registered w self a)
  ∧ (∀ h, h ∈ _infected_hosts sl ↔ ∃ a, cell sl h a = Some 1)
  ∧ (∀ a, a ∈ _infected_areas sl ↔ ∃ h, cell sl h a = Some 1)
  ∧ (∀ a, registered w self a ↔ a ∈ _infected_areas sl).

(** In a state [w] with the lineage [sl] at [self]: the caches are the
    projections of the matrix; [debug_check] passes exactly when the lineage
    occupies something; after a returning call of a mutator it passes
    unless the call was [clear_distribution] followed by
    [update_distribution] from the lineage itself or from a lineage that
    occupies nothing; and [add_host_in_area(host)] without an area, for a
    host lineage that occupies no area, returns and leaves a state in which
    [debug_check] fails. *)
Definition consistency_holds (is_almost_equal : Q → Q → bool) (w : World) (self : nat)
    (sl : SymbiontLineage.t) : Prop :=
  caches_project_matrix w self sl
  ∧ (SymbiontLineageAudit.debug_check is_almost_equal self None false w = (Ok tt, w)
     ↔ non_null sl)
  ∧ (∀ m w', mutator_pre w self m → run_mutator self m w = (Ok tt, w') →
       (SymbiontLineageAudit.debug_check is_almost_equal self None false w' = (Ok tt, w')
        ↔ leaves_occupied w self m))
  ∧ (∀ h hl, host_lineages w !! h = Some hl → HostLineage._current_areas hl = ∅ →
       ∃ w', run_mutator self (CallAddHostInArea h None) w = (Ok tt, w')
             ∧ SymbiontLineageAudit.debug_check is_almost_equal self None false w'
               ≠ (Ok tt, w')).

Lemma lineage_ok_projects w self sl : lineage_ok w self sl → caches_project_matrix w self sl.
Proof.
  intros (Hb & Hareas & Hhosts). unfold caches_project_matrix. split_and!.
  - intros h a Hc.
    assert (a ∈ _infected_areas sl) as Ha.
    { destruct (Hareas a) as [Hx _]. apply Hx. eauto. }
    split_and!; [apply (Hhosts h); eauto|done|]. by apply (Hareas a).
  - exact Hhosts.
  - intros a. apply (Hareas a).
  - intros a. apply (Hareas a).
Qed.

(** With consistent caches [debug_check] passes exactly when the lineage
    occupies something. *)
Lemma debug_check_iff_non_null (is_almost_equal : Q → Q → bool) w self sl :
  host_system_ok w → symbiont_lineages w !! self = Some sl → lineage_ok w self sl →
  SymbiontLineageAudit.debug_check is_almost_equal self None false w = (Ok tt, w)
  ↔ non_null sl.
Proof.
  intros Hhost Hs Hok. split.
  - intros Hrun. by apply (debug_check_sound w self sl _ _ _ Hs) in Hrun as (_ & _ & _ & _ & Hnn).
  - intros Hnn. by eapply debug_check_passes.
Qed.

(** C2, amended. In every state reached by constructing lineages and
    calling the public mutators, each call returning and
    [add_host_in_area(host)] without an area made only for a host that
    occupies some area, for every lineage: a set cell implies the three
    memberships, the infected-host and infected-area sets are the
    projections of the matrix, and the lineage is registered exactly on its
    infected areas. [debug_check()] passes exactly when the lineage occupies
    something, so after every returning call but [clear_distribution]
    followed by [update_distribution] from the lineage itself or from an
    empty lineage. The excluded call returns and leaves a state in which
    [debug_check()] fails. *)
Theorem C2_caches_are_projections (is_almost_equal : Q → Q → bool) (w : World)
    (self : nat) (sl : SymbiontLineage.t) :
  reachable w → symbiont_lineages w !! self = Some sl →
  consistency_holds is_almost_equal w self sl.
Proof.
  intros Hr Hs. pose proof (reachable_store_ok w Hr) as Hstore.
  pose proof Hstore as (Hhost & _ & Hall). split_and!.
  - apply lineage_ok_projects. by apply Hall.
  - apply debug_check_iff_non_null; [done..|]. by apply Hall.
  - intros m w' Hpre Hrun.
    destruct (run_mutator_ok w self sl m w' Hstore Hs Hpre Hrun)
      as ((Hhost' & _ & Hall') & Hnn').
    rewrite <- Hnn'. split.
    + intros Hpass.
      destruct (symbiont_lineages w' !! self) as [sl'|] eqn:Hs'.
      * exists sl'. split; [done|].
        by apply (debug_check_iff_non_null is_almost_equal w' self sl' Hhost' Hs'
                    (Hall' _ _ Hs')).
      * unfold SymbiontLineageAudit.debug_check,
          SymbiontLineageAudit.debug_check_result in Hpass.
        rewrite Hs' in Hpass. discriminate Hpass.
    + intros (sl' & Hs' & Hnn).
      by apply (debug_check_iff_non_null is_almost_equal w' self sl' Hhost' Hs'
                  (Hall' _ _ Hs')).
  - intros h hl Hh Hcur. eexists. split.
    + unfold run_mutator. by apply (add_host_without_areas_run w self sl h hl).
    + apply (stale_host_fails_debug_check _ _ self
               (with_infected_hosts sl ({[h]} ∪ _infected_hosts sl)) h).
      * exact Hhost.
      * apply lookup_insert_eq.
      * simpl. set_solver.
      * intros a _ (hl' & Hl' & Hin). simpl in Hl'.
        assert (hl' = hl) as -> by congruence. rewrite Hcur in Hin. set_solver.
Qed.

Lemma C2_caches_are_projections_witness :
  ∃ sl,
    reachable SymbiontExamples.after_calls
    ∧ symbiont_lineages SymbiontExamples.after_calls !! SymbiontExamples.lineage = Some sl
    ∧ consistency_holds (λ _ _, false) SymbiontExamples.after_calls
        SymbiontExamples.lineage sl.
Proof.
  destruct (symbiont_lineages SymbiontExamples.after_calls !! SymbiontExamples.lineage)
    as [sl|] eqn:Hs; [|by vm_compute in Hs].
  exists sl. split_and!; [apply after_calls_reachable|reflexivity|].
  exact (C2_caches_are_projections (λ _ _, false) SymbiontExamples.after_calls
           SymbiontExamples.lineage sl after_calls_reachable Hs).
Defined.

Example debug_check_example :
  (SymbiontLineageAudit.debug_check (λ _ _, false) SymbiontExamples.lineage None false
     SymbiontExamples.after_calls).1 = Ok tt
  ∧ (SymbiontLineageAudit.debug_check (λ _ _, false) SymbiontExamples.lineage None false
       SymbiontExamples.seeded).1 = Raise AssertionError.
Proof. split; vm_compute; reflexivity. Qed.

(** ** Model definitions: [RateFunction] and [InphestModel] *)

(** Python's [dict] on the association list of a [VDict]; keys are distinct. *)
Module Dict.

(** [d.get(k)], [None] when absent *)
Fixpoint get (k : string) (d : list (string * value)) : option value :=
  match d with
  | [] => None
  | (k', v) :: rest => if String.eqb k k' then Some v else get k rest
  end.

(** [k in d] *)
Definition contains (k : string) (d : list (string * value)) : bool :=
  match get k d with Some _ => true | None => false end.

(** [del d[k]] *)
Fixpoint remove (k : string) (d : list (string * value)) : list (string * value) :=
  match d with
  | [] => []
  | (k', v) :: rest =>
      if String.eqb k k' then remove k rest else (k', v) :: remove k rest
  end.

(** [d.pop(k, default)]: the value and the dictionary left *)
Definition pop_default (k : string) (default : value) (d : list (string * value))
    : value * list (string * value) :=
  match get k d with
  | Some v => (v, remove k d)
  | None => (default, d)
  end.

(** [d.pop(k)] *)
Definition pop (k : string) (d : list (string * value))
    : result (value * list (string * value)) :=
  match get k d with
  | Some v => Ok (v, remove k d)
  | None => Raise KeyError
  end.

(** [d[k] = v] *)
Fixpoint set (k : string) (v : value) (d : list (string * value))
    : list (string * value) :=
  match d with
  | [] => [(k, v)]
  | (k', v') :: rest =>
      if String.eqb k k' then (k', v) :: rest else (k', v') :: set k v rest
  end.

(** [dict(v)]: a copy of a dictionary; the empty string has no items, any
    other string has items of length 1; the other values are not iterable. *)
Definition of_value (v : value) : result (list (string * value)) :=
  match v with
  | VDict items => Ok items
  | VStr EmptyString => Ok []
  | VStr _ => Raise ValueError
  | _ => Raise (TypeError "object is not iterable" [])
  end.

(** [if d:] *)
Definition truthy (d : list (string * value)) : bool :=
  match d with [] => false | _ => true end.

End Dict.

(** What the embedding takes from the Python runtime: [eval] on the source
    of a rate function, giving some callable; [float] on a string; [str]. *)
Class Builtins := {
  callable : Type;
  py_eval : value → result callable;
  float_of_str : string → option Q;
  py_str : value → string;
}.

(** [float(v)] *)
Definition py_float `{Builtins} (v : value) : result Q :=
  match v with
  | VNum q => Ok q
  | VBool b => Ok (if b then 1%Q else 0%Q)
  | VStr s =>
      match float_of_str s with
      | Some q => Ok q
      | None => Raise ValueError
      end
  | _ => Raise (TypeError "float() argument must be a string or a real number" [])
  end.

Fixpoint replace_char (old new : ascii) (s : string) : string :=
  match s with
  | EmptyString => EmptyString
  | String c rest =>
      String (if Ascii.eqb c old then new else c) (replace_char old new rest)
  end.

(** [v.replace("-", "_")]; only a string has the method. *)
Definition py_replace_hyphens (v : value) : result value :=
  match v with
  | VStr s => Ok (VStr (replace_char "-" "_" s))
  | _ => Raise AttributeError
  end.

(** [v == s] for a string [s] *)
Definition eq_str (v : value) (s : string) : bool :=
  match v with
  | VStr s' => String.eqb s' s
  | _ => false
  end.

Module RateFunction.
Section WithBuiltins.
Context `{Builtins}.

(** [_compute_rate]: for a fixed value, the closure that returns
    [self.definition_content]; else what [eval] gave, or the content. *)
Inductive compute_rate :=
| ReturnsContent
| Evaluated (f : callable)
| FunctionObject (content : value).

Record t := mk {
    definition_type : value;
    definition_content : value;
    description : value;
    _compute_rate : option compute_rate;
  }.

Definition compile_function (self : t) : result t :=
  definition_type ← py_replace_hyphens (definition_type self);
  if eq_str definition_type "fixed_value" then
    content ← py_float (definition_content self);
    Ok (mk definition_type (VNum content) (description self) (Some ReturnsContent))
  else if eq_str definition_type "lambda_definition" then
    f ← py_eval (definition_content self);
    Ok (mk definition_type (definition_content self) (description self)
          (Some (Evaluated f)))
  else if eq_str definition_type "function_object" then
    Ok (mk definition_type (definition_content self) (description self)
          (Some (FunctionObject (definition_content self))))
  else Raise ValueError.

Definition init (definition_type definition_content description : value) : result t :=
  let self := mk definition_type definition_content description None in
  match definition_content with
  | VNone => Ok self
  | _ => compile_function self
  end.

Definition parse_definition (self : t) (rate_function_d : value) : result t :=
  rate_function_d ← Dict.of_value rate_function_d;
  '(v, rate_function_d) ← Dict.pop "definition_type" rate_function_d;
  definition_type ← py_replace_hyphens v;
  '(definition_content, rate_function_d) ← Dict.pop "definition" rate_function_d;
  let '(description, rate_function_d) :=
    Dict.pop_default "description" (VStr EmptyString) rate_function_d in
  if Dict.truthy rate_function_d
  then Raise (TypeError "Unsupported function definition keywords" rate_function_d)
  else compile_function
         (mk definition_type definition_content description (_compute_rate self)).

Definition from_definition_dict (rate_function_d : value) : result t :=
  rf ← init VNone VNone VNone;
  parse_definition rf rate_function_d.

Definition as_definition (self : t) : value :=
  VDict [("definition_type"%string, definition_type self);
         ("definition"%string,
           if eq_str (definition_type self) "function_object"
           then VStr (py_str (definition_content self))
           else definition_content self);
         ("description"%string, description self)].

End WithBuiltins.
End RateFunction.

Module InphestModel.
Section WithBuiltins.
Context `{Builtins}.

Record t := mk {
    model_id : value;
    host_to_symbiont_time_scale_factor : Q;
    mean_symbiont_lineage_birth_rate : value;
    symbiont_lineage_birth_weight_function : RateFunction.t;
    mean_symbiont_lineage_death_rate : value;
    symbiont_lineage_death_weight_function : RateFunction.t;
    mean_symbiont_lineage_host_gain_rate : value;
    symbiont_lineage_host_gain_weight_function : RateFunction.t;
    mean_symbiont_lineage_host_loss_rate : value;
    symbiont_lineage_host_loss_weight_function : RateFunction.t;
    host_cladogenesis_sympatric_subset_speciation_weight : Q;
    host_cladogenesis_single_host_vicariance_speciation_weight : Q;
    host_cladogenesis_widespread_vicariance_speciation_weight : Q;
    host_cladogenesis_founder_event_speciation_weight : Q;
    mean_symbiont_lineage_area_gain_rate : value;
    symbiont_lineage_area_gain_weight_function : RateFunction.t;
    mean_symbiont_lineage_area_loss_rate : value;
    symbiont_lineage_area_loss_weight_function : RateFunction.t;
    symbiont_cladogenesis_sympatric_subset_speciation_weight : Q;
    symbiont_cladogenesis_single_area_vicariance_speciation_weight : Q;
    symbiont_cladogenesis_widespread_vicariance_speciation_weight : Q;
    symbiont_cladogenesis_founder_event_speciation_weight : Q;
  }.

(** [parse_definition(model_definition)] with [run_logger=None]; the
    attributes it assigns are returned as one record. *)
Definition parse_definition (model_definition : value) : result t :=
  model_definition ←
    match model_definition with
    | VNone => Ok []
    | _ => Dict.of_value model_definition
    end;
  let model_definition :=
    if negb (Dict.contains "model_id" model_definition)
    then Dict.set "model_id" (VStr "Model1") model_definition
    else model_definition in
  let '(model_id, model_definition) :=
    Dict.pop_default "model_id" (VStr "Model1") model_definition in
  let '(v, model_definition) :=
    Dict.pop_default "host_to_symbiont_time_scale_factor" (VNum 1) model_definition in
  host_to_symbiont_time_scale_factor ← py_float v;
  (* Diversification *)
  let '(v, model_definition) :=
    Dict.pop_default "diversification" (VDict []) model_definition in
  diversification_d ← Dict.of_value v;
  let '(mean_symbiont_lineage_birth_rate, diversification_d) :=
    Dict.pop_default "mean_symbiont_lineage_birth_rate" (VNum (3 # 100)) diversification_d in
  '(symbiont_lineage_birth_weight_function, diversification_d) ←
    (if Dict.contains "symbiont_lineage_birth_weight" diversification_d
     then '(v, d) ← Dict.pop "symbiont_lineage_birth_weight" diversification_d;
          rf ← RateFunction.from_definition_dict v; Ok (rf, d)
     else rf ← RateFunction.init (VStr "lambda_definition")
                 (VStr "lambda **kwargs: 1.00") (VStr "fixed: 1.00");
          Ok (rf, diversification_d));
  let '(mean_symbiont_lineage_death_rate, diversification_d) :=
    Dict.pop_default "mean_symbiont_lineage_death_rate" (VNum 0) diversification_d in
  '(symbiont_lineage_death_weight_function, diversification_d) ←
    (if Dict.contains "symbiont_lineage_death_weight" diversification_d
     then '(v, d) ← Dict.pop "symbiont_lineage_death_weight" diversification_d;
          rf ← RateFunction.from_definition_dict v; Ok (rf, d)
     else rf ← RateFunction.init (VStr "lambda_definition")
                 (VStr "lambda **kwargs: 1.00") (VStr "fixed: 1.00");
          Ok (rf, diversification_d));
  (* Anagenetic host evolution submodel *)
  let '(v, model_definition) :=
    Dict.pop_default "anagenetic_host_assemblage_evolution" (VDict []) model_definition in
  anagenetic_host_assemblage_evolution_d ← Dict.of_value v;
  let '(mean_symbiont_lineage_host_gain_rate, anagenetic_host_assemblage_evolution_d) :=
    Dict.pop_default "mean_symbiont_lineage_host_gain_rate" (VNum (3 # 100))
      anagenetic_host_assemblage_evolution_d in
  '(symbiont_lineage_host_gain_weight_function, anagenetic_host_assemblage_evolution_d) ←
    (if Dict.contains "symbiont_lineage_host_gain_weight" anagenetic_host_assemblage_evolution_d
     then '(v, d) ← Dict.pop "symbiont_lineage_host_gain_weight"
                      anagenetic_host_assemblage_evolution_d;
          rf ← RateFunction.from_definition_dict v; Ok (rf, d)
     else rf ← RateFunction.init (VStr "lambda_definition")
                 (VStr "lambda **kwargs: 1.00") (VStr "fixed: 1.00");
          Ok (rf, anagenetic_host_assemblage_evolution_d));
  let '(mean_symbiont_lineage_host_loss_rate, anagenetic_host_assemblage_evolution_d) :=
    Dict.pop_default "mean_symbiont_lineage_host_loss_rate" (VNum 0)
      anagenetic_host_assemblage_evolution_d in
  '(symbiont_lineage_host_loss_weight_function, anagenetic_host_assemblage_evolution_d) ←
    (if Dict.contains "symbiont_lineage_host_loss_weight" anagenetic_host_assemblage_evolution_d
     then '(v, d) ← Dict.pop "symbiont_lineage_host_loss_weight"
                      anagenetic_host_assemblage_evolution_d;
          rf ← RateFunction.from_definition_dict v; Ok (rf, d)
     else rf ← RateFunction.init (VStr "lambda_definition")
                 (VStr "lambda **kwargs: 1.0") (VStr "fixed: 1.0");
          Ok (rf, anagenetic_host_assemblage_evolution_d));
  if Dict.truthy anagenetic_host_assemblage_evolution_d
  then Raise (TypeError "Unsupported keywords in anagenetic host range evolution submodel"
                anagenetic_host_assemblage_evolution_d)
  else
  (* Cladogenetic host evolution submodel *)
  let '(v, model_definition) :=
    Dict.pop_default "cladogenetic_host_assemblage_evolution" (VDict []) model_definition in
  cladogenetic_host_assemblage_evolution ← Dict.of_value v;
  let '(v, cladogenetic_host_assemblage_evolution) :=
    Dict.pop_default "sympatric_subset_speciation_weight" (VNum 1)
      cladogenetic_host_assemblage_evolution in
  host_cladogenesis_sympatric_subset_speciation_weight ← py_float v;
  let '(v, cladogenetic_host_assemblage_evolution) :=
    Dict.pop_default "single_host_vicariance_speciation_weight" (VNum 1)
      cladogenetic_host_assemblage_evolution in
  host_cladogenesis_single_host_vicariance_speciation_weight ← py_float v;
  let '(v, cladogenetic_host_assemblage_evolution) :=
    Dict.pop_default "widespread_vicariance_speciation_weight" (VNum 1)
      cladogenetic_host_assemblage_evolution in
  host_cladogenesis_widespread_vicariance_speciation_weight ← py_float v;
  let '(v, cladogenetic_host_assemblage_evolution) :=
    Dict.pop_default "founder_event_speciation_weight" (VNum 0)
      cladogenetic_host_assemblage_evolution in
  host_cladogenesis_founder_event_speciation_weight ← py_float v;
  if Dict.truthy cladogenetic_host_assemblage_evolution
  then Raise (TypeError "Unsupported keywords in cladogenetic range evolution submodel"
                cladogenetic_host_assemblage_evolution)
  else
  (* Anagenetic geographical range evolution submodel: area gain *)
  let '(v, model_definition) :=
    Dict.pop_default "anagenetic_geographical_range_evolution" (VDict []) model_definition in
  anagenetic_geographical_range_evolution_d ← Dict.of_value v;
  let '(mean_symbiont_lineage_area_gain_rate, anagenetic_geographical_range_evolution_d) :=
    Dict.pop_default "mean_symbiont_lineage_area_gain_rate" (VNum (3 # 100))
      anagenetic_geographical_range_evolution_d in
  '(symbiont_lineage_area_gain_weight_function, anagenetic_geographical_range_evolution_d) ←
    (if Dict.contains "symbiont_lineage_area_gain_weight"
          anagenetic_geographical_range_evolution_d
     then '(v, d) ← Dict.pop "symbiont_lineage_area_gain_weight"
                      anagenetic_geographical_range_evolution_d;
          rf ← RateFunction.from_definition_dict v; Ok (rf, d)
     else rf ← RateFunction.init (VStr "lambda_definition")
                 (VStr "lambda **kwargs: 1.00") (VStr "fixed: 1.00");
          Ok (rf, anagenetic_geographical_range_evolution_d));
  (* area loss: the block is popped from [model_definition] a second time *)
  let '(v, model_definition) :=
    Dict.pop_default "anagenetic_geographical_range_evolution" (VDict []) model_definition in
  anagenetic_geographical_range_evolution_d ← Dict.of_value v;
  let '(mean_symbiont_lineage_area_loss_rate, anagenetic_geographical_range_evolution_d) :=
    Dict.pop_default "mean_symbiont_lineage_area_loss_rate" (VNum 0)
      anagenetic_geographical_range_evolution_d in
  '(symbiont_lineage_area_loss_weight_function, anagenetic_geographical_range_evolution_d) ←
    (if Dict.contains "symbiont_lineage_area_loss_weight"
          anagenetic_geographical_range_evolution_d
     then '(v, d) ← Dict.pop "symbiont_lineage_area_loss_weight"
                      anagenetic_geographical_range_evolution_d;
          rf ← RateFunction.from_definition_dict v; Ok (rf, d)
     else rf ← RateFunction.init (VStr "lambda_definition")
                 (VStr "lambda **kwargs: 1.0") (VStr "fixed: 1.0");
          Ok (rf, anagenetic_geographical_range_evolution_d));
  if Dict.truthy anagenetic_geographical_range_evolution_d
  then Raise (TypeError
                "Unsupported keywords in anagenetic geographical range evolution submodel"
                anagenetic_geographical_range_evolution_d)
  else
  (* Cladogenetic geographical evolution submodel *)
  let '(v, model_definition) :=
    Dict.pop_default "cladogenetic_geographical_range_evolution" (VDict []) model_definition in
  symbiont_cladogenetic_geographical_range_evolution_d ← Dict.of_value v;
  let '(v, symbiont_cladogenetic_geographical_range_evolution_d) :=
    Dict.pop_default "sympatric_subset_speciation_weight" (VNum 1)
      symbiont_cladogenetic_geographical_range_evolution_d in
  symbiont_cladogenesis_sympatric_subset_speciation_weight ← py_float v;
  let '(v, symbiont_cladogenetic_geographical_range_evolution_d) :=
    Dict.pop_default "single_area_vicariance_speciation_weight" (VNum 1)
      symbiont_cladogenetic_geographical_range_evolution_d in
  symbiont_cladogenesis_single_area_vicariance_speciation_weight ← py_float v;
  let '(v, symbiont_cladogenetic_geographical_range_evolution_d) :=
    Dict.pop_default "widespread_vicariance_speciation_weight" (VNum 1)
      symbiont_cladogenetic_geographical_range_evolution_d in
  symbiont_cladogenesis_widespread_vicariance_speciation_weight ← py_float v;
  let '(v, symbiont_cladogenetic_geographical_range_evolution_d) :=
    Dict.pop_default "founder_event_speciation_weight" (VNum 0)
      symbiont_cladogenetic_geographical_range_evolution_d in
  symbiont_cladogenesis_founder_event_speciation_weight ← py_float v;
  if Dict.truthy symbiont_cladogenetic_geographical_range_evolution_d
  then Raise (TypeError
                "Unsupported keywords in cladogenetic geographical range evolution submodel"
                symbiont_cladogenetic_geographical_range_evolution_d)
  else
  if Dict.truthy model_definition
  then Raise (TypeError "Unsupported model keywords" model_definition)
  else
  Ok (mk model_id host_to_symbiont_time_scale_factor
        mean_symbiont_lineage_birth_rate symbiont_lineage_birth_weight_function
        mean_symbiont_lineage_death_rate symbiont_lineage_death_weight_function
        mean_symbiont_lineage_host_gain_rate symbiont_lineage_host_gain_weight_function
        mean_symbiont_lineage_host_loss_rate symbiont_lineage_host_loss_weight_function
        host_cladogenesis_sympatric_subset_speciation_weight
        host_cladogenesis_single_host_vicariance_speciation_weight
        host_cladogenesis_widespread_vicariance_speciation_weight
        host_cladogenesis_founder_event_speciation_weight
        mean_symbiont_lineage_area_gain_rate symbiont_lineage_area_gain_weight_function
        mean_symbiont_lineage_area_loss_rate symbiont_lineage_area_loss_weight_function
        symbiont_cladogenesis_sympatric_subset_speciation_weight
        symbiont_cladogenesis_single_area_vicariance_speciation_weight
        symbiont_cladogenesis_widespread_vicariance_speciation_weight
        symbiont_cladogenesis_founder_event_speciation_weight).

Definition diversification_as_definition (self : t) : value :=
  VDict [("mean_symbiont_lineage_birth_rate"%string, mean_symbiont_lineage_birth_rate self);
         ("lineage_birth_rate"%string,
           RateFunction.as_definition (symbiont_lineage_birth_weight_function self));
         ("mean_symbiont_lineage_death_rate"%string, mean_symbiont_lineage_death_rate self);
         ("lineage_death_rate"%string,
           RateFunction.as_definition (symbiont_lineage_death_weight_function self))].

Definition anagenetic_host_assemblage_evolution_as_definition (self : t) : value :=
  VDict [("mean_symbiont_lineage_host_gain_rate"%string,
           mean_symbiont_lineage_host_gain_rate self);
         ("symbiont_lineage_host_gain_weight"%string,
           RateFunction.as_definition (symbiont_lineage_host_gain_weight_function self));
         ("mean_symbiont_lineage_host_loss_rate"%string,
           mean_symbiont_lineage_host_loss_rate self);
         ("symbiont_lineage_host_loss_weight"%string,
           RateFunction.as_definition (symbiont_lineage_host_loss_weight_function self))].

Definition cladogenetic_host_assemblage_evolution_as_definition (self : t) : value :=
  VDict [("sympatric_subset_speciation_weight"%string,
           VNum (host_cladogenesis_sympatric_subset_speciation_weight self));
         ("single_host_vicariance_speciation_weight"%string,
           VNum (host_cladogenesis_single_host_vicariance_speciation_weight self));
         ("widespread_vicariance_speciation_weight"%string,
           VNum (host_cladogenesis_widespread_vicariance_speciation_weight self));
         ("founder_event_speciation_weight"%string,
           VNum (host_cladogenesis_founder_event_speciation_weight self))].

Definition anagenetic_geographical_range_evolution_as_definition (self : t) : value :=
  VDict [("mean_symbiont_lineage_area_gain_rate"%string,
           mean_symbiont_lineage_area_gain_rate self);
         ("symbiont_lineage_area_gain_weight"%string,
           RateFunction.as_definition (symbiont_lineage_area_gain_weight_function self));
         ("mean_symbiont_lineage_area_loss_rate"%string,
           mean_symbiont_lineage_area_loss_rate self);
         ("symbiont_lineage_area_loss_weight"%string,
           RateFunction.as_definition (symbiont_lineage_area_loss_weight_function self))].

Definition cladogenetic_geographical_range_evolution_as_definition (self : t) : value :=
  VDict [("sympatric_subset_speciation_weight"%string,
           VNum (symbiont_cladogenesis_sympatric_subset_speciation_weight self));
         ("single_area_vicariance_speciation_weight"%string,
           VNum (symbiont_cladogenesis_single_area_vicariance_speciation_weight self));
         ("widespread_vicariance_speciation_weight"%string,
           VNum (symbiont_cladogenesis_widespread_vicariance_speciation_weight self));
         ("founder_event_speciation_weight"%string,
           VNum (symbiont_cladogenesis_founder_event_speciation_weight self))].

(** [write_model]: the structure handed to [json.dump]. *)
Definition write_model (self : t) : value :=
  VDict [("model_id"%string, model_id self);
         ("host_to_symbiont_time_scale_factor"%string,
           VNum (host_to_symbiont_time_scale_factor self));
         ("diversification"%string, diversification_as_definition self);
         ("anagenetic_host_assemblage_evolution"%string,
           anagenetic_host_assemblage_evolution_as_definition self);
         ("cladogenetic_host_assemblage_evolution"%string,
           cladogenetic_host_assemblage_evolution_as_definition self);
         ("anagenetic_geographical_range_evolution"%string,
           anagenetic_geographical_range_evolution_as_definition self);
         ("cladogenetic_geographical_range_evolution"%string,
           cladogenetic_geographical_range_evolution_as_definition self)].

End WithBuiltins.
End InphestModel.

(** *** Example definitions *)

Module ModelExamples.

(** A runtime in which [eval] of any source string gives a callable (named
    by its source) and no string is a number. *)
Definition runtime : Builtins := {|
  callable := string;
  py_eval v := match v with
               | VStr s => Ok s
               | _ => Raise (TypeError "eval() arg 1 must be a string" [])
               end;
  float_of_str _ := None;
  py_str _ := "<function>"%string;
|}.

Definition fixed (q : Q) (description : string) : value :=
  VDict [("definition_type"%string, VStr "fixed-value");
         ("definition"%string, VNum q);
         ("description"%string, VStr description)].

(** Every recognized field of every block populated. *)
Definition populated : value :=
  VDict [
    ("model_id"%string, VStr "M");
    ("host_to_symbiont_time_scale_factor"%string, VNum 2);
    ("diversification"%string, VDict [
       ("mean_symbiont_lineage_birth_rate"%string, VNum (1 # 2));
       ("symbiont_lineage_birth_weight"%string, fixed 2 "birth");
       ("mean_symbiont_lineage_death_rate"%string, VNum (1 # 4));
       ("symbiont_lineage_death_weight"%string, fixed 3 "death")]);
    ("anagenetic_host_assemblage_evolution"%string, VDict [
       ("mean_symbiont_lineage_host_gain_rate"%string, VNum (1 # 5));
       ("symbiont_lineage_host_gain_weight"%string, fixed 4 "host gain");
       ("mean_symbiont_lineage_host_loss_rate"%string, VNum (1 # 6));
       ("symbiont_lineage_host_loss_weight"%string, fixed 5 "host loss")]);
    ("cladogenetic_host_assemblage_evolution"%string, VDict [
       ("sympatric_subset_speciation_weight"%string, VNum 2);
       ("single_host_vicariance_speciation_weight"%string, VNum 3);
       ("widespread_vicariance_speciation_weight"%string, VNum 4);
       ("founder_event_speciation_weight"%string, VNum 5)]);
    ("anagenetic_geographical_range_evolution"%string, VDict [
       ("mean_symbiont_lineage_area_gain_rate"%string, VNum (1 # 7));
       ("symbiont_lineage_area_gain_weight"%string, fixed 6 "area gain");
       ("mean_symbiont_lineage_area_loss_rate"%string, VNum (1 # 8));
       ("symbiont_lineage_area_loss_weight"%string, fixed 7 "area loss")]);
    ("cladogenetic_geographical_range_evolution"%string, VDict [
       ("sympatric_subset_speciation_weight"%string, VNum 6);
       ("single_area_vicariance_speciation_weight"%string, VNum 7);
       ("widespread_vicariance_speciation_weight"%string, VNum 8);
       ("founder_event_speciation_weight"%string, VNum 9)])].

End ModelExamples.


(** *** Dictionary operations past an entry with another key *)

Lemma get_cons_ne k k' v d : k ≠ k' → Dict.get k ((k', v) :: d) = Dict.get k d.
Proof. intros Hne. simpl. by apply String.eqb_neq in Hne as ->. Qed.

Lemma contains_cons_ne k k' v d :
  k ≠ k' → Dict.contains k ((k', v) :: d) = Dict.contains k d.
Proof. intros Hne. unfold Dict.contains. by rewrite get_cons_ne. Qed.

Lemma remove_cons_ne k k' v d :
  k ≠ k' → Dict.remove k ((k', v) :: d) = (k', v) :: Dict.remove k d.
Proof. intros Hne. simpl. by apply String.eqb_neq in Hne as ->. Qed.

Lemma pop_default_cons_ne k k' v default d :
  k ≠ k' →
  Dict.pop_default k default ((k', v) :: d)
  = let '(x, d') := Dict.pop_default k default d in (x, (k', v) :: d').
Proof.
  intros Hne. unfold Dict.pop_default.
  rewrite get_cons_ne, remove_cons_ne by done. by destruct (Dict.get k d).
Qed.

Lemma pop_default_cons_eq k v default d :
  Dict.pop_default k default ((k, v) :: d) = (v, Dict.remove k d).
Proof. unfold Dict.pop_default. simpl. by rewrite String.eqb_refl. Qed.

Lemma pop_cons_ne k k' v d :
  k ≠ k' →
  Dict.pop k ((k', v) :: d)
  = '(x, d') ← Dict.pop k d; Ok (x, (k', v) :: d').
Proof.
  intros Hne. unfold Dict.pop.
  rewrite get_cons_ne, remove_cons_ne by done. by destruct (Dict.get k d).
Qed.

Lemma set_cons_ne k k' v v' d :
  k ≠ k' → Dict.set k v ((k', v') :: d) = (k', v') :: Dict.set k v d.
Proof. intros Hne. simpl. by apply String.eqb_neq in Hne as ->. Qed.

Definition diversification_keys : list string :=
  ["mean_symbiont_lineage_birth_rate"; "symbiont_lineage_birth_weight";
   "mean_symbiont_lineage_death_rate"; "symbiont_lineage_death_weight"]%string.

Lemma if_cons {A} (c : bool) (h : A) (a b : list A) :
  (if c then h :: a else h :: b) = h :: (if c then a else b).
Proof. by destruct c. Qed.

(** The weight-function block of [parse_definition] past such an entry. *)
Lemma weight_block_cons_ne `{Builtins} key k v d (default : result RateFunction.t) :
  key ≠ k →
  (if Dict.contains key ((k, v) :: d)
   then '(x, d') ← Dict.pop key ((k, v) :: d);
        rf ← RateFunction.from_definition_dict x; Ok (rf, d')
   else rf ← default; Ok (rf, (k, v) :: d))
  = '(rf, d') ←
      (if Dict.contains key d
       then '(x, d') ← Dict.pop key d;
            rf ← RateFunction.from_definition_dict x; Ok (rf, d')
       else rf ← default; Ok (rf, d));
    Ok (rf, (k, v) :: d').
Proof.
  intros Hne. rewrite contains_cons_ne, pop_cons_ne by done.
  destruct (Dict.contains key d).
  - destruct (Dict.pop key d) as [[x d']|e]; [|done]. simpl.
    by destruct (RateFunction.from_definition_dict x).
  - by destruct default.
Qed.

Ltac same_head :=
  match goal with
  | |- mbind _ ?m = mbind _ ?m => destruct m eqn:?
  | |- mbind _ (mbind _ ?m) = _ => destruct m as [[??]|?] eqn:?
  | |- match (match ?e with _ => _ end) with _ => _ end = _ => destruct e eqn:?
  | |- match ?e with _ => _ end = match ?e with _ => _ end => destruct e eqn:?
  end.

Ltac peel_entry :=
  first [ rewrite weight_block_cons_ne by done
        | rewrite pop_default_cons_ne by done
        | rewrite pop_default_cons_eq
        | rewrite set_cons_ne by done
        | rewrite if_cons
        | rewrite contains_cons_ne by done ].

Ltac ignored_key_step :=
  first [ reflexivity
        | peel_entry
        | progress (cbv beta iota; cbn [Dict.of_value mbind result_bind])
        | same_head ].

Lemma diversification_key_ignored `{Builtins} k v block items :
  k ∉ diversification_keys →
  InphestModel.parse_definition
    (VDict (("diversification"%string, VDict ((k, v) :: block)) :: items))
  = InphestModel.parse_definition
      (VDict (("diversification"%string, VDict block) :: items)).
Proof.
  intros Hk. unfold diversification_keys in Hk.
  repeat (apply not_elem_of_cons in Hk as [?%not_eq_sym Hk]).
  unfold InphestModel.parse_definition.
  repeat ignored_key_step.
Qed.

Definition area_gain_keys : list string :=
  ["mean_symbiont_lineage_area_gain_rate"; "symbiont_lineage_area_gain_weight"]%string.

Lemma geographical_key_ignored `{Builtins} k v block items :
  k ∉ area_gain_keys →
  InphestModel.parse_definition
    (VDict (("anagenetic_geographical_range_evolution"%string, VDict ((k, v) :: block))
            :: items))
  = InphestModel.parse_definition
      (VDict (("anagenetic_geographical_range_evolution"%string, VDict block) :: items)).
Proof.
  intros Hk. unfold area_gain_keys in Hk.
  repeat (apply not_elem_of_cons in Hk as [?%not_eq_sym Hk]).
  unfold InphestModel.parse_definition.
  repeat ignored_key_step.
Qed.

(** *** What every parsed model holds for area loss *)

Lemma get_remove_eq k d : Dict.get k (Dict.remove k d) = None.
Proof.
  induction d as [|[k' v] d IH]; [done|]. simpl.
  destruct (String.eqb k k') eqn:Hk; [done|]. simpl. by rewrite Hk.
Qed.

(** A key that was popped is gone: popping it again gives the default. *)
Lemma pop_default_again k default default' d v d' :
  Dict.pop_default k default d = (v, d') →
  Dict.pop_default k default' d' = (default', d').
Proof.
  unfold Dict.pop_default. destruct (Dict.get k d) eqn:Hget; intros [= <- <-].
  - by rewrite get_remove_eq.
  - by rewrite Hget.
Qed.

Lemma init_lambda `{Builtins} (source : string) (description : value) :
  RateFunction.init (VStr "lambda_definition") (VStr source) description
  = f ← py_eval (VStr source);
    Ok (RateFunction.mk (VStr "lambda_definition") (VStr source) description
          (Some (RateFunction.Evaluated f))).
Proof. reflexivity. Qed.

(** The default weight function built for [source] and [description]. *)
Definition is_default_weight `{Builtins} (source description : string)
    (rf : RateFunction.t) : Prop :=
  ∃ f, py_eval (VStr source) = Ok f
       ∧ rf = RateFunction.mk (VStr "lambda_definition") (VStr source)
                (VStr description) (Some (RateFunction.Evaluated f)).

Ltac invert_head H :=
  first
    [ erewrite pop_default_again in H by eassumption
    | match type of H with
      | mbind _ ?m = Ok _ =>
          destruct m eqn:?; cbn [mbind result_bind] in H; [|discriminate H]
      | match ?e with _ => _ end = Ok _ => destruct e eqn:?; try discriminate H
      end
    | progress (cbv beta iota in H) ].

Lemma parsed_area_loss_is_default `{Builtins} (model_definition : value) m :
  InphestModel.parse_definition model_definition = Ok m →
  InphestModel.mean_symbiont_lineage_area_loss_rate m = VNum 0
  ∧ is_default_weight "lambda **kwargs: 1.0" "fixed: 1.0"
      (InphestModel.symbiont_lineage_area_loss_weight_function m).
Proof.
  intros Hparse. unfold InphestModel.parse_definition in Hparse.
  repeat invert_head Hparse.
  injection Hparse as <-. cbn [InphestModel.mean_symbiont_lineage_area_loss_rate
    InphestModel.symbiont_lineage_area_loss_weight_function].
  repeat match goal with
         | Heq : Dict.of_value (VDict []) = Ok _ |- _ => injection Heq as <-
         | Heq : Dict.pop_default _ _ [] = _ |- _ => injection Heq as <- <-
         end.
  split; [reflexivity|].
  match goal with
  | Heq : (if Dict.contains "symbiont_lineage_area_loss_weight" [] then _ else _) = _
    |- _ => cbn [Dict.contains Dict.get] in Heq; rewrite init_lambda in Heq;
            destruct (py_eval (VStr "lambda **kwargs: 1.0")) as [f|] eqn:Hf;
            [|discriminate Heq]; injection Heq as <- <-
  end.
  by exists f.
Qed.

(** *** Writing a model and parsing what was written *)

(** Runs [parse_definition] on what [write_model] emits, up to the calls
    that depend on the model's weight functions and on [eval]. *)
Ltac invert_reparse H :=
  unfold InphestModel.write_model, InphestModel.parse_definition in H;
  cbn -[RateFunction.from_definition_dict] in H;
  repeat match type of H with
         | context [py_eval ?x] =>
             destruct (py_eval x) eqn:?;
             cbn -[RateFunction.from_definition_dict] in H;
             [|discriminate H]
         | context [RateFunction.from_definition_dict ?x] =>
             destruct (RateFunction.from_definition_dict x) eqn:?;
             cbn -[RateFunction.from_definition_dict] in H;
             [|discriminate H]
         end.

Lemma reparsed_birth_death_weights_are_default `{Builtins} m m' :
  InphestModel.parse_definition (InphestModel.write_model m) = Ok m' →
  is_default_weight "lambda **kwargs: 1.00" "fixed: 1.00"
    (InphestModel.symbiont_lineage_birth_weight_function m')
  ∧ is_default_weight "lambda **kwargs: 1.00" "fixed: 1.00"
      (InphestModel.symbiont_lineage_death_weight_function m').
Proof.
  intros Hparse. invert_reparse Hparse.
  injection Hparse as <-. cbn. split; eexists; eauto.
Qed.

(** A weight function written by [as_definition] and parsed again keeps its
    description. *)
Lemma reparsed_weight_description `{Builtins} rf rf' :
  RateFunction.from_definition_dict (RateFunction.as_definition rf) = Ok rf' →
  RateFunction.description rf' = RateFunction.description rf.
Proof.
  unfold RateFunction.from_definition_dict, RateFunction.as_definition.
  cbn -[RateFunction.compile_function]. unfold RateFunction.compile_function.
  destruct (py_replace_hyphens (RateFunction.definition_type rf)) as [ty|];
    cbn; [|done].
  destruct (py_replace_hyphens ty) as [ty'|]; cbn; [|done].
  destruct (eq_str ty' "fixed_value").
  { destruct (py_float _); cbn; [|done]. by intros [= <-]. }
  destruct (eq_str ty' "lambda_definition").
  { destruct (py_eval _); cbn; [|done]. by intros [= <-]. }
  destruct (eq_str ty' "function_object"); [|done]. by intros [= <-].
Qed.

(** The fields that do come back from [write_model]: the identifier, the
    time scale, the mean rates as they stand in the model, the cladogenetic
    weights, and the three weight functions written under the key they are
    read from. *)
Lemma reparsed_fields_kept `{Builtins} m m' :
  InphestModel.parse_definition (InphestModel.write_model m) = Ok m' →
  InphestModel.model_id m' = InphestModel.model_id m
  ∧ InphestModel.host_to_symbiont_time_scale_factor m'
    = InphestModel.host_to_symbiont_time_scale_factor m
  ∧ InphestModel.mean_symbiont_lineage_birth_rate m'
    = InphestModel.mean_symbiont_lineage_birth_rate m
  ∧ InphestModel.mean_symbiont_lineage_death_rate m'
    = InphestModel.mean_symbiont_lineage_death_rate m
  ∧ InphestModel.mean_symbiont_lineage_host_gain_rate m'
    = InphestModel.mean_symbiont_lineage_host_gain_rate m
  ∧ InphestModel.mean_symbiont_lineage_host_loss_rate m'
    = InphestModel.mean_symbiont_lineage_host_loss_rate m
  ∧ InphestModel.mean_symbiont_lineage_area_gain_rate m'
    = InphestModel.mean_symbiont_lineage_area_gain_rate m
  ∧ InphestModel.host_cladogenesis_sympatric_subset_speciation_weight m'
    = InphestModel.host_cladogenesis_sympatric_subset_speciation_weight m
  ∧ InphestModel.host_cladogenesis_single_host_vicariance_speciation_weight m'
    = InphestModel.host_cladogenesis_single_host_vicariance_speciation_weight m
  ∧ InphestModel.host_cladogenesis_widespread_vicariance_speciation_weight m'
    = InphestModel.host_cladogenesis_widespread_vicariance_speciation_weight m
  ∧ InphestModel.host_cladogenesis_founder_event_speciation_weight m'
    = InphestModel.host_cladogenesis_founder_event_speciation_weight m
  ∧ InphestModel.symbiont_cladogenesis_sympatric_subset_speciation_weight m'
    = InphestModel.symbiont_cladogenesis_sympatric_subset_speciation_weight m
  ∧ InphestModel.symbiont_cladogenesis_single_area_vicariance_speciation_weight m'
    = InphestModel.symbiont_cladogenesis_single_area_vicariance_speciation_weight m
  ∧ InphestModel.symbiont_cladogenesis_widespread_vicariance_speciation_weight m'
    = InphestModel.symbiont_cladogenesis_widespread_vicariance_speciation_weight m
  ∧ InphestModel.symbiont_cladogenesis_founder_event_speciation_weight m'
    = InphestModel.symbiont_cladogenesis_founder_event_speciation_weight m
  ∧ RateFunction.description (InphestModel.symbiont_lineage_host_gain_weight_function m')
    = RateFunction.description (InphestModel.symbiont_lineage_host_gain_weight_function m)
  ∧ RateFunction.description (InphestModel.symbiont_lineage_host_loss_weight_function m')
    = RateFunction.description (InphestModel.symbiont_lineage_host_loss_weight_function m)
  ∧ RateFunction.description (InphestModel.symbiont_lineage_area_gain_weight_function m')
    = RateFunction.description (InphestModel.symbiont_lineage_area_gain_weight_function m).
Proof.
  intros Hparse. invert_reparse Hparse.
  injection Hparse as <-. cbn.
  split_and!; try reflexivity; by apply reparsed_weight_description.
Qed.

(** *** The examples, evaluated *)

Module ModelResults.
Import ModelExamples.
#[local] Existing Instance runtime.

Definition fixed_weight (q : Q) (description : string) : RateFunction.t :=
  RateFunction.mk (VStr "fixed_value") (VNum q) (VStr description)
    (Some RateFunction.ReturnsContent).

Definition default_weight (source description : string) : RateFunction.t :=
  RateFunction.mk (VStr "lambda_definition") (VStr source) (VStr description)
    (Some (RateFunction.Evaluated source)).

(** The model parsed from the empty definition. *)
Definition defaults : InphestModel.t := {|
  InphestModel.model_id := VStr "Model1";
  InphestModel.host_to_symbiont_time_scale_factor := 1;
  InphestModel.mean_symbiont_lineage_birth_rate := VNum (3 # 100);
  InphestModel.symbiont_lineage_birth_weight_function :=
    default_weight "lambda **kwargs: 1.00" "fixed: 1.00";
  InphestModel.mean_symbiont_lineage_death_rate := VNum 0;
  InphestModel.symbiont_lineage_death_weight_function :=
    default_weight "lambda **kwargs: 1.00" "fixed: 1.00";
  InphestModel.mean_symbiont_lineage_host_gain_rate := VNum (3 # 100);
  InphestModel.symbiont_lineage_host_gain_weight_function :=
    default_weight "lambda **kwargs: 1.00" "fixed: 1.00";
  InphestModel.mean_symbiont_lineage_host_loss_rate := VNum 0;
  InphestModel.symbiont_lineage_host_loss_weight_function :=
    default_weight "lambda **kwargs: 1.0" "fixed: 1.0";
  InphestModel.host_cladogenesis_sympatric_subset_speciation_weight := 1;
  InphestModel.host_cladogenesis_single_host_vicariance_speciation_weight := 1;
  InphestModel.host_cladogenesis_widespread_vicariance_speciation_weight := 1;
  InphestModel.host_cladogenesis_founder_event_speciation_weight := 0;
  InphestModel.mean_symbiont_lineage_area_gain_rate := VNum (3 # 100);
  InphestModel.symbiont_lineage_area_gain_weight_function :=
    default_weight "lambda **kwargs: 1.00" "fixed: 1.00";
  InphestModel.mean_symbiont_lineage_area_loss_rate := VNum 0;
  InphestModel.symbiont_lineage_area_loss_weight_function :=
    default_weight "lambda **kwargs: 1.0" "fixed: 1.0";
  InphestModel.symbiont_cladogenesis_sympatric_subset_speciation_weight := 1;
  InphestModel.symbiont_cladogenesis_single_area_vicariance_speciation_weight := 1;
  InphestModel.symbiont_cladogenesis_widespread_vicariance_speciation_weight := 1;
  InphestModel.symbiont_cladogenesis_founder_event_speciation_weight := 0;
|}.

(** The model parsed from [populated]: area loss is not what [populated]
    gives (1/8, a fixed weight 7). *)
Definition parsed : InphestModel.t := {|
  InphestModel.model_id := VStr "M";
  InphestModel.host_to_symbiont_time_scale_factor := 2;
  InphestModel.mean_symbiont_lineage_birth_rate := VNum (1 # 2);
  InphestModel.symbiont_lineage_birth_weight_function := fixed_weight 2 "birth";
  InphestModel.mean_symbiont_lineage_death_rate := VNum (1 # 4);
  InphestModel.symbiont_lineage_death_weight_function := fixed_weight 3 "death";
  InphestModel.mean_symbiont_lineage_host_gain_rate := VNum (1 # 5);
  InphestModel.symbiont_lineage_host_gain_weight_function := fixed_weight 4 "host gain";
  InphestModel.mean_symbiont_lineage_host_loss_rate := VNum (1 # 6);
  InphestModel.symbiont_lineage_host_loss_weight_function := fixed_weight 5 "host loss";
  InphestModel.host_cladogenesis_sympatric_subset_speciation_weight := 2;
  InphestModel.host_cladogenesis_single_host_vicariance_speciation_weight := 3;
  InphestModel.host_cladogenesis_widespread_vicariance_speciation_weight := 4;
  InphestModel.host_cladogenesis_founder_event_speciation_weight := 5;
  InphestModel.mean_symbiont_lineage_area_gain_rate := VNum (1 # 7);
  InphestModel.symbiont_lineage_area_gain_weight_function := fixed_weight 6 "area gain";
  InphestModel.mean_symbiont_lineage_area_loss_rate := VNum 0;
  InphestModel.symbiont_lineage_area_loss_weight_function :=
    default_weight "lambda **kwargs: 1.0" "fixed: 1.0";
  InphestModel.symbiont_cladogenesis_sympatric_subset_speciation_weight := 6;
  InphestModel.symbiont_cladogenesis_single_area_vicariance_speciation_weight := 7;
  InphestModel.symbiont_cladogenesis_widespread_vicariance_speciation_weight := 8;
  InphestModel.symbiont_cladogenesis_founder_event_speciation_weight := 9;
|}.

(** The model parsed from what [write_model] emits for [parsed]: the birth
    and death weight functions are the defaults as well. *)
Definition reparsed : InphestModel.t := {|
  InphestModel.model_id := VStr "M";
  InphestModel.host_to_symbiont_time_scale_factor := 2;
  InphestModel.mean_symbiont_lineage_birth_rate := VNum (1 # 2);
  InphestModel.symbiont_lineage_birth_weight_function :=
    default_weight "lambda **kwargs: 1.00" "fixed: 1.00";
  InphestModel.mean_symbiont_lineage_death_rate := VNum (1 # 4);
  InphestModel.symbiont_lineage_death_weight_function :=
    default_weight "lambda **kwargs: 1.00" "fixed: 1.00";
  InphestModel.mean_symbiont_lineage_host_gain_rate := VNum (1 # 5);
  InphestModel.symbiont_lineage_host_gain_weight_function := fixed_weight 4 "host gain";
  InphestModel.mean_symbiont_lineage_host_loss_rate := VNum (1 # 6);
  InphestModel.symbiont_lineage_host_loss_weight_function := fixed_weight 5 "host loss";
  InphestModel.host_cladogenesis_sympatric_subset_speciation_weight := 2;
  InphestModel.host_cladogenesis_single_host_vicariance_speciation_weight := 3;
  InphestModel.host_cladogenesis_widespread_vicariance_speciation_weight := 4;
  InphestModel.host_cladogenesis_founder_event_speciation_weight := 5;
  InphestModel.mean_symbiont_lineage_area_gain_rate := VNum (1 # 7);
  InphestModel.symbiont_lineage_area_gain_weight_function := fixed_weight 6 "area gain";
  InphestModel.mean_symbiont_lineage_area_loss_rate := VNum 0;
  InphestModel.symbiont_lineage_area_loss_weight_function :=
    default_weight "lambda **kwargs: 1.0" "fixed: 1.0";
  InphestModel.symbiont_cladogenesis_sympatric_subset_speciation_weight := 6;
  InphestModel.symbiont_cladogenesis_single_area_vicariance_speciation_weight := 7;
  InphestModel.symbiont_cladogenesis_widespread_vicariance_speciation_weight := 8;
  InphestModel.symbiont_cladogenesis_founder_event_speciation_weight := 9;
|}.

Definition bogus_in (block : string) : value :=
  VDict [(block, VDict [("bogus"%string, VNum 1)])].

End ModelResults.

Example parse_empty :
  InphestModel.parse_definition (H := ModelExamples.runtime) (VDict [])
  = Ok ModelResults.defaults
  ∧ InphestModel.parse_definition (H := ModelExamples.runtime) VNone
    = Ok ModelResults.defaults.
Proof. split; vm_compute; reflexivity. Qed.

Example parse_populated :
  InphestModel.parse_definition (H := ModelExamples.runtime) ModelExamples.populated
  = Ok ModelResults.parsed.
Proof. vm_compute. reflexivity. Qed.

Example reparse_populated :
  InphestModel.parse_definition (H := ModelExamples.runtime)
    (InphestModel.write_model ModelResults.parsed)
  = Ok ModelResults.reparsed.
Proof. vm_compute. reflexivity. Qed.

(** In the other blocks, at the top level and in a rate function an
    unrecognized key does raise [TypeError], which carries it. *)
Example unrecognized_key_elsewhere_raises :
  InphestModel.parse_definition (H := ModelExamples.runtime)
    (VDict [("bogus"%string, VNum 1)])
  = Raise (TypeError "Unsupported model keywords" [("bogus"%string, VNum 1)])
  ∧ InphestModel.parse_definition (H := ModelExamples.runtime)
      (ModelResults.bogus_in "anagenetic_host_assemblage_evolution")
    = Raise (TypeError "Unsupported keywords in anagenetic host range evolution submodel"
               [("bogus"%string, VNum 1)])
  ∧ InphestModel.parse_definition (H := ModelExamples.runtime)
      (ModelResults.bogus_in "cladogenetic_host_assemblage_evolution")
    = Raise (TypeError "Unsupported keywords in cladogenetic range evolution submodel"
               [("bogus"%string, VNum 1)])
  ∧ InphestModel.parse_definition (H := ModelExamples.runtime)
      (ModelResults.bogus_in "cladogenetic_geographical_range_evolution")
    = Raise (TypeError
               "Unsupported keywords in cladogenetic geographical range evolution submodel"
               [("bogus"%string, VNum 1)])
  ∧ RateFunction.from_definition_dict (H := ModelExamples.runtime)
      (VDict [("definition_type"%string, VStr "fixed-value");
              ("definition"%string, VNum 1);
              ("bogus"%string, VNum 1)])
    = Raise (TypeError "Unsupported function definition keywords"
               [("bogus"%string, VNum 1)]).
Proof. split_and!; vm_compute; reflexivity. Qed.

(** C4. The round trip does not give back what the definition says. Whatever
    the definition, the parsed model has the default area-loss rate 0.0 and
    the default area-loss weight function (the block is popped twice, the
    second time empty); and the model parsed from what [write_model] emits
    has, besides, the default birth and death weight functions
    ([diversification_as_definition] writes them under [lineage_birth_rate]
    and [lineage_death_rate], which [parse_definition] does not read). *)
Theorem C4_round_trip_loses_weights_and_area_loss `{Builtins}
    (model_definition : value) (m m' : InphestModel.t) :
  InphestModel.parse_definition model_definition = Ok m →
  InphestModel.parse_definition (InphestModel.write_model m) = Ok m' →
  (InphestModel.mean_symbiont_lineage_area_loss_rate m = VNum 0
   ∧ is_default_weight "lambda **kwargs: 1.0" "fixed: 1.0"
       (InphestModel.symbiont_lineage_area_loss_weight_function m))
  ∧ (InphestModel.mean_symbiont_lineage_area_loss_rate m' = VNum 0
     ∧ is_default_weight "lambda **kwargs: 1.0" "fixed: 1.0"
         (InphestModel.symbiont_lineage_area_loss_weight_function m'))
  ∧ is_default_weight "lambda **kwargs: 1.00" "fixed: 1.00"
      (InphestModel.symbiont_lineage_birth_weight_function m')
  ∧ is_default_weight "lambda **kwargs: 1.00" "fixed: 1.00"
      (InphestModel.symbiont_lineage_death_weight_function m').
Proof.
  intros Hm Hm'. split; [|split].
  - eapply parsed_area_loss_is_default, Hm.
  - eapply parsed_area_loss_is_default, Hm'.
  - eapply reparsed_birth_death_weights_are_default, Hm'.
Qed.

Lemma C4_round_trip_loses_weights_and_area_loss_witness :
  (InphestModel.mean_symbiont_lineage_area_loss_rate ModelResults.parsed = VNum 0
   ∧ is_default_weight (H := ModelExamples.runtime) "lambda **kwargs: 1.0" "fixed: 1.0"
       (InphestModel.symbiont_lineage_area_loss_weight_function ModelResults.parsed))
  ∧ (InphestModel.mean_symbiont_lineage_area_loss_rate ModelResults.reparsed = VNum 0
     ∧ is_default_weight (H := ModelExamples.runtime) "lambda **kwargs: 1.0" "fixed: 1.0"
         (InphestModel.symbiont_lineage_area_loss_weight_function ModelResults.reparsed))
  ∧ is_default_weight (H := ModelExamples.runtime) "lambda **kwargs: 1.00" "fixed: 1.00"
      (InphestModel.symbiont_lineage_birth_weight_function ModelResults.reparsed)
  ∧ is_default_weight (H := ModelExamples.runtime) "lambda **kwargs: 1.00" "fixed: 1.00"
      (InphestModel.symbiont_lineage_death_weight_function ModelResults.reparsed).
Proof.
  apply (C4_round_trip_loses_weights_and_area_loss (H := ModelExamples.runtime)
           ModelExamples.populated ModelResults.parsed ModelResults.reparsed).
  - vm_compute. reflexivity.
  - vm_compute. reflexivity.
Defined.

(** C5. An unrecognized key is silently ignored in two blocks. If a
    definition parses to [m], it still parses to [m], with no [TypeError],
    after any key other than the four it reads is added to its
    [diversification] block, which is never checked for leftovers; and after
    any key other than the two area-gain keys is added to its
    [anagenetic_geographical_range_evolution] block, whose check is made on
    the empty dictionary of the second pop. *)
Theorem C5_unrecognized_keys_silently_ignored `{Builtins} (k : string) (v : value)
    (block items : list (string * value)) (m : InphestModel.t) :
  (k ∉ diversification_keys →
   InphestModel.parse_definition
     (VDict (("diversification"%string, VDict block) :: items)) = Ok m →
   InphestModel.parse_definition
     (VDict (("diversification"%string, VDict ((k, v) :: block)) :: items)) = Ok m)
  ∧ (k ∉ area_gain_keys →
     InphestModel.parse_definition
       (VDict (("anagenetic_geographical_range_evolution"%string, VDict block) :: items))
     = Ok m →
     InphestModel.parse_definition
       (VDict (("anagenetic_geographical_range_evolution"%string, VDict ((k, v) :: block))
               :: items)) = Ok m).
Proof.
  split; intros Hk Hm.
  - by rewrite diversification_key_ignored.
  - by rewrite geographical_key_ignored.
Qed.

Lemma bogus_unrecognized (keys : list string) :
  bool_decide ("bogus"%string ∈ keys) = false → "bogus"%string ∉ keys.
Proof. intros Hb Hin. by rewrite bool_decide_eq_true_2 in Hb. Qed.

Lemma C5_unrecognized_keys_silently_ignored_witness :
  InphestModel.parse_definition (H := ModelExamples.runtime)
    (ModelResults.bogus_in "diversification") = Ok ModelResults.defaults
  ∧ InphestModel.parse_definition (H := ModelExamples.runtime)
      (ModelResults.bogus_in "anagenetic_geographical_range_evolution")
    = Ok ModelResults.defaults.
Proof.
  split.
  - apply (proj1 (C5_unrecognized_keys_silently_ignored (H := ModelExamples.runtime)
                    "bogus" (VNum 1) [] [] ModelResults.defaults)).
    + apply bogus_unrecognized. vm_compute. reflexivity.
    + vm_compute. reflexivity.
  - apply (proj2 (C5_unrecognized_keys_silently_ignored (H := ModelExamples.runtime)
                    "bogus" (VNum 1) [] [] ModelResults.defaults)).
    + apply bogus_unrecognized. vm_compute. reflexivity.
    + vm_compute. reflexivity.
Defined.

(** * Further properties of the code *)

From Stdlib Require Import SpecFloat.

(** ** Weighted random choice *)

(** [weighted_index_choice] and [weighted_choice] compute with the numbers
    of the interpreter: the weights and the draw are floats (or integers),
    and every operation rounds as the interpreter's does. The operations the
    two functions use are taken from the runtime, each named after the
    expression it stands for. *)
Class Numbers := {
  num : Type;
  (** [rng.uniform(0, 1) * sum_of_weights] *)
  num_mul : num → num → num;
  (** [rnd -= w] *)
  num_sub : num → num → num;
  (** [rnd < 0] *)
  num_negative : num → bool;
  (** [sum(weights)] *)
  num_sum : list num → num;
  (** [1.0/len(seq)] *)
  num_share : nat → num;
  (** [1 - sow] *)
  num_rest : num → num;
}.

Module WeightedChoice.
Section WithNumbers.
Context `{Numbers}.

(** The loop [for i, w in enumerate(weights)], entered at index [i] with the
    running value [rnd]; falling off the end returns [None]. *)
Fixpoint index_loop (i : nat) (rnd : num) (weights : list num) : option nat :=
  match weights with
  | [] => None
  | w :: rest =>
      let rnd := num_sub rnd w in
      if num_negative rnd then Some i else index_loop (S i) rnd rest
  end.

(** [u] is what [rng.uniform(0, 1)] returns. *)
Definition weighted_index_choice (weights : list num) (sum_of_weights u : num)
    : option nat :=
  index_loop 0 (num_mul u sum_of_weights) weights.

(** What a call of [weighted_choice] comes to: the element chosen, the
    [Exception] for too few weights, the [TypeError] of [seq[None]], or the
    [IndexError] of an index past the end of [seq]. *)
Inductive outcome (A : Type) :=
| Chosen (x : A)
| InsufficientWeights
| NoneIndex
| IndexPastEnd.
#[global] Arguments Chosen {A} x.
#[global] Arguments InsufficientWeights {A}.
#[global] Arguments NoneIndex {A}.
#[global] Arguments IndexPastEnd {A}.

Definition weighted_choice {A} (seq : list A) (weights : option (list num)) (u : num)
    : outcome A :=
  let n := Z.of_nat (length seq) in
  let weights :=
    match weights with
    | None => replicate (length seq) (num_share (length seq))
    | Some ws => ws
    end in
  if Z.of_nat (length weights) <? n - 1 then InsufficientWeights
  else
    let sow := num_sum weights in
    let weights :=
      if Z.of_nat (length weights) =? n - 1 then weights ++ [num_rest sow]
      else weights in
    match weighted_index_choice weights sow u with
    | None => NoneIndex
    | Some i =>
        match seq !! i with
        | Some x => Chosen x
        | None => IndexPastEnd
        end
    end.

End WithNumbers.

(** The numbers of CPython: IEEE binary64 floats, rounded to nearest even;
    [sum] adds from the left, starting from 0 (from CPython 3.12 on, [sum]
    compensates the rounding of the additions). *)
Module Binary64.
Definition of_Z (n : Z) : spec_float :=
  match n with
  | Z0 => S754_zero false
  | _ => binary_normalize 53 1024 n 0 false
  end.

Definition numbers : Numbers := {|
  num := spec_float;
  num_mul := SFmul 53 1024;
  num_sub := SFsub 53 1024;
  num_negative x := SFltb x (S754_zero false);
  num_sum ws := fold_left (SFadd 53 1024) ws (S754_zero false);
  num_share n := SFdiv 53 1024 (of_Z 1) (of_Z (Z.of_nat n));
  num_rest x := SFsub 53 1024 (of_Z 1) x;
|}.

(** 0.5 and 0.9999999999999999, the largest float below 1 *)
Definition half : spec_float := S754_finite false 4503599627370496 (-53).
Definition below_one : spec_float := S754_finite false 9007199254740991 (-53).
(** 0.1 and 0.4 *)
Definition tenth : spec_float := S754_finite false 7205759403792794 (-56).
Definition four_tenths : spec_float := S754_finite false 7205759403792794 (-54).
End Binary64.
End WeightedChoice.

Import WeightedChoice.

Lemma index_loop_lt `{Numbers} (weights : list num) (i0 : nat) (rnd : num) (k : nat) :
  index_loop i0 rnd weights = Some k → (i0 ≤ k < i0 + length weights)%nat.
Proof.
  revert i0 rnd. induction weights as [|w ws IH]; intros i0 rnd; [done|]. simpl.
  destruct (num_negative (num_sub rnd w)).
  - intros [= <-]. lia.
  - intros Hk%IH. lia.
Qed.

Lemma index_loop_app `{Numbers} (weights more : list num) (i0 : nat) (rnd : num)
    (k : nat) :
  index_loop i0 rnd weights = Some k → index_loop i0 rnd (weights ++ more) = Some k.
Proof.
  revert i0 rnd. induction weights as [|w ws IH]; intros i0 rnd; [done|]. simpl.
  destruct (num_negative (num_sub rnd w)); [done|]. apply IH.
Qed.

(** In binary64 a draw below 1 can fall off the end of the loop: ten equal
    weights and the largest draw below 1. And with one weight fewer than
    elements the element chosen can be the last one. *)
Example binary64_draw_below_one_falls_through :
  weighted_index_choice (H := Binary64.numbers) (replicate 10 Binary64.tenth)
    (Binary64.of_Z 1) Binary64.below_one = None
  ∧ weighted_choice (H := Binary64.numbers)
      ["a"; "b"; "c"; "d"]%string
      (Some [Binary64.tenth; Binary64.tenth; Binary64.four_tenths]) Binary64.below_one
    = Chosen "d"%string.
Proof. split; vm_compute; reflexivity. Qed.

(** X1. Whatever the arithmetic of the runtime and whatever the draw:
    [weighted_index_choice] returns [None] or an index below [len(weights)],
    and weights after the one chosen play no part; [weighted_choice] raises
    its [Exception] exactly when fewer than [len(seq) - 1] weights are
    given; given [len(seq) - 1] or [len(seq)] weights, or none, it returns
    an element of [seq] or raises the [TypeError] of [seq[None]], never an
    [IndexError]; so choosing from an empty sequence without weights raises
    [TypeError]. *)
Theorem X1_weighted_choice_outcomes `{Numbers} {A} (seq : list A)
    (weights : option (list num)) (u : num) :
  let given := match weights with None => length seq | Some ws => length ws end in
  (∀ ws more s i, weighted_index_choice ws s u = Some i →
     (i < length ws)%nat ∧ weighted_index_choice (ws ++ more) s u = Some i)
  ∧ (weighted_choice seq weights u = InsufficientWeights
     ↔ (given + 1 < length seq)%nat)
  ∧ ((length seq ≤ given + 1)%nat → (given ≤ length seq)%nat →
     weighted_choice seq weights u = NoneIndex
     ∨ ∃ i x, seq !! i = Some x ∧ weighted_choice seq weights u = Chosen x)
  ∧ (seq = [] → given = 0%nat → weighted_choice seq weights u = NoneIndex).
Proof.
  intros given.
  set (ws0 := match weights with
              | None => replicate (length seq) (num_share (length seq))
              | Some ws => ws
              end).
  assert (Hlen : length ws0 = given).
  { unfold ws0, given. destruct weights; [done|apply length_replicate]. }
  assert (Hb : (length seq ≤ given + 1)%nat → (given ≤ length seq)%nat →
     weighted_choice seq weights u = NoneIndex
     ∨ ∃ i x, seq !! i = Some x ∧ weighted_choice seq weights u = Chosen x).
  { intros H1 H2. unfold weighted_choice. fold ws0. rewrite Hlen.
    destruct (Z.ltb_spec (Z.of_nat given) (Z.of_nat (length seq) - 1)) as [?|_]; [lia|].
    set (ws1 := if Z.of_nat given =? Z.of_nat (length seq) - 1
                then ws0 ++ [num_rest (num_sum ws0)] else ws0).
    assert (Hlen1 : (length ws1 ≤ length seq)%nat).
    { unfold ws1. destruct (Z.eqb_spec (Z.of_nat given) (Z.of_nat (length seq) - 1)).
      - rewrite length_app. simpl. lia.
      - lia. }
    destruct (weighted_index_choice ws1 (num_sum ws0) u) as [i|] eqn:Hi; [|by left].
    apply index_loop_lt in Hi.
    destruct (lookup_lt_is_Some_2 seq i) as [x Hx]; [lia|].
    right. exists i, x. by rewrite Hx. }
  split_and!.
  - intros ws more s i Hi. split.
    + apply index_loop_lt in Hi. lia.
    + by apply index_loop_app.
  - unfold weighted_choice. fold ws0. rewrite Hlen.
    destruct (Z.ltb_spec (Z.of_nat given) (Z.of_nat (length seq) - 1)) as [Hlt|Hge].
    + split; [lia|done].
    + split; [|lia]. intros Hout.
      destruct (weighted_index_choice _ _ _) as [i|]; [|discriminate].
      destruct (seq !! i); discriminate.
  - exact Hb.
  - intros -> Hg. destruct Hb as [Hn|(i & x & Hx & _)]; simpl; [lia..|done|done].
Qed.

Lemma X1_weighted_choice_outcomes_witness :
  weighted_choice (H := Binary64.numbers) ["a"; "b"; "c"]%string None Binary64.half
  = NoneIndex
  ∨ ∃ i x, ["a"; "b"; "c"]%string !! i = Some x
           ∧ weighted_choice (H := Binary64.numbers) ["a"; "b"; "c"]%string None
               Binary64.half = Chosen x.
Proof.
  apply (X1_weighted_choice_outcomes (H := Binary64.numbers)
           ["a"; "b"; "c"]%string None Binary64.half); simpl; lia.
Defined.

(** ** StatesVector *)

Module StatesVector.

Record t := mk {
    _nchar : Z;
    _nstates : list Z;
    _states : list Z;
  }.

(** [[x] * n]: no element for [n <= 0] *)
Definition py_repeat {A} (x : A) (n : Z) : list A := replicate (Z.to_nat n) x.

(** [__init__]: [not values] holds for [None] and for the empty list. *)
Definition init (nchar : Z) (nstates values : option (list Z)) : result t :=
  let nstates :=
    match nstates with
    | Some l => l
    | None => py_repeat 2 nchar
    end in
  match values with
  | None | Some [] => Ok (mk nchar nstates (py_repeat 0 nchar))
  | Some vs =>
      assert (Z.of_nat (length vs) =? nchar);;
      Ok (mk nchar nstates vs)
  end.

(** [__getitem__] *)
Definition getitem (self : t) (idx : Z) : result Z := py_index (_states self) idx.

(** [__setitem__]: list assignment; negative indices count from the end. *)
Definition setitem (self : t) (idx : Z) (v : Z) : result t :=
  let n := Z.of_nat (length (_states self)) in
  let j := if idx <? 0 then n + idx else idx in
  if (j <? 0) || (n <=? j) then Raise IndexError
  else Ok (mk (_nchar self) (_nstates self) (<[Z.to_nat j := v]> (_states self))).

(** [clone] *)
Definition clone (self : t) : result t :=
  s ← init (_nchar self) (Some (_nstates self)) None;
  Ok (mk (_nchar s) (_nstates s) (_states self)).

End StatesVector.

(** X5. For [nchar >= 0], [StatesVector(nchar, nstates, values)] is built
    exactly when [values] is absent, empty or of length [nchar] (an empty
    [values] does not fail the length assertion: it counts as absent); the
    vector then holds [nchar] states, all 0 when [values] is absent or
    empty, else [values]. Any other [values] raises [AssertionError]. *)
Theorem X5_states_vector_init (nchar : Z) (nstates values : option (list Z)) :
  0 ≤ nchar →
  match values with
  | None | Some [] =>
      ∃ v, StatesVector.init nchar nstates values = Ok v
           ∧ StatesVector._states v = replicate (Z.to_nat nchar) 0
  | Some vs =>
      if decide (Z.of_nat (length vs) = nchar)
      then ∃ v, StatesVector.init nchar nstates values = Ok v
                ∧ StatesVector._states v = vs
      else StatesVector.init nchar nstates values = Raise AssertionError
  end
  ∧ ∀ v, StatesVector.init nchar nstates values = Ok v →
         Z.of_nat (length (StatesVector._states v)) = StatesVector._nchar v
         ∧ StatesVector._nchar v = nchar.
Proof.
  intros Hn. split.
  - destruct values as [[|x vs]|]; [by eexists|..|by eexists].
    unfold StatesVector.init. case_decide as Hlen.
    + apply Z.eqb_eq in Hlen. rewrite Hlen. by eexists.
    + apply Z.eqb_neq in Hlen. by rewrite Hlen.
  - intros v. unfold StatesVector.init, StatesVector.py_repeat.
    destruct values as [[|x vs]|].
    + intros [= <-]. simpl. rewrite length_replicate. lia.
    + destruct (Z.eqb_spec (Z.of_nat (length (x :: vs))) nchar) as [Hlen|]; [|done].
      simpl. intros [= <-]. simpl in *. lia.
    + intros [= <-]. simpl. rewrite length_replicate. lia.
Qed.

Lemma X5_states_vector_init_witness :
  (∃ v, StatesVector.init 3 None (Some []) = Ok v
        ∧ StatesVector._states v = replicate (Z.to_nat 3) 0)
  ∧ ∀ v, StatesVector.init 3 None (Some []) = Ok v →
         Z.of_nat (length (StatesVector._states v)) = StatesVector._nchar v
         ∧ StatesVector._nchar v = 3.
Proof. apply (X5_states_vector_init 3 None (Some [])). lia. Defined.

(** X6. After [v[idx] = x] returns, [v[idx]] is [x], every other position
    reads as before and the number of states is unchanged, with negative
    indices counting from the end; [v[idx] = x] raises [IndexError] exactly
    when [v[idx]] does. *)
Theorem X6_states_vector_setitem_getitem (self : StatesVector.t) (idx x : Z) :
  match StatesVector.setitem self idx x with
  | Ok self' =>
      StatesVector.getitem self' idx = Ok x
      ∧ length (StatesVector._states self') = length (StatesVector._states self)
      ∧ StatesVector._nchar self' = StatesVector._nchar self
      ∧ ∀ idx', (idx' - idx) `mod` Z.of_nat (length (StatesVector._states self)) ≠ 0 →
                StatesVector.getitem self' idx' = StatesVector.getitem self idx'
  | Raise e => e = IndexError ∧ StatesVector.getitem self idx = Raise IndexError
  end.
Proof.
  unfold StatesVector.setitem, StatesVector.getitem, py_index.
  set (n := Z.of_nat (length (StatesVector._states self))).
  set (j := if idx <? 0 then n + idx else idx).
  destruct ((j <? 0) || (n <=? j)) eqn:Hj; [done|].
  apply orb_false_iff in Hj as [Hj0 Hjn].
  apply Z.ltb_ge in Hj0. apply Z.leb_gt in Hjn. simpl.
  rewrite length_insert. fold n. fold j.
  assert (Hjn' : (Z.to_nat j < length (StatesVector._states self))%nat) by lia.
  split_and!; try done.
  - destruct ((j <? 0) || (n <=? j)) eqn:Hj; [lia|].
    by rewrite list_lookup_insert_eq.
  - intros idx' Hne.
    set (j' := if idx' <? 0 then n + idx' else idx').
    destruct ((j' <? 0) || (n <=? j')) eqn:Hj'; [done|].
    apply orb_false_iff in Hj' as [Hj'0 Hj'n].
    apply Z.ltb_ge in Hj'0. apply Z.leb_gt in Hj'n.
    rewrite list_lookup_insert_ne; [done|].
    intros Heq. apply Hne.
    assert (j' = j) as Hjj by lia.
    subst j j'. destruct (idx <? 0) eqn:?, (idx' <? 0) eqn:?.
    + replace (idx' - idx) with 0 by lia. apply Zmod_0_l.
    + replace (idx' - idx) with (1 * n) by lia. apply Z.mod_mul. lia.
    + replace (idx' - idx) with ((-1) * n) by lia. apply Z.mod_mul. lia.
    + replace (idx' - idx) with 0 by lia. apply Zmod_0_l.
Qed.

(** ** The host side: what [HostSystem.compile] sets up and the host
    lineage methods keep *)

Lemma check_widths_spec n ls :
  HostSystem.check_widths n ls = Ok tt →
  ∀ k d, (k, d) ∈ ls →
    String.length (HostLineageDefinition.lineage_start_distribution_bitstring d) = n
    ∧ String.length (HostLineageDefinition.lineage_end_distribution_bitstring d) = n.
Proof.
  induction ls as [|[k0 d0] ls IH]; intros Hrun k d Hin; [by apply elem_of_nil in Hin|].
  cbn in Hrun.
  destruct (Nat.eqb_spec n
    (String.length (HostLineageDefinition.lineage_start_distribution_bitstring d0)));
    [|done].
  destruct (Nat.eqb_spec n
    (String.length (HostLineageDefinition.lineage_end_distribution_bitstring d0)));
    [|done].
  simpl in Hrun. apply elem_of_cons in Hin as [[= -> ->]|Hin]; [done|by eapply IH].
Qed.

Lemma compile_lineages_spec ls scale dbg seen acc hosts :
  HostSystem.compile_lineages ls scale dbg seen acc = Ok hosts →
  ∀ id hl, hosts !! id = Some hl →
    acc !! id = Some hl
    ∨ ∃ k d, (k, d) ∈ ls ∧ hl = HostLineageOps.init d scale dbg
             ∧ HostLineageDefinition.lineage_id d = id.
Proof.
  revert seen acc. induction ls as [|[k0 d0] ls IH]; intros seen acc Hrun id hl Hl.
  - simpl in Hrun. injection Hrun as <-. by left.
  - simpl in Hrun.
    destruct (if HostLineageDefinition.is_seed_node d0 then assert (negb seen) else Ok tt);
      [|done].
    simpl in Hrun. destruct (IH _ _ Hrun id hl Hl) as [Hacc|(k & d & Hin & -> & Hid)].
    + destruct (decide (HostLineageDefinition.lineage_id d0 = id)) as [Heq|Hne].
      * simpl in Hacc. rewrite Heq, lookup_insert_eq in Hacc. injection Hacc as <-.
        right. exists k0, d0. split_and!; [left|done|done].
      * simpl in Hacc. rewrite lookup_insert_ne in Hacc by done. by left.
    + right. exists k, d. split_and!; [by right|done|done].
Qed.

(** X7. When [HostSystem.compile] returns, the system has one area per
    character of the distribution bitstrings, area [i] with index [i] and
    with no host or symbiont lineage; it has no symbiont lineage; every host
    lineage is 'pre', occupies no area, is filed under its own lineage id and
    has a start distribution as wide as the number of areas; and the host
    and area sides agree. *)
Theorem X7_compile_fresh_host_system (h : HostHistory.t) (scale : Q) (dbg : bool)
    (w : World) :
  HostSystem.compile h scale dbg = Ok w →
  host_system_ok w
  ∧ symbiont_lineages w = ∅
  ∧ (∀ i ar, areas w !! i = Some ar →
       Area.area_idx ar = Z.of_nat i
       ∧ Area.host_lineages ar = ∅ ∧ Area.symbiont_lineages ar = ∅)
  ∧ (∀ id hl, host_lineages w !! id = Some hl →
       HostLineage.lineage_id hl = id
       ∧ HostLineage.extancy hl = pre
       ∧ HostLineage._current_areas hl = ∅
       ∧ String.length (HostLineage.start_distribution_bitstring hl)
         = length (areas w)).
Proof.
  unfold HostSystem.compile, HostSystem.generate_areas. intros Hrun.
  destruct (HostHistory.lineages h) as [|[k0 d0] ls] eqn:Hls; [cbn in Hrun; discriminate Hrun|].
  cbn -[HostSystem.compile_lineages HostSystem.check_widths] in Hrun.
  set (n := String.length (HostLineageDefinition.lineage_start_distribution_bitstring d0))
    in *.
  destruct (HostSystem.check_widths n ((k0, d0) :: ls)) as [[]|] eqn:Hw.
  2:{ cbn in Hrun. discriminate Hrun. }
  cbn -[HostSystem.compile_lineages] in Hrun.
  destruct (HostSystem.compile_lineages ((k0, d0) :: ls) scale dbg false ∅)
    as [hosts|] eqn:Hc.
  2:{ cbn in Hrun. discriminate Hrun. }
  cbn in Hrun. injection Hrun as <-. simpl.
  assert (Hareas : ∀ i ar,
            map (λ i, Area.mk (Z.of_nat i) ∅ ∅) (seq 0 n) !! i = Some ar →
            Area.area_idx ar = Z.of_nat i
            ∧ Area.host_lineages ar = ∅ ∧ Area.symbiont_lineages ar = ∅).
  { intros i ar Hi. rewrite list_lookup_fmap in Hi.
    destruct (seq 0 n !! i) as [j|] eqn:Hj; [|done].
    apply lookup_seq in Hj as [-> _]. by injection Hi as <-. }
  assert (Hhosts : ∀ id hl, hosts !! id = Some hl →
            HostLineage.lineage_id hl = id
            ∧ HostLineage.extancy hl = pre
            ∧ HostLineage._current_areas hl = ∅
            ∧ String.length (HostLineage.start_distribution_bitstring hl) = n).
  { intros id hl Hl.
    destruct (compile_lineages_spec _ _ _ _ _ _ Hc id hl Hl)
      as [Hacc|(k & d & Hin & -> & Hid)]; [by rewrite lookup_empty in Hacc|].
    split_and!; try done. simpl. by eapply check_widths_spec. }
  split_and!; try done.
  - intros h' a. split.
    + intros (hl & Hl & Ha). apply Hhosts in Hl as (_ & _ & Hcur & _).
      rewrite Hcur in Ha. set_solver.
    + intros (ar & Har & Hh). apply Hareas in Har as (_ & Hhs & _).
      rewrite Hhs in Hh. set_solver.
  - intros id hl Hl. rewrite length_map, length_seq. by apply Hhosts.
Qed.

Lemma X7_compile_fresh_host_system_witness :
  host_system_ok SymbiontExamples.compiled
  ∧ symbiont_lineages SymbiontExamples.compiled = ∅
  ∧ (∀ i ar, areas SymbiontExamples.compiled !! i = Some ar →
       Area.area_idx ar = Z.of_nat i
       ∧ Area.host_lineages ar = ∅ ∧ Area.symbiont_lineages ar = ∅)
  ∧ (∀ id hl, host_lineages SymbiontExamples.compiled !! id = Some hl →
       HostLineage.lineage_id hl = id
       ∧ HostLineage.extancy hl = pre
       ∧ HostLineage._current_areas hl = ∅
       ∧ String.length (HostLineage.start_distribution_bitstring hl)
         = length (areas SymbiontExamples.compiled)).
Proof.
  apply (X7_compile_fresh_host_system SymbiontExamples.history (1 # 1) false).
  vm_compute. reflexivity.
Defined.

(** *** [add_area] and [remove_area] *)

(** The store after [host.add_area(area)] and after [host.remove_area(area)]. *)
Definition joined (self : Z) (a : nat) (hl : HostLineage.t) (ar : Area.t) (w : World)
    : World :=
  mkWorld
    (<[a := Area.mk (Area.area_idx ar) ({[self]} ∪ Area.host_lineages ar)
              (Area.symbiont_lineages ar)]> (areas w))
    (<[self := HostLineageOps.with_current_areas hl
                 ({[a]} ∪ HostLineage._current_areas hl)]> (host_lineages w))
    (symbiont_lineages w).

Definition parted (self : Z) (a : nat) (hl : HostLineage.t) (ar : Area.t) (w : World)
    : World :=
  mkWorld
    (<[a := Area.mk (Area.area_idx ar) (Area.host_lineages ar ∖ {[self]})
              (Area.symbiont_lineages ar)]> (areas w))
    (<[self := HostLineageOps.with_current_areas hl
                 (HostLineage._current_areas hl ∖ {[a]})]> (host_lineages w))
    (symbiont_lineages w).

Lemma add_area_run w self a hl ar :
  host_lineages w !! self = Some hl → areas w !! a = Some ar →
  HostLineageOps.add_area self a w
  = if bool_decide (a ∈ HostLineage._current_areas hl)
    then (Raise AssertionError, w)
    else (Ok tt, joined self a hl ar w).
Proof.
  intros Hh Ha. unfold HostLineageOps.add_area. erewrite run_get_host by done.
  case_bool_decide; [done|]. simpl negb. rewrite run_massert_true, run_set_host.
  unfold HostLineageOps.area_add_host. rewrite bind_run. unfold get_area. simpl.
  by rewrite Ha.
Qed.

Lemma remove_area_run w self a hl ar :
  host_lineages w !! self = Some hl → areas w !! a = Some ar →
  self ∈ Area.host_lineages ar →
  HostLineageOps.remove_area self a w
  = if bool_decide (a ∈ HostLineage._current_areas hl)
    then (Ok tt, parted self a hl ar w)
    else (Raise AssertionError, w).
Proof.
  intros Hh Ha Hin. unfold HostLineageOps.remove_area. erewrite run_get_host by done.
  case_bool_decide; [|done]. rewrite run_massert_true, run_set_host.
  unfold HostLineageOps.area_remove_host. rewrite bind_run. unfold get_area. simpl.
  rewrite Ha. rewrite bind_run. unfold lift, set_remove.
  by rewrite bool_decide_eq_true_2.
Qed.

Lemma occupies_joined w self a hl ar h' a' :
  host_lineages w !! self = Some hl →
  occupies (joined self a hl ar w) h' a' ↔ occupies w h' a' ∨ (h' = self ∧ a' = a).
Proof.
  intros Hh. unfold occupies, joined. simpl.
  destruct (decide (h' = self)) as [->|Hne].
  - rewrite lookup_insert_eq. split.
    + intros (hl' & [= <-] & Hin). simpl in Hin.
      apply elem_of_union in Hin as [->%elem_of_singleton|Hin]; [by right|].
      left. eauto.
    + intros [(hl' & Hl & Hin)|[_ ->]]; eexists; (split; [done|]); simpl.
      * assert (hl' = hl) as -> by congruence. set_solver.
      * set_solver.
  - rewrite lookup_insert_ne by done. naive_solver.
Qed.

Lemma hosted_in_joined w self a hl ar a' h' :
  areas w !! a = Some ar →
  hosted_in (joined self a hl ar w) a' h' ↔ hosted_in w a' h' ∨ (a' = a ∧ h' = self).
Proof.
  intros Ha. unfold hosted_in, joined. simpl.
  pose proof (lookup_lt_Some _ _ _ Ha) as Hlt.
  destruct (decide (a' = a)) as [->|Hne].
  - rewrite list_lookup_insert_eq by done. split.
    + intros (ar' & [= <-] & Hin). simpl in Hin.
      apply elem_of_union in Hin as [->%elem_of_singleton|Hin]; [by right|].
      left. eauto.
    + intros [(ar' & Hl & Hin)|[_ ->]]; eexists; (split; [done|]); simpl.
      * assert (ar' = ar) as -> by congruence. set_solver.
      * set_solver.
  - rewrite list_lookup_insert_ne by done. naive_solver.
Qed.

Lemma occupies_parted w self a hl ar h' a' :
  host_lineages w !! self = Some hl →
  occupies (parted self a hl ar w) h' a' ↔ occupies w h' a' ∧ ¬ (h' = self ∧ a' = a).
Proof.
  intros Hh. unfold occupies, parted. simpl.
  destruct (decide (h' = self)) as [->|Hne].
  - rewrite lookup_insert_eq. split.
    + intros (hl' & [= <-] & Hin). simpl in Hin.
      apply elem_of_difference in Hin as [Hin Hnot]. split; [eauto|].
      intros [_ ->]. set_solver.
    + intros [(hl' & Hl & Hin) Hnot]. eexists. split; [done|]. simpl.
      assert (hl' = hl) as -> by congruence.
      apply elem_of_difference. split; [done|]. intros ->%elem_of_singleton. by apply Hnot.
  - rewrite lookup_insert_ne by done. naive_solver.
Qed.

Lemma hosted_in_parted w self a hl ar a' h' :
  areas w !! a = Some ar →
  hosted_in (parted self a hl ar w) a' h' ↔ hosted_in w a' h' ∧ ¬ (a' = a ∧ h' = self).
Proof.
  intros Ha. unfold hosted_in, parted. simpl.
  pose proof (lookup_lt_Some _ _ _ Ha) as Hlt.
  destruct (decide (a' = a)) as [->|Hne].
  - rewrite list_lookup_insert_eq by done. split.
    + intros (ar' & [= <-] & Hin). simpl in Hin.
      apply elem_of_difference in Hin as [Hin Hnot]. split; [eauto|].
      intros [_ ->]. set_solver.
    + intros [(ar' & Hl & Hin) Hnot]. eexists. split; [done|]. simpl.
      assert (ar' = ar) as -> by congruence.
      apply elem_of_difference. split; [done|]. intros ->%elem_of_singleton. by apply Hnot.
  - rewrite list_lookup_insert_ne by done. naive_solver.
Qed.

Lemma host_system_ok_joined w self a hl ar :
  host_lineages w !! self = Some hl → areas w !! a = Some ar →
  host_system_ok w → host_system_ok (joined self a hl ar w).
Proof.
  intros Hh Ha Hok h' a'. rewrite occupies_joined, hosted_in_joined by done.
  rewrite (Hok h' a'). naive_solver.
Qed.

Lemma host_system_ok_parted w self a hl ar :
  host_lineages w !! self = Some hl → areas w !! a = Some ar →
  host_system_ok w → host_system_ok (parted self a hl ar w).
Proof.
  intros Hh Ha Hok h' a'. rewrite occupies_parted, hosted_in_parted by done.
  rewrite (Hok h' a'). naive_solver.
Qed.

(** X8. On a host system whose two sides agree, [add_area] and
    [remove_area] keep them agreeing whatever the outcome. [add_area] raises
    [AssertionError], changing nothing, exactly when the host already
    occupies the area, and [remove_area] exactly when it does not; a call
    that returns changes the occupancy of that one host and area only, and
    no symbiont lineage. *)
Theorem X8_add_remove_area_keep_sides_agreeing (w : World) (self : Z) (a : nat)
    (hl : HostLineage.t) (ar : Area.t) :
  host_lineages w !! self = Some hl → areas w !! a = Some ar → host_system_ok w →
  (∃ w', HostLineageOps.add_area self a w
         = (if bool_decide (a ∈ HostLineage._current_areas hl)
            then Raise AssertionError else Ok tt, w')
         ∧ host_system_ok w'
         ∧ symbiont_lineages w' = symbiont_lineages w
         ∧ ∀ h' a', occupies w' h' a' ↔ occupies w h' a' ∨ (h' = self ∧ a' = a))
  ∧ (∃ w', HostLineageOps.remove_area self a w
           = (if bool_decide (a ∈ HostLineage._current_areas hl)
              then Ok tt else Raise AssertionError, w')
           ∧ host_system_ok w'
           ∧ symbiont_lineages w' = symbiont_lineages w
           ∧ ∀ h' a', occupies w' h' a' ↔ occupies w h' a' ∧ ¬ (h' = self ∧ a' = a)).
Proof.
  intros Hh Ha Hok.
  assert (Hocc : occupies w self a ↔ a ∈ HostLineage._current_areas hl).
  { unfold occupies. split; [intros (hl' & Hl & Hin); congruence|eauto]. }
  split.
  - rewrite (add_area_run w self a hl ar Hh Ha). case_bool_decide as Hin.
    + exists w. split_and!; try done. intros h' a'. split; [by left|].
      intros [?|[-> ->]]; [done|by apply Hocc].
    + exists (joined self a hl ar w). split_and!; try done.
      * by apply host_system_ok_joined.
      * intros h' a'. by apply occupies_joined.
  - assert (Hself : a ∈ HostLineage._current_areas hl → self ∈ Area.host_lineages ar).
    { intros Hin. apply Hocc, Hok in Hin as (ar' & Har' & Hs). congruence. }
    case_bool_decide as Hin.
    + rewrite (remove_area_run w self a hl ar Hh Ha (Hself Hin)).
      rewrite bool_decide_eq_true_2 by done.
      exists (parted self a hl ar w). split_and!; try done.
      * by apply host_system_ok_parted.
      * intros h' a'. by apply occupies_parted.
    + exists w. unfold HostLineageOps.remove_area. erewrite run_get_host by done.
      rewrite bool_decide_eq_false_2 by done. split_and!; try done.
      intros h' a'. split; [|tauto]. intros Ho. split; [done|].
      intros [-> ->]. by apply Hin, Hocc.
Qed.

Lemma X8_add_remove_area_keep_sides_agreeing_witness :
  ∃ hl ar,
    host_lineages SymbiontExamples.compiled !! 1 = Some hl
    ∧ areas SymbiontExamples.compiled !! 2%nat = Some ar
    ∧ (∃ w', HostLineageOps.add_area 1 2 SymbiontExamples.compiled
             = (if bool_decide (2%nat ∈ HostLineage._current_areas hl)
                then Raise AssertionError else Ok tt, w')
             ∧ host_system_ok w'
             ∧ symbiont_lineages w' = symbiont_lineages SymbiontExamples.compiled
             ∧ ∀ h' a', occupies w' h' a'
                        ↔ occupies SymbiontExamples.compiled h' a' ∨ (h' = 1 ∧ a' = 2%nat)).
Proof.
  destruct (host_lineages SymbiontExamples.compiled !! 1) as [hl|] eqn:Hh;
    [|by vm_compute in Hh].
  destruct (areas SymbiontExamples.compiled !! 2%nat) as [ar|] eqn:Ha;
    [|by vm_compute in Ha].
  exists hl, ar. split_and!; [done..|].
  apply (X8_add_remove_area_keep_sides_agreeing SymbiontExamples.compiled 1 2 hl ar Hh Ha).
  apply host_system_check_ok. vm_compute. reflexivity.
Defined.

(** X9. On a host system whose two sides agree, [add_area] followed by
    [remove_area] of the same area, for an area the host does not occupy,
    gives back the store it started from; so does [remove_area] followed by
    [add_area] for an area the host occupies. *)
Theorem X9_add_then_remove_area_restores (w : World) (self : Z) (a : nat)
    (hl : HostLineage.t) (ar : Area.t) :
  host_lineages w !! self = Some hl → areas w !! a = Some ar → host_system_ok w →
  (a ∉ HostLineage._current_areas hl →
   (HostLineageOps.add_area self a;; HostLineageOps.remove_area self a) w = (Ok tt, w))
  ∧ (a ∈ HostLineage._current_areas hl →
     (HostLineageOps.remove_area self a;; HostLineageOps.add_area self a) w = (Ok tt, w)).
Proof.
  intros Hh Ha Hok.
  pose proof (lookup_lt_Some _ _ _ Ha) as Hlt.
  assert (Hself : a ∈ HostLineage._current_areas hl ↔ self ∈ Area.host_lineages ar).
  { split.
    - intros Hin. destruct (proj1 (Hok self a)) as (ar' & Har' & Hs); [by eexists|].
      congruence.
    - intros Hin. destruct (proj2 (Hok self a)) as (hl' & Hl' & Hs); [by eexists|].
      congruence. }
  assert (Hw : mkWorld (<[a := ar]> (areas w)) (<[self := hl]> (host_lineages w))
                 (symbiont_lineages w) = w).
  { destruct w as [ars hs ss]. simpl in *. f_equal.
    - by apply list_insert_id.
    - by apply insert_id. }
  split; intros Hin.
  - rewrite bind_run, (add_area_run w self a hl ar Hh Ha).
    rewrite bool_decide_eq_false_2 by done.
    erewrite (remove_area_run (joined self a hl ar w) self a);
      [|apply lookup_insert_eq|by apply list_lookup_insert_eq|simpl; set_solver].
    rewrite bool_decide_eq_true_2 by (simpl; set_solver).
    unfold parted, joined. simpl.
    rewrite insert_insert_eq, list_insert_insert_eq. f_equal.
    rewrite <- Hw at 4. f_equal.
    + f_equal. destruct ar as [idx hs ss]. simpl in *. f_equal. set_solver.
    + f_equal. unfold HostLineageOps.with_current_areas. simpl.
      destruct hl; simpl in *. f_equal. set_solver.
  - rewrite bind_run.
    rewrite (remove_area_run w self a hl ar Hh Ha) by by apply Hself.
    rewrite bool_decide_eq_true_2 by done.
    erewrite (add_area_run (parted self a hl ar w) self a);
      [|apply lookup_insert_eq|by apply list_lookup_insert_eq].
    rewrite bool_decide_eq_false_2 by (simpl; set_solver).
    unfold parted, joined. simpl.
    rewrite insert_insert_eq, list_insert_insert_eq. f_equal.
    rewrite <- Hw at 4. f_equal.
    + f_equal. destruct ar as [idx hs ss]. simpl in *. f_equal.
      apply set_eq. intros x. rewrite elem_of_union, elem_of_difference, elem_of_singleton.
      destruct (decide (x = self)) as [->|]; [|naive_solver].
      split; [intros _; by apply Hself|by left].
    + f_equal. unfold HostLineageOps.with_current_areas. simpl.
      destruct hl; simpl in *. f_equal.
      apply set_eq. intros x. rewrite elem_of_union, elem_of_difference, elem_of_singleton.
      destruct (decide (x = a)) as [->|]; naive_solver.
Qed.

Lemma X9_add_then_remove_area_restores_witness :
  (HostLineageOps.add_area 1 2;; HostLineageOps.remove_area 1 2) SymbiontExamples.compiled
  = (Ok tt, SymbiontExamples.compiled).
Proof.
  assert (Hh : host_lineages SymbiontExamples.compiled !! 1
               = Some (HostLineageOps.init HostHistoryExamples.defn_010 (1 # 1) false))
    by (vm_compute; reflexivity).
  assert (Ha : areas SymbiontExamples.compiled !! 2%nat = Some (Area.mk 2 ∅ ∅))
    by (vm_compute; reflexivity).
  assert (Hok : host_system_ok SymbiontExamples.compiled)
    by (apply host_system_check_ok; vm_compute; reflexivity).
  apply (proj1 (X9_add_then_remove_area_restores SymbiontExamples.compiled 1 2 _ _ Hh Ha
                  Hok)).
  simpl. apply not_elem_of_empty.
Defined.

(** *** [activate], [deactivate] and [clear_areas] *)

Lemma with_current_areas_id hl :
  HostLineageOps.with_current_areas hl (HostLineage._current_areas hl) = hl.
Proof. by destruct hl. Qed.

(** What a method of the host lineage [self] leaves alone: the symbiont
    lineages and their registration on the areas, the area indices, the
    other host lineages; and of [self], everything but the area set. *)
Definition host_frame (self : Z) (hl : HostLineage.t) (w w' : World) : Prop :=
  symbiont_lineages w' = symbiont_lineages w
  ∧ length (areas w') = length (areas w)
  ∧ (∀ a ar', areas w' !! a = Some ar' →
       ∃ ar, areas w !! a = Some ar
             ∧ Area.area_idx ar' = Area.area_idx ar
             ∧ Area.symbiont_lineages ar' = Area.symbiont_lineages ar)
  ∧ (∀ h, h ≠ self → host_lineages w' !! h = host_lineages w !! h)
  ∧ ∃ s, host_lineages w' !! self = Some (HostLineageOps.with_current_areas hl s).

Lemma host_frame_refl self hl w :
  host_lineages w !! self = Some hl → host_frame self hl w w.
Proof.
  intros Hh. split_and!; try done; [eauto|].
  exists (HostLineage._current_areas hl). by rewrite with_current_areas_id.
Qed.

Lemma host_frame_joined self hl0 hl a ar w0 w s :
  host_frame self hl0 w0 w →
  host_lineages w !! self = Some hl → hl = HostLineageOps.with_current_areas hl0 s →
  areas w !! a = Some ar →
  host_frame self hl0 w0 (joined self a hl ar w).
Proof.
  intros (Hs & Hlen & Hars & Hhs & _) Hh -> Ha. unfold joined. split_and!; simpl.
  - done.
  - by rewrite length_insert.
  - intros a' ar' Har'. destruct (decide (a' = a)) as [->|Hne].
    + rewrite list_lookup_insert_eq in Har' by by eapply lookup_lt_Some.
      injection Har' as <-. simpl. by apply Hars.
    + rewrite list_lookup_insert_ne in Har' by done. by apply Hars.
  - intros h Hne. rewrite lookup_insert_ne by done. by apply Hhs.
  - rewrite lookup_insert_eq. by eexists.
Qed.

(** The areas a start distribution marks: the positions of its "1"s. *)
Definition marked (l : list (nat * ascii)) (a : nat) : Prop := (a, "1"%char) ∈ l.

Definition ones (l : list (nat * ascii)) : gset nat :=
  list_to_set (filter (λ p : nat * ascii, p.2 = "1"%char) l).*1.

Lemma elem_of_ones l a : a ∈ ones l ↔ marked l a.
Proof.
  unfold ones, marked. rewrite elem_of_list_to_set, list_elem_of_fmap. split.
  - intros ([a' c] & -> & [Hc Hin]%list_elem_of_filter). simpl in *. by subst.
  - intros Hin. exists (a, "1"%char). split; [done|]. by apply list_elem_of_filter.
Qed.

Lemma activate_loop self hl0 w0 (l : list (nat * ascii)) :
  ∀ w s r w',
    host_frame self hl0 w0 w →
    host_lineages w !! self = Some (HostLineageOps.with_current_areas hl0 s) →
    host_system_ok w →
    for_each l (HostLineageOps.activate_step self) w = (r, w') →
    host_frame self hl0 w0 w' ∧ host_system_ok w'
    ∧ (r = Ok tt →
       Forall (λ p, p.2 = "0"%char ∨ p.2 = "1"%char) l
       ∧ (∀ a, marked l a → a ∉ s)
       ∧ host_lineages w' !! self
         = Some (HostLineageOps.with_current_areas hl0 (s ∪ ones l))
       ∧ ∀ h' a', occupies w' h' a' ↔ occupies w h' a' ∨ (h' = self ∧ marked l a')).
Proof.
  induction l as [|[i c] l IH]; intros w s r w' Hf Hh Hok Hrun.
  - simpl in Hrun. injection Hrun as <- <-. split_and!; try done. intros _.
    split_and!; try done.
    + intros a Ha. by apply elem_of_nil in Ha.
    + unfold ones. rewrite filter_nil. simpl. by rewrite (right_id_L ∅ (∪)).
    + intros h' a'. split; [by left|]. intros [?|[_ Ha]]; [done|].
      by apply elem_of_nil in Ha.
  - simpl in Hrun. rewrite bind_run in Hrun.
    unfold HostLineageOps.activate_step at 1 in Hrun.
    rewrite bind_run in Hrun. unfold get_area at 1 in Hrun.
    destruct (areas w !! i) as [ar|] eqn:Ha.
    2:{ injection Hrun as <- <-. by split_and!. }
    rewrite bind_run in Hrun. unfold massert at 1, lift, assert in Hrun.
    destruct (Z.eqb (Area.area_idx ar) (Z.of_nat i)) eqn:Hidx.
    2:{ injection Hrun as <- <-. by split_and!. }
    destruct (Ascii.eqb_spec c "1") as [->|Hc1].
    + rewrite (add_area_run w self i _ ar Hh Ha) in Hrun. simpl in Hrun.
      case_bool_decide as Hin.
      { injection Hrun as <- <-. by split_and!. }
      assert (Hh1 : host_lineages (joined self i
                      (HostLineageOps.with_current_areas hl0 s) ar w) !! self
                    = Some (HostLineageOps.with_current_areas hl0 ({[i]} ∪ s))).
      { unfold joined. simpl. by rewrite lookup_insert_eq. }
      destruct (IH _ _ _ _
                  (host_frame_joined _ _ _ _ _ _ _ _ Hf Hh eq_refl Ha) Hh1
                  (host_system_ok_joined _ _ _ _ _ Hh Ha Hok) Hrun)
        as (Hf' & Hok' & Hsucc).
      split_and!; try done. intros ->.
      destruct (Hsucc eq_refl) as (Hall & Hfresh & Hh' & Hocc).
      split_and!.
      * constructor; [by right|done].
      * intros a Hm. apply elem_of_cons in Hm as [[= ->]|Hm]; [done|].
        specialize (Hfresh a Hm). set_solver.
      * rewrite Hh'. do 2 f_equal. apply set_eq. intros a.
        rewrite !elem_of_union, !elem_of_ones, elem_of_singleton.
        unfold marked. rewrite elem_of_cons. naive_solver.
      * intros h' a'. rewrite Hocc, occupies_joined by done.
        unfold marked. rewrite elem_of_cons. naive_solver.
    + unfold massert at 1, lift, assert in Hrun.
      destruct (Ascii.eqb_spec c "0") as [->|Hc0].
      2:{ injection Hrun as <- <-. by split_and!. }
      simpl in Hrun.
      destruct (IH _ _ _ _ Hf Hh Hok Hrun) as (Hf' & Hok' & Hsucc).
      split_and!; try done. intros ->.
      destruct (Hsucc eq_refl) as (Hall & Hfresh & Hh' & Hocc).
      split_and!.
      * constructor; [by left|done].
      * intros a Hm. apply elem_of_cons in Hm as [Heq|Hm];
          [discriminate Heq|by apply Hfresh].
      * by rewrite Hh'.
      * intros h' a'. rewrite Hocc. unfold marked. rewrite elem_of_cons. naive_solver.
Qed.

Lemma marked_imap (bits : list ascii) (a : nat) :
  marked (imap (λ i c, (i, c)) bits) a ↔ bits !! a = Some "1"%char.
Proof.
  unfold marked. rewrite elem_of_lookup_imap. split.
  - by intros (i & c & [= -> ->] & Hl).
  - intros Hl. by exists a, "1"%char.
Qed.

Lemma occupies_set_host w self hl hl' h a :
  host_lineages w !! self = Some hl →
  HostLineage._current_areas hl' = HostLineage._current_areas hl →
  occupies (mkWorld (areas w) (<[self := hl']> (host_lineages w)) (symbiont_lineages w)) h a
  ↔ occupies w h a.
Proof.
  intros Hh Hcur. unfold occupies. simpl. destruct (decide (h = self)) as [->|Hne].
  - rewrite lookup_insert_eq. split.
    + intros (? & [= <-] & Hin). rewrite Hcur in Hin. eauto.
    + intros (? & Hl & Hin). assert (x = hl) as -> by congruence.
      eexists. split; [done|]. by rewrite Hcur.
  - by rewrite lookup_insert_ne.
Qed.

Lemma host_system_ok_set_host w self hl hl' :
  host_lineages w !! self = Some hl →
  HostLineage._current_areas hl' = HostLineage._current_areas hl →
  host_system_ok w →
  host_system_ok
    (mkWorld (areas w) (<[self := hl']> (host_lineages w)) (symbiont_lineages w)).
Proof.
  intros Hh Hcur Hok h a. rewrite occupies_set_host by done. apply Hok.
Qed.

(** X10. [activate] on a host system whose two sides agree keeps them
    agreeing whatever the outcome, and touches no symbiont lineage and no
    other host lineage. When it returns, the start distribution is as wide
    as the number of areas and made of "0" and "1" only; the host was not in
    any of the areas it marks; the host now occupies, besides the areas it
    was in, exactly the areas marked "1"; it is 'current', and it keeps a
    check list of the start distribution exactly in debug mode. *)
Theorem X10_activate_occupies_marked_areas (is_in_range : Q → Q → Q → bool)
    (w : World) (self : Z) (t : option Q) (dm : option bool) (hl : HostLineage.t)
    (r : result unit) (w' : World) :
  let bits := list_ascii_of_string (HostLineage.start_distribution_bitstring hl) in
  host_lineages w !! self = Some hl → host_system_ok w →
  HostLineageOps.activate is_in_range self t dm w = (r, w') →
  host_system_ok w'
  ∧ symbiont_lineages w' = symbiont_lineages w
  ∧ (∀ h, h ≠ self → host_lineages w' !! h = host_lineages w !! h)
  ∧ (r = Ok tt →
     length bits = length (areas w)
     ∧ (∀ a c, bits !! a = Some c → c = "0"%char ∨ c = "1"%char)
     ∧ (∀ a, bits !! a = Some "1"%char → ¬ occupies w self a)
     ∧ (∀ h' a', occupies w' h' a'
                 ↔ occupies w h' a' ∨ (h' = self ∧ bits !! a' = Some "1"%char))
     ∧ ∃ hl', host_lineages w' !! self = Some hl'
         ∧ HostLineage.extancy hl' = current
         ∧ HostLineage.debug_mode hl' = default (HostLineage.debug_mode hl) dm
         ∧ HostLineage._current_distribution_check_bitlist hl'
           = if HostLineage.debug_mode hl' then Some bits else None).
Proof.
  intros bits Hh Hok Hrun. unfold HostLineageOps.activate in Hrun.
  erewrite run_get_host in Hrun by done.
  rewrite bind_run in Hrun. unfold massert at 1, lift, assert in Hrun.
  case_bool_decide as Hpre; [|injection Hrun as <- <-; by split_and!].
  set (hlA := match dm with
              | Some d => HostLineageOps.with_debug_mode hl d
              | None => hl
              end).
  set (wA := mkWorld (areas w) (<[self := hlA]> (host_lineages w)) (symbiont_lineages w)).
  assert (HhA : host_lineages wA !! self = Some hlA) by apply lookup_insert_eq.
  assert (HcurA : HostLineage._current_areas hlA = HostLineage._current_areas hl)
    by (subst hlA; by destruct dm).
  assert (HokA : host_system_ok wA) by by apply (host_system_ok_set_host w self hl).
  assert (HoccA : ∀ h a, occupies wA h a ↔ occupies w h a)
    by (intros; by apply (occupies_set_host w self hl)).
  assert (HothA : ∀ h, h ≠ self → host_lineages wA !! h = host_lineages w !! h).
  { intros h Hne. subst wA. simpl. by rewrite lookup_insert_ne. }
  assert (Hrun' :
    (hl ← get_host self;
     match t with
     | Some t =>
         if is_in_range t (HostLineage.start_time hl) (HostLineage.end_time hl)
         then mret tt else raise NameError
     | None => mret tt
     end;;
     w ← get_world;
     let bits := list_ascii_of_string (HostLineage.start_distribution_bitstring hl) in
     massert (Nat.eqb (length (areas w)) (length bits));;
     for_each (imap (λ i c, (i, c)) bits) (HostLineageOps.activate_step self);;
     hl ← get_host self;
     set_host self
       (HostLineageOps.with_extancy
          (HostLineageOps.with_activation_marks hl
             (if HostLineage.debug_mode hl then Some bits else None))
          current)) wA = (r, w')).
  { rewrite <- Hrun. destruct dm as [d|].
    - by rewrite run_set_host.
    - rewrite run_ret. subst wA hlA. simpl. rewrite insert_id by done. by destruct w. }
  clear Hrun. erewrite run_get_host in Hrun' by done.
  assert (Hraise : (Raise NameError, wA) = (r, w') ∨ (Raise AssertionError, wA) = (r, w') →
                   host_system_ok w' ∧ symbiont_lineages w' = symbiont_lineages w
                   ∧ (∀ h, h ≠ self → host_lineages w' !! h = host_lineages w !! h)
                   ∧ (r = Ok tt → False)).
  { intros [[= <- <-]|[= <- <-]]; by split_and!. }
  assert (Hbits : list_ascii_of_string (HostLineage.start_distribution_bitstring hlA) = bits)
    by (subst hlA bits; by destruct dm).
  rewrite Hbits in Hrun'.
  rewrite bind_run in Hrun'.
  destruct (match t with
            | Some t0 =>
                if is_in_range t0 (HostLineage.start_time hlA) (HostLineage.end_time hlA)
                then mret tt else raise NameError
            | None => mret tt
            end wA) as [[[]|e] w1] eqn:Ht.
  2:{ assert ((e, w1) = (NameError, wA)) as [= -> ->].
      { destruct t as [t0|]; [destruct (is_in_range _ _ _)|]; by inversion Ht. }
      destruct Hraise as (? & ? & ? & ?); [by left|]. by split_and!. }
  assert (w1 = wA) as ->.
  { destruct t as [t0|]; [destruct (is_in_range _ _ _)|]; by inversion Ht. }
  rewrite run_get_world in Hrun'. rewrite bind_run in Hrun'.
  unfold massert at 1, lift, assert in Hrun'.
  destruct (Nat.eqb_spec (length (areas wA)) (length bits)) as [Hlen|Hlen].
  2:{ destruct Hraise as (? & ? & ? & ?); [by right|]. by split_and!. }
  rewrite bind_run in Hrun'.
  destruct (for_each (imap (λ i c, (i, c)) bits) (HostLineageOps.activate_step self) wA)
    as [r1 w2] eqn:Hloop.
  assert (HhA' : host_lineages wA !! self
                 = Some (HostLineageOps.with_current_areas hlA
                           (HostLineage._current_areas hlA)))
    by by rewrite with_current_areas_id.
  destruct (activate_loop self hlA wA _ wA _ r1 w2 (host_frame_refl _ _ _ HhA) HhA' HokA
              Hloop) as ((Hsyms & Hlen2 & Hars & Hoth & s & Hs) & Hok2 & Hsucc).
  destruct r1 as [[]|e].
  2:{ injection Hrun' as <- <-. split_and!; try done.
      intros h Hne. rewrite Hoth by done. by apply HothA. }
  destruct (Hsucc eq_refl) as (Hall & Hfresh & Hh2 & Hocc).
  erewrite run_get_host in Hrun' by done.
  injection Hrun' as <- <-. split_and!.
  - apply host_system_ok_set_host with
      (hl := HostLineageOps.with_current_areas hlA
               (HostLineage._current_areas hlA ∪ ones (imap (λ i c, (i, c)) bits)));
      done.
  - done.
  - intros h Hne. simpl. rewrite lookup_insert_ne by done. rewrite Hoth by done.
    by apply HothA.
  - intros _. split_and!.
    + done.
    + intros a c Hl. rewrite Forall_forall in Hall.
      apply (Hall (a, c)). apply elem_of_lookup_imap. eauto.
    + intros a Hl (hl' & Hl' & Hin). assert (hl' = hl) as -> by congruence.
      apply (Hfresh a); [by apply marked_imap|by rewrite HcurA].
    + intros h' a'.
      rewrite (occupies_set_host w2 self _ _ h' a' Hh2) by done.
      rewrite Hocc, HoccA, marked_imap. done.
    + eexists. split; [apply lookup_insert_eq|]. simpl. split_and!; try done.
      subst hlA. by destruct dm.
Qed.

Lemma X10_activate_occupies_marked_areas_witness :
  let w := SymbiontExamples.compiled in
  let w' := (HostLineageOps.activate is_in_range_closed 2 None None w).2 in
  let bits := list_ascii_of_string "110" in
  host_system_ok w'
  ∧ symbiont_lineages w' = symbiont_lineages w
  ∧ (∀ h, h ≠ 2 → host_lineages w' !! h = host_lineages w !! h)
  ∧ (Ok tt = Ok tt →
     length bits = length (areas w)
     ∧ (∀ a c, bits !! a = Some c → c = "0"%char ∨ c = "1"%char)
     ∧ (∀ a, bits !! a = Some "1"%char → ¬ occupies w 2 a)
     ∧ (∀ h' a', occupies w' h' a'
                 ↔ occupies w h' a' ∨ (h' = 2 ∧ bits !! a' = Some "1"%char))
     ∧ ∃ hl', host_lineages w' !! 2 = Some hl'
         ∧ HostLineage.extancy hl' = current
         ∧ HostLineage.debug_mode hl' = false
         ∧ HostLineage._current_distribution_check_bitlist hl'
           = if HostLineage.debug_mode hl' then Some bits else None).
Proof.
  intros w w' bits.
  apply (X10_activate_occupies_marked_areas is_in_range_closed w 2 None None
           (HostLineageOps.init SymbiontExamples.defn_110 (1 # 1) false) (Ok tt) w').
  - vm_compute. reflexivity.
  - apply host_system_check_ok. vm_compute. reflexivity.
  - vm_compute. reflexivity.
Defined.

(** The loop [for area in self._current_areas: area.host_lineages.remove(self)]. *)
Lemma leave_loop self (l : list nat) :
  ∀ w, NoDup l → (∀ a, a ∈ l → hosted_in w a self) →
  ∃ w', for_each l (λ a, HostLineageOps.area_remove_host a self) w = (Ok tt, w')
        ∧ host_lineages w' = host_lineages w
        ∧ symbiont_lineages w' = symbiont_lineages w
        ∧ (∀ a s, registered w' s a ↔ registered w s a)
        ∧ ∀ a h, hosted_in w' a h ↔ hosted_in w a h ∧ ¬ (h = self ∧ a ∈ l).
Proof.
  induction l as [|a l IH]; intros w Hnd Hin.
  - exists w. split_and!; try done. intros a h. split; [|tauto].
    intros ?. split; [done|]. intros [_ Ha]. by apply elem_of_nil in Ha.
  - apply NoDup_cons in Hnd as [Hnotin Hnd].
    destruct (Hin a) as (ar & Ha & Hself); [by left|].
    pose proof (lookup_lt_Some _ _ _ Ha) as Hlt.
    set (w1 := mkWorld (<[a := Area.mk (Area.area_idx ar) (Area.host_lineages ar ∖ {[self]})
                                  (Area.symbiont_lineages ar)]> (areas w))
                 (host_lineages w) (symbiont_lineages w)).
    assert (Hstep : HostLineageOps.area_remove_host a self w = (Ok tt, w1)).
    { unfold HostLineageOps.area_remove_host. erewrite run_get_area by done.
      unfold set_remove. by rewrite bool_decide_eq_true_2. }
    assert (Hhosted1 : ∀ a' h, hosted_in w1 a' h ↔ hosted_in w a' h ∧ ¬ (h = self ∧ a' = a)).
    { intros a' h. unfold hosted_in, w1. simpl. destruct (decide (a' = a)) as [->|Hne].
      - rewrite list_lookup_insert_eq by done. split.
        + intros (? & [= <-] & Hh). simpl in Hh. split; [set_solver|]. set_solver.
        + intros [(ar' & Har' & Hh) Hnot]. assert (ar' = ar) as -> by congruence.
          eexists. split; [done|]. simpl. set_solver.
      - rewrite list_lookup_insert_ne by done. naive_solver. }
    destruct (IH w1 Hnd) as (w' & Hrun & Hhs & Hss & Hreg & Hhosted).
    { intros a' Ha'. apply Hhosted1. split; [apply Hin; by right|].
      intros [_ ->]. done. }
    exists w'. split_and!.
    + simpl. by rewrite bind_run, Hstep.
    + by rewrite Hhs.
    + by rewrite Hss.
    + intros a' s. rewrite Hreg. unfold registered, w1. simpl.
      destruct (decide (a' = a)) as [->|Hne].
      * rewrite list_lookup_insert_eq by done. split.
        -- intros (? & [= <-] & Hs). eauto.
        -- intros (ar' & Har' & Hs). assert (ar' = ar) as -> by congruence.
           by eexists.
      * by rewrite list_lookup_insert_ne.
    + intros a' h. rewrite Hhosted, Hhosted1, elem_of_cons. naive_solver.
Qed.

(** X11. On a host system whose two sides agree, [deactivate] of a
    'current' host lineage and [clear_areas] return; the host then occupies
    no area and no area lists it, the other host lineages are where they
    were, the two sides still agree, and no symbiont lineage nor its
    registration on an area has changed: the symbionts of the host keep
    their association with it. [deactivate] makes the host 'post',
    [clear_areas] leaves its extancy alone. *)
Theorem X11_deactivate_and_clear_areas_vacate (w : World) (self : Z)
    (hl : HostLineage.t) :
  host_lineages w !! self = Some hl → host_system_ok w →
  let vacated (hl' : HostLineage.t) (w' : World) :=
    host_lineages w' = <[self := hl']> (host_lineages w)
    ∧ HostLineage._current_areas hl' = ∅
    ∧ (∀ h a, occupies w' h a ↔ occupies w h a ∧ h ≠ self)
    ∧ host_system_ok w'
    ∧ symbiont_lineages w' = symbiont_lineages w
    ∧ (∀ a s, registered w' s a ↔ registered w s a) in
  (∃ w', HostLineageOps.clear_areas self w = (Ok tt, w')
         ∧ vacated (HostLineageOps.with_current_areas hl ∅) w')
  ∧ (HostLineage.extancy hl = current →
     ∃ w', HostLineageOps.deactivate self w = (Ok tt, w')
           ∧ vacated (HostLineageOps.with_extancy
                        (HostLineageOps.with_current_areas hl ∅) post) w')
  ∧ (HostLineage.extancy hl ≠ current →
     HostLineageOps.deactivate self w = (Raise AssertionError, w)).
Proof.
  intros Hh Hok vacated.
  destruct (leave_loop self (elements (HostLineage._current_areas hl)) w)
    as (w1 & Hloop & Hhs & Hss & Hreg & Hhosted).
  { apply NoDup_elements. }
  { intros a Ha%elem_of_elements. apply Hok. by exists hl. }
  assert (Hh1 : host_lineages w1 !! self = Some hl) by by rewrite Hhs.
  assert (Hvac : ∀ hl', HostLineage._current_areas hl' = ∅ →
            vacated hl' (mkWorld (areas w1) (<[self := hl']> (host_lineages w1))
                           (symbiont_lineages w1))).
  { intros hl' Hcur.
    assert (Hocc : ∀ h a,
              occupies (mkWorld (areas w1) (<[self := hl']> (host_lineages w1))
                          (symbiont_lineages w1)) h a
              ↔ occupies w h a ∧ h ≠ self).
    { intros h a. unfold occupies. simpl. rewrite Hhs.
      destruct (decide (h = self)) as [->|Hne].
      - rewrite lookup_insert_eq. split; [|tauto].
        intros (? & [= <-] & Hin). rewrite Hcur in Hin. set_solver.
      - rewrite lookup_insert_ne by done. naive_solver. }
    unfold vacated. split_and!; simpl; try done.
    - by rewrite Hhs.
    - intros h a. rewrite Hocc. unfold hosted_in at 1. simpl. fold (hosted_in w1 a h).
      rewrite Hhosted, <- (Hok h a), elem_of_elements. split.
      + intros [Ho Hne]. split; [done|]. intros [-> _]. done.
      + intros [Ho Hnot]. split; [done|]. intros ->. apply Hnot. split; [done|].
        destruct Ho as (hl'' & Hl'' & Hin). congruence. }
  split_and!.
  - eexists. split; [|apply (Hvac (HostLineageOps.with_current_areas hl ∅)); done].
    unfold HostLineageOps.clear_areas. erewrite run_get_host by done.
    rewrite bind_run, Hloop. by erewrite run_get_host by done.
  - intros Hcur. eexists.
    split; [|apply (Hvac (HostLineageOps.with_extancy
                            (HostLineageOps.with_current_areas hl ∅) post)); done].
    unfold HostLineageOps.deactivate. erewrite run_get_host by done.
    rewrite bool_decide_eq_true_2 by done. rewrite run_massert_true.
    rewrite bind_run, Hloop. by erewrite run_get_host by done.
  - intros Hcur. unfold HostLineageOps.deactivate. erewrite run_get_host by done.
    by rewrite bool_decide_eq_false_2.
Qed.

Lemma X11_deactivate_and_clear_areas_vacate_witness :
  let w := SymbiontExamples.after_calls in
  host_system_ok w
  ∧ ∃ hl w', host_lineages w !! 1 = Some hl
      ∧ HostLineage.extancy hl = current
      ∧ HostLineageOps.deactivate 1 w = (Ok tt, w')
      ∧ (∀ h a, occupies w' h a ↔ occupies w h a ∧ h ≠ 1)
      ∧ host_system_ok w'
      ∧ symbiont_lineages w' = symbiont_lineages w.
Proof.
  intros w.
  assert (Hok : host_system_ok w) by (apply host_system_check_ok; vm_compute; reflexivity).
  split; [exact Hok|].
  destruct (host_lineages w !! 1) as [hl|] eqn:Hh; [|by vm_compute in Hh].
  assert (Hcur : HostLineage.extancy hl = current).
  { vm_compute in Hh. injection Hh as <-. reflexivity. }
  destruct (X11_deactivate_and_clear_areas_vacate w 1 hl Hh Hok) as (_ & Hd & _).
  destruct (Hd Hcur) as (w' & Hrun & _ & _ & Hocc & Hok' & Hss & _).
  exists hl, w'. split_and!; done.
Defined.

(** ** What a passing [debug_check] establishes *)

(** X12. [debug_check] is sound. When it returns on a lineage, then over the
    host lineages and areas of the system: every cell is 0 or 1; a cell that
    is 1 has its host listed by the area and the lineage registered on the
    area; the infected-host and infected-area sets are exactly the hosts and
    the areas with a cell that is 1; an area that is not infected does not
    list the lineage; and the lineage occupies something. *)
Theorem X12_debug_check_sound (is_almost_equal : Q → Q → bool) (w : World)
    (self : nat) (sl : SymbiontLineage.t) (time : option Q) (ignore : bool) :
  symbiont_lineages w !! self = Some sl →
  SymbiontLineageAudit.debug_check is_almost_equal self time ignore w = (Ok tt, w) →
  audited w self sl.
Proof. apply debug_check_sound. Qed.

Lemma X12_debug_check_sound_witness :
  ∃ sl, symbiont_lineages SymbiontExamples.after_calls !! SymbiontExamples.lineage = Some sl
        ∧ audited SymbiontExamples.after_calls SymbiontExamples.lineage sl.
Proof.
  destruct (symbiont_lineages SymbiontExamples.after_calls !! SymbiontExamples.lineage)
    as [sl|] eqn:Hs; [|by vm_compute in Hs].
  exists sl. split; [done|].
  apply (X12_debug_check_sound (λ _ _, false) SymbiontExamples.after_calls
           SymbiontExamples.lineage sl None false Hs).
  vm_compute. reflexivity.
Defined.

(** X13. [add_host_in_area(host)] without an area, for a host lineage that
    occupies no area, returns having set no cell and registered the lineage
    nowhere, but with the host added to the infected-host set; the lineage
    then fails [debug_check]. *)
Theorem X13_add_host_without_areas_breaks_cache (is_almost_equal : Q → Q → bool)
    (w : World) (self : nat) (sl : SymbiontLineage.t) (h : Z) (hl : HostLineage.t)
    (time : option Q) (ignore : bool) :
  host_system_ok w → symbiont_lineages w !! self = Some sl → lineage_ok w self sl →
  host_lineages w !! h = Some hl → HostLineage._current_areas hl = ∅ →
  let w' := mkWorld (areas w) (host_lineages w)
              (<[self := with_infected_hosts sl ({[h]} ∪ _infected_hosts sl)]>
                 (symbiont_lineages w)) in
  add_host_in_area self h None w = (Ok tt, w')
  ∧ SymbiontLineageAudit.debug_check is_almost_equal self time ignore w' ≠ (Ok tt, w').
Proof.
  intros Hhost Hs Hok Hh Hcur w'. split.
  - unfold add_host_in_area. rewrite run_assoc. erewrite run_get_host by done.
    rewrite Hcur, elements_empty. simpl for_each. rewrite run_ret.
    unfold infected_hosts_add. erewrite run_get_symbiont by done. done.
  - apply (stale_host_fails_debug_check _ w' self
             (with_infected_hosts sl ({[h]} ∪ _infected_hosts sl)) h).
    + exact Hhost.
    + apply lookup_insert_eq.
    + simpl. set_solver.
    + intros a Hc (hl' & Hl' & Hin). simpl in Hl'.
      assert (hl' = hl) as -> by congruence. rewrite Hcur in Hin. set_solver.
Qed.

Lemma X13_add_host_without_areas_breaks_cache_witness :
  let w := (SymbiontLineageOps.new 0 SymbiontExamples.compiled).2 in
  let self := fresh (dom (symbiont_lineages SymbiontExamples.compiled)) in
  ∃ sl hl w',
    symbiont_lineages w !! self = Some sl
    ∧ host_lineages w !! 1 = Some hl
    ∧ HostLineage._current_areas hl = ∅
    ∧ add_host_in_area self 1 None w = (Ok tt, w')
    ∧ symbiont_lineages w' !! self
      = Some (with_infected_hosts sl ({[1]} ∪ _infected_hosts sl))
    ∧ SymbiontLineageAudit.debug_check (λ _ _, false) self None false w' ≠ (Ok tt, w').
Proof.
  intros w self.
  assert (Hhost : host_system_ok w) by (apply host_system_check_ok; vm_compute; reflexivity).
  destruct (new_consistent SymbiontExamples.compiled 0 self w) as ((sl & Hs & Hok) & _).
  { apply symbionts_closed_check_ok. vm_compute. reflexivity. }
  { reflexivity. }
  destruct (host_lineages w !! 1) as [hl|] eqn:Hh; [|by vm_compute in Hh].
  assert (Hcur : HostLineage._current_areas hl = ∅).
  { vm_compute in Hh. injection Hh as <-. reflexivity. }
  destruct (X13_add_host_without_areas_breaks_cache (λ _ _, false) w self sl 1 hl
              None false Hhost Hs Hok Hh Hcur) as [Hrun Hfail].
  eexists sl, hl, _. split_and!; [done..|exact Hrun| |exact Hfail].
  apply lookup_insert_eq.
Defined.

(** ** The symbiont side: what single calls do to the matrix and the caches *)

(** X14. [sync_host_cache(host)], with either value of [search_all_areas],
    on a lineage whose cells are 0 or 1 and set only where the host occupies
    the area: it returns with the host in the infected-host set exactly when
    one of its cells is 1, and with the matrix, the infected areas, the
    other hosts' membership, the areas and the host lineages as they were;
    or it raises [KeyError] and changes nothing, which happens only when the
    host was not in the set and none of its cells is 1. *)
Theorem X14_sync_host_cache_settles_host (w : World) (self : nat)
    (sl : SymbiontLineage.t) (h : Z) (search_all_areas : bool)
    (r : result unit) (w' : World) :
  host_system_ok w → base_ok w sl →
  symbiont_lineages w !! self = Some sl →
  h ∈ dom (host_lineages w) →
  sync_host_cache self h search_all_areas w = (r, w') →
  (r = Ok tt
   ∧ areas w' = areas w ∧ host_lineages w' = host_lineages w
   ∧ ∃ sl', symbiont_lineages w' !! self = Some sl'
       ∧ _host_area_distribution sl' = _host_area_distribution sl
       ∧ _infected_areas sl' = _infected_areas sl
       ∧ index sl' = index sl ∧ is_extant sl' = is_extant sl
       ∧ (h ∈ _infected_hosts sl' ↔ ∃ a, cell sl' h a = Some 1)
       ∧ ∀ h', h' ≠ h → h' ∈ _infected_hosts sl' ↔ h' ∈ _infected_hosts sl)
  ∨ (r = Raise KeyError ∧ w' = w ∧ (h ∉ _infected_hosts sl)
     ∧ ¬ (∃ a, cell sl h a = Some 1)).
Proof. apply sync_host_cache_spec. Qed.

Lemma X14_sync_host_cache_settles_host_witness :
  let w := SymbiontExamples.after_calls in
  let self := SymbiontExamples.lineage in
  ∃ sl' w', sync_host_cache self 1 true w = (Ok tt, w')
    ∧ symbiont_lineages w' !! self = Some sl'
    ∧ (1 ∈ _infected_hosts sl' ↔ ∃ a, cell sl' 1 a = Some 1).
Proof.
  intros w self.
  destruct after_calls_consistent as (Hhost & (sl & Hs & Hok) & _).
  destruct (sync_host_cache self 1 true w) as [r w'] eqn:Hrun.
  assert (Hr : r = Ok tt).
  { apply (f_equal fst) in Hrun. simpl in Hrun. subst r. vm_compute. reflexivity. }
  destruct (X14_sync_host_cache_settles_host w self sl 1 true r w' Hhost (proj1 Hok) Hs)
    as [(_ & _ & _ & sl' & Hs' & _ & _ & _ & _ & Hsync & _)|(Hk & _)].
  - eapply bool_decide_unpack. vm_compute. exact I.
  - exact Hrun.
  - exists sl', w'. rewrite Hr. split_and!; done.
  - congruence.
Defined.

(** X15. [add_host_in_area(host)] without an area, for a host that occupies
    at least one area, on a lineage with consistent caches: it returns; the
    cells that are 1 afterwards are those that were 1 and those of the host
    in the areas it occupies; the caches are consistent again and not empty;
    the host side and the other lineages are untouched. *)
Theorem X15_add_host_marks_all_current_areas (w : World) (self : nat)
    (sl : SymbiontLineage.t) (h : Z) :
  host_system_ok w → symbiont_lineages w !! self = Some sl →
  lineage_ok w self sl → (∃ a, occupies w h a) →
  ∃ w' sl', add_host_in_area self h None w = (Ok tt, w')
    ∧ frame self w w'
    ∧ symbiont_lineages w' !! self = Some sl'
    ∧ lineage_ok w' self sl'
    ∧ non_null sl'
    ∧ index sl' = index sl ∧ is_extant sl' = is_extant sl
    ∧ (∀ h' a', cell sl' h' a' = Some 1 ↔
                 cell sl h' a' = Some 1 ∨ (h' = h ∧ occupies w h a')).
Proof. apply add_host_in_area_none_spec. Qed.

Lemma X15_add_host_marks_all_current_areas_witness :
  let w := SymbiontExamples.seeded in
  let self := SymbiontExamples.lineage in
  ∃ sl w' sl', symbiont_lineages w !! self = Some sl
    ∧ add_host_in_area self 2 None w = (Ok tt, w')
    ∧ symbiont_lineages w' !! self = Some sl'
    ∧ lineage_ok w' self sl'
    ∧ (∀ h' a', cell sl' h' a' = Some 1 ↔
                 cell sl h' a' = Some 1 ∨ (h' = 2 ∧ occupies w 2 a')).
Proof.
  intros w self.
  destruct seeded_consistent as (sl & Hs & Hok).
  destruct (X15_add_host_marks_all_current_areas w self sl 2 seeded_ok Hs Hok)
    as (w' & sl' & Hrun & _ & Hs' & Hok' & _ & _ & _ & Hcell).
  { exists 0%nat. apply occupies_check. vm_compute. reflexivity. }
  exists sl, w', sl'. split_and!; done.
Defined.

(** X16. [remove_host(host)] on a lineage with consistent caches: whatever
    the outcome, no cell of the host is 1 afterwards, the cells of the other
    hosts are as they were, the caches are consistent, and the host side and
    the other lineages are untouched. It returns when the lineage still
    occupies something, raises [NullDistributionException] when it does not,
    and raises [KeyError] with both caches as they were when the host was
    not in the infected-host set. *)
Theorem X16_remove_host_clears_the_host (w : World) (self : nat)
    (sl : SymbiontLineage.t) (h : Z) (r : result unit) (w' : World) :
  host_system_ok w → symbiont_lineages w !! self = Some sl →
  lineage_ok w self sl → h ∈ dom (host_lineages w) →
  remove_host self h w = (r, w') →
  frame self w w'
  ∧ ∃ sl', symbiont_lineages w' !! self = Some sl'
    ∧ lineage_ok w' self sl'
    ∧ index sl' = index sl ∧ is_extant sl' = is_extant sl
    ∧ (∀ h' a', h' ≠ h → cell sl' h' a' = cell sl h' a')
    ∧ (∀ a, cell sl' h a ≠ Some 1)
    ∧ ((r = Ok tt ∧ non_null sl')
       ∨ (r = Raise (NullDistributionException self) ∧ ¬ non_null sl')
       ∨ (r = Raise KeyError
          ∧ _infected_hosts sl' = _infected_hosts sl
          ∧ _infected_areas sl' = _infected_areas sl)).
Proof. apply remove_host_spec. Qed.

Lemma X16_remove_host_clears_the_host_witness :
  let w := SymbiontExamples.after_calls in
  let self := SymbiontExamples.lineage in
  ∃ w' sl', remove_host self 1 w = (Ok tt, w')
    ∧ symbiont_lineages w' !! self = Some sl'
    ∧ lineage_ok w' self sl'
    ∧ (∀ a, cell sl' 1 a ≠ Some 1)
    ∧ non_null sl'.
Proof.
  intros w self.
  destruct after_calls_consistent as (Hhost & (sl & Hs & Hok) & _).
  destruct (remove_host self 1 w) as [r w'] eqn:Hrun.
  assert (Hr : r = Ok tt).
  { apply (f_equal fst) in Hrun. simpl in Hrun. subst r. vm_compute. reflexivity. }
  destruct (X16_remove_host_clears_the_host w self sl 1 r w' Hhost Hs Hok)
    as (_ & sl' & Hs' & Hok' & _ & _ & _ & Hclear & Hout).
  - eapply bool_decide_unpack. vm_compute. exact I.
  - exact Hrun.
  - exists w', sl'. rewrite Hr. split_and!; try done.
    destruct Hout as [[_ Hnn]|[[Hx _]|[Hx _]]]; [done|congruence..].
Defined.

(** ** Rate functions: what [RateFunction.from_definition_dict] accepts and
    what [as_definition] gives back *)

Lemma replace_char_idem (old new : ascii) (s : string) :
  old ≠ new →
  replace_char old new (replace_char old new s) = replace_char old new s.
Proof.
  intros Hne. induction s as [|c s IH]; [done|]. simpl. rewrite IH. f_equal.
  destruct (Ascii.eqb c old) eqn:Hc; [|by rewrite Hc].
  destruct (Ascii.eqb new old) eqn:Hn; [|done].
  apply Ascii.eqb_eq in Hn. congruence.
Qed.

Lemma elem_of_remove_ne k k' v d :
  k ≠ k' → (k, v) ∈ d → (k, v) ∈ Dict.remove k' d.
Proof.
  intros Hne. induction d as [|[k0 v0] d IH]; [done|].
  intros Hin. simpl. apply elem_of_cons in Hin as [Heq|Hin].
  - injection Heq as <- <-.
    destruct (String.eqb k' k) eqn:Hk; [apply String.eqb_eq in Hk; congruence|].
    apply elem_of_cons. by left.
  - destruct (String.eqb k' k0); [by apply IH|].
    apply elem_of_cons. right. by apply IH.
Qed.

Lemma elem_of_pop k k' v d x d' :
  Dict.pop k' d = Ok (x, d') → k ≠ k' → (k, v) ∈ d → (k, v) ∈ d'.
Proof.
  unfold Dict.pop. destruct (Dict.get k' d); [|discriminate].
  intros [= <- <-]. apply elem_of_remove_ne.
Qed.

Lemma elem_of_pop_default k k' v d default x d' :
  Dict.pop_default k' default d = (x, d') → k ≠ k' → (k, v) ∈ d → (k, v) ∈ d'.
Proof.
  unfold Dict.pop_default. destruct (Dict.get k' d); intros [= <- <-]; [|done].
  apply elem_of_remove_ne.
Qed.

Lemma get_remove_ne k k' d : k ≠ k' → Dict.get k (Dict.remove k' d) = Dict.get k d.
Proof.
  intros Hne. induction d as [|[k0 v0] d IH]; [done|]. simpl.
  destruct (String.eqb k' k0) eqn:Hk0.
  - apply String.eqb_eq in Hk0. subst k0. rewrite IH.
    destruct (String.eqb k k') eqn:Hkk; [apply String.eqb_eq in Hkk; congruence|done].
  - simpl. by rewrite IH.
Qed.

Lemma pop_get k d x d' : Dict.pop k d = Ok (x, d') → Dict.get k d = Some x.
Proof. unfold Dict.pop. destruct (Dict.get k d); [|discriminate]. by intros [= <- <-]. Qed.

Section RateFunctionFacts.
Context `{Builtins}.

Definition rate_function_types : list string :=
  ["fixed_value"; "lambda_definition"; "function_object"]%string.

(** What [compile_function] does to a rate function whose type is a string. *)
Lemma compile_function_inv (self rf : RateFunction.t) :
  RateFunction.compile_function self = Ok rf →
  ∃ s, RateFunction.definition_type self = VStr s
    ∧ RateFunction.definition_type rf = VStr (replace_char "-" "_" s)
    ∧ RateFunction.description rf = RateFunction.description self
    ∧ ((replace_char "-" "_" s = "fixed_value"%string
        ∧ ∃ q, py_float (RateFunction.definition_content self) = Ok q
            ∧ RateFunction.definition_content rf = VNum q
            ∧ RateFunction._compute_rate rf = Some RateFunction.ReturnsContent)
       ∨ (replace_char "-" "_" s = "lambda_definition"%string
          ∧ ∃ f, py_eval (RateFunction.definition_content self) = Ok f
              ∧ RateFunction.definition_content rf = RateFunction.definition_content self
              ∧ RateFunction._compute_rate rf = Some (RateFunction.Evaluated f))
       ∨ (replace_char "-" "_" s = "function_object"%string
          ∧ RateFunction.definition_content rf = RateFunction.definition_content self
          ∧ RateFunction._compute_rate rf
            = Some (RateFunction.FunctionObject (RateFunction.definition_content self)))).
Proof.
  unfold RateFunction.compile_function.
  destruct (RateFunction.definition_type self) as [| | |s|] eqn:Ht; try discriminate.
  cbn [py_replace_hyphens mbind result_bind eq_str].
  intros Hc. exists s. split; [done|].
  destruct (String.eqb (replace_char "-" "_" s) "fixed_value") eqn:E1.
  { apply String.eqb_eq in E1.
    destruct (py_float (RateFunction.definition_content self)) as [q|] eqn:Hq;
      [|discriminate].
    injection Hc as <-. simpl. split_and!; try done. left. split; [done|]. by exists q. }
  destruct (String.eqb (replace_char "-" "_" s) "lambda_definition") eqn:E2.
  { apply String.eqb_eq in E2.
    destruct (py_eval (RateFunction.definition_content self)) as [f|] eqn:Hf;
      [|discriminate].
    injection Hc as <-. simpl. split_and!; try done. right. left.
    split; [done|]. by exists f. }
  destruct (String.eqb (replace_char "-" "_" s) "function_object") eqn:E3;
    [|discriminate].
  apply String.eqb_eq in E3. injection Hc as <-. simpl. split_and!; try done.
  right. right. done.
Qed.

(** What a dictionary that [from_definition_dict] accepts looks like. *)
Lemma from_definition_dict_inv (d : value) (rf : RateFunction.t) :
  RateFunction.from_definition_dict d = Ok rf →
  ∃ items s content description rest,
    Dict.of_value d = Ok items
    ∧ Dict.get "definition_type" items = Some (VStr s)
    ∧ Dict.get "definition" (Dict.remove "definition_type" items) = Some content
    ∧ Dict.pop_default "description" (VStr EmptyString)
        (Dict.remove "definition" (Dict.remove "definition_type" items))
      = (description, rest)
    ∧ rest = []
    ∧ RateFunction.compile_function
        (RateFunction.mk (VStr (replace_char "-" "_" s)) content description None)
      = Ok rf.
Proof.
  unfold RateFunction.from_definition_dict, RateFunction.init.
  cbn [mbind result_bind]. unfold RateFunction.parse_definition.
  destruct (Dict.of_value d) as [items|] eqn:Hd; [|discriminate].
  cbn [mbind result_bind].
  destruct (Dict.pop "definition_type" items) as [[v d1]|] eqn:Hp1; [|discriminate].
  cbn [mbind result_bind].
  destruct v as [| | |s|]; try discriminate.
  cbn [py_replace_hyphens mbind result_bind].
  destruct (Dict.pop "definition" d1) as [[content d2]|] eqn:Hp2; [|discriminate].
  cbn [mbind result_bind].
  destruct (Dict.pop_default "description" (VStr EmptyString) d2)
    as [description rest] eqn:Hp3.
  destruct rest as [|x rest]; [|discriminate].
  cbn [Dict.truthy RateFunction._compute_rate]. intros Hc.
  pose proof (pop_get _ _ _ _ Hp1) as Hg1.
  unfold Dict.pop in Hp1. rewrite Hg1 in Hp1. injection Hp1 as <-.
  pose proof (pop_get _ _ _ _ Hp2) as Hg2.
  unfold Dict.pop in Hp2. rewrite Hg2 in Hp2. injection Hp2 as <-.
  exists items, s, content, description, []. split_and!; done.
Qed.
End RateFunctionFacts.

(** X17. A dictionary that [RateFunction.from_definition_dict] accepts has
    the keys [definition_type] and [definition], possibly [description], and
    no other key; its [definition_type], with hyphens read as underscores, is
    one of [fixed_value], [lambda_definition] and [function_object], and that
    underscore form is the type of the rate function built; the description
    is the one given, or the empty string. *)
Theorem X17_rate_function_accepted_definitions `{Builtins}
    (items : list (string * value)) (rf : RateFunction.t) :
  RateFunction.from_definition_dict (VDict items) = Ok rf →
  (∀ k v, (k, v) ∈ items →
     k = "definition_type"%string ∨ k = "definition"%string ∨ k = "description"%string)
  ∧ Dict.contains "definition" items = true
  ∧ (∃ s, Dict.get "definition_type" items = Some (VStr s)
       ∧ replace_char "-" "_" s ∈ rate_function_types
       ∧ RateFunction.definition_type rf = VStr (replace_char "-" "_" s))
  ∧ RateFunction.description rf
    = default (VStr EmptyString) (Dict.get "description" items).
Proof.
  intros Hrf.
  apply from_definition_dict_inv in Hrf
    as (items' & s & content & description & rest & Hd & Hg1 & Hg2 & Hp3 & -> & Hc).
  injection Hd as <-.
  apply compile_function_inv in Hc as (s' & Hs' & Ht & Hdesc & Hcase).
  simpl in Hs'. injection Hs' as <-. simpl in Hdesc.
  rewrite replace_char_idem in Ht, Hcase by done.
  split_and!.
  - intros k v Hin.
    destruct (decide (k = "definition_type"%string)) as [|Hk1]; [by left|].
    destruct (decide (k = "definition"%string)) as [|Hk2]; [by right; left|].
    destruct (decide (k = "description"%string)) as [|Hk3]; [by right; right|].
    exfalso.
    assert (Hin' : (k, v) ∈ ([] : list (string * value))); [|by apply elem_of_nil in Hin'].
    eapply elem_of_pop_default; [exact Hp3|done|].
    by do 2 (apply elem_of_remove_ne; [done|]).
  - unfold Dict.contains.
    by rewrite get_remove_ne in Hg2 by done; rewrite Hg2.
  - exists s. split_and!; [done| |done].
    unfold rate_function_types.
    destruct Hcase as [[-> _]|[[-> _]|[-> _]]]; set_solver.
  - rewrite Hdesc. unfold Dict.pop_default in Hp3.
    rewrite !get_remove_ne in Hp3 by done.
    destruct (Dict.get "description" _); by injection Hp3 as <- _.
Qed.

Lemma X17_rate_function_accepted_definitions_witness :
  let items := [("definition_type"%string, VStr "fixed-value");
                ("definition"%string, VNum 2)] in
  ∃ rf, RateFunction.from_definition_dict (H := ModelExamples.runtime) (VDict items) = Ok rf
    ∧ RateFunction.definition_type rf = VStr "fixed_value"
    ∧ RateFunction.description rf = VStr EmptyString.
Proof.
  intros items.
  destruct (RateFunction.from_definition_dict (H := ModelExamples.runtime) (VDict items))
    as [rf|] eqn:Hrf; [|by vm_compute in Hrf].
  destruct (X17_rate_function_accepted_definitions (H := ModelExamples.runtime)
              items rf Hrf) as (_ & _ & (s & Hs & _ & Ht) & Hdesc).
  exists rf. split_and!; [done| |exact Hdesc].
  injection Hs as <-. exact Ht.
Defined.

(** X18. A rate function built by [from_definition_dict] whose type is not
    [function_object] is rebuilt unchanged from its own [as_definition]:
    type, content, description and rate computation are the same. (For a
    [function_object], [as_definition] writes [str] of the content.) *)
Theorem X18_rate_function_round_trip `{Builtins} (d : value) (rf : RateFunction.t) :
  RateFunction.from_definition_dict d = Ok rf →
  eq_str (RateFunction.definition_type rf) "function_object" = false →
  RateFunction.from_definition_dict (RateFunction.as_definition rf) = Ok rf.
Proof.
  intros Hrf Hnf.
  apply from_definition_dict_inv in Hrf
    as (items & s & content & description & rest & _ & _ & _ & _ & _ & Hc).
  apply compile_function_inv in Hc as (s' & Hs' & Ht & Hdesc & Hcase).
  simpl in Hs'. injection Hs' as <-. simpl in Hdesc, Hcase.
  rewrite replace_char_idem in Ht, Hcase by done.
  destruct rf as [dt dc ds cr]. simpl in *. subst dt ds.
  unfold RateFunction.as_definition. simpl RateFunction.definition_type.
  rewrite Hnf. simpl in Hnf.
  destruct Hcase as [[E (q & Hq & -> & ->)]|[[E (f & Hf & -> & ->)]|[E _]]].
  - rewrite E. vm_compute. reflexivity.
  - rewrite E. unfold RateFunction.from_definition_dict, RateFunction.init.
    cbn. by rewrite Hf.
  - rewrite E in Hnf. discriminate.
Qed.

Lemma X18_rate_function_round_trip_witness :
  ∃ rf, RateFunction.from_definition_dict (H := ModelExamples.runtime)
          (ModelExamples.fixed 2 "birth") = Ok rf
    ∧ RateFunction.from_definition_dict (H := ModelExamples.runtime)
        (RateFunction.as_definition rf) = Ok rf.
Proof.
  destruct (RateFunction.from_definition_dict (H := ModelExamples.runtime)
              (ModelExamples.fixed 2 "birth")) as [rf|] eqn:Hrf; [|by vm_compute in Hrf].
  exists rf. split; [done|].
  apply (X18_rate_function_round_trip (H := ModelExamples.runtime)
           (ModelExamples.fixed 2 "birth") rf Hrf).
  vm_compute in Hrf. injection Hrf as <-. reflexivity.
Defined.

(** ** The phylogeny: the current lineages across [split_lineage] and
    [extinguish_lineage] *)

Lemma in_world_inv {A B} (m : M A) (k : A → PM B) p w x s' :
  (in_world m ≫= k) (p, w) = (Ok x, s') →
  ∃ a w1, m w = (Ok a, w1) ∧ k a (p, w1) = (Ok x, s').
Proof.
  rewrite pm_bind_run. unfold in_world. simpl.
  destruct (m w) as [[a|e] w1]; [|discriminate]. intros Hk. by exists a, w1.
Qed.

Lemma current_lineages_remove_inv {B} (k : unit → PM B) s p w x s' :
  (SymbiontPhylogenyOps.current_lineages_remove s ≫= k) (p, w) = (Ok x, s') →
  s ∈ SymbiontPhylogeny.current_lineages p
  ∧ k tt (SymbiontPhylogeny.mk (SymbiontPhylogeny.tree p)
            (SymbiontPhylogeny.current_lineages p ∖ {[s]})
            (SymbiontPhylogeny.lineage_indexer p), w) = (Ok x, s').
Proof.
  destruct (decide (s ∈ SymbiontPhylogeny.current_lineages p)) as [Hin|Hnot].
  - rewrite current_lineages_remove_run by done. done.
  - unfold SymbiontPhylogenyOps.current_lineages_remove.
    cbv [mbind PM_bind get_phylogeny fst snd]. rewrite bool_decide_eq_false_2 by done.
    discriminate.
Qed.

Lemma add_child_inv {B} (k : unit → PM B) self node p w x s' :
  (SymbiontPhylogenyOps.add_child self node ≫= k) (p, w) = (Ok x, s') →
  ∃ tr, k tt (SymbiontPhylogeny.mk tr (SymbiontPhylogeny.current_lineages p)
                (SymbiontPhylogeny.lineage_indexer p), w) = (Ok x, s').
Proof.
  unfold SymbiontPhylogenyOps.add_child.
  cbv [mbind PM_bind get_phylogeny put_phylogeny praise fst snd].
  destruct (bool_decide (node = self)); [discriminate|].
  destruct (bool_decide (_ = Some node)); [discriminate|].
  intros Hk. eauto.
Qed.

(** What a call of [split_lineage] that returns has done to the set of
    current lineages and to the indexer. *)
Lemma split_lineage_current p w parent p' w' :
  SymbiontPhylogenyOps.split_lineage parent (p, w) = (Ok tt, (p', w')) →
  parent ∈ SymbiontPhylogeny.current_lineages p
  ∧ ∃ c1 c2,
      c1 ≠ c2
      ∧ symbiont_lineages w !! c1 = None ∧ symbiont_lineages w !! c2 = None
      ∧ SymbiontPhylogeny.current_lineages p'
        = {[c1; c2]} ∪ (SymbiontPhylogeny.current_lineages p ∖ {[parent]})
      ∧ SymbiontPhylogeny.lineage_indexer p'
        = S (S (SymbiontPhylogeny.lineage_indexer p)).
Proof.
  unfold SymbiontPhylogenyOps.split_lineage.
  rewrite next_index_run, node_factory_run.
  set (c1 := fresh (dom (symbiont_lineages w))).
  set (w1 := mkWorld _ _ _).
  rewrite next_index_run, node_factory_run.
  set (c2 := fresh (dom (symbiont_lineages w1))).
  set (w2 := mkWorld _ _ _).
  cbn [SymbiontPhylogeny.tree SymbiontPhylogeny.current_lineages
       SymbiontPhylogeny.lineage_indexer].
  intros Hrun.
  apply in_world_inv in Hrun as ([] & w3 & _ & Hrun).
  apply in_world_inv in Hrun as ([] & w4 & _ & Hrun).
  apply in_world_inv in Hrun as ([] & w5 & _ & Hrun).
  apply current_lineages_remove_inv in Hrun as [Hlive Hrun].
  cbn [SymbiontPhylogeny.tree SymbiontPhylogeny.current_lineages
       SymbiontPhylogeny.lineage_indexer] in Hlive, Hrun.
  apply in_world_inv in Hrun as ([] & w6 & _ & Hrun).
  apply add_child_inv in Hrun as (tr1 & Hrun).
  apply add_child_inv in Hrun as (tr2 & Hrun).
  cbn [SymbiontPhylogeny.tree SymbiontPhylogeny.current_lineages
       SymbiontPhylogeny.lineage_indexer] in Hrun.
  rewrite current_lineages_add_run in Hrun.
  unfold SymbiontPhylogenyOps.current_lineages_add in Hrun.
  cbv [mbind PM_bind get_phylogeny put_phylogeny fst snd] in Hrun.
  cbn [SymbiontPhylogeny.tree SymbiontPhylogeny.current_lineages
       SymbiontPhylogeny.lineage_indexer] in Hrun.
  injection Hrun as <- <-.
  assert (Hc1 : symbiont_lineages w !! c1 = None).
  { apply not_elem_of_dom. apply is_fresh. }
  assert (Hc2 : symbiont_lineages w1 !! c2 = None).
  { apply not_elem_of_dom. apply is_fresh. }
  assert (Hne : c1 ≠ c2).
  { intros Heq. rewrite <- Heq in Hc2. unfold w1 in Hc2. simpl in Hc2.
    by rewrite lookup_insert_eq in Hc2. }
  split; [done|]. exists c1, c2. split_and!; try done.
  - unfold w1 in Hc2. simpl in Hc2. by rewrite lookup_insert_ne in Hc2.
  - simpl. set_solver.
Qed.

Lemma size_two_or_more (X : gset nat) c1 c2 : c1 ≠ c2 → c1 ∈ X → c2 ∈ X → size X ≠ 1%nat.
Proof.
  intros Hne H1 H2 Hsize. apply size_1_elem_of in Hsize as [x Hx].
  apply (set_eq X {[x]}) in Hx. set_solver.
Qed.

(** X19. [extinguish_lineage] of a lineage that is not among the current
    lineages: when exactly one lineage is current it raises
    [TotalExtinctionException] and changes nothing, although that lineage
    is not the one passed; otherwise it raises [KeyError], having already
    marked the lineage as not extant, and leaves the current lineages and
    the tree as they were. *)
Theorem X19_extinguish_lineage_not_current
    (prune_subtree : Tree.t → nat → result Tree.t)
    (p : SymbiontPhylogeny.t) (w : World) (lineage : nat) (sl : SymbiontLineage.t) :
  symbiont_lineages w !! lineage = Some sl →
  lineage ∉ SymbiontPhylogeny.current_lineages p →
  SymbiontPhylogenyOps.extinguish_lineage prune_subtree lineage (p, w)
  = if Nat.eqb (size (SymbiontPhylogeny.current_lineages p)) 1
    then (Raise TotalExtinctionException, (p, w))
    else (Raise KeyError,
          (p, mkWorld (areas w) (host_lineages w)
                (<[lineage := with_is_extant sl false]> (symbiont_lineages w)))).
Proof.
  intros Hs Hnot. rewrite (extinguish_lineage_run prune_subtree p w lineage sl Hs).
  destruct (Nat.eqb _ 1); [done|]. cbn zeta. by rewrite bool_decide_eq_false_2.
Qed.

Lemma X19_extinguish_lineage_not_current_witness :
  ∃ sl, symbiont_lineages PhylogenyExamples.after_split.2 !! PhylogenyExamples.seed
        = Some sl
    ∧ SymbiontPhylogenyOps.extinguish_lineage PhylogenyExamples.unlink
        PhylogenyExamples.seed
        (PhylogenyExamples.after_split.1, PhylogenyExamples.after_split.2)
      = (Raise KeyError,
         (PhylogenyExamples.after_split.1,
          mkWorld (areas PhylogenyExamples.after_split.2)
            (host_lineages PhylogenyExamples.after_split.2)
            (<[PhylogenyExamples.seed := with_is_extant sl false]>
               (symbiont_lineages PhylogenyExamples.after_split.2)))).
Proof.
  destruct (symbiont_lineages PhylogenyExamples.after_split.2 !! PhylogenyExamples.seed)
    as [sl|] eqn:Hs; [|by vm_compute in Hs].
  exists sl. split; [done|].
  rewrite (X19_extinguish_lineage_not_current PhylogenyExamples.unlink
             PhylogenyExamples.after_split.1 PhylogenyExamples.after_split.2
             PhylogenyExamples.seed sl Hs).
  - assert (Hsize : Nat.eqb (size (SymbiontPhylogeny.current_lineages
                                     PhylogenyExamples.after_split.1)) 1 = false)
      by (vm_compute; reflexivity).
    by rewrite Hsize.
  - intros Hin. apply (bool_decide_pack _) in Hin. vm_compute in Hin. exact Hin.
Defined.

(** X20. A call of [split_lineage] that returns was made on a current
    lineage; it has drawn two indices from the indexer and made two new,
    distinct lineages current in place of the parent. At least two lineages
    are therefore current afterwards, and [extinguish_lineage] of any
    lineage of the store then never ends in total extinction. *)
Theorem X20_split_then_extinguish_is_not_total
    (p : SymbiontPhylogeny.t) (w : World) (parent : nat)
    (p' : SymbiontPhylogeny.t) (w' : World) :
  SymbiontPhylogenyOps.split_lineage parent (p, w) = (Ok tt, (p', w')) →
  parent ∈ SymbiontPhylogeny.current_lineages p
  ∧ (∃ c1 c2,
       c1 ≠ c2
       ∧ symbiont_lineages w !! c1 = None ∧ symbiont_lineages w !! c2 = None
       ∧ SymbiontPhylogeny.current_lineages p'
         = {[c1; c2]} ∪ (SymbiontPhylogeny.current_lineages p ∖ {[parent]}))
  ∧ SymbiontPhylogeny.lineage_indexer p' = S (S (SymbiontPhylogeny.lineage_indexer p))
  ∧ ∀ (prune_subtree : Tree.t → nat → result Tree.t) lineage sl,
      symbiont_lineages w' !! lineage = Some sl →
      SymbiontPhylogenyOps.extinguish_lineage prune_subtree lineage (p', w')
      ≠ (Raise TotalExtinctionException, (p', w')).
Proof.
  intros Hrun.
  apply split_lineage_current in Hrun as (Hlive & c1 & c2 & Hne & Hc1 & Hc2 & Hcur & Hidx).
  split_and!; [done|by exists c1, c2|done|].
  intros prune_subtree lineage sl Hs.
  rewrite (extinguish_lineage_run prune_subtree p' w' lineage sl Hs).
  assert (Hsize : size (SymbiontPhylogeny.current_lineages p') ≠ 1%nat).
  { apply (size_two_or_more _ c1 c2 Hne); rewrite Hcur; set_solver. }
  apply Nat.eqb_neq in Hsize. rewrite Hsize. cbn zeta.
  destruct (bool_decide (lineage ∈ SymbiontPhylogeny.current_lineages p')) eqn:Hin;
    [|discriminate].
  apply bool_decide_eq_true in Hin.
  destruct (prune_subtree _ _); [discriminate|].
  intros [= _ Hp _]. rewrite <- Hp in Hin. simpl in Hin. set_solver.
Qed.

Lemma X20_split_then_extinguish_is_not_total_witness :
  PhylogenyExamples.seed ∈ SymbiontPhylogeny.current_lineages PhylogenyExamples.seeded.1
  ∧ SymbiontPhylogeny.lineage_indexer PhylogenyExamples.after_split.1
    = S (S (SymbiontPhylogeny.lineage_indexer PhylogenyExamples.seeded.1)).
Proof.
  destruct (X20_split_then_extinguish_is_not_total PhylogenyExamples.seeded.1
              PhylogenyExamples.seeded.2 PhylogenyExamples.seed
              PhylogenyExamples.after_split.1 PhylogenyExamples.after_split.2)
    as (Hlive & _ & Hidx & _).
  - vm_compute. reflexivity.
  - split; [exact Hlive|exact Hidx].
Defined.

(** ** Model definitions: the keys [parse_definition] does check, and what
    comes back from [write_model] *)

Lemma elem_of_set_ne k k' v v' d :
  k ≠ k' → (k, v) ∈ d → (k, v) ∈ Dict.set k' v' d.
Proof.
  intros Hne. induction d as [|[k0 v0] d IH]; [by intros ?%elem_of_nil|].
  intros Hin. simpl. destruct (String.eqb k' k0) eqn:Hk.
  - apply String.eqb_eq in Hk. subst k0.
    apply elem_of_cons in Hin as [Heq|Hin]; [congruence|].
    apply elem_of_cons. by right.
  - apply elem_of_cons in Hin as [Heq|Hin]; apply elem_of_cons; [by left|].
    right. by apply IH.
Qed.

Lemma get_set_ne k k' v' d : k ≠ k' → Dict.get k (Dict.set k' v' d) = Dict.get k d.
Proof.
  intros Hne. induction d as [|[k0 v0] d IH]; simpl.
  - destruct (String.eqb k k') eqn:Hk; [apply String.eqb_eq in Hk; congruence|done].
  - destruct (String.eqb k' k0) eqn:Hk0; simpl.
    + apply String.eqb_eq in Hk0. subst k0.
      destruct (String.eqb k k') eqn:Hk; [apply String.eqb_eq in Hk; congruence|done].
    + by rewrite IH.
Qed.

Lemma get_pop_default_ne k k' default d x d' :
  Dict.pop_default k' default d = (x, d') → k ≠ k' → Dict.get k d' = Dict.get k d.
Proof.
  unfold Dict.pop_default. destruct (Dict.get k' d); intros [= <- <-] Hne; [|done].
  by apply get_remove_ne.
Qed.

Lemma pop_default_value k default d x d' :
  Dict.pop_default k default d = (x, d') → x = from_option id default (Dict.get k d).
Proof. unfold Dict.pop_default. destruct (Dict.get k d); by intros [= <- <-]. Qed.

Lemma truthy_false d : Dict.truthy d = false → d = [].
Proof. by destruct d. Qed.

(** The block that reads a weight function leaves the other entries in. *)
Lemma weight_block_keeps `{Builtins} key k v d (default : result RateFunction.t) rf d' :
  (if Dict.contains key d
   then '(x, d1) ← Dict.pop key d;
        rf ← RateFunction.from_definition_dict x; Ok (rf, d1)
   else rf ← default; Ok (rf, d)) = Ok (rf, d') →
  k ≠ key → (k, v) ∈ d → (k, v) ∈ d'.
Proof.
  destruct (Dict.contains key d).
  - destruct (Dict.pop key d) as [[x d1]|] eqn:Hp; [|discriminate].
    cbn [mbind result_bind].
    destruct (RateFunction.from_definition_dict x); [|discriminate].
    cbn [mbind result_bind]. intros [= _ <-]. by eapply elem_of_pop.
  - destruct default; [|discriminate]. cbn [mbind result_bind]. by intros [= _ <-].
Qed.

Definition model_keys : list string :=
  ["model_id"; "host_to_symbiont_time_scale_factor"; "diversification";
   "anagenetic_host_assemblage_evolution"; "cladogenetic_host_assemblage_evolution";
   "anagenetic_geographical_range_evolution";
   "cladogenetic_geographical_range_evolution"]%string.

Definition host_anagenesis_keys : list string :=
  ["mean_symbiont_lineage_host_gain_rate"; "symbiont_lineage_host_gain_weight";
   "mean_symbiont_lineage_host_loss_rate"; "symbiont_lineage_host_loss_weight"]%string.

Definition host_cladogenesis_keys : list string :=
  ["sympatric_subset_speciation_weight"; "single_host_vicariance_speciation_weight";
   "widespread_vicariance_speciation_weight"; "founder_event_speciation_weight"]%string.

Definition area_cladogenesis_keys : list string :=
  ["sympatric_subset_speciation_weight"; "single_area_vicariance_speciation_weight";
   "widespread_vicariance_speciation_weight"; "founder_event_speciation_weight"]%string.

(** One step of following an entry through the dictionaries
    [parse_definition] pops from. *)
Ltac follow Hin :=
  match type of Hin with
  | (?k, ?v) ∈ ?d =>
      match goal with
      | Hp : Dict.pop_default ?key _ d = (_, ?d') |- _ =>
          apply (elem_of_pop_default k key v d _ _ d' Hp) in Hin; [|assumption]
      | Hp : (if Dict.contains ?key d then _ else _) = Ok (_, ?d') |- _ =>
          apply (weight_block_keeps key k v d _ _ d' Hp) in Hin; [|assumption]
      | Ht : Dict.truthy d = false |- _ =>
          apply truthy_false in Ht; rewrite Ht in Hin; by apply elem_of_nil in Hin
      end
  end.

(** [k ∉ keys] as the disequalities it stands for. *)
Ltac split_keys Hk :=
  repeat (apply not_elem_of_cons in Hk as [? Hk]); clear Hk.

(** Looks a block up in the definition given rather than in what is left of
    it when the block is popped. *)
Ltac block_in_items :=
  repeat match goal with
         | |- context [Dict.get ?key ?d] =>
             match goal with
             | Hq : Dict.pop_default ?key' _ ?d0 = (_, d) |- _ =>
                 rewrite (get_pop_default_ne key key' _ d0 _ d Hq) by done
             end
         end.

Lemma get_with_model_id k items :
  k ≠ "model_id"%string →
  Dict.get k (if negb (Dict.contains "model_id" items)
              then Dict.set "model_id" (VStr "Model1") items else items)
  = Dict.get k items.
Proof. intros Hne. destruct (negb _); [by apply get_set_ne|done]. Qed.

Lemma block_checked `{Builtins} (items : list (string * value)) key d x d' a block :
  Dict.pop_default key (VDict []) d = (x, d') →
  Dict.of_value x = Ok a →
  Dict.get key d = Some (VDict block) → a = block.
Proof.
  intros Hp%pop_default_value Ha Hget. rewrite Hget in Hp. simpl in Hp. subst x.
  by injection Ha as <-.
Qed.

(** X21. A definition that [parse_definition] accepts has no key at the top
    level other than [model_id], [host_to_symbiont_time_scale_factor] and
    the five block names, and no key other than the four it reads in its
    [anagenetic_host_assemblage_evolution],
    [cladogenetic_host_assemblage_evolution] and
    [cladogenetic_geographical_range_evolution] blocks: anything else there
    makes the call raise. *)
Theorem X21_parse_definition_checked_keys `{Builtins} (items : list (string * value))
    (m : InphestModel.t) :
  InphestModel.parse_definition (VDict items) = Ok m →
  (∀ k v, (k, v) ∈ items → k ∈ model_keys)
  ∧ (∀ block k v,
       Dict.get "anagenetic_host_assemblage_evolution" items = Some (VDict block) →
       (k, v) ∈ block → k ∈ host_anagenesis_keys)
  ∧ (∀ block k v,
       Dict.get "cladogenetic_host_assemblage_evolution" items = Some (VDict block) →
       (k, v) ∈ block → k ∈ host_cladogenesis_keys)
  ∧ (∀ block k v,
       Dict.get "cladogenetic_geographical_range_evolution" items = Some (VDict block) →
       (k, v) ∈ block → k ∈ area_cladogenesis_keys).
Proof.
  intros Hparse. unfold InphestModel.parse_definition in Hparse.
  repeat invert_head Hparse. clear Hparse.
  repeat match goal with
         | Heq : _ = (_, _) |- _ =>
             lazymatch type of Heq with
             | Dict.pop_default _ _ _ = _ => fail
             | _ => subst
             end
         end.
  match goal with
  | Heq : Dict.of_value (VDict items) = Ok _ |- _ => injection Heq as <-
  end.
  split_and!.
  - intros k val Hin. destruct (decide (k ∈ model_keys)) as [|Hk]; [done|exfalso].
    unfold model_keys in Hk. split_keys Hk.
    assert (Hin' : (k, val) ∈ (if negb (Dict.contains "model_id" items)
                              then Dict.set "model_id" (VStr "Model1") items else items)).
    { destruct (negb _); [by apply elem_of_set_ne|done]. }
    clear Hin. repeat follow Hin'.
  - intros block k val Hget Hin.
    destruct (decide (k ∈ host_anagenesis_keys)) as [|Hk]; [done|exfalso].
    unfold host_anagenesis_keys in Hk. split_keys Hk.
    match goal with
    | Hp : Dict.pop_default "anagenetic_host_assemblage_evolution" _ ?d = (?x, _),
      Ha : Dict.of_value ?x = Ok ?a |- _ =>
        assert (a = block) as ->;
        [apply (block_checked items _ _ _ _ _ _ Hp Ha);
         block_in_items; by rewrite get_with_model_id|]
    end.
    repeat follow Hin.
  - intros block k val Hget Hin.
    destruct (decide (k ∈ host_cladogenesis_keys)) as [|Hk]; [done|exfalso].
    unfold host_cladogenesis_keys in Hk. split_keys Hk.
    match goal with
    | Hp : Dict.pop_default "cladogenetic_host_assemblage_evolution" _ ?d = (?x, _),
      Ha : Dict.of_value ?x = Ok ?a |- _ =>
        assert (a = block) as ->;
        [apply (block_checked items _ _ _ _ _ _ Hp Ha);
         block_in_items; by rewrite get_with_model_id|]
    end.
    repeat follow Hin.
  - intros block k val Hget Hin.
    destruct (decide (k ∈ area_cladogenesis_keys)) as [|Hk]; [done|exfalso].
    unfold area_cladogenesis_keys in Hk. split_keys Hk.
    match goal with
    | Hp : Dict.pop_default "cladogenetic_geographical_range_evolution" _ ?d = (?x, _),
      Ha : Dict.of_value ?x = Ok ?a |- _ =>
        assert (a = block) as ->;
        [apply (block_checked items _ _ _ _ _ _ Hp Ha);
         block_in_items; by rewrite get_with_model_id|]
    end.
    repeat follow Hin.
Qed.

Lemma X21_parse_definition_checked_keys_witness :
  let items := match ModelExamples.populated with VDict items => items | _ => [] end in
  (∀ k v, (k, v) ∈ items → k ∈ model_keys)
  ∧ (∀ block k v,
       Dict.get "cladogenetic_host_assemblage_evolution" items = Some (VDict block) →
       (k, v) ∈ block → k ∈ host_cladogenesis_keys).
Proof.
  intros items.
  destruct (X21_parse_definition_checked_keys (H := ModelExamples.runtime) items
              ModelResults.parsed) as (Htop & _ & Hclad & _).
  - vm_compute. reflexivity.
  - split; [exact Htop|exact Hclad].
Defined.

(** A rate function that [compile_function] has produced, of a type other
    than [function_object], is rebuilt unchanged from its [as_definition]. *)
Lemma compiled_round_trip `{Builtins} (self rf : RateFunction.t) :
  RateFunction.compile_function self = Ok rf →
  eq_str (RateFunction.definition_type rf) "function_object" = false →
  RateFunction.from_definition_dict (RateFunction.as_definition rf) = Ok rf.
Proof.
  intros Hc Hnf.
  apply compile_function_inv in Hc as (s & Hs & Ht & Hdesc & Hcase).
  destruct rf as [dt dc ds cr]. simpl in *. subst dt.
  unfold RateFunction.as_definition. simpl RateFunction.definition_type.
  rewrite Hnf. simpl in Hnf.
  destruct Hcase as [[E (q & Hq & -> & ->)]|[[E (f & Hf & -> & ->)]|[E _]]].
  - rewrite E. vm_compute. reflexivity.
  - rewrite E. unfold RateFunction.from_definition_dict, RateFunction.init.
    cbn. by rewrite Hf.
  - rewrite E in Hnf. discriminate.
Qed.

Definition compiled `{Builtins} (rf : RateFunction.t) : Prop :=
  ∃ self, RateFunction.compile_function self = Ok rf.

Lemma from_definition_dict_compiled `{Builtins} d rf :
  RateFunction.from_definition_dict d = Ok rf → compiled rf.
Proof.
  intros Hrf. apply from_definition_dict_inv in Hrf
    as (items & s & content & description & rest & _ & _ & _ & _ & _ & Hc).
  by eexists.
Qed.

Lemma weight_block_compiled `{Builtins} key d source description rf d' :
  (if Dict.contains key d
   then '(x, d1) ← Dict.pop key d;
        rf ← RateFunction.from_definition_dict x; Ok (rf, d1)
   else rf ← RateFunction.init (VStr "lambda_definition") (VStr source)
               (VStr description);
        Ok (rf, d)) = Ok (rf, d') →
  compiled rf.
Proof.
  destruct (Dict.contains key d).
  - destruct (Dict.pop key d) as [[x d1]|] eqn:Hp; [|discriminate].
    cbn [mbind result_bind].
    destruct (RateFunction.from_definition_dict x) as [rf0|] eqn:Hrf; [|discriminate].
    cbn [mbind result_bind]. intros [= <- _]. by eapply from_definition_dict_compiled.
  - unfold RateFunction.init.
    destruct (RateFunction.compile_function _) as [rf0|] eqn:Hc; [|discriminate].
    cbn [mbind result_bind]. intros [= <- _]. by eexists.
Qed.

(** The weight functions of a parsed model that [write_model] writes under
    the key they are read from have all been through [compile_function]. *)
Lemma parsed_weights_compiled `{Builtins} (model_definition : value) m :
  InphestModel.parse_definition model_definition = Ok m →
  compiled (InphestModel.symbiont_lineage_host_gain_weight_function m)
  ∧ compiled (InphestModel.symbiont_lineage_host_loss_weight_function m)
  ∧ compiled (InphestModel.symbiont_lineage_area_gain_weight_function m).
Proof.
  intros Hparse. unfold InphestModel.parse_definition in Hparse.
  repeat invert_head Hparse.
  injection Hparse as <-.
  cbn [InphestModel.symbiont_lineage_host_gain_weight_function
       InphestModel.symbiont_lineage_host_loss_weight_function
       InphestModel.symbiont_lineage_area_gain_weight_function].
  repeat match goal with
         | Heq : _ = (_, _) |- _ =>
             lazymatch type of Heq with
             | Dict.pop_default _ _ _ = _ => fail
             | _ => subst
             end
         end.
  split_and!.
  all: match goal with
       | Hb : (if Dict.contains _ _ then _ else _) = Ok (?rf, _) |- compiled ?rf =>
           exact (weight_block_compiled _ _ _ _ _ _ Hb)
       end.
Qed.

(** X22. What does come back when a parsed model is written by
    [write_model] and parsed again: the identifier, the time scale factor,
    the five mean rates other than area loss, the eight cladogenetic
    weights, and the host-gain, host-loss and area-gain weight functions,
    each unchanged when its type is not [function_object]. *)
Theorem X22_write_model_round_trip_kept `{Builtins} (model_definition : value)
    (m m' : InphestModel.t) :
  InphestModel.parse_definition model_definition = Ok m →
  InphestModel.parse_definition (InphestModel.write_model m) = Ok m' →
  InphestModel.model_id m' = InphestModel.model_id m
  ∧ InphestModel.host_to_symbiont_time_scale_factor m'
    = InphestModel.host_to_symbiont_time_scale_factor m
  ∧ InphestModel.mean_symbiont_lineage_birth_rate m'
    = InphestModel.mean_symbiont_lineage_birth_rate m
  ∧ InphestModel.mean_symbiont_lineage_death_rate m'
    = InphestModel.mean_symbiont_lineage_death_rate m
  ∧ InphestModel.mean_symbiont_lineage_host_gain_rate m'
    = InphestModel.mean_symbiont_lineage_host_gain_rate m
  ∧ InphestModel.mean_symbiont_lineage_host_loss_rate m'
    = InphestModel.mean_symbiont_lineage_host_loss_rate m
  ∧ InphestModel.mean_symbiont_lineage_area_gain_rate m'
    = InphestModel.mean_symbiont_lineage_area_gain_rate m
  ∧ InphestModel.host_cladogenesis_sympatric_subset_speciation_weight m'
    = InphestModel.host_cladogenesis_sympatric_subset_speciation_weight m
  ∧ InphestModel.host_cladogenesis_single_host_vicariance_speciation_weight m'
    = InphestModel.host_cladogenesis_single_host_vicariance_speciation_weight m
  ∧ InphestModel.host_cladogenesis_widespread_vicariance_speciation_weight m'
    = InphestModel.host_cladogenesis_widespread_vicariance_speciation_weight m
  ∧ InphestModel.host_cladogenesis_founder_event_speciation_weight m'
    = InphestModel.host_cladogenesis_founder_event_speciation_weight m
  ∧ InphestModel.symbiont_cladogenesis_sympatric_subset_speciation_weight m'
    = InphestModel.symbiont_cladogenesis_sympatric_subset_speciation_weight m
  ∧ InphestModel.symbiont_cladogenesis_single_area_vicariance_speciation_weight m'
    = InphestModel.symbiont_cladogenesis_single_area_vicariance_speciation_weight m
  ∧ InphestModel.symbiont_cladogenesis_widespread_vicariance_speciation_weight m'
    = InphestModel.symbiont_cladogenesis_widespread_vicariance_speciation_weight m
  ∧ InphestModel.symbiont_cladogenesis_founder_event_speciation_weight m'
    = InphestModel.symbiont_cladogenesis_founder_event_speciation_weight m
  ∧ (eq_str (RateFunction.definition_type
               (InphestModel.symbiont_lineage_host_gain_weight_function m))
       "function_object" = false →
     InphestModel.symbiont_lineage_host_gain_weight_function m'
     = InphestModel.symbiont_lineage_host_gain_weight_function m)
  ∧ (eq_str (RateFunction.definition_type
               (InphestModel.symbiont_lineage_host_loss_weight_function m))
       "function_object" = false →
     InphestModel.symbiont_lineage_host_loss_weight_function m'
     = InphestModel.symbiont_lineage_host_loss_weight_function m)
  ∧ (eq_str (RateFunction.definition_type
               (InphestModel.symbiont_lineage_area_gain_weight_function m))
       "function_object" = false →
     InphestModel.symbiont_lineage_area_gain_weight_function m'
     = InphestModel.symbiont_lineage_area_gain_weight_function m).
Proof.
  intros Hm Hm'.
  destruct (parsed_weights_compiled _ _ Hm) as ([s1 Hc1] & [s2 Hc2] & [s3 Hc3]).
  pose proof (compiled_round_trip _ _ Hc1) as R1.
  pose proof (compiled_round_trip _ _ Hc2) as R2.
  pose proof (compiled_round_trip _ _ Hc3) as R3.
  clear Hm Hc1 Hc2 Hc3.
  invert_reparse Hm'.
  injection Hm' as <-. cbn.
  split_and!; try reflexivity.
  - intros Hnf. specialize (R1 Hnf). congruence.
  - intros Hnf. specialize (R2 Hnf). congruence.
  - intros Hnf. specialize (R3 Hnf). congruence.
Qed.

Lemma X22_write_model_round_trip_kept_witness :
  InphestModel.model_id ModelResults.reparsed = InphestModel.model_id ModelResults.parsed
  ∧ InphestModel.symbiont_lineage_host_gain_weight_function ModelResults.reparsed
    = InphestModel.symbiont_lineage_host_gain_weight_function ModelResults.parsed
  ∧ InphestModel.symbiont_lineage_area_gain_weight_function ModelResults.reparsed
    = InphestModel.symbiont_lineage_area_gain_weight_function ModelResults.parsed.
Proof.
  destruct (X22_write_model_round_trip_kept (H := ModelExamples.runtime)
              ModelExamples.populated ModelResults.parsed ModelResults.reparsed)
    as (Hid & _ & _ & _ & _ & _ & _ & _ & _ & _ & _ & _ & _ & _ & _ & Hg & _ & Ha).
  - vm_compute. reflexivity.
  - vm_compute. reflexivity.
  - split_and!; [exact Hid|apply Hg; vm_compute; reflexivity
                 |apply Ha; vm_compute; reflexivity].
Defined.

(** ** The symbiont side: removing one cell, merging and clearing a
    distribution *)

(** X23. [remove_host_in_area(host, area)] for an area the host occupies,
    on a lineage with consistent caches: whatever the outcome, that cell is
    0 afterwards, every other cell is as it was and the caches are
    consistent. It returns when the lineage still occupies something,
    raises [NullDistributionException] when it does not, and raises
    [KeyError] with both caches as they were otherwise. *)
Theorem X23_remove_host_in_area_clears_one_cell (w : World) (self : nat)
    (sl : SymbiontLineage.t) (h : Z) (a : nat) (r : result unit) (w' : World) :
  host_system_ok w → symbiont_lineages w !! self = Some sl →
  lineage_ok w self sl → occupies w h a →
  remove_host_in_area self h (Some a) w = (r, w') →
  ∃ sl', symbiont_lineages w' !! self = Some sl'
    ∧ lineage_ok w' self sl'
    ∧ index sl' = index sl ∧ is_extant sl' = is_extant sl
    ∧ (∀ h' a', cell sl' h' a'
                = if decide (h' = h ∧ a' = a) then Some 0 else cell sl h' a')
    ∧ ((r = Ok tt ∧ non_null sl')
       ∨ (r = Raise (NullDistributionException self) ∧ ¬ non_null sl')
       ∨ (r = Raise KeyError
          ∧ _infected_hosts sl' = _infected_hosts sl
          ∧ _infected_areas sl' = _infected_areas sl)).
Proof. apply remove_host_in_area_some_spec. Qed.

Lemma X23_remove_host_in_area_clears_one_cell_witness :
  let w := SymbiontExamples.after_calls in
  let self := SymbiontExamples.lineage in
  ∃ w' sl', remove_host_in_area self 1 (Some 1%nat) w = (Ok tt, w')
    ∧ symbiont_lineages w' !! self = Some sl'
    ∧ lineage_ok w' self sl'
    ∧ cell sl' 1 1 = Some 0
    ∧ non_null sl'.
Proof.
  intros w self.
  destruct after_calls_consistent as (Hhost & (sl & Hs & Hok) & _).
  destruct (remove_host_in_area self 1 (Some 1%nat) w) as [r w'] eqn:Hrun.
  assert (Hr : r = Ok tt).
  { apply (f_equal fst) in Hrun. simpl in Hrun. subst r. vm_compute. reflexivity. }
  destruct (X23_remove_host_in_area_clears_one_cell w self sl 1 1 r w' Hhost Hs Hok)
    as (sl' & Hs' & Hok' & _ & _ & Hcell & Hout).
  - apply occupies_check. vm_compute. reflexivity.
  - exact Hrun.
  - exists w', sl'. rewrite Hr. split_and!; [done..| |].
    + by rewrite Hcell, decide_True.
    + destruct Hout as [[_ Hnn]|[[Hx _]|[Hx _]]]; [done|congruence..].
Defined.

(** X24. [update_distribution(other)] on two distinct lineages with
    consistent caches: it returns; the cells of the lineage that are 1
    afterwards are those that were 1 in it or in [other]; its infected
    hosts and areas are the unions; its caches are consistent; the host
    side and the other lineages, [other] among them, are untouched. *)
Theorem X24_update_distribution_is_union (w : World) (self other : nat)
    (sl o : SymbiontLineage.t) :
  host_system_ok w → self ≠ other →
  symbiont_lineages w !! self = Some sl → lineage_ok w self sl →
  symbiont_lineages w !! other = Some o → lineage_ok w other o →
  ∃ w' sl', update_distribution self other w = (Ok tt, w')
    ∧ frame self w w'
    ∧ symbiont_lineages w' !! self = Some sl'
    ∧ lineage_ok w' self sl'
    ∧ index sl' = index sl ∧ is_extant sl' = is_extant sl
    ∧ (∀ h a, cell sl' h a = Some 1 ↔ cell sl h a = Some 1 ∨ cell o h a = Some 1)
    ∧ (∀ h, h ∈ _infected_hosts sl' ↔ h ∈ _infected_hosts sl ∨ h ∈ _infected_hosts o)
    ∧ (∀ a, a ∈ _infected_areas sl' ↔ a ∈ _infected_areas sl ∨ a ∈ _infected_areas o).
Proof. apply update_distribution_spec. Qed.

Lemma X24_update_distribution_is_union_witness :
  let other := SymbiontExamples.lineage in
  let self := fresh (dom (symbiont_lineages SymbiontExamples.after_calls)) in
  let w := (SymbiontLineageOps.new 1 SymbiontExamples.after_calls).2 in
  ∃ sl o w' sl',
    symbiont_lineages w !! self = Some sl
    ∧ symbiont_lineages w !! other = Some o
    ∧ update_distribution self other w = (Ok tt, w')
    ∧ symbiont_lineages w' !! self = Some sl'
    ∧ lineage_ok w' self sl'
    ∧ (∀ h a, cell sl' h a = Some 1 ↔ cell sl h a = Some 1 ∨ cell o h a = Some 1).
Proof.
  intros other self w.
  destruct after_calls_consistent as (Hhost & (o & Ho & Hoko) & _).
  destruct (new_consistent SymbiontExamples.after_calls 1 self w)
    as ((sl & Hs & Hok) & Hnone & Hf & _).
  { apply symbionts_closed_check_ok. vm_compute. reflexivity. }
  { reflexivity. }
  assert (Hne : self ≠ other).
  { intros Heq. pose proof Hnone as Hx. unfold self in Hx, Heq. unfold other in Heq.
    rewrite Heq in Hx. congruence. }
  destruct (frame_consistent_other self SymbiontExamples.after_calls w other o Hf
              (not_eq_sym Hne) Ho Hoko) as [Ho' Hoko'].
  assert (Hhost' : host_system_ok w) by (eapply frame_host_system_ok; eauto).
  destruct (X24_update_distribution_is_union w self other sl o Hhost' Hne Hs Hok Ho' Hoko')
    as (w' & sl' & Hrun & _ & Hs' & Hok' & _ & _ & Hcell & _).
  exists sl, o, w', sl'. split_and!; done.
Defined.

(** X25. [clear_distribution] on a lineage with consistent caches: it
    returns; every cell of the matrix is 0, both caches are empty and no
    area lists the lineage; the caches are consistent; the host side and
    the other lineages are untouched; the lineage keeps its index and its
    extancy, and no [NullDistributionException] is raised. *)
Theorem X25_clear_distribution_empties (w : World) (self : nat)
    (sl : SymbiontLineage.t) :
  symbiont_lineages w !! self = Some sl → lineage_ok w self sl →
  ∃ w' sl', clear_distribution self w = (Ok tt, w')
    ∧ frame self w w'
    ∧ symbiont_lineages w' !! self = Some sl'
    ∧ lineage_ok w' self sl'
    ∧ index sl' = index sl ∧ is_extant sl' = is_extant sl
    ∧ (∀ h a, cell sl' h a = (λ _, 0) <$> cell sl h a)
    ∧ _infected_hosts sl' = ∅ ∧ _infected_areas sl' = ∅
    ∧ ∀ a, ¬ registered w' self a.
Proof. apply clear_distribution_spec. Qed.

Lemma X25_clear_distribution_empties_witness :
  let w := SymbiontExamples.after_calls in
  let self := SymbiontExamples.lineage in
  ∃ w' sl', clear_distribution self w = (Ok tt, w')
    ∧ symbiont_lineages w' !! self = Some sl'
    ∧ _infected_hosts sl' = ∅ ∧ _infected_areas sl' = ∅
    ∧ ∀ a, ¬ registered w' self a.
Proof.
  intros w self.
  destruct after_calls_consistent as (_ & (sl & Hs & Hok) & _).
  destruct (X25_clear_distribution_empties w self sl Hs Hok)
    as (w' & sl' & Hrun & _ & Hs' & _ & _ & _ & _ & Hih & Hia & Hreg).
  exists w', sl'. split_and!; done.
Defined.
